(** * The tab component controller of mast, embedded in Rocq

    Two variants of the controller live in the repository:
    - [Classic]   : src/tabs.js              (class selectors, no teardown)
    - [Optimized] : src/unnamed/part_000     (data-attribute selectors, cached
                    arrays, a listener registry and a [cleanup] function)

    Both are closures over a handful of [let] variables and the DOM below the
    component root.  The closure variables become a record [Vars]; the part of
    the DOM, of the browser (timers, listeners, observer) and of the
    environment (clock, location, layout) that the code reads or writes
    becomes a record [World].  A controller function is a function
    [State -> State].  Callbacks handed to the browser ([setTimeout],
    [addEventListener], [IntersectionObserver]) are represented by tags that
    the event loop [step] interprets. *)

From stdpp Require Import base numbers list strings.
Local Open Scope Z_scope.

(** ** DOM *)

(** A DOM attribute written with a boolean is stored as its string. *)
Definition attr_of_bool (b : bool) : string :=
  if b then "true"%string else "false"%string.

(** The element matched by [[data-tabs-link-button]] inside a tab link. *)
Record Overlay := mkOverlay {
  tabindex : option string }.

Record TabLink := mkTabLink {
  link_id : string;                (* link.id, the empty string when absent *)
  link_name : option string;       (* getAttribute('data-tab-link-name') *)
  link_text : string;              (* textContent *)
  aria_selected : option string;
  cc_active : bool;                (* classList.contains('cc-active') *)
  overlay : option Overlay;
  has_progress : bool;             (* a progress-bar element below the link *)
  offsetLeft : Z;
  offsetWidth : Z }.

Record TabPane := mkTabPane {
  aria_hidden : option string }.

Record DropdownToggle := mkDropdownToggle {
  toggle_cc_open : bool;
  aria_expanded : option string;
  aria_haspopup : option string;
  dropdownText : option string }.  (* textContent of the text element, if any *)

Record Dom := mkDom {
  tabLinks : list TabLink;
  tabPanes : list TabPane;
  menu_cc_open : bool;                     (* dropdownMenu has class cc-open *)
  dropdownToggle : option DropdownToggle;
  toggleButton : option (option string);   (* aria-label of the play/pause button *)
  autoplay_paused_class : bool }.          (* component has class autoplay-paused *)

(** ** Browser: timers, listeners, observer *)

Inductive TimerKind := AutoplayTick | ResizeSettle.

Record Timer := mkTimer {
  tid : positive;
  kind : TimerKind;
  delay : Z;          (* the delay handed to setTimeout, in milliseconds *)
  armedAt : Z }.      (* clock value when setTimeout was called *)

Inductive Target :=
| TDropdownToggle | TDocument | TComponent | TToggleButton | TWindow
| TOverlay (i : nat).

Inductive EvType := Click | Keydown | MouseEnter | MouseLeave | Resize | HashChange.

(** The closures handed to [addEventListener]. *)
Inductive Handler :=
| HDropdownToggle | HOutsideClick | HEscape
| HMouseEnter | HMouseLeave | HAutoplayToggle
| HKeydownNav (i : nat) | HClickTab (i : nat)
| HResize | HHashChange.

Record Listener := mkListener {
  l_target : Target;
  l_type : EvType;
  l_handler : Handler }.

Record Browser := mkBrowser {
  timers : list Timer;
  nextTimerId : positive;
  listeners : list Listener;
  observing : bool }.       (* an IntersectionObserver watches the component *)

(** ** Environment readings *)

Record Env := mkEnv {
  now : Z;                  (* Date.now() *)
  location_hash : string;   (* window.location.hash *)
  innerWidth : Z;           (* window.innerWidth *)
  scrollLeft : Z;           (* tabMenuWrapper.scrollLeft *)
  clientWidth : Z }.        (* tabMenuWrapper.clientWidth *)

(** Calls whose result is not part of the modelled state are logged. *)
Inductive Effect :=
| ScrollTo (left : Z)
| ScrollIntoView (i : nat)
| Focus (t : Target)
| PreventDefault
| StopPropagation
| AnimationReplay (i : Z)      (* animation := none; reflow; animation := '' *)
| AnimationReplayRAF (i : Z)   (* animation := none; '' two frames later *)
| SetDurationProperty.         (* style.setProperty('--autoplay-duration', ...) *)

Record World := mkWorld {
  dom : Dom;
  browser : Browser;
  env : Env;
  effects : list Effect }.

(** Configuration read once from the attributes of the menu element. *)
Record Config := mkConfig {
  isMobileDropdown : bool;
  autoplayEnabled : bool;
  autoplayDurationMs : Z;     (* the product autoplayDuration * 1000 *)
  autoplayHoverPause : bool }.

#[global] Instance TimerKind_eq_dec : EqDecision TimerKind.
Proof. solve_decision. Defined.
#[global] Instance Target_eq_dec : EqDecision Target.
Proof. solve_decision. Defined.
#[global] Instance EvType_eq_dec : EqDecision EvType.
Proof. solve_decision. Defined.
#[global] Instance Handler_eq_dec : EqDecision Handler.
Proof. solve_decision. Defined.
#[global] Instance Listener_eq_dec : EqDecision Listener.
Proof. solve_decision. Defined.

(** *** Field updates *)

Definition with_dom (f : Dom → Dom) (w : World) : World :=
  mkWorld (f (dom w)) (browser w) (env w) (effects w).
Definition with_browser (f : Browser → Browser) (w : World) : World :=
  mkWorld (dom w) (f (browser w)) (env w) (effects w).
Definition with_env (f : Env → Env) (w : World) : World :=
  mkWorld (dom w) (browser w) (f (env w)) (effects w).
Definition emit (e : Effect) (w : World) : World :=
  mkWorld (dom w) (browser w) (env w) (effects w ++ [e]).

Definition set_tabLinks (l : list TabLink) (d : Dom) : Dom :=
  mkDom l (tabPanes d) (menu_cc_open d) (dropdownToggle d) (toggleButton d)
        (autoplay_paused_class d).
Definition set_tabPanes (l : list TabPane) (d : Dom) : Dom :=
  mkDom (tabLinks d) l (menu_cc_open d) (dropdownToggle d) (toggleButton d)
        (autoplay_paused_class d).
Definition set_menu_cc_open (b : bool) (d : Dom) : Dom :=
  mkDom (tabLinks d) (tabPanes d) b (dropdownToggle d) (toggleButton d)
        (autoplay_paused_class d).
Definition set_dropdownToggle (t : option DropdownToggle) (d : Dom) : Dom :=
  mkDom (tabLinks d) (tabPanes d) (menu_cc_open d) t (toggleButton d)
        (autoplay_paused_class d).
Definition set_toggleButton (t : option (option string)) (d : Dom) : Dom :=
  mkDom (tabLinks d) (tabPanes d) (menu_cc_open d) (dropdownToggle d) t
        (autoplay_paused_class d).
Definition set_autoplay_paused_class (b : bool) (d : Dom) : Dom :=
  mkDom (tabLinks d) (tabPanes d) (menu_cc_open d) (dropdownToggle d)
        (toggleButton d) b.

Definition set_timers (l : list Timer) (b : Browser) : Browser :=
  mkBrowser l (nextTimerId b) (listeners b) (observing b).
Definition set_listeners (l : list Listener) (b : Browser) : Browser :=
  mkBrowser (timers b) (nextTimerId b) l (observing b).
Definition set_observing (o : bool) (b : Browser) : Browser :=
  mkBrowser (timers b) (nextTimerId b) (listeners b) o.

Definition set_now (t : Z) (e : Env) : Env :=
  mkEnv t (location_hash e) (innerWidth e) (scrollLeft e) (clientWidth e).
Definition set_location_hash (h : string) (e : Env) : Env :=
  mkEnv (now e) h (innerWidth e) (scrollLeft e) (clientWidth e).
Definition set_innerWidth (x : Z) (e : Env) : Env :=
  mkEnv (now e) (location_hash e) x (scrollLeft e) (clientWidth e).
Definition set_scrollLeft (x : Z) (e : Env) : Env :=
  mkEnv (now e) (location_hash e) (innerWidth e) x (clientWidth e).

(** *** Element writes *)

Definition link_set_selected (b : bool) (l : TabLink) : TabLink :=
  mkTabLink (link_id l) (link_name l) (link_text l) (Some (attr_of_bool b))
            (cc_active l) (overlay l) (has_progress l) (offsetLeft l) (offsetWidth l).
Definition link_set_active_class (b : bool) (l : TabLink) : TabLink :=
  mkTabLink (link_id l) (link_name l) (link_text l) (aria_selected l)
            b (overlay l) (has_progress l) (offsetLeft l) (offsetWidth l).
Definition link_set_overlay (o : option Overlay) (l : TabLink) : TabLink :=
  mkTabLink (link_id l) (link_name l) (link_text l) (aria_selected l)
            (cc_active l) o (has_progress l) (offsetLeft l) (offsetWidth l).
Definition pane_set_hidden (b : bool) (p : TabPane) : TabPane :=
  mkTabPane (Some (attr_of_bool b)).

(** *** Timer and listener primitives *)

(** [setTimeout]: a fresh id, one more entry in the timer table. *)
Definition setTimeout (k : TimerKind) (ms : Z) (w : World) : positive * World :=
  let b := browser w in
  let id := nextTimerId b in
  (id, with_browser (λ _, mkBrowser (timers b ++ [mkTimer id k ms (now (env w))])
                                    (Pos.succ id) (listeners b) (observing b)) w).

(** [clearTimeout]: the entry with that id, if any, is dropped. *)
Definition clearTimeout (id : positive) (w : World) : World :=
  with_browser (λ b, set_timers (filter (λ t, tid t ≠ id) (timers b)) b) w.

Definition addEventListener (l : Listener) (w : World) : World :=
  with_browser (λ b, set_listeners (listeners b ++ [l]) b) w.

(** [removeEventListener]: drops the registration of that handler for that
    type on that target. *)
Definition removeEventListener (l : Listener) (w : World) : World :=
  with_browser (λ b, set_listeners (filter (λ l', l' ≠ l) (listeners b)) b) w.

(** [Array.prototype.findIndex]: the first position satisfying [P], or -1. *)
Definition findIndex {A} (P : A → Prop) `{∀ x, Decision (P x)} (l : list A) : Z :=
  match list_find P l with
  | Some (i, _) => Z.of_nat i
  | None => -1
  end.

(** [a || b] on an attribute value that may be null or empty. *)
Definition or_else (a : option string) (b : string) : string :=
  match a with
  | Some s => if decide (s = ""%string) then b else s
  | None => b
  end.

(** [String.prototype.substring(1)]. *)
Definition substring1 (s : string) : string :=
  match s with
  | EmptyString => EmptyString
  | String _ r => r
  end.

(** A timer may fire once its delay (at least 0) has passed. *)
Definition due (t : Timer) (clock : Z) : Prop :=
  armedAt t + Z.max 0 (delay t) ≤ clock.
#[global] Instance due_dec t clock : Decision (due t clock).
Proof. unfold due. apply _. Defined.

(** ** Events delivered by the browser *)

Record EventData := mkEventData {
  ev_key : string;        (* e.key *)
  ev_inside : bool }.     (* component.contains(e.target) *)

Inductive Event :=
| EClickTab (i : nat)                    (* click on the overlay of tab i *)
| EKeydownTab (i : nat) (key : string)   (* keydown while that overlay has focus *)
| EClickDropdownToggle
| EClickAutoplayToggle
| EClickElsewhere (inside : bool)
| EKeydownElsewhere (key : string)
| EMouseEnter
| EMouseLeave
| EResize (width : Z)
| EHashChange (hash : string)
| EScroll (left : Z)
| EIntersect (entries : list bool)       (* isIntersecting of each entry *)
| ETimer (k : TimerKind)                 (* the oldest due timer of that kind fires *)
| EWait (ms : Z).                        (* time passes *)

(** Propagation path, type and data of a DOM event. *)
Definition dom_event (e : Event) : option (list Target * EvType * EventData) :=
  match e with
  | EClickTab i =>
      Some ([TOverlay i; TComponent; TDocument; TWindow], Click, mkEventData "" true)
  | EKeydownTab i key =>
      Some ([TOverlay i; TComponent; TDocument; TWindow], Keydown, mkEventData key true)
  | EClickDropdownToggle =>
      Some ([TDropdownToggle; TComponent; TDocument; TWindow], Click, mkEventData "" true)
  | EClickAutoplayToggle =>
      Some ([TToggleButton; TComponent; TDocument; TWindow], Click, mkEventData "" true)
  | EClickElsewhere inside =>
      Some ((if inside then [TComponent] else []) ++ [TDocument; TWindow], Click,
            mkEventData "" inside)
  | EKeydownElsewhere key =>
      Some ([TDocument; TWindow], Keydown, mkEventData key false)
  | EMouseEnter => Some ([TComponent], MouseEnter, mkEventData "" true)
  | EMouseLeave => Some ([TComponent], MouseLeave, mkEventData "" true)
  | EResize _ => Some ([TWindow], Resize, mkEventData "" false)
  | EHashChange _ => Some ([TWindow], HashChange, mkEventData "" false)
  | _ => None
  end.

(** What the environment itself changes when the event happens. *)
Definition env_event (e : Event) (w : World) : World :=
  match e with
  | EResize x => with_env (set_innerWidth x) w
  | EHashChange h => with_env (set_location_hash h) w
  | EScroll x => with_env (set_scrollLeft x) w
  | EWait ms => with_env (λ v, set_now (now v + Z.max 0 ms) v) w
  | _ => w
  end.

(** Only the dropdown toggle's click handler calls [e.stopPropagation()]. *)
Definition stops_propagation (h : Handler) : bool :=
  match h with HDropdownToggle => true | _ => false end.

Definition listens (t : Target) (ty : EvType) (l : Listener) : bool :=
  bool_decide (l_target l = t) && bool_decide (l_type l = ty).

(** The oldest due timer of a kind. *)
Definition next_timer (k : TimerKind) (w : World) : option Timer :=
  snd <$> list_find (λ t, kind t = k ∧ due t (now (env w))) (timers (browser w)).

(** A fired timer leaves the table before its callback runs. *)
Definition retire (t : Timer) (w : World) : World := clearTimeout (tid t) w.

(** ** The browser's event loop

    The loop is the same whatever the controller: it is written once, over
    the controller's state type and its three kinds of callbacks. *)
Module EventLoop.
Section Loop.
Context {S : Type}.
Variable world_of : S → World.
Variable upd_world : (World → World) → S → S.
Variable run_handler : Handler → EventData → S → S.
Variable observerCallback : list bool → S → S.
Variable run_timer : TimerKind → S → S.

(** The handlers registered on one target, in registration order. *)
Definition run_target (ls : list Listener) (t : Target) (ty : EvType)
         (d : EventData) (s : S) : S * bool :=
foldl (λ acc l, (run_handler (l_handler l) d acc.1,
                 acc.2 || stops_propagation (l_handler l)))
      (s, false) (filter (λ l, listens t ty l = true) ls).

Fixpoint run_path (ls : list Listener) (path : list Target) (ty : EvType)
       (d : EventData) (s : S) : S :=
match path with
| [] => s
| t :: rest =>
    let r := run_target ls t ty d s in
    if r.2 then r.1 else run_path ls rest ty d r.1
end.

Definition step (e : Event) (s : S) : S :=
let s := upd_world (env_event e) s in
match e with
| EIntersect entries =>
    if observing (browser (world_of s)) then observerCallback entries s else s
| ETimer k =>
    match next_timer k (world_of s) with
    | Some t => run_timer k (upd_world (retire t) s)
    | None => s
    end
| _ =>
    match dom_event e with
    | Some (path, ty, d) =>
        run_path (listeners (browser (world_of s))) path ty d s
    | None => s
    end
end.

Definition run (evs : list Event) (s : S) : S :=
foldl (λ s e, step e s) s evs.
End Loop.
End EventLoop.

(** A browser in which the component has not been mounted yet. *)
Definition pristine (w : World) : Prop :=
  timers (browser w) = [] ∧ listeners (browser w) = [] ∧ observing (browser w) = false.

(** The autoplay timers that are scheduled. *)
Definition autoTimers (b : Browser) : list Timer :=
  filter (λ t, kind t = AutoplayTick) (timers b).

(** What a timer does, whatever its id. *)
Definition shape (t : Timer) : Z * Z := (delay t, armedAt t).

(** ** The three pause sources

    Each source is a flag of its own, set when the callback of that source
    asks for a pause and cleared when it asks for a resume. *)
Record Sources := mkSources {
  outOfViewport : bool;      (* the observer last reported "not intersecting" *)
  hoverPaused : bool;        (* the pointer entered and has not left *)
  toggledOff : bool }.       (* the toggle button last paused *)

Definition any_source (src : Sources) : bool :=
  outOfViewport src || hoverPaused src || toggledOff src.

Definition no_source : Sources := mkSources false false false.

Definition note_entry (isIntersecting : bool) (src : Sources) : Sources :=
  mkSources (negb isIntersecting) (hoverPaused src) (toggledOff src).

(** [paused] is the flag read by the toggle's listener when it runs. *)
Definition note_handler (h : Handler) (paused : bool) (src : Sources) : Sources :=
  match h with
  | HMouseEnter => mkSources (outOfViewport src) true (toggledOff src)
  | HMouseLeave => mkSources (outOfViewport src) false (toggledOff src)
  | HAutoplayToggle => mkSources (outOfViewport src) (hoverPaused src) (negb paused)
  | _ => src
  end.

(** * The classic variant: src/tabs.js *)

Module Classic.

Record Vars := mkVars {
  currentActiveIndex : Z;
  autoplayTimer : option positive;     (* null or a timer id *)
  isAutoplayPaused : bool;
  autoplayStartTime : option Z;        (* null or a clock value *)
  autoplayElapsedTime : Z }.

Record State := mkState {
  vars : Vars;
  world : World }.

Definition with_vars (f : Vars → Vars) (s : State) : State :=
  mkState (f (vars s)) (world s).
Definition with_world (f : World → World) (s : State) : State :=
  mkState (vars s) (f (world s)).

Definition set_currentActiveIndex (i : Z) (v : Vars) : Vars :=
  mkVars i (autoplayTimer v) (isAutoplayPaused v) (autoplayStartTime v)
         (autoplayElapsedTime v).
Definition set_autoplayTimer (t : option positive) (v : Vars) : Vars :=
  mkVars (currentActiveIndex v) t (isAutoplayPaused v) (autoplayStartTime v)
         (autoplayElapsedTime v).
Definition set_isAutoplayPaused (b : bool) (v : Vars) : Vars :=
  mkVars (currentActiveIndex v) (autoplayTimer v) b (autoplayStartTime v)
         (autoplayElapsedTime v).
Definition set_autoplayStartTime (t : option Z) (v : Vars) : Vars :=
  mkVars (currentActiveIndex v) (autoplayTimer v) (isAutoplayPaused v) t
         (autoplayElapsedTime v).
Definition set_autoplayElapsedTime (e : Z) (v : Vars) : Vars :=
  mkVars (currentActiveIndex v) (autoplayTimer v) (isAutoplayPaused v)
         (autoplayStartTime v) e.

Section Controller.
Variable cfg : Config.

Definition links (s : State) : list TabLink := tabLinks (dom (world s)).
Definition panes (s : State) : list TabPane := tabPanes (dom (world s)).

Definition openDropdown (s : State) : State :=
  match dropdownToggle (dom (world s)) with
  | None => s
  | Some t =>
      with_world (with_dom (λ d,
        set_dropdownToggle
          (Some (mkDropdownToggle true (Some "true"%string) (aria_haspopup t)
                                  (dropdownText t)))
          (set_menu_cc_open true d))) s
  end.

Definition closeDropdown (s : State) : State :=
  match dropdownToggle (dom (world s)) with
  | None => s
  | Some t =>
      with_world (with_dom (λ d,
        set_dropdownToggle
          (Some (mkDropdownToggle false (Some "false"%string) (aria_haspopup t)
                                  (dropdownText t)))
          (set_menu_cc_open false d))) s
  end.

Definition toggleDropdown (s : State) : State :=
  if menu_cc_open (dom (world s)) then closeDropdown s else openDropdown s.

Definition stopAutoplay (s : State) : State :=
  let s :=
    match autoplayTimer (vars s) with
    | Some id => with_vars (set_autoplayTimer None) (with_world (clearTimeout id) s)
    | None => s
    end in
  with_vars (set_autoplayStartTime None) s.

Definition startAutoplay (s : State) : State :=
  if negb (autoplayEnabled cfg) || isAutoplayPaused (vars s) then s else
  let s := stopAutoplay s in
  let remainingTime := autoplayDurationMs cfg - autoplayElapsedTime (vars s) in
  let s := with_vars (set_autoplayStartTime (Some (now (env (world s))))) s in
  let r := setTimeout AutoplayTick remainingTime (world s) in
  mkState (set_autoplayTimer (Some r.1) (vars s)) r.2.

(** [tabLinks[currentActiveIndex]] is defined wherever this is called: the
    only caller is [setActiveTab], after its range check. *)
Definition restartAutoplay (s : State) : State :=
  if negb (autoplayEnabled cfg) then s else
  let s := with_vars (set_autoplayElapsedTime 0) s in
  let s :=
    match links s !! Z.to_nat (currentActiveIndex (vars s)) with
    | Some activeLink =>
        if has_progress activeLink
        then with_world (emit (AnimationReplay (currentActiveIndex (vars s)))) s
        else s
    | None => s
    end in
  startAutoplay s.

Definition setActiveTab (index : Z) (s : State) : State :=
  if bool_decide (index < 0) || bool_decide (index >= Z.of_nat (length (links s)))
  then s else
  (* tab links and overlays *)
  let s := with_world (with_dom (λ d, set_tabLinks
             (imap (λ i link,
                let isActive := bool_decide (Z.of_nat i = index) in
                let link := link_set_selected isActive link in
                let link := link_set_active_class isActive link in
                match overlay link with
                | Some _ =>
                    link_set_overlay
                      (Some (mkOverlay (Some (if isActive then "0" else "-1")%string)))
                      link
                | None => link
                end) (tabLinks d)) d)) s in
  (* tab panes *)
  let s := with_world (with_dom (λ d, set_tabPanes
             (imap (λ i pane,
                let isActive := bool_decide (Z.of_nat i = index) in
                pane_set_hidden (negb isActive) pane) (tabPanes d)) d)) s in
  let s := with_vars (set_currentActiveIndex index) s in
  (* dropdown toggle text *)
  let s :=
    match dropdownToggle (dom (world s)), links s !! Z.to_nat index with
    | Some t, Some link =>
        match dropdownText t with
        | Some _ =>
            if isMobileDropdown cfg then
              with_world (with_dom (set_dropdownToggle
                (Some (mkDropdownToggle (toggle_cc_open t) (aria_expanded t)
                         (aria_haspopup t)
                         (Some (or_else (link_name link) (link_text link))))))) s
            else s
        | None => s
        end
    | _, _ => s
    end in
  (* close the dropdown if open *)
  let s :=
    match dropdownToggle (dom (world s)) with
    | Some _ => if menu_cc_open (dom (world s)) then closeDropdown s else s
    | None => s
    end in
  (* scroll the active tab into view *)
  let s :=
    if isMobileDropdown cfg then s else
    match links s !! Z.to_nat index with
    | Some activeLink =>
        let containerLeft := scrollLeft (env (world s)) in
        let containerWidth := clientWidth (env (world s)) in
        let tabLeft := offsetLeft activeLink in
        let tabWidth := offsetWidth activeLink in
        if bool_decide (tabLeft < containerLeft)
           || bool_decide (tabLeft + tabWidth > containerLeft + containerWidth)
        then with_world (emit (ScrollTo tabLeft)) s
        else s
    | None => s
    end in
  (* autoplay *)
  if autoplayEnabled cfg then
    if isAutoplayPaused (vars s)
    then with_vars (set_autoplayElapsedTime 0) s
    else restartAutoplay s
  else s.

Definition updateToggleButton (s : State) : State :=
  match toggleButton (dom (world s)) with
  | None => s
  | Some _ =>
      with_world (with_dom (set_toggleButton
        (Some (Some (if isAutoplayPaused (vars s)
                     then "Play autoplay" else "Pause autoplay")%string)))) s
  end.

Definition pauseAutoplay (s : State) : State :=
  if negb (autoplayEnabled cfg) then s else
  let s :=
    match autoplayStartTime (vars s) with
    | Some t0 =>
        with_vars (set_autoplayElapsedTime
                     (autoplayElapsedTime (vars s) + (now (env (world s)) - t0))) s
    | None => s
    end in
  let s := with_vars (set_isAutoplayPaused true) s in
  let s := with_world (with_dom (set_autoplay_paused_class true)) s in
  let s := stopAutoplay s in
  updateToggleButton s.

Definition resumeAutoplay (s : State) : State :=
  if negb (autoplayEnabled cfg) then s else
  let s := with_vars (set_isAutoplayPaused false) s in
  let s := with_world (with_dom (set_autoplay_paused_class false)) s in
  let s := startAutoplay s in
  updateToggleButton s.

(** The callback of the IntersectionObserver. *)
Definition observerCallback (entries : list bool) (s : State) : State :=
  foldl (λ s isIntersecting,
           if isIntersecting : bool then resumeAutoplay s else pauseAutoplay s)
        s entries.

(** [window.location.hash] is truthy when it is not empty. *)
Definition hashMatchIndex (s : State) : option Z :=
  let h := location_hash (env (world s)) in
  if decide (h = ""%string) then None else
  let hash := substring1 h in
  let matchIndex := findIndex (λ link, link_id link = hash) (links s) in
  if decide (matchIndex = -1) then None else Some matchIndex.

Definition findInitialActiveIndex (s : State) : Z :=
  match hashMatchIndex s with
  | Some matchIndex => matchIndex
  | None =>
      let customActiveIndex := findIndex (λ link, cc_active link = true) (links s) in
      if decide (customActiveIndex = -1) then 0 else customActiveIndex
  end.

(** The keydown listener installed on every overlay. *)
Definition keydownHandler (key : string) (s : State) : State :=
  let cur := currentActiveIndex (vars s) in
  let n := Z.of_nat (length (links s)) in
  let go (newIndex : Z) :=
    let s := with_world (emit PreventDefault) s in
    let s := setActiveTab newIndex s in
    match links s !! Z.to_nat newIndex with
    | Some link =>
        match overlay link with
        | Some _ => with_world (emit (Focus (TOverlay (Z.to_nat newIndex)))) s
        | None => s
        end
    | None => s
    end in
  if decide (key = "ArrowLeft"%string) then
    go (if bool_decide (cur > 0) then cur - 1 else n - 1)
  else if decide (key = "ArrowRight"%string) then
    go (if bool_decide (cur < n - 1) then cur + 1 else 0)
  else if decide (key = "Home"%string) then go 0
  else if decide (key = "End"%string) then go (n - 1)
  else s.

Definition clickHandler (index : nat) (s : State) : State :=
  let s := with_world (emit PreventDefault) s in
  let s := setActiveTab (Z.of_nat index) s in
  if bool_decide (innerWidth (env (world s)) < 768) && negb (isMobileDropdown cfg)
  then with_world (emit (ScrollIntoView index)) s
  else s.

Definition run_handler (h : Handler) (d : EventData) (s : State) : State :=
  match h with
  | HDropdownToggle => toggleDropdown (with_world (emit StopPropagation) s)
  | HOutsideClick => if ev_inside d then s else closeDropdown s
  | HEscape =>
      if bool_decide (ev_key d = "Escape"%string) && menu_cc_open (dom (world s))
      then with_world (emit (Focus TDropdownToggle)) (closeDropdown s)
      else s
  | HMouseEnter => pauseAutoplay s
  | HMouseLeave => resumeAutoplay s
  | HAutoplayToggle =>
      if isAutoplayPaused (vars s) then resumeAutoplay s else pauseAutoplay s
  | HKeydownNav _ => keydownHandler (ev_key d) s
  | HClickTab index => clickHandler index s
  | HHashChange =>
      match hashMatchIndex s with
      | Some matchIndex => setActiveTab matchIndex s
      | None => s
      end
  | HResize => s      (* this variant installs no resize listener *)
  end.

(** The callback of the autoplay timer. *)
Definition autoplayTick (s : State) : State :=
  let nextIndex :=
    Z.rem (currentActiveIndex (vars s) + 1) (Z.of_nat (length (links s))) in
  setActiveTab nextIndex s.

Definition run_timer (k : TimerKind) (s : State) : State :=
  match k with
  | AutoplayTick => autoplayTick s
  | ResizeSettle => s   (* this variant arms no such timer *)
  end.

(** *** Mounting *)

Definition register (l : Listener) (s : State) : State :=
  with_world (addEventListener l) s.

(** [a || b || c] over the two [querySelector] calls and [tabLinks[0]]. *)
Definition initialDropdownLink (s : State) : option TabLink :=
  match list_find (λ l, aria_selected l = Some "true"%string) (links s) with
  | Some (_, l) => Some l
  | None =>
      match list_find (λ l, cc_active l = true) (links s) with
      | Some (_, l) => Some l
      | None => links s !! 0%nat
      end
  end.

Definition setupMobileDropdown (s : State) : State :=
  if negb (isMobileDropdown cfg) then s else
  match dropdownToggle (dom (world s)) with
  | None => s
  | Some t =>
      let text :=
        match dropdownText t, initialDropdownLink s with
        | Some _, Some activeLink =>
            Some (or_else (link_name activeLink) (link_text activeLink))
        | txt, _ => txt
        end in
      let s := with_world (with_dom (set_dropdownToggle
                 (Some (mkDropdownToggle (toggle_cc_open t) (Some "false"%string)
                                         (Some "true"%string) text)))) s in
      let s := register (mkListener TDropdownToggle Click HDropdownToggle) s in
      let s := register (mkListener TDocument Click HOutsideClick) s in
      register (mkListener TDocument Keydown HEscape) s
  end.

Definition setupAutoplayProgressBars (s : State) : State :=
  if negb (autoplayEnabled cfg) then s
  else with_world (emit SetDurationProperty) s.

Definition setupAutoplayObserver (s : State) : State :=
  if negb (autoplayEnabled cfg) then s
  else with_world (with_browser (set_observing true)) s.

Definition setupAutoplayHoverPause (s : State) : State :=
  if negb (autoplayEnabled cfg) || negb (autoplayHoverPause cfg) then s else
  let s := register (mkListener TComponent MouseEnter HMouseEnter) s in
  register (mkListener TComponent MouseLeave HMouseLeave) s.

Definition setupAutoplayToggle (s : State) : State :=
  if negb (autoplayEnabled cfg) then s else
  match toggleButton (dom (world s)) with
  | None => s
  | Some _ => register (mkListener TToggleButton Click HAutoplayToggle) s
  end.

(** [tabLinks.forEach]: one listener per link that has an overlay. *)
Definition setupPerLink (ty : EvType) (h : nat → Handler) (s : State) : State :=
  foldl (λ s il,
           match overlay il.2 with
           | Some _ => register (mkListener (TOverlay il.1) ty (h il.1)) s
           | None => s
           end)
        s (imap pair (links s)).

Definition setupClickHandlers : State → State := setupPerLink Click HClickTab.
Definition setupKeyboardNav : State → State := setupPerLink Keydown HKeydownNav.

Definition init (s : State) : State :=
  let s := setupMobileDropdown s in
  let s := setupAutoplayProgressBars s in
  let s := setupAutoplayObserver s in
  let s := setupAutoplayHoverPause s in
  let s := setupAutoplayToggle s in
  let initialIndex := findInitialActiveIndex s in
  let s := setActiveTab initialIndex s in
  let s := setupClickHandlers s in
  let s := setupKeyboardNav s in
  let s := if autoplayEnabled cfg then startAutoplay s else s in
  register (mkListener TWindow HashChange HHashChange) s.

Definition initialVars : Vars := mkVars 0 None false None 0.

(** [initTabsComponent]: nothing is mounted without a link and a pane. *)
Definition initTabsComponent (w : World) : option State :=
  if bool_decide (tabLinks (dom w) = []) || bool_decide (tabPanes (dom w) = [])
  then None
  else Some (init (mkState initialVars w)).

(** *** The event loop *)

Definition step : Event → State → State :=
  EventLoop.step world with_world run_handler observerCallback run_timer.

Definition run : list Event → State → State :=
  EventLoop.run world with_world run_handler observerCallback run_timer.

(** The same loop, with the pause sources recorded next to the state. *)
Definition run_handler_src (h : Handler) (d : EventData)
           (p : State * Sources) : State * Sources :=
  (run_handler h d p.1, note_handler h (isAutoplayPaused (vars p.1)) p.2).

Definition observerCallback_src (entries : list bool)
           (p : State * Sources) : State * Sources :=
  foldl (λ p isIntersecting,
           (observerCallback [isIntersecting] p.1, note_entry isIntersecting p.2))
        p entries.

Definition run_src : list Event → State * Sources → State * Sources :=
  EventLoop.run (λ p, world p.1) (λ f p, (with_world f p.1, p.2))
                run_handler_src observerCallback_src
                (λ k p, (run_timer k p.1, p.2)).

Inductive reachable : State → Prop :=
| reach_mount w s :
    pristine w → initTabsComponent w = Some s → reachable s
| reach_step e s :
    reachable s → reachable (step e s).
End Controller.
End Classic.

(** * The optimized variant: src/unnamed/part_000 *)

Module Optimized.

Record Vars := mkVars {
  currentActiveIndex : Z;
  autoplayTimer : option positive;
  isAutoplayPaused : bool;
  autoplayStartTime : option Z;
  autoplayElapsedTime : Z;
  cachedWindowWidth : Z;
  resizeTimer : option positive;
  eventListeners : list Listener }.   (* { element, type, handler } records *)

Record State := mkState {
  vars : Vars;
  world : World }.

Definition with_vars (f : Vars → Vars) (s : State) : State :=
  mkState (f (vars s)) (world s).
Definition with_world (f : World → World) (s : State) : State :=
  mkState (vars s) (f (world s)).

Definition set_currentActiveIndex (i : Z) (v : Vars) : Vars :=
  mkVars i (autoplayTimer v) (isAutoplayPaused v) (autoplayStartTime v)
         (autoplayElapsedTime v) (cachedWindowWidth v) (resizeTimer v)
         (eventListeners v).
Definition set_autoplayTimer (t : option positive) (v : Vars) : Vars :=
  mkVars (currentActiveIndex v) t (isAutoplayPaused v) (autoplayStartTime v)
         (autoplayElapsedTime v) (cachedWindowWidth v) (resizeTimer v)
         (eventListeners v).
Definition set_isAutoplayPaused (b : bool) (v : Vars) : Vars :=
  mkVars (currentActiveIndex v) (autoplayTimer v) b (autoplayStartTime v)
         (autoplayElapsedTime v) (cachedWindowWidth v) (resizeTimer v)
         (eventListeners v).
Definition set_autoplayStartTime (t : option Z) (v : Vars) : Vars :=
  mkVars (currentActiveIndex v) (autoplayTimer v) (isAutoplayPaused v) t
         (autoplayElapsedTime v) (cachedWindowWidth v) (resizeTimer v)
         (eventListeners v).
Definition set_autoplayElapsedTime (e : Z) (v : Vars) : Vars :=
  mkVars (currentActiveIndex v) (autoplayTimer v) (isAutoplayPaused v)
         (autoplayStartTime v) e (cachedWindowWidth v) (resizeTimer v)
         (eventListeners v).
Definition set_cachedWindowWidth (x : Z) (v : Vars) : Vars :=
  mkVars (currentActiveIndex v) (autoplayTimer v) (isAutoplayPaused v)
         (autoplayStartTime v) (autoplayElapsedTime v) x (resizeTimer v)
         (eventListeners v).
Definition set_resizeTimer (t : option positive) (v : Vars) : Vars :=
  mkVars (currentActiveIndex v) (autoplayTimer v) (isAutoplayPaused v)
         (autoplayStartTime v) (autoplayElapsedTime v) (cachedWindowWidth v) t
         (eventListeners v).
Definition set_eventListeners (l : list Listener) (v : Vars) : Vars :=
  mkVars (currentActiveIndex v) (autoplayTimer v) (isAutoplayPaused v)
         (autoplayStartTime v) (autoplayElapsedTime v) (cachedWindowWidth v)
         (resizeTimer v) l.

Section Controller.
Variable cfg : Config.

(** [tabLinksArray] and [tabPanesArray]: the arrays made once from the
    node lists hold the elements themselves, so reading them reads the DOM. *)
Definition tabLinksArray (s : State) : list TabLink := tabLinks (dom (world s)).
Definition tabPanesArray (s : State) : list TabPane := tabPanes (dom (world s)).

Definition openDropdown (s : State) : State :=
  match dropdownToggle (dom (world s)) with
  | None => s
  | Some t =>
      with_world (with_dom (λ d,
        set_dropdownToggle
          (Some (mkDropdownToggle true (Some "true"%string) (aria_haspopup t)
                                  (dropdownText t)))
          (set_menu_cc_open true d))) s
  end.

Definition closeDropdown (s : State) : State :=
  match dropdownToggle (dom (world s)) with
  | None => s
  | Some t =>
      with_world (with_dom (λ d,
        set_dropdownToggle
          (Some (mkDropdownToggle false (Some "false"%string) (aria_haspopup t)
                                  (dropdownText t)))
          (set_menu_cc_open false d))) s
  end.

Definition toggleDropdown (s : State) : State :=
  if menu_cc_open (dom (world s)) then closeDropdown s else openDropdown s.

Definition stopAutoplay (s : State) : State :=
  let s :=
    match autoplayTimer (vars s) with
    | Some id => with_vars (set_autoplayTimer None) (with_world (clearTimeout id) s)
    | None => s
    end in
  with_vars (set_autoplayStartTime None) s.

Definition startAutoplay (s : State) : State :=
  if negb (autoplayEnabled cfg) || isAutoplayPaused (vars s) then s else
  let s := stopAutoplay s in
  let remainingTime := autoplayDurationMs cfg - autoplayElapsedTime (vars s) in
  let s := with_vars (set_autoplayStartTime (Some (now (env (world s))))) s in
  let r := setTimeout AutoplayTick remainingTime (world s) in
  mkState (set_autoplayTimer (Some r.1) (vars s)) r.2.

(** As in the classic variant, the active link exists at every call. *)
Definition restartAutoplay (s : State) : State :=
  if negb (autoplayEnabled cfg) then s else
  let s := with_vars (set_autoplayElapsedTime 0) s in
  let s :=
    match tabLinksArray s !! Z.to_nat (currentActiveIndex (vars s)) with
    | Some activeLink =>
        if has_progress activeLink
        then with_world (emit (AnimationReplayRAF (currentActiveIndex (vars s)))) s
        else s
    | None => s
    end in
  startAutoplay s.

Definition setActiveTab (index : Z) (s : State) : State :=
  if bool_decide (index < 0)
     || bool_decide (index >= Z.of_nat (length (tabLinksArray s)))
  then s else
  (* phase 1: read *)
  let overlays := map overlay (tabLinksArray s) in
  let isActiveStates :=
    imap (λ i _, bool_decide (Z.of_nat i = index)) (tabLinksArray s) in
  (* phase 2: write *)
  let s := with_world (with_dom (λ d, set_tabLinks
             (imap (λ i link,
                let isActive := default false (isActiveStates !! i) in
                let link := link_set_selected isActive link in
                let link := link_set_active_class isActive link in
                match default None (overlays !! i) with
                | Some _ =>
                    link_set_overlay
                      (Some (mkOverlay (Some (if isActive then "0" else "-1")%string)))
                      link
                | None => link
                end) (tabLinks d)) d)) s in
  (* tab panes *)
  let s := with_world (with_dom (λ d, set_tabPanes
             (imap (λ i pane,
                pane_set_hidden (bool_decide (Z.of_nat i ≠ index)) pane)
                   (tabPanes d)) d)) s in
  let s := with_vars (set_currentActiveIndex index) s in
  (* dropdown toggle text *)
  let s :=
    match dropdownToggle (dom (world s)), tabLinksArray s !! Z.to_nat index with
    | Some t, Some link =>
        match dropdownText t with
        | Some _ =>
            if isMobileDropdown cfg then
              with_world (with_dom (set_dropdownToggle
                (Some (mkDropdownToggle (toggle_cc_open t) (aria_expanded t)
                         (aria_haspopup t)
                         (Some (or_else (link_name link) (link_text link))))))) s
            else s
        | None => s
        end
    | _, _ => s
    end in
  (* close the dropdown if open *)
  let s :=
    match dropdownToggle (dom (world s)) with
    | Some _ => if menu_cc_open (dom (world s)) then closeDropdown s else s
    | None => s
    end in
  (* scroll the active tab into view *)
  let s :=
    if isMobileDropdown cfg then s else
    match tabLinksArray s !! Z.to_nat index with
    | Some activeLink =>
        let containerLeft := scrollLeft (env (world s)) in
        let containerWidth := clientWidth (env (world s)) in
        let tabLeft := offsetLeft activeLink in
        let tabWidth := offsetWidth activeLink in
        if bool_decide (tabLeft < containerLeft)
           || bool_decide (tabLeft + tabWidth > containerLeft + containerWidth)
        then with_world (emit (ScrollTo tabLeft)) s
        else s
    | None => s
    end in
  (* autoplay *)
  if autoplayEnabled cfg then
    if isAutoplayPaused (vars s)
    then with_vars (set_autoplayElapsedTime 0) s
    else restartAutoplay s
  else s.

Definition updateToggleButton (s : State) : State :=
  match toggleButton (dom (world s)) with
  | None => s
  | Some _ =>
      with_world (with_dom (set_toggleButton
        (Some (Some (if isAutoplayPaused (vars s)
                     then "Play autoplay" else "Pause autoplay")%string)))) s
  end.

Definition pauseAutoplay (s : State) : State :=
  if negb (autoplayEnabled cfg) then s else
  let s :=
    match autoplayStartTime (vars s) with
    | Some t0 =>
        with_vars (set_autoplayElapsedTime
                     (autoplayElapsedTime (vars s) + (now (env (world s)) - t0))) s
    | None => s
    end in
  let s := with_vars (set_isAutoplayPaused true) s in
  let s := with_world (with_dom (set_autoplay_paused_class true)) s in
  let s := stopAutoplay s in
  updateToggleButton s.

Definition resumeAutoplay (s : State) : State :=
  if negb (autoplayEnabled cfg) then s else
  let s := with_vars (set_isAutoplayPaused false) s in
  let s := with_world (with_dom (set_autoplay_paused_class false)) s in
  let s := startAutoplay s in
  updateToggleButton s.

Definition observerCallback (entries : list bool) (s : State) : State :=
  foldl (λ s isIntersecting,
           if isIntersecting : bool then resumeAutoplay s else pauseAutoplay s)
        s entries.

Definition hashMatchIndex (s : State) : option Z :=
  let h := location_hash (env (world s)) in
  if decide (h = ""%string) then None else
  let hash := substring1 h in
  let matchIndex := findIndex (λ link, link_id link = hash) (tabLinksArray s) in
  if decide (matchIndex = -1) then None else Some matchIndex.

Definition findInitialActiveIndex (s : State) : Z :=
  match hashMatchIndex s with
  | Some matchIndex => matchIndex
  | None =>
      let customActiveIndex :=
        findIndex (λ link, cc_active link = true) (tabLinksArray s) in
      if decide (customActiveIndex = -1) then 0 else customActiveIndex
  end.

(** [tabLinksLength] is read once at setup; the array never changes length. *)
Definition keydownHandler (key : string) (s : State) : State :=
  let cur := currentActiveIndex (vars s) in
  let tabLinksLength := Z.of_nat (length (tabLinksArray s)) in
  let go (newIndex : Z) :=
    let s := with_world (emit PreventDefault) s in
    let s := setActiveTab newIndex s in
    match tabLinksArray s !! Z.to_nat newIndex with
    | Some link =>
        match overlay link with
        | Some _ => with_world (emit (Focus (TOverlay (Z.to_nat newIndex)))) s
        | None => s
        end
    | None => s
    end in
  if decide (key = "ArrowLeft"%string) then
    go (if bool_decide (cur > 0) then cur - 1 else tabLinksLength - 1)
  else if decide (key = "ArrowRight"%string) then
    go (if bool_decide (cur < tabLinksLength - 1) then cur + 1 else 0)
  else if decide (key = "Home"%string) then go 0
  else if decide (key = "End"%string) then go (tabLinksLength - 1)
  else s.

Definition clickHandler (index : nat) (s : State) : State :=
  let s := with_world (emit PreventDefault) s in
  let s := setActiveTab (Z.of_nat index) s in
  if bool_decide (cachedWindowWidth (vars s) < 768) && negb (isMobileDropdown cfg)
  then with_world (emit (ScrollIntoView index)) s
  else s.

(** The debounced resize listener: the pending timer is dropped and a new
    one armed for 150 ms. *)
Definition resizeHandler (s : State) : State :=
  let s :=
    match resizeTimer (vars s) with
    | Some id => with_world (clearTimeout id) s
    | None => s
    end in
  let r := setTimeout ResizeSettle 150 (world s) in
  mkState (set_resizeTimer (Some r.1) (vars s)) r.2.

Definition run_handler (h : Handler) (d : EventData) (s : State) : State :=
  match h with
  | HDropdownToggle => toggleDropdown (with_world (emit StopPropagation) s)
  | HOutsideClick => if ev_inside d then s else closeDropdown s
  | HEscape =>
      if bool_decide (ev_key d = "Escape"%string) && menu_cc_open (dom (world s))
      then with_world (emit (Focus TDropdownToggle)) (closeDropdown s)
      else s
  | HMouseEnter => pauseAutoplay s
  | HMouseLeave => resumeAutoplay s
  | HAutoplayToggle =>
      if isAutoplayPaused (vars s) then resumeAutoplay s else pauseAutoplay s
  | HKeydownNav _ => keydownHandler (ev_key d) s
  | HClickTab index => clickHandler index s
  | HHashChange =>
      match hashMatchIndex s with
      | Some matchIndex => setActiveTab matchIndex s
      | None => s
      end
  | HResize => resizeHandler s
  end.

Definition autoplayTick (s : State) : State :=
  let nextIndex :=
    Z.rem (currentActiveIndex (vars s) + 1) (Z.of_nat (length (tabLinksArray s))) in
  setActiveTab nextIndex s.

Definition run_timer (k : TimerKind) (s : State) : State :=
  match k with
  | AutoplayTick => autoplayTick s
  | ResizeSettle =>
      with_vars (set_cachedWindowWidth (innerWidth (env (world s)))) s
  end.

(** *** Mounting *)

(** [addEventListener] followed by [eventListeners.push]. *)
Definition register (l : Listener) (s : State) : State :=
  with_vars (λ v, set_eventListeners (eventListeners v ++ [l]) v)
            (with_world (addEventListener l) s).

Definition initialDropdownLink (s : State) : option TabLink :=
  match list_find (λ l, aria_selected l = Some "true"%string) (tabLinksArray s) with
  | Some (_, l) => Some l
  | None =>
      match list_find (λ l, cc_active l = true) (tabLinksArray s) with
      | Some (_, l) => Some l
      | None => tabLinksArray s !! 0%nat
      end
  end.

Definition setupMobileDropdown (s : State) : State :=
  if negb (isMobileDropdown cfg) then s else
  match dropdownToggle (dom (world s)) with
  | None => s
  | Some t =>
      let text :=
        match dropdownText t, initialDropdownLink s with
        | Some _, Some activeLink =>
            Some (or_else (link_name activeLink) (link_text activeLink))
        | txt, _ => txt
        end in
      let s := with_world (with_dom (set_dropdownToggle
                 (Some (mkDropdownToggle (toggle_cc_open t) (Some "false"%string)
                                         (Some "true"%string) text)))) s in
      let s := register (mkListener TDropdownToggle Click HDropdownToggle) s in
      let s := register (mkListener TDocument Click HOutsideClick) s in
      register (mkListener TDocument Keydown HEscape) s
  end.

Definition setupAutoplayProgressBars (s : State) : State :=
  if negb (autoplayEnabled cfg) then s
  else with_world (emit SetDurationProperty) s.

Definition setupAutoplayObserver (s : State) : State :=
  if negb (autoplayEnabled cfg) then s
  else with_world (with_browser (set_observing true)) s.

Definition setupAutoplayHoverPause (s : State) : State :=
  if negb (autoplayEnabled cfg) || negb (autoplayHoverPause cfg) then s else
  let s := with_world (addEventListener (mkListener TComponent MouseEnter HMouseEnter)) s in
  let s := with_world (addEventListener (mkListener TComponent MouseLeave HMouseLeave)) s in
  with_vars (λ v, set_eventListeners
                    (eventListeners v ++ [mkListener TComponent MouseEnter HMouseEnter;
                                          mkListener TComponent MouseLeave HMouseLeave]) v) s.

Definition setupAutoplayToggle (s : State) : State :=
  if negb (autoplayEnabled cfg) then s else
  match toggleButton (dom (world s)) with
  | None => s
  | Some _ => register (mkListener TToggleButton Click HAutoplayToggle) s
  end.

Definition setupPerLink (ty : EvType) (h : nat → Handler) (s : State) : State :=
  foldl (λ s il,
           match overlay il.2 with
           | Some _ => register (mkListener (TOverlay il.1) ty (h il.1)) s
           | None => s
           end)
        s (imap pair (tabLinksArray s)).

Definition setupClickHandlers : State → State := setupPerLink Click HClickTab.
Definition setupKeyboardNav : State → State := setupPerLink Keydown HKeydownNav.

Definition setupResizeHandler (s : State) : State :=
  register (mkListener TWindow Resize HResize) s.

(** [component.__tabsCleanup]. *)
Definition cleanup (s : State) : State :=
  let s := foldl (λ s l, with_world (removeEventListener l) s)
                 s (eventListeners (vars s)) in
  let s := with_world (with_browser (set_observing false)) s in
  let s := stopAutoplay s in
  match resizeTimer (vars s) with
  | Some id => with_world (clearTimeout id) s
  | None => s
  end.

Definition init (s : State) : State :=
  let s := setupMobileDropdown s in
  let s := setupAutoplayProgressBars s in
  let s := setupAutoplayObserver s in
  let s := setupAutoplayHoverPause s in
  let s := setupAutoplayToggle s in
  let initialIndex := findInitialActiveIndex s in
  let s := setActiveTab initialIndex s in
  let s := setupClickHandlers s in
  let s := setupKeyboardNav s in
  let s := setupResizeHandler s in
  let s := if autoplayEnabled cfg then startAutoplay s else s in
  register (mkListener TWindow HashChange HHashChange) s.

Definition initialVars (w : World) : Vars :=
  mkVars 0 None false None 0 (innerWidth (env w)) None [].

Definition initTabsComponent (w : World) : option State :=
  if bool_decide (tabLinks (dom w) = []) || bool_decide (tabPanes (dom w) = [])
  then None
  else Some (init (mkState (initialVars w) w)).

(** *** The event loop *)

Definition step : Event → State → State :=
  EventLoop.step world with_world run_handler observerCallback run_timer.

Definition run : list Event → State → State :=
  EventLoop.run world with_world run_handler observerCallback run_timer.

(** The same loop, with the pause sources recorded next to the state. *)
Definition run_handler_src (h : Handler) (d : EventData)
           (p : State * Sources) : State * Sources :=
  (run_handler h d p.1, note_handler h (isAutoplayPaused (vars p.1)) p.2).

Definition observerCallback_src (entries : list bool)
           (p : State * Sources) : State * Sources :=
  foldl (λ p isIntersecting,
           (observerCallback [isIntersecting] p.1, note_entry isIntersecting p.2))
        p entries.

Definition run_src : list Event → State * Sources → State * Sources :=
  EventLoop.run (λ p, world p.1) (λ f p, (with_world f p.1, p.2))
                run_handler_src observerCallback_src
                (λ k p, (run_timer k p.1, p.2)).

Inductive reachable : State → Prop :=
| reach_mount w s :
    pristine w → initTabsComponent w = Some s → reachable s
| reach_step e s :
    reachable s → reachable (step e s).
End Controller.
End Optimized.

(** * Sample components, used to evaluate the controllers *)

Definition sample_link (id : string) (active : bool) : TabLink :=
  mkTabLink id None id None active (Some (mkOverlay None)) true 0 100.

Definition sample_dom (links : list TabLink) (panes : nat) : Dom :=
  mkDom links (replicate panes (mkTabPane None)) false
        (Some (mkDropdownToggle false None None (Some ""%string)))
        (Some None) false.

Definition sample_world (links : list TabLink) (panes : nat) (hash : string) : World :=
  mkWorld (sample_dom links panes) (mkBrowser [] 1%positive [] false)
          (mkEnv 0 hash 1024 0 1000) [].

Definition three_links : list TabLink :=
  [sample_link "intro" false; sample_link "pricing" true; sample_link "faq" false].

(** Autoplay every 5 s, pausing on hover. *)
Definition autoplay_cfg : Config := mkConfig false true 5000 true.
Definition plain_cfg : Config := mkConfig false false 5000 false.

Definition classic_mounted (cfg : Config) (w : World) : Classic.State :=
  Classic.init cfg (Classic.mkState Classic.initialVars w).
Definition optimized_mounted (cfg : Config) (w : World) : Optimized.State :=
  Optimized.init cfg (Optimized.mkState (Optimized.initialVars w) w).

(** * The stages of [setActiveTab]

    [setActiveTab] is a sequence of blocks, each working on the state left by
    the previous one.  The blocks are named here so that each can be reasoned
    about on its own; [setActiveTab_stages] states that their composition is
    the function. *)

Module ClassicStages.
Import Classic.
Section Stages.
Variable cfg : Config.

Definition outOfRange (index : Z) (s : State) : bool :=
  bool_decide (index < 0) || bool_decide (index >= Z.of_nat (length (links s))).

Definition writeLink (index : Z) (i : nat) (link : TabLink) : TabLink :=
  let isActive := bool_decide (Z.of_nat i = index) in
  let link := link_set_selected isActive link in
  let link := link_set_active_class isActive link in
  match overlay link with
  | Some _ =>
      link_set_overlay
        (Some (mkOverlay (Some (if isActive then "0" else "-1")%string))) link
  | None => link
  end.

Definition writePane (index : Z) (i : nat) (pane : TabPane) : TabPane :=
  pane_set_hidden (negb (bool_decide (Z.of_nat i = index))) pane.

Definition writeLinks (index : Z) (s : State) : State :=
  with_world (with_dom (λ d, set_tabLinks (imap (writeLink index) (tabLinks d)) d)) s.

Definition writePanes (index : Z) (s : State) : State :=
  with_world (with_dom (λ d, set_tabPanes (imap (writePane index) (tabPanes d)) d)) s.

Definition writeDropdownText (index : Z) (s : State) : State :=
  match dropdownToggle (dom (world s)), links s !! Z.to_nat index with
  | Some t, Some link =>
      match dropdownText t with
      | Some _ =>
          if isMobileDropdown cfg then
            with_world (with_dom (set_dropdownToggle
              (Some (mkDropdownToggle (toggle_cc_open t) (aria_expanded t)
                       (aria_haspopup t)
                       (Some (or_else (link_name link) (link_text link))))))) s
          else s
      | None => s
      end
  | _, _ => s
  end.

Definition closeIfOpen (s : State) : State :=
  match dropdownToggle (dom (world s)) with
  | Some _ => if menu_cc_open (dom (world s)) then closeDropdown s else s
  | None => s
  end.

Definition scrollActive (index : Z) (s : State) : State :=
  if isMobileDropdown cfg then s else
  match links s !! Z.to_nat index with
  | Some activeLink =>
      if bool_decide (offsetLeft activeLink < scrollLeft (env (world s)))
         || bool_decide (offsetLeft activeLink + offsetWidth activeLink
                         > scrollLeft (env (world s)) + clientWidth (env (world s)))
      then with_world (emit (ScrollTo (offsetLeft activeLink))) s
      else s
  | None => s
  end.

Definition autoplayAfterSwitch (s : State) : State :=
  if autoplayEnabled cfg then
    if isAutoplayPaused (vars s)
    then with_vars (set_autoplayElapsedTime 0) s
    else restartAutoplay cfg s
  else s.

(** Everything before the autoplay block. *)
Definition activate (index : Z) (s : State) : State :=
  scrollActive index (closeIfOpen (writeDropdownText index
    (with_vars (set_currentActiveIndex index)
       (writePanes index (writeLinks index s))))).
End Stages.
End ClassicStages.

Module OptimizedStages.
Import Optimized.
Section Stages.
Variable cfg : Config.

Definition outOfRange (index : Z) (s : State) : bool :=
  bool_decide (index < 0)
  || bool_decide (index >= Z.of_nat (length (tabLinksArray s))).

(** Phase 2 of the link loop, reading the two arrays filled in phase 1. *)
Definition writeLink (overlays : list (option Overlay)) (isActiveStates : list bool)
           (i : nat) (link : TabLink) : TabLink :=
  let isActive := default false (isActiveStates !! i) in
  let link := link_set_selected isActive link in
  let link := link_set_active_class isActive link in
  match default None (overlays !! i) with
  | Some _ =>
      link_set_overlay
        (Some (mkOverlay (Some (if isActive then "0" else "-1")%string))) link
  | None => link
  end.

Definition writePane (index : Z) (i : nat) (pane : TabPane) : TabPane :=
  pane_set_hidden (bool_decide (Z.of_nat i ≠ index)) pane.

Definition writeLinks (index : Z) (s : State) : State :=
  let overlays := map overlay (tabLinksArray s) in
  let isActiveStates :=
    imap (λ i _, bool_decide (Z.of_nat i = index)) (tabLinksArray s) in
  with_world (with_dom (λ d, set_tabLinks
    (imap (writeLink overlays isActiveStates) (tabLinks d)) d)) s.

Definition writePanes (index : Z) (s : State) : State :=
  with_world (with_dom (λ d, set_tabPanes (imap (writePane index) (tabPanes d)) d)) s.

Definition writeDropdownText (index : Z) (s : State) : State :=
  match dropdownToggle (dom (world s)), tabLinksArray s !! Z.to_nat index with
  | Some t, Some link =>
      match dropdownText t with
      | Some _ =>
          if isMobileDropdown cfg then
            with_world (with_dom (set_dropdownToggle
              (Some (mkDropdownToggle (toggle_cc_open t) (aria_expanded t)
                       (aria_haspopup t)
                       (Some (or_else (link_name link) (link_text link))))))) s
          else s
      | None => s
      end
  | _, _ => s
  end.

Definition closeIfOpen (s : State) : State :=
  match dropdownToggle (dom (world s)) with
  | Some _ => if menu_cc_open (dom (world s)) then closeDropdown s else s
  | None => s
  end.

Definition scrollActive (index : Z) (s : State) : State :=
  if isMobileDropdown cfg then s else
  match tabLinksArray s !! Z.to_nat index with
  | Some activeLink =>
      if bool_decide (offsetLeft activeLink < scrollLeft (env (world s)))
         || bool_decide (offsetLeft activeLink + offsetWidth activeLink
                         > scrollLeft (env (world s)) + clientWidth (env (world s)))
      then with_world (emit (ScrollTo (offsetLeft activeLink))) s
      else s
  | None => s
  end.

Definition autoplayAfterSwitch (s : State) : State :=
  if autoplayEnabled cfg then
    if isAutoplayPaused (vars s)
    then with_vars (set_autoplayElapsedTime 0) s
    else restartAutoplay cfg s
  else s.

Definition activate (index : Z) (s : State) : State :=
  scrollActive index (closeIfOpen (writeDropdownText index
    (with_vars (set_currentActiveIndex index)
       (writePanes index (writeLinks index s))))).
End Stages.
End OptimizedStages.

(** * Invariants of the mounted controllers *)

(** The autoplay timer that is scheduled, if any, is the one whose id the
    variable [autoplayTimer] holds. *)
Definition AutoOk (v : option positive) (b : Browser) : Prop :=
  autoTimers b = [] ∨ ∃ t, autoTimers b = [t] ∧ v = Some (tid t).

(** While paused no autoplay timer is scheduled and the slot is empty. *)
Definition PausedOk (paused : bool) (v : option positive) (b : Browser) : Prop :=
  paused = true → autoTimers b = [] ∧ v = None.

(** Resize timers are the one whose id [resizeTimer] holds. *)
Definition RszOk (r : option positive) (b : Browser) : Prop :=
  ∀ t, t ∈ timers b → kind t = ResizeSettle → r = Some (tid t).

(** Ids are handed out in increasing order, so the resize slot never names a
    scheduled autoplay timer. *)
Definition Fresh (r : option positive) (b : Browser) : Prop :=
  (∀ t, t ∈ timers b → (tid t < nextTimerId b)%positive) ∧
  (∀ id, r = Some id → (id < nextTimerId b)%positive) ∧
  (∀ t, t ∈ timers b → kind t = AutoplayTick → r ≠ Some (tid t)).

Record ClassicInv (s : Classic.State) : Prop := mkClassicInv {
  c_auto : AutoOk (Classic.autoplayTimer (Classic.vars s)) (browser (Classic.world s));
  c_paused : PausedOk (Classic.isAutoplayPaused (Classic.vars s))
                      (Classic.autoplayTimer (Classic.vars s))
                      (browser (Classic.world s));
  c_index : 0 ≤ Classic.currentActiveIndex (Classic.vars s)
            < Z.of_nat (length (tabLinks (dom (Classic.world s))));
  c_kinds : Forall (λ t, kind t = AutoplayTick) (timers (browser (Classic.world s))) }.

Record OptimizedInv (s : Optimized.State) : Prop := mkOptimizedInv {
  o_auto : AutoOk (Optimized.autoplayTimer (Optimized.vars s))
                  (browser (Optimized.world s));
  o_paused : PausedOk (Optimized.isAutoplayPaused (Optimized.vars s))
                      (Optimized.autoplayTimer (Optimized.vars s))
                      (browser (Optimized.world s));
  o_index : 0 ≤ Optimized.currentActiveIndex (Optimized.vars s)
            < Z.of_nat (length (tabLinks (dom (Optimized.world s))));
  o_rsz : RszOk (Optimized.resizeTimer (Optimized.vars s)) (browser (Optimized.world s));
  o_fresh : Fresh (Optimized.resizeTimer (Optimized.vars s))
                  (browser (Optimized.world s));
  o_listeners : listeners (browser (Optimized.world s))
                = Optimized.eventListeners (Optimized.vars s) }.

(** The classic and the optimized controller in corresponding states: the
    shared variables, the DOM and the environment agree; the optimized one
    has its resize listener besides; the scheduled autoplay timers agree up
    to their ids. *)
Record Sim (c : Classic.State) (o : Optimized.State) : Prop := mkSim {
  sim_index : Classic.currentActiveIndex (Classic.vars c)
              = Optimized.currentActiveIndex (Optimized.vars o);
  sim_paused : Classic.isAutoplayPaused (Classic.vars c)
               = Optimized.isAutoplayPaused (Optimized.vars o);
  sim_start : Classic.autoplayStartTime (Classic.vars c)
              = Optimized.autoplayStartTime (Optimized.vars o);
  sim_elapsed : Classic.autoplayElapsedTime (Classic.vars c)
                = Optimized.autoplayElapsedTime (Optimized.vars o);
  sim_dom : dom (Classic.world c) = dom (Optimized.world o);
  sim_env : env (Classic.world c) = env (Optimized.world o);
  sim_observing : observing (browser (Classic.world c))
                  = observing (browser (Optimized.world o));
  sim_listeners : listeners (browser (Classic.world c))
                  = filter (λ l, l_handler l ≠ HResize)
                           (listeners (browser (Optimized.world o)));
  sim_timers : shape <$> autoTimers (browser (Classic.world c))
               = shape <$> autoTimers (browser (Optimized.world o)) }.

(** * Activation *)

Definition selected (l : TabLink) : Prop :=
  aria_selected l = Some "true"%string ∧ cc_active l = true.
Definition unselected (l : TabLink) : Prop :=
  aria_selected l = Some "false"%string ∧ cc_active l = false.
Definition shown (p : TabPane) : Prop := aria_hidden p = Some "false"%string.
Definition hidden (p : TabPane) : Prop := aria_hidden p = Some "true"%string.

(** Every element of [l] satisfies [P] at position [i] and [Q] elsewhere. *)
Definition split_at {A} (P Q : A → Prop) (i : nat) (l : list A) : Prop :=
  ∀ j x, l !! j = Some x → if decide (j = i) then P x else Q x.

(** Exactly one element of [l] satisfies [P], the one at position [i]; the
    others satisfy [Q]. *)
Definition only_at {A} (P Q : A → Prop) (i : nat) (l : list A) : Prop :=
  is_Some (l !! i) ∧ split_at P Q i l.

Definition two_links : list TabLink :=
  [sample_link "intro" true; sample_link "pricing" false].

(** [i] is the first position of [l] whose element satisfies [P]. *)
Definition first_at {A} (P : A → Prop) (l : list A) (i : nat) : Prop :=
  (∃ x, l !! i = Some x ∧ P x) ∧ ∀ j y, l !! j = Some y → (j < i)%nat → ¬ P y.

(** Corresponding states of mounted controllers. *)
Definition Related (c : Classic.State) (o : Optimized.State) : Prop :=
  Sim c o ∧ ClassicInv c ∧ OptimizedInv o.

(** * Auxiliary notions *)

(** The setup steps of [init] that come before the first activation. *)
Definition classic_presetup (cfg : Config) (s : Classic.State) : Classic.State :=
  Classic.setupAutoplayToggle cfg (Classic.setupAutoplayHoverPause cfg
    (Classic.setupAutoplayObserver cfg (Classic.setupAutoplayProgressBars cfg
       (Classic.setupMobileDropdown cfg s)))).

Definition optimized_presetup (cfg : Config) (s : Optimized.State) : Optimized.State :=
  Optimized.setupAutoplayToggle cfg (Optimized.setupAutoplayHoverPause cfg
    (Optimized.setupAutoplayObserver cfg (Optimized.setupAutoplayProgressBars cfg
       (Optimized.setupMobileDropdown cfg s)))).

(** The flag implies a source, and autoplay that is off is never paused. *)
Definition classic_flag_ok (cfg : Config) (p : Classic.State * Sources) : Prop :=
  (autoplayEnabled cfg = false → Classic.isAutoplayPaused (Classic.vars p.1) = false) ∧
  (Classic.isAutoplayPaused (Classic.vars p.1) = true → any_source p.2 = true).

Definition optimized_flag_ok (cfg : Config) (p : Optimized.State * Sources) : Prop :=
  (autoplayEnabled cfg = false →
   Optimized.isAutoplayPaused (Optimized.vars p.1) = false) ∧
  (Optimized.isAutoplayPaused (Optimized.vars p.1) = true → any_source p.2 = true).

(** Nothing of the component is left in the browser. *)
Definition silent (b : Browser) : Prop :=
  timers b = [] ∧ listeners b = [] ∧ observing b = false.

(** The tab state a user sees: the active index, the links and the panes. *)
Definition classic_tabs (s : Classic.State) : Z * list TabLink * list TabPane :=
  (Classic.currentActiveIndex (Classic.vars s), Classic.links s, Classic.panes s).
Definition optimized_tabs (s : Optimized.State) : Z * list TabLink * list TabPane :=
  (Optimized.currentActiveIndex (Optimized.vars s), Optimized.tabLinksArray s,
   Optimized.tabPanesArray s).

(** One run of a callback either leaves the tabs or activates a valid one. *)
Definition tabs_move (before after : Z * list TabLink * list TabPane) : Prop :=
  after = before ∨
  ∃ i, 0 ≤ i < Z.of_nat (length before.1.2) ∧
       after = (i, imap (ClassicStages.writeLink i) before.1.2,
                imap (ClassicStages.writePane i) before.2).

(** The DOM shows the active index: the link and the pane at that position,
    and no other, are marked. *)
Definition tabs_in_sync (t : Z * list TabLink * list TabPane) : Prop :=
  0 ≤ t.1.1 < Z.of_nat (length t.1.2) ∧
  only_at selected unselected (Z.to_nat t.1.1) t.1.2 ∧
  split_at shown hidden (Z.to_nat t.1.1) t.2.

(** The autoplay cycle, as the variables and the timer table hold it.
    Running: one timer, named by the slot, armed when the cycle segment
    started, for the duration less the time already elapsed.  Paused:
    nothing scheduled.  Autoplay off: nothing ever happens. *)
Definition cycle_ok (duration : Z) (enabled paused : bool) (start : option Z)
           (elapsed : Z) (slot : option positive) (b : Browser) : Prop :=
  if enabled then
    if paused then start = None ∧ autoTimers b = [] ∧ slot = None
    else ∃ t, autoTimers b = [t] ∧ slot = Some (tid t) ∧
              start = Some (armedAt t) ∧ delay t = duration - elapsed
  else autoTimers b = [] ∧ paused = false ∧ start = None ∧ elapsed = 0 ∧ slot = None.

Definition classic_cycle_ok (cfg : Config) (s : Classic.State) : Prop :=
  cycle_ok (autoplayDurationMs cfg) (autoplayEnabled cfg)
    (Classic.isAutoplayPaused (Classic.vars s))
    (Classic.autoplayStartTime (Classic.vars s))
    (Classic.autoplayElapsedTime (Classic.vars s))
    (Classic.autoplayTimer (Classic.vars s)) (browser (Classic.world s)).

Definition optimized_cycle_ok (cfg : Config) (s : Optimized.State) : Prop :=
  cycle_ok (autoplayDurationMs cfg) (autoplayEnabled cfg)
    (Optimized.isAutoplayPaused (Optimized.vars s))
    (Optimized.autoplayStartTime (Optimized.vars s))
    (Optimized.autoplayElapsedTime (Optimized.vars s))
    (Optimized.autoplayTimer (Optimized.vars s)) (browser (Optimized.world s)).

(** ** What the controller never writes *)

Definition present {A} (x : option A) : bool :=
  match x with Some _ => true | None => false end.

(** Of a tab link: everything but the selection marks and the tabindex. *)
Definition link_static (l : TabLink)
  : string * option string * string * bool * bool * Z * Z :=
  (link_id l, link_name l, link_text l, present (overlay l), has_progress l,
   offsetLeft l, offsetWidth l).

(** Of the DOM: the links as above, the number of panes, and which of the
    optional elements exist. *)
Definition dom_static (d : Dom) : list _ * nat * bool * bool * bool :=
  (link_static <$> tabLinks d, length (tabPanes d), present (dropdownToggle d),
   present (dropdownToggle d ≫= dropdownText), present (toggleButton d)).

(** What no callback changes: the listener table, the observer, the
    environment readings and the static part of the DOM. *)
Definition fixed_part (w : World)
  : list Listener * bool * Env * (list _ * nat * bool * bool * bool) :=
  (listeners (browser w), observing (browser w), env w, dom_static (dom w)).

(** ** The listener table of a mounted controller

    What [init] registers, in registration order, read off the DOM the
    controller is mounted on. *)

(** One listener for every link that has an overlay. *)
Definition link_listeners (ty : EvType) (h : nat → Handler) (links : list TabLink)
  : list Listener :=
  mjoin (imap (λ i l, if present (overlay l)
                      then [mkListener (TOverlay i) ty (h i)] else []) links).

Definition dropdown_listeners (cfg : Config) (d : Dom) : list Listener :=
  if isMobileDropdown cfg && present (dropdownToggle d)
  then [mkListener TDropdownToggle Click HDropdownToggle;
        mkListener TDocument Click HOutsideClick;
        mkListener TDocument Keydown HEscape]
  else [].

Definition autoplay_listeners (cfg : Config) (d : Dom) : list Listener :=
  (if autoplayEnabled cfg && autoplayHoverPause cfg
   then [mkListener TComponent MouseEnter HMouseEnter;
         mkListener TComponent MouseLeave HMouseLeave]
   else [])
  ++ (if autoplayEnabled cfg && present (toggleButton d)
      then [mkListener TToggleButton Click HAutoplayToggle] else []).

Definition classic_listeners (cfg : Config) (d : Dom) : list Listener :=
  dropdown_listeners cfg d ++ autoplay_listeners cfg d
  ++ link_listeners Click HClickTab (tabLinks d)
  ++ link_listeners Keydown HKeydownNav (tabLinks d)
  ++ [mkListener TWindow HashChange HHashChange].

Definition optimized_listeners (cfg : Config) (d : Dom) : list Listener :=
  dropdown_listeners cfg d ++ autoplay_listeners cfg d
  ++ link_listeners Click HClickTab (tabLinks d)
  ++ link_listeners Keydown HKeydownNav (tabLinks d)
  ++ [mkListener TWindow Resize HResize; mkListener TWindow HashChange HHashChange].
(** A component with the mobile dropdown. *)
Definition mobile_cfg : Config := mkConfig true false 5000 false.

(** The resize timers that are scheduled. *)
Definition resizeTimers (b : Browser) : list Timer :=
  filter (λ t, kind t = ResizeSettle) (timers b).
(** ** The label of the mobile dropdown *)

(** The text a link is shown with: its [data-tab-link-name], else its text. *)
Definition label_of (l : TabLink) : string := or_else (link_name l) (link_text l).

(** The text element of the dropdown toggle, when both exist, shows the
    label of the active link. *)
Definition dropdown_label_ok (index : Z) (links : list TabLink) (d : Dom) : Prop :=
  ∀ txt, dropdownToggle d ≫= dropdownText = Some txt →
         label_of <$> links !! Z.to_nat index = Some txt.

(** * Facts about the classic variant *)

Section ClassicFacts.
Import Classic ClassicStages.
Variable cfg : Config.

Lemma classic_setActiveTab_stages index s :
  setActiveTab cfg index s =
  if outOfRange index s then s
  else autoplayAfterSwitch cfg (activate cfg index s).
Proof. reflexivity. Qed.
End ClassicFacts.

Section OptimizedFacts.
Import Optimized OptimizedStages.
Variable cfg : Config.

Lemma optimized_setActiveTab_stages index s :
  setActiveTab cfg index s =
  if outOfRange index s then s
  else autoplayAfterSwitch cfg (activate cfg index s).
Proof. reflexivity. Qed.
End OptimizedFacts.


(** * Timer tables *)

Lemma filter_comm_tid (P : Timer → Prop) `{∀ t, Decision (P t)} id (l : list Timer) :
  filter P (filter (λ t, tid t ≠ id) l) = filter (λ t, tid t ≠ id) (filter P l).
Proof.
  induction l as [|t l IH]; [done|].
  rewrite !filter_cons. repeat (case_decide; rewrite ?filter_cons); try done; by f_equal.
Qed.

Lemma Forall_filter_keep {A} (P Q : A → Prop) `{∀ x, Decision (Q x)} (l : list A) :
  Forall P l → Forall P (filter Q l).
Proof.
  induction 1 as [|x l Hx Hl IH]; [constructor|].
  rewrite filter_cons. case_decide; auto.
Qed.

Lemma elem_of_filter_tid (t : Timer) id (l : list Timer) :
  t ∈ filter (λ t, tid t ≠ id) l → t ∈ l.
Proof. rewrite list_elem_of_filter. tauto. Qed.

(** Clearing the timer named by the slot leaves no autoplay timer. *)
Lemma auto_cleared (tms : list Timer) (v : option positive) (nid : positive)
      (ls : list Listener) (ob : bool) :
  AutoOk v (mkBrowser tms nid ls ob) →
  filter (λ t, kind t = AutoplayTick)
         (match v with Some id => filter (λ t, tid t ≠ id) tms | None => tms end) = [].
Proof.
  unfold AutoOk, autoTimers; cbn. intros [H|(t & H & ->)].
  - destruct v; [|done]. by rewrite filter_comm_tid, H.
  - rewrite filter_comm_tid, H. rewrite filter_cons. by case_decide.
Qed.

Lemma auto_none (tms : list Timer) nid ls ob :
  AutoOk None (mkBrowser tms nid ls ob) →
  filter (λ t, kind t = AutoplayTick) tms = [].
Proof. intros H. by apply (auto_cleared _ None) in H. Qed.

Ltac cnorm :=
  unfold Classic.links, Classic.panes, Classic.with_vars, Classic.with_world,
         Optimized.tabLinksArray, Optimized.tabPanesArray, Optimized.with_vars,
         Optimized.with_world,
         AutoOk, PausedOk, autoTimers, with_dom, with_browser,
         with_env, emit, clearTimeout, setTimeout, retire in *; cbn in *.

Ltac cdestruct s :=
  destruct s as [[cur tm pa st el] [d [tms nid ls ob] e eff]].

Section ClassicInvariant.
Import Classic ClassicStages.
Variable cfg : Config.

Lemma classic_stop_inv s :
  AutoOk (autoplayTimer (vars s)) (browser (world s)) →
  Forall (λ t, kind t = AutoplayTick) (timers (browser (world s))) →
  0 ≤ currentActiveIndex (vars s) < Z.of_nat (length (links s)) →
  ClassicInv (stopAutoplay s).
Proof.
  cdestruct s. intros Ha Hk Hi.
  pose proof (auto_cleared _ _ _ _ _ Ha) as Hc. cnorm.
  unfold stopAutoplay; destruct tm; constructor; cnorm; auto.
  all: by apply Forall_filter_keep.
Qed.

Lemma classic_start_inv s : ClassicInv s → ClassicInv (startAutoplay cfg s).
Proof.
  intros HI. unfold startAutoplay.
  destruct (negb (autoplayEnabled cfg) || isAutoplayPaused (vars s)) eqn:E; [done|].
  apply orb_false_elim in E as [_ Epa].
  assert (isAutoplayPaused (vars (stopAutoplay s)) = false) as Epa'.
  { unfold stopAutoplay. destruct (autoplayTimer (vars s)); done. }
  destruct HI as [Ha _ Hi Hk].
  pose proof (classic_stop_inv s Ha Hk Hi) as [Ha' Hp' Hi' Hk'].
  assert (autoTimers (browser (world (stopAutoplay s))) = []) as Hc.
  { revert Ha. clear. cdestruct s. intros Ha. apply auto_cleared in Ha.
    unfold stopAutoplay. destruct tm; cnorm; done. }
  destruct (stopAutoplay s) as [[cur tm pa st el] [d [tms nid ls ob] e eff]].
  cnorm. subst pa.
  constructor; cnorm; rewrite ?filter_app, ?Hc; cbn; auto.
  - right. eexists; split; [reflexivity|done].
  - done.
  - apply Forall_app; split; auto.
Qed.

(** Changes that leave the variables, the timers and the number of links
    alone keep the invariant. *)
Lemma classic_inv_frame s s' :
  ClassicInv s →
  vars s' = vars s →
  timers (browser (world s')) = timers (browser (world s)) →
  length (links s') = length (links s) →
  ClassicInv s'.
Proof.
  intros [Ha Hp Hi Hk] Hv Hb Hl. unfold links in *.
  constructor; unfold AutoOk, PausedOk, autoTimers in *; rewrite ?Hv, ?Hb, ?Hl; auto.
Qed.

Lemma classic_restart_inv s : ClassicInv s → ClassicInv (restartAutoplay cfg s).
Proof.
  intros HI. unfold restartAutoplay.
  destruct (negb (autoplayEnabled cfg)); [done|].
  apply classic_start_inv.
  assert (ClassicInv (with_vars (set_autoplayElapsedTime 0) s)) as HI'.
  { destruct HI; constructor; auto. }
  repeat case_match; auto.
  eapply classic_inv_frame; [exact HI'|done..].
Qed.

Lemma classic_activate_vars index s :
  vars (activate cfg index s) = set_currentActiveIndex index (vars s).
Proof.
  unfold activate, scrollActive, closeIfOpen, writeDropdownText, writePanes,
    writeLinks, closeDropdown. cnorm. repeat case_match; reflexivity.
Qed.

Lemma classic_activate_browser index s :
  browser (world (activate cfg index s)) = browser (world s).
Proof.
  unfold activate, scrollActive, closeIfOpen, writeDropdownText, writePanes,
    writeLinks, closeDropdown. cnorm. repeat case_match; reflexivity.
Qed.

Lemma classic_activate_env index s :
  env (world (activate cfg index s)) = env (world s).
Proof.
  unfold activate, scrollActive, closeIfOpen, writeDropdownText, writePanes,
    writeLinks, closeDropdown. cnorm. repeat case_match; reflexivity.
Qed.

Lemma classic_activate_links index s :
  links (activate cfg index s) = imap (writeLink index) (links s).
Proof.
  unfold activate, scrollActive, closeIfOpen, writeDropdownText, writePanes,
    writeLinks, closeDropdown. cnorm. repeat case_match; reflexivity.
Qed.

Lemma classic_activate_panes index s :
  panes (activate cfg index s) = imap (writePane index) (panes s).
Proof.
  unfold activate, scrollActive, closeIfOpen, writeDropdownText, writePanes,
    writeLinks, closeDropdown. cnorm. repeat case_match; reflexivity.
Qed.

Lemma classic_outOfRange_false index s :
  outOfRange index s = false ↔ 0 ≤ index < Z.of_nat (length (links s)).
Proof.
  unfold outOfRange. rewrite orb_false_iff, !bool_decide_eq_false. lia.
Qed.

Lemma classic_afterSwitch_inv s :
  ClassicInv s → ClassicInv (autoplayAfterSwitch cfg s).
Proof.
  intros HI. unfold autoplayAfterSwitch. repeat case_match; auto.
  - destruct HI; constructor; auto.
  - by apply classic_restart_inv.
Qed.

Lemma classic_setActiveTab_inv index s :
  ClassicInv s → ClassicInv (setActiveTab cfg index s).
Proof.
  intros HI. rewrite classic_setActiveTab_stages.
  destruct (outOfRange index s) eqn:E; [done|].
  apply classic_outOfRange_false in E.
  apply classic_afterSwitch_inv.
  destruct HI as [Ha Hp Hi Hk]. 
  pose proof (classic_activate_links index s) as Hl. unfold links in Hl.
  constructor; rewrite ?classic_activate_vars, ?classic_activate_browser, ?Hl,
    ?length_imap; auto.
Qed.
End ClassicInvariant.

(** * Predicates kept by the event loop *)

Section LoopInvariant.
Context {S : Type}.
Variable world_of : S → World.
Variable upd_world : (World → World) → S → S.
Variable run_handler : Handler → EventData → S → S.
Variable observerCallback : list bool → S → S.
Variable run_timer : TimerKind → S → S.
Variable P : S → Prop.

Hypothesis handler_keeps : ∀ h d s, P s → P (run_handler h d s).

Lemma run_target_keeps ls t ty d s :
  P s → P (EventLoop.run_target run_handler ls t ty d s).1.
Proof.
  unfold EventLoop.run_target.
  generalize (filter (λ l, listens t ty l = true) ls) as hs.
  generalize false as stop.
  intros stop hs. revert s stop.
  induction hs as [|l hs IH]; intros s stop Hs; cbn; [done|].
  apply IH. by apply handler_keeps.
Qed.

Lemma run_path_keeps ls path ty d s :
  P s → P (EventLoop.run_path run_handler ls path ty d s).
Proof.
  revert s. induction path as [|t path IH]; intros s Hs; cbn; [done|].
  pose proof (run_target_keeps ls t ty d s Hs).
  case_match; auto.
Qed.

Hypothesis env_keeps : ∀ e s, P s → P (upd_world (env_event e) s).
Hypothesis observer_keeps : ∀ entries s, P s → P (observerCallback entries s).
Hypothesis timer_keeps :
  ∀ k t s, P s → next_timer k (world_of s) = Some t →
           P (run_timer k (upd_world (retire t) s)).

Lemma step_keeps e s :
  P s → P (EventLoop.step world_of upd_world run_handler observerCallback run_timer e s).
Proof.
  intros Hs. unfold EventLoop.step.
  pose proof (env_keeps e s Hs) as Hs'.
  destruct e; cbn [dom_event]; try (by apply run_path_keeps); try done.
  - case_match; auto.
  - case_match eqn:E; auto.
Qed.

Lemma run_keeps evs s :
  P s → P (EventLoop.run world_of upd_world run_handler observerCallback run_timer evs s).
Proof.
  revert s. induction evs as [|e evs IH]; intros s Hs; cbn; [done|].
  apply IH. by apply step_keeps.
Qed.
End LoopInvariant.

Section ClassicHandlers.
Import Classic ClassicStages.
Variable cfg : Config.

Lemma classic_emit_inv e s : ClassicInv s → ClassicInv (with_world (emit e) s).
Proof. intros H. by eapply classic_inv_frame. Qed.

Lemma classic_updateToggleButton_inv s :
  ClassicInv s → ClassicInv (updateToggleButton s).
Proof.
  intros H. unfold updateToggleButton. case_match; [|done].
  by eapply classic_inv_frame.
Qed.

Lemma classic_closeDropdown_inv s : ClassicInv s → ClassicInv (closeDropdown s).
Proof.
  intros H. unfold closeDropdown. case_match; [|done]. by eapply classic_inv_frame.
Qed.

Lemma classic_openDropdown_inv s : ClassicInv s → ClassicInv (openDropdown s).
Proof.
  intros H. unfold openDropdown. case_match; [|done]. by eapply classic_inv_frame.
Qed.

Lemma classic_pause_inv s : ClassicInv s → ClassicInv (pauseAutoplay cfg s).
Proof.
  intros [Ha Hp Hi Hk]. unfold pauseAutoplay.
  destruct (negb (autoplayEnabled cfg)); [by constructor|].
  apply classic_updateToggleButton_inv, classic_stop_inv;
    destruct (autoplayStartTime (vars s)); cnorm; auto.
Qed.

Lemma classic_resume_inv s : ClassicInv s → ClassicInv (resumeAutoplay cfg s).
Proof.
  intros [Ha Hp Hi Hk]. unfold resumeAutoplay.
  destruct (negb (autoplayEnabled cfg)); [by constructor|].
  apply classic_updateToggleButton_inv, classic_start_inv.
  constructor; cnorm; auto. done.
Qed.

Lemma classic_observer_inv entries s :
  ClassicInv s → ClassicInv (observerCallback cfg entries s).
Proof.
  unfold observerCallback. revert s.
  induction entries as [|b entries IH]; intros s Hs; cbn; [done|].
  apply IH. destruct b; [by apply classic_resume_inv|by apply classic_pause_inv].
Qed.

Lemma classic_keydown_inv key s :
  ClassicInv s → ClassicInv (keydownHandler cfg key s).
Proof.
  intros Hs. unfold keydownHandler.
  repeat case_decide; try done;
    repeat case_match;
    repeat first [apply classic_emit_inv | apply classic_setActiveTab_inv]; done.
Qed.

Lemma classic_click_inv index s :
  ClassicInv s → ClassicInv (clickHandler cfg index s).
Proof.
  intros Hs. unfold clickHandler.
  repeat case_match;
    repeat first [apply classic_emit_inv | apply classic_setActiveTab_inv]; done.
Qed.

Lemma classic_handler_inv h d s :
  ClassicInv s → ClassicInv (run_handler cfg h d s).
Proof.
  intros Hs. destruct h; cbn [run_handler]; unfold toggleDropdown;
    repeat case_match;
    repeat first
      [ apply classic_emit_inv | apply classic_setActiveTab_inv
      | apply classic_closeDropdown_inv | apply classic_openDropdown_inv
      | apply classic_pause_inv | apply classic_resume_inv
      | apply classic_keydown_inv | apply classic_click_inv ]; done.
Qed.

Lemma classic_env_inv e s : ClassicInv s → ClassicInv (with_world (env_event e) s).
Proof. intros H. eapply classic_inv_frame; [exact H|..]; by destruct e. Qed.

Lemma classic_retire_inv t s : ClassicInv s → ClassicInv (with_world (retire t) s).
Proof.
  cdestruct s. intros [Ha Hp Hi Hk]. cnorm.
  constructor; cnorm; rewrite ?filter_comm_tid; auto.
  - destruct Ha as [->|(t' & -> & ->)]; [by left|].
    rewrite filter_cons. case_decide; [right; eauto|by left].
  - intros Hpa. destruct (Hp Hpa) as [-> ->]. done.
  - by apply Forall_filter_keep.
Qed.

Lemma classic_timer_inv k s : ClassicInv s → ClassicInv (run_timer cfg k s).
Proof.
  intros H. destruct k; cbn; [|done]. by apply classic_setActiveTab_inv.
Qed.

Lemma classic_step_inv e s : ClassicInv s → ClassicInv (step cfg e s).
Proof.
  apply step_keeps.
  - apply classic_handler_inv.
  - apply classic_env_inv.
  - apply classic_observer_inv.
  - intros k t s' Hs' _. by apply classic_timer_inv, classic_retire_inv.
Qed.

Lemma classic_run_inv evs s : ClassicInv s → ClassicInv (run cfg evs s).
Proof.
  apply run_keeps.
  - apply classic_handler_inv.
  - apply classic_env_inv.
  - apply classic_observer_inv.
  - intros k t s' Hs' _. by apply classic_timer_inv, classic_retire_inv.
Qed.

(** *** Mounting *)

Lemma classic_register_inv l s : ClassicInv s → ClassicInv (register l s).
Proof. intros H. by eapply classic_inv_frame. Qed.

Lemma classic_setupPerLink_inv ty h s :
  ClassicInv s → ClassicInv (setupPerLink ty h s).
Proof.
  unfold setupPerLink. generalize (imap pair (links s)) as ils. intros ils. revert s.
  induction ils as [|il ils IH]; intros s Hs; cbn; [done|].
  apply IH. case_match; [by apply classic_register_inv|done].
Qed.

Lemma classic_init_inv s : ClassicInv s → ClassicInv (init cfg s).
Proof.
  intros Hs. unfold init, setupClickHandlers, setupKeyboardNav.
  apply classic_register_inv.
  assert (ClassicInv (setupMobileDropdown cfg s)) as H1.
  { unfold setupMobileDropdown. repeat case_match; try done;
      repeat apply classic_register_inv;
      (eapply classic_inv_frame; [exact Hs|done..]). }
  revert H1. generalize (setupMobileDropdown cfg s) as s1. intros s1 H1.
  unfold setupAutoplayProgressBars, setupAutoplayObserver, setupAutoplayHoverPause,
    setupAutoplayToggle.
  destruct (autoplayEnabled cfg) eqn:En; cbn [negb orb].
  - apply classic_start_inv.
    do 2 apply classic_setupPerLink_inv.
    apply classic_setActiveTab_inv.
    assert (ClassicInv (with_world (with_browser (set_observing true))
                          (with_world (emit SetDurationProperty) s1))) as H2.
    { eapply classic_inv_frame; [exact H1|done..]. }
    repeat case_match; repeat apply classic_register_inv; done.
  - do 2 apply classic_setupPerLink_inv.
    by apply classic_setActiveTab_inv.
Qed.

Lemma classic_mount_inv w s :
  pristine w → initTabsComponent cfg w = Some s → ClassicInv s.
Proof.
  intros (Ht & _ & _) Hm. unfold initTabsComponent in Hm.
  destruct (bool_decide (tabLinks (dom w) = []) || bool_decide (tabPanes (dom w) = []))
    eqn:E; [done|].
  apply orb_false_elim in E as [E _]. apply bool_decide_eq_false in E.
  injection Hm as <-. apply classic_init_inv.
  constructor; cnorm; rewrite ?Ht; auto.
  destruct (tabLinks (dom w)); [done|]. cbn. lia.
Qed.

Lemma classic_reachable_inv s : reachable cfg s → ClassicInv s.
Proof.
  induction 1 as [w s Hw Hm|e s _ IH].
  - by eapply classic_mount_inv.
  - by apply classic_step_inv.
Qed.
End ClassicHandlers.

(** * Invariant of the optimized variant *)

Ltac destruct_opt s :=
  destruct s as [[cur tm pa st el cw rt els] [d [tms nid ls ob] e eff]].

Lemma filter_all {A} (P : A → Prop) `{∀ x, Decision (P x)} (l : list A) :
  Forall P l → filter P l = l.
Proof.
  induction 1 as [|x l Hx Hl IH]; [done|].
  rewrite filter_cons. case_decide; [by f_equal|done].
Qed.

Lemma RszOk_filter r tms nid ls ob id :
  RszOk r (mkBrowser tms nid ls ob) →
  RszOk r (mkBrowser (filter (λ t, tid t ≠ id) tms) nid ls ob).
Proof. intros H t Ht. apply H. cbn in *. by eapply elem_of_filter_tid. Qed.

Lemma Fresh_filter r tms nid ls ob id :
  Fresh r (mkBrowser tms nid ls ob) →
  Fresh r (mkBrowser (filter (λ t, tid t ≠ id) tms) nid ls ob).
Proof.
  intros (Ha & Hb & Hc). repeat split; cbn in *; auto.
  - intros t Ht. apply Ha. by eapply elem_of_filter_tid.
  - intros t Ht. apply Hc. by eapply elem_of_filter_tid.
Qed.

Section OptimizedInvariant.
Import Optimized OptimizedStages.
Variable cfg : Config.

Lemma optimized_stop_inv s :
  AutoOk (autoplayTimer (vars s)) (browser (world s)) →
  0 ≤ currentActiveIndex (vars s) < Z.of_nat (length (tabLinksArray s)) →
  RszOk (resizeTimer (vars s)) (browser (world s)) →
  Fresh (resizeTimer (vars s)) (browser (world s)) →
  listeners (browser (world s)) = eventListeners (vars s) →
  OptimizedInv (stopAutoplay s).
Proof.
  destruct_opt s. intros Ha Hi Hr Hf Hl.
  pose proof (auto_cleared _ _ _ _ _ Ha) as Hc. cnorm.
  unfold stopAutoplay; destruct tm; constructor; cnorm; auto.
  - by apply RszOk_filter.
  - by apply Fresh_filter.
Qed.

Lemma optimized_stop_auto s :
  AutoOk (autoplayTimer (vars s)) (browser (world s)) →
  autoTimers (browser (world (stopAutoplay s))) = [].
Proof.
  destruct_opt s. intros Ha. apply auto_cleared in Ha.
  unfold stopAutoplay. destruct tm; cnorm; done.
Qed.

Lemma optimized_start_inv s : OptimizedInv s → OptimizedInv (startAutoplay cfg s).
Proof.
  intros HI. unfold startAutoplay.
  destruct (negb (autoplayEnabled cfg) || isAutoplayPaused (vars s)) eqn:E; [done|].
  apply orb_false_elim in E as [_ Epa].
  assert (isAutoplayPaused (vars (stopAutoplay s)) = false) as Epa'.
  { unfold stopAutoplay. destruct (autoplayTimer (vars s)); done. }
  destruct HI as [Ha _ Hi Hr Hf Hl].
  pose proof (optimized_stop_auto s Ha) as Hc.
  pose proof (optimized_stop_inv s Ha Hi Hr Hf Hl) as [Ha' Hp' Hi' Hr' Hf' Hl'].
  destruct (stopAutoplay s) as [[cur tm pa st el cw rt els] [d [tms nid ls ob] e eff]].
  cnorm. subst pa.
  constructor; cnorm; rewrite ?filter_app, ?Hc; cbn; auto.
  - right. eexists; split; [reflexivity|done].
  - done.
  - intros t [Ht|Ht%list_elem_of_singleton]%elem_of_app Hk; [by apply Hr'|by subst].
  - destruct Hf' as (F1 & F2 & F3). repeat split; cbn in *.
    + intros t [Ht|Ht%list_elem_of_singleton]%elem_of_app; [|subst; cbn; lia].
      specialize (F1 t Ht). lia.
    + intros id Hid. specialize (F2 id Hid). lia.
    + intros t [Ht|Ht%list_elem_of_singleton]%elem_of_app Hk; [by apply F3|].
      subst; cbn. intros ->. specialize (F2 nid eq_refl). lia.
Qed.

Lemma optimized_inv_frame s s' :
  OptimizedInv s →
  vars s' = vars s →
  browser (world s') = browser (world s) →
  length (tabLinksArray s') = length (tabLinksArray s) →
  OptimizedInv s'.
Proof.
  intros [Ha Hp Hi Hr Hf Hl] Hv Hb Hn. unfold tabLinksArray in *.
  constructor; rewrite ?Hv, ?Hb, ?Hn; auto.
Qed.

Lemma optimized_restart_inv s : OptimizedInv s → OptimizedInv (restartAutoplay cfg s).
Proof.
  intros HI. unfold restartAutoplay.
  destruct (negb (autoplayEnabled cfg)); [done|].
  apply optimized_start_inv.
  assert (OptimizedInv (with_vars (set_autoplayElapsedTime 0) s)) as HI'.
  { destruct HI; constructor; auto. }
  repeat case_match; auto.
  eapply optimized_inv_frame; [exact HI'|done..].
Qed.

Lemma optimized_activate_vars index s :
  vars (activate cfg index s) = set_currentActiveIndex index (vars s).
Proof.
  unfold activate, scrollActive, closeIfOpen, writeDropdownText, writePanes,
    writeLinks, closeDropdown. cnorm. repeat case_match; reflexivity.
Qed.

Lemma optimized_activate_browser index s :
  browser (world (activate cfg index s)) = browser (world s).
Proof.
  unfold activate, scrollActive, closeIfOpen, writeDropdownText, writePanes,
    writeLinks, closeDropdown. cnorm. repeat case_match; reflexivity.
Qed.

Lemma optimized_activate_env index s :
  env (world (activate cfg index s)) = env (world s).
Proof.
  unfold activate, scrollActive, closeIfOpen, writeDropdownText, writePanes,
    writeLinks, closeDropdown. cnorm. repeat case_match; reflexivity.
Qed.

Lemma optimized_activate_links index s :
  tabLinksArray (activate cfg index s) =
  imap (writeLink (map overlay (tabLinksArray s))
                  (imap (λ i _, bool_decide (Z.of_nat i = index)) (tabLinksArray s)))
       (tabLinksArray s).
Proof.
  unfold activate, scrollActive, closeIfOpen, writeDropdownText, writePanes,
    writeLinks, closeDropdown. cnorm. repeat case_match; reflexivity.
Qed.

Lemma optimized_activate_panes index s :
  tabPanesArray (activate cfg index s) = imap (writePane index) (tabPanesArray s).
Proof.
  unfold activate, scrollActive, closeIfOpen, writeDropdownText, writePanes,
    writeLinks, closeDropdown. cnorm. repeat case_match; reflexivity.
Qed.

Lemma optimized_outOfRange_false index s :
  outOfRange index s = false ↔ 0 ≤ index < Z.of_nat (length (tabLinksArray s)).
Proof.
  unfold outOfRange. rewrite orb_false_iff, !bool_decide_eq_false. lia.
Qed.

Lemma optimized_afterSwitch_inv s :
  OptimizedInv s → OptimizedInv (autoplayAfterSwitch cfg s).
Proof.
  intros HI. unfold autoplayAfterSwitch. repeat case_match; auto.
  - destruct HI; constructor; auto.
  - by apply optimized_restart_inv.
Qed.

Lemma optimized_setActiveTab_inv index s :
  OptimizedInv s → OptimizedInv (setActiveTab cfg index s).
Proof.
  intros HI. rewrite optimized_setActiveTab_stages.
  destruct (outOfRange index s) eqn:E; [done|].
  apply optimized_outOfRange_false in E.
  apply optimized_afterSwitch_inv.
  destruct HI as [Ha Hp Hi Hr Hf Hl].
  pose proof (optimized_activate_links index s) as Hn. unfold tabLinksArray in Hn.
  constructor; rewrite ?optimized_activate_vars, ?optimized_activate_browser, ?Hn,
    ?length_imap; auto.
Qed.

Lemma optimized_emit_inv e s : OptimizedInv s → OptimizedInv (with_world (emit e) s).
Proof. intros H. by eapply optimized_inv_frame. Qed.

Lemma optimized_updateToggleButton_inv s :
  OptimizedInv s → OptimizedInv (updateToggleButton s).
Proof.
  intros H. unfold updateToggleButton. case_match; [|done].
  by eapply optimized_inv_frame.
Qed.

Lemma optimized_closeDropdown_inv s : OptimizedInv s → OptimizedInv (closeDropdown s).
Proof.
  intros H. unfold closeDropdown. case_match; [|done]. by eapply optimized_inv_frame.
Qed.

Lemma optimized_openDropdown_inv s : OptimizedInv s → OptimizedInv (openDropdown s).
Proof.
  intros H. unfold openDropdown. case_match; [|done]. by eapply optimized_inv_frame.
Qed.

Lemma optimized_pause_inv s : OptimizedInv s → OptimizedInv (pauseAutoplay cfg s).
Proof.
  intros [Ha Hp Hi Hr Hf Hl]. unfold pauseAutoplay.
  destruct (negb (autoplayEnabled cfg)); [by constructor|].
  apply optimized_updateToggleButton_inv, optimized_stop_inv;
    destruct (autoplayStartTime (vars s)); cnorm; auto.
Qed.

Lemma optimized_resume_inv s : OptimizedInv s → OptimizedInv (resumeAutoplay cfg s).
Proof.
  intros [Ha Hp Hi Hr Hf Hl]. unfold resumeAutoplay.
  destruct (negb (autoplayEnabled cfg)); [by constructor|].
  apply optimized_updateToggleButton_inv, optimized_start_inv.
  constructor; cnorm; auto. done.
Qed.

Lemma optimized_observer_inv entries s :
  OptimizedInv s → OptimizedInv (observerCallback cfg entries s).
Proof.
  unfold observerCallback. revert s.
  induction entries as [|b entries IH]; intros s Hs; cbn; [done|].
  apply IH. destruct b; [by apply optimized_resume_inv|by apply optimized_pause_inv].
Qed.

Lemma optimized_keydown_inv key s :
  OptimizedInv s → OptimizedInv (keydownHandler cfg key s).
Proof.
  intros Hs. unfold keydownHandler.
  repeat case_decide; try done;
    repeat case_match;
    repeat first [apply optimized_emit_inv | apply optimized_setActiveTab_inv]; done.
Qed.

Lemma optimized_click_inv index s :
  OptimizedInv s → OptimizedInv (clickHandler cfg index s).
Proof.
  intros Hs. unfold clickHandler.
  repeat case_match;
    repeat first [apply optimized_emit_inv | apply optimized_setActiveTab_inv]; done.
Qed.

(** The debounce: the pending resize timer goes, a new one comes, and the
    autoplay timer is not touched. *)
Lemma optimized_resize_auto s :
  OptimizedInv s →
  autoTimers (browser (world (resizeHandler s))) = autoTimers (browser (world s)).
Proof.
  destruct_opt s. intros [Ha Hp Hi Hr (F1 & F2 & F3) Hl]. cnorm.
  unfold resizeHandler; destruct rt as [r|]; cnorm;
    rewrite filter_app, ?filter_comm_tid; cbn; rewrite ?app_nil_r; [|done].
  apply filter_all. apply Forall_forall. intros t Ht.
  apply list_elem_of_filter in Ht as [Hk Ht]. specialize (F3 t Ht Hk). congruence.
Qed.

Lemma optimized_resize_inv s : OptimizedInv s → OptimizedInv (resizeHandler s).
Proof.
  intros HI. pose proof (optimized_resize_auto s HI) as Hauto. revert HI Hauto.
  destruct_opt s. intros [Ha Hp Hi Hr (F1 & F2 & F3) Hl]. cnorm.
  unfold resizeHandler. intros Hauto.
  assert (∀ t, t ∈ match rt with Some r => filter (λ t, tid t ≠ r) tms | None => tms end
               → t ∈ tms ∧ kind t = AutoplayTick) as Hsub.
  { intros t Ht. destruct rt as [r|].
    - apply list_elem_of_filter in Ht as [Hne Ht]. split; [done|].
      destruct (kind t) eqn:Hk; [done|]. specialize (Hr t Ht Hk). congruence.
    - split; [done|]. destruct (kind t) eqn:Hk; [done|]. by specialize (Hr t Ht Hk). }
  destruct rt as [r|]; cnorm; constructor; cnorm; rewrite ?Hauto; auto.
  all: try (intros t [Ht|Ht%list_elem_of_singleton]%elem_of_app Hk;
            [apply Hsub in Ht as [_ Ht]; congruence|by subst]).
  all: repeat split; cbn.
  all: try (intros t [Ht|Ht%list_elem_of_singleton]%elem_of_app;
            [apply Hsub in Ht as [Ht _]; specialize (F1 t Ht); lia|subst; cbn; lia]).
  all: try (intros id [= <-]; lia).
  all: intros t [Ht|Ht%list_elem_of_singleton]%elem_of_app Hk;
       [apply Hsub in Ht as [Ht _]; specialize (F1 t Ht); intros [= ->]; lia
       |by subst].
Qed.

Lemma optimized_handler_inv h d s :
  OptimizedInv s → OptimizedInv (run_handler cfg h d s).
Proof.
  intros Hs. destruct h; cbn [run_handler]; unfold toggleDropdown;
    repeat case_match;
    repeat first
      [ apply optimized_emit_inv | apply optimized_setActiveTab_inv
      | apply optimized_closeDropdown_inv | apply optimized_openDropdown_inv
      | apply optimized_pause_inv | apply optimized_resume_inv
      | apply optimized_keydown_inv | apply optimized_click_inv
      | apply optimized_resize_inv ]; done.
Qed.

Lemma optimized_env_inv e s : OptimizedInv s → OptimizedInv (with_world (env_event e) s).
Proof. intros H. eapply optimized_inv_frame; [exact H|..]; by destruct e. Qed.

Lemma optimized_retire_inv t s : OptimizedInv s → OptimizedInv (with_world (retire t) s).
Proof.
  destruct_opt s. intros [Ha Hp Hi Hr Hf Hl]. cnorm.
  constructor; cnorm; rewrite ?filter_comm_tid; auto.
  - destruct Ha as [->|(t' & -> & ->)]; [by left|].
    rewrite filter_cons. case_decide; [right; eauto|by left].
  - intros Hpa. destruct (Hp Hpa) as [-> ->]. done.
  - by apply RszOk_filter.
  - by apply Fresh_filter.
Qed.

Lemma optimized_timer_inv k s : OptimizedInv s → OptimizedInv (run_timer cfg k s).
Proof.
  intros H. destruct k; cbn.
  - by apply optimized_setActiveTab_inv.
  - destruct H; constructor; auto.
Qed.

Lemma optimized_step_inv e s : OptimizedInv s → OptimizedInv (step cfg e s).
Proof.
  apply step_keeps.
  - apply optimized_handler_inv.
  - apply optimized_env_inv.
  - apply optimized_observer_inv.
  - intros k t s' Hs' _. by apply optimized_timer_inv, optimized_retire_inv.
Qed.

Lemma optimized_run_inv evs s : OptimizedInv s → OptimizedInv (run cfg evs s).
Proof.
  apply run_keeps.
  - apply optimized_handler_inv.
  - apply optimized_env_inv.
  - apply optimized_observer_inv.
  - intros k t s' Hs' _. by apply optimized_timer_inv, optimized_retire_inv.
Qed.
End OptimizedInvariant.

Section OptimizedMount.
Import Optimized OptimizedStages.
Variable cfg : Config.

Lemma optimized_register_inv l s : OptimizedInv s → OptimizedInv (register l s).
Proof.
  destruct_opt s. intros [Ha Hp Hi Hr Hf Hl]. cnorm.
  constructor; cnorm; auto. unfold addEventListener; cnorm. by f_equal.
Qed.

Lemma optimized_setupPerLink_inv ty h s :
  OptimizedInv s → OptimizedInv (setupPerLink ty h s).
Proof.
  unfold setupPerLink. generalize (imap pair (tabLinksArray s)) as ils.
  intros ils. revert s.
  induction ils as [|il ils IH]; intros s Hs; cbn; [done|].
  apply IH. case_match; [by apply optimized_register_inv|done].
Qed.

Lemma optimized_setupHover_inv s :
  OptimizedInv s → OptimizedInv (setupAutoplayHoverPause cfg s).
Proof.
  intros Hs. unfold setupAutoplayHoverPause. case_match; [done|].
  revert Hs. destruct_opt s. intros [Ha Hp Hi Hr Hf Hl]. cnorm.
  constructor; cnorm; auto. unfold addEventListener; cnorm.
  rewrite <- app_assoc. by f_equal.
Qed.

Lemma optimized_init_inv s : OptimizedInv s → OptimizedInv (init cfg s).
Proof.
  intros Hs. unfold init, setupClickHandlers, setupKeyboardNav, setupResizeHandler.
  apply optimized_register_inv.
  assert (OptimizedInv (setupMobileDropdown cfg s)) as H1.
  { unfold setupMobileDropdown. repeat case_match; try done;
      repeat apply optimized_register_inv;
      (eapply optimized_inv_frame; [exact Hs|done..]). }
  revert H1. generalize (setupMobileDropdown cfg s) as s1. intros s1 H1.
  assert (OptimizedInv (setupAutoplayObserver cfg (setupAutoplayProgressBars cfg s1)))
    as H2.
  { unfold setupAutoplayProgressBars, setupAutoplayObserver.
    destruct (negb (autoplayEnabled cfg)); [done|].
    revert H1. generalize s1. intros s2. destruct_opt s2.
    intros [Ha Hp Hi Hr Hf Hl]. constructor; cnorm; auto. }
  revert H2.
  generalize (setupAutoplayObserver cfg (setupAutoplayProgressBars cfg s1)) as s2.
  intros s2 H2. apply optimized_setupHover_inv in H2. revert H2.
  generalize (setupAutoplayHoverPause cfg s2) as s3. intros s3 H3.
  assert (OptimizedInv (setupAutoplayToggle cfg s3)) as H4.
  { unfold setupAutoplayToggle. repeat case_match; try done.
    by apply optimized_register_inv. }
  revert H4. generalize (setupAutoplayToggle cfg s3) as s4. intros s4 H4.
  destruct (autoplayEnabled cfg).
  - apply optimized_start_inv, optimized_register_inv.
    do 2 apply optimized_setupPerLink_inv.
    by apply optimized_setActiveTab_inv.
  - apply optimized_register_inv.
    do 2 apply optimized_setupPerLink_inv.
    by apply optimized_setActiveTab_inv.
Qed.

Lemma optimized_mount_inv w s :
  pristine w → initTabsComponent cfg w = Some s → OptimizedInv s.
Proof.
  intros (Ht & Hls & _) Hm. unfold initTabsComponent in Hm.
  destruct (bool_decide (tabLinks (dom w) = []) || bool_decide (tabPanes (dom w) = []))
    eqn:E; [done|].
  apply orb_false_elim in E as [E _]. apply bool_decide_eq_false in E.
  injection Hm as <-. apply optimized_init_inv.
  constructor; cnorm; rewrite ?Ht; auto.
  - destruct (tabLinks (dom w)); [done|]. cbn. lia.
  - intros t Hin. rewrite Ht in Hin. by apply elem_of_nil in Hin.
  - repeat split; cbn; rewrite ?Ht; try done.
    all: intros t Hin; by apply elem_of_nil in Hin.
Qed.

Lemma optimized_reachable_inv s : reachable cfg s → OptimizedInv s.
Proof.
  induction 1 as [w s Hw Hm|e s _ IH].
  - by eapply optimized_mount_inv.
  - by apply optimized_step_inv.
Qed.
End OptimizedMount.

Section Activation.
Variable cfg : Config.

Lemma classic_afterSwitch_dom s :
  dom (Classic.world (ClassicStages.autoplayAfterSwitch cfg s)) = dom (Classic.world s).
Proof.
  unfold ClassicStages.autoplayAfterSwitch, Classic.restartAutoplay,
    Classic.startAutoplay, Classic.stopAutoplay. cnorm.
  repeat case_match; reflexivity.
Qed.

Lemma optimized_afterSwitch_dom s :
  dom (Optimized.world (OptimizedStages.autoplayAfterSwitch cfg s))
  = dom (Optimized.world s).
Proof.
  unfold OptimizedStages.autoplayAfterSwitch, Optimized.restartAutoplay,
    Optimized.startAutoplay, Optimized.stopAutoplay. cnorm.
  repeat case_match; reflexivity.
Qed.

Lemma classic_afterSwitch_index s :
  Classic.currentActiveIndex (Classic.vars (ClassicStages.autoplayAfterSwitch cfg s))
  = Classic.currentActiveIndex (Classic.vars s).
Proof.
  unfold ClassicStages.autoplayAfterSwitch, Classic.restartAutoplay,
    Classic.startAutoplay, Classic.stopAutoplay. cnorm.
  repeat case_match; reflexivity.
Qed.

Lemma optimized_afterSwitch_index s :
  Optimized.currentActiveIndex
    (Optimized.vars (OptimizedStages.autoplayAfterSwitch cfg s))
  = Optimized.currentActiveIndex (Optimized.vars s).
Proof.
  unfold OptimizedStages.autoplayAfterSwitch, Optimized.restartAutoplay,
    Optimized.startAutoplay, Optimized.stopAutoplay. cnorm.
  repeat case_match; reflexivity.
Qed.

Lemma classic_setActiveTab_links index s :
  0 ≤ index < Z.of_nat (length (Classic.links s)) →
  Classic.links (Classic.setActiveTab cfg index s)
  = imap (ClassicStages.writeLink index) (Classic.links s).
Proof.
  intros Hi. rewrite classic_setActiveTab_stages.
  apply classic_outOfRange_false in Hi as ->.
  unfold Classic.links. rewrite classic_afterSwitch_dom.
  apply classic_activate_links.
Qed.

Lemma classic_setActiveTab_panes index s :
  0 ≤ index < Z.of_nat (length (Classic.links s)) →
  Classic.panes (Classic.setActiveTab cfg index s)
  = imap (ClassicStages.writePane index) (Classic.panes s).
Proof.
  intros Hi. rewrite classic_setActiveTab_stages.
  apply classic_outOfRange_false in Hi as ->.
  unfold Classic.panes. rewrite classic_afterSwitch_dom.
  apply classic_activate_panes.
Qed.

Lemma classic_setActiveTab_index index s :
  0 ≤ index < Z.of_nat (length (Classic.links s)) →
  Classic.currentActiveIndex (Classic.vars (Classic.setActiveTab cfg index s)) = index.
Proof.
  intros Hi. rewrite classic_setActiveTab_stages.
  apply classic_outOfRange_false in Hi as ->.
  by rewrite classic_afterSwitch_index, classic_activate_vars.
Qed.

(** The two-phase link loop of the optimized variant writes what the single
    loop of the classic variant writes. *)
Lemma writeLink_phases index (links : list TabLink) i l :
  links !! i = Some l →
  OptimizedStages.writeLink (map overlay links)
    (imap (λ i _, bool_decide (Z.of_nat i = index)) links) i l
  = ClassicStages.writeLink index i l.
Proof.
  intros Hl. unfold OptimizedStages.writeLink, ClassicStages.writeLink.
  rewrite list_lookup_imap, list_lookup_fmap, Hl. reflexivity.
Qed.

Lemma writeLinks_phases index (links : list TabLink) :
  imap (OptimizedStages.writeLink (map overlay links)
          (imap (λ i _, bool_decide (Z.of_nat i = index)) links)) links
  = imap (ClassicStages.writeLink index) links.
Proof.
  apply list_eq. intros i. rewrite !list_lookup_imap.
  destruct (links !! i) as [l|] eqn:Hl; [|done]. cbn.
  by rewrite (writeLink_phases index links i l Hl).
Qed.

Lemma writePane_same index i p :
  OptimizedStages.writePane index i p = ClassicStages.writePane index i p.
Proof.
  unfold OptimizedStages.writePane, ClassicStages.writePane. f_equal.
  by repeat case_bool_decide.
Qed.

Lemma optimized_setActiveTab_links index s :
  0 ≤ index < Z.of_nat (length (Optimized.tabLinksArray s)) →
  Optimized.tabLinksArray (Optimized.setActiveTab cfg index s)
  = imap (ClassicStages.writeLink index) (Optimized.tabLinksArray s).
Proof.
  intros Hi. rewrite optimized_setActiveTab_stages.
  apply optimized_outOfRange_false in Hi as ->.
  unfold Optimized.tabLinksArray at 1. rewrite optimized_afterSwitch_dom.
  fold (Optimized.tabLinksArray (OptimizedStages.activate cfg index s)).
  rewrite optimized_activate_links. apply writeLinks_phases.
Qed.

Lemma optimized_setActiveTab_panes index s :
  0 ≤ index < Z.of_nat (length (Optimized.tabLinksArray s)) →
  Optimized.tabPanesArray (Optimized.setActiveTab cfg index s)
  = imap (ClassicStages.writePane index) (Optimized.tabPanesArray s).
Proof.
  intros Hi. rewrite optimized_setActiveTab_stages.
  apply optimized_outOfRange_false in Hi as ->.
  unfold Optimized.tabPanesArray at 1. rewrite optimized_afterSwitch_dom.
  fold (Optimized.tabPanesArray (OptimizedStages.activate cfg index s)).
  rewrite optimized_activate_panes.
  apply imap_ext. intros. apply writePane_same.
Qed.

Lemma optimized_setActiveTab_index index s :
  0 ≤ index < Z.of_nat (length (Optimized.tabLinksArray s)) →
  Optimized.currentActiveIndex (Optimized.vars (Optimized.setActiveTab cfg index s))
  = index.
Proof.
  intros Hi. rewrite optimized_setActiveTab_stages.
  apply optimized_outOfRange_false in Hi as ->.
  by rewrite optimized_afterSwitch_index, optimized_activate_vars.
Qed.

Lemma writeLink_selected index i l :
  if decide (i = Z.to_nat index) then
    0 ≤ index → selected (ClassicStages.writeLink index i l)
  else unselected (ClassicStages.writeLink index i l).
Proof.
  unfold ClassicStages.writeLink, selected, unselected.
  case_decide as E.
  - intros Hi. rewrite bool_decide_true by lia.
    destruct l as [? ? ? ? ? [?|] ? ? ?]; done.
  - destruct (bool_decide (Z.of_nat i = index)) eqn:Eb.
    + apply bool_decide_eq_true in Eb. lia.
    + destruct l as [? ? ? ? ? [?|] ? ? ?]; done.
Qed.

Lemma writePane_shown index i p :
  if decide (i = Z.to_nat index) then
    0 ≤ index → shown (ClassicStages.writePane index i p)
  else hidden (ClassicStages.writePane index i p).
Proof.
  unfold ClassicStages.writePane, shown, hidden.
  case_decide as E.
  - intros Hi. by rewrite bool_decide_true by lia.
  - destruct (bool_decide (Z.of_nat i = index)) eqn:Eb; [|done].
    apply bool_decide_eq_true in Eb. lia.
Qed.

Lemma links_written index (links : list TabLink) :
  0 ≤ index < Z.of_nat (length links) →
  only_at selected unselected (Z.to_nat index)
          (imap (ClassicStages.writeLink index) links).
Proof.
  intros Hi. split.
  - apply lookup_lt_is_Some. rewrite length_imap. lia.
  - intros j x. rewrite list_lookup_imap.
    destruct (links !! j) as [l|]; [|done]. intros [= <-].
    pose proof (writeLink_selected index j l) as H.
    case_decide; [apply H; lia|done].
Qed.

Lemma panes_written index (panes : list TabPane) :
  0 ≤ index →
  split_at shown hidden (Z.to_nat index) (imap (ClassicStages.writePane index) panes).
Proof.
  intros Hi j x. rewrite list_lookup_imap.
  destruct (panes !! j) as [p|]; [|done]. intros [= <-].
  pose proof (writePane_shown index j p) as H.
  case_decide; [by apply H|done].
Qed.
End Activation.

(** * Claims about activation and keyboard navigation *)

(** C7. [setActiveTab] with an index below 0 or not below the number of tab
    links returns the state it was given: the active index, every attribute
    of every link and pane, the autoplay variables, the timer table and the
    log of effects are all unchanged. *)
Theorem setActiveTab_out_of_range_noop (cfg : Config) (index : Z) :
  (∀ s : Classic.State,
     index < 0 ∨ index >= Z.of_nat (length (Classic.links s)) →
     Classic.setActiveTab cfg index s = s) ∧
  (∀ s : Optimized.State,
     index < 0 ∨ index >= Z.of_nat (length (Optimized.tabLinksArray s)) →
     Optimized.setActiveTab cfg index s = s).
Proof.
  split; intros s Hi.
  - rewrite classic_setActiveTab_stages.
    destruct (ClassicStages.outOfRange index s) eqn:E; [done|].
    apply classic_outOfRange_false in E. lia.
  - rewrite optimized_setActiveTab_stages.
    destruct (OptimizedStages.outOfRange index s) eqn:E; [done|].
    apply optimized_outOfRange_false in E. lia.
Qed.

Lemma setActiveTab_out_of_range_noop_witness :
  Classic.setActiveTab autoplay_cfg 3
    (classic_mounted autoplay_cfg (sample_world three_links 3 ""))
  = classic_mounted autoplay_cfg (sample_world three_links 3 "") ∧
  Optimized.setActiveTab autoplay_cfg (-1)
    (optimized_mounted autoplay_cfg (sample_world three_links 3 ""))
  = optimized_mounted autoplay_cfg (sample_world three_links 3 "").
Proof.
  split.
  - apply (proj1 (setActiveTab_out_of_range_noop autoplay_cfg 3)).
    right. vm_compute. discriminate.
  - apply (proj2 (setActiveTab_out_of_range_noop autoplay_cfg (-1))).
    left. lia.
Defined.

(** C1, as the code has it.  After [setActiveTab index] with a valid index,
    exactly one tab link is selected and carries the active class, the one at
    [index], and every other link is unselected; every pane at another
    position is hidden, and the pane at [index] is shown; there is such a
    pane exactly when the component has more than [index] panes. *)
Theorem setActiveTab_activates (cfg : Config) (index : Z) :
  (∀ s : Classic.State,
     0 ≤ index < Z.of_nat (length (Classic.links s)) →
     let s' := Classic.setActiveTab cfg index s in
     only_at selected unselected (Z.to_nat index) (Classic.links s') ∧
     split_at shown hidden (Z.to_nat index) (Classic.panes s') ∧
     (is_Some (Classic.panes s' !! Z.to_nat index)
      ↔ (Z.to_nat index < length (Classic.panes s))%nat)) ∧
  (∀ s : Optimized.State,
     0 ≤ index < Z.of_nat (length (Optimized.tabLinksArray s)) →
     let s' := Optimized.setActiveTab cfg index s in
     only_at selected unselected (Z.to_nat index) (Optimized.tabLinksArray s') ∧
     split_at shown hidden (Z.to_nat index) (Optimized.tabPanesArray s') ∧
     (is_Some (Optimized.tabPanesArray s' !! Z.to_nat index)
      ↔ (Z.to_nat index < length (Optimized.tabPanesArray s))%nat)).
Proof.
  split; intros s Hi s'; subst s'.
  - rewrite classic_setActiveTab_links, classic_setActiveTab_panes by done.
    split; [by apply links_written|]. split; [apply panes_written; lia|].
    by rewrite lookup_lt_is_Some, length_imap.
  - rewrite optimized_setActiveTab_links, optimized_setActiveTab_panes by done.
    split; [by apply links_written|]. split; [apply panes_written; lia|].
    by rewrite lookup_lt_is_Some, length_imap.
Qed.

Lemma setActiveTab_activates_witness :
  only_at selected unselected 2
    (Classic.links (Classic.setActiveTab autoplay_cfg 2
       (classic_mounted autoplay_cfg (sample_world three_links 3 "")))) ∧
  only_at selected unselected 0
    (Optimized.tabLinksArray (Optimized.setActiveTab autoplay_cfg 0
       (optimized_mounted autoplay_cfg (sample_world three_links 3 "")))).
Proof.
  split.
  - apply (proj1 (setActiveTab_activates autoplay_cfg 2)
             (classic_mounted autoplay_cfg (sample_world three_links 3 ""))).
    vm_compute. split; [discriminate|reflexivity].
  - apply (proj2 (setActiveTab_activates autoplay_cfg 0)
             (optimized_mounted autoplay_cfg (sample_world three_links 3 ""))).
    vm_compute. split; [discriminate|reflexivity].
Defined.

(** C1 as stated fails on a component with two links and one pane, which
    both variants mount: after [setActiveTab 1] every pane is hidden, so no
    pane is the shown one. *)
Lemma setActiveTab_no_pane_counterexample :
  Classic.initTabsComponent plain_cfg (sample_world two_links 1 "")
  = Some (classic_mounted plain_cfg (sample_world two_links 1 "")) ∧
  0 ≤ 1 < Z.of_nat (length (Classic.links
                      (classic_mounted plain_cfg (sample_world two_links 1 "")))) ∧
  Forall hidden
    (Classic.panes (Classic.setActiveTab plain_cfg 1
       (classic_mounted plain_cfg (sample_world two_links 1 "")))) ∧
  ¬ only_at shown hidden 1
    (Classic.panes (Classic.setActiveTab plain_cfg 1
       (classic_mounted plain_cfg (sample_world two_links 1 "")))).
Proof.
  split; [reflexivity|]. split; [vm_compute; split; [discriminate|reflexivity]|].
  split.
  - vm_compute. repeat constructor.
  - intros [[p Hp] _]. vm_compute in Hp. discriminate.
Qed.

Section KeyboardFacts.
Variable cfg : Config.

Lemma classic_keydown_index (key : string) (s : Classic.State) :
  let n := Z.of_nat (length (Classic.links s)) in
  let cur := Classic.currentActiveIndex (Classic.vars s) in
  0 ≤ cur < n →
  Classic.currentActiveIndex (Classic.vars (Classic.keydownHandler cfg key s)) =
    if decide (key = "ArrowLeft"%string) then (if decide (cur = 0) then n - 1 else cur - 1)
    else if decide (key = "ArrowRight"%string)
         then (if decide (cur = n - 1) then 0 else cur + 1)
    else if decide (key = "Home"%string) then 0
    else if decide (key = "End"%string) then n - 1
    else cur.
Proof.
  intros n cur Hc. unfold Classic.keydownHandler. fold n cur.
  assert (∀ newIndex, 0 ≤ newIndex < n →
    Classic.currentActiveIndex (Classic.vars
      (let s0 := Classic.with_world (emit PreventDefault) s in
       let s1 := Classic.setActiveTab cfg newIndex s0 in
       match Classic.links s1 !! Z.to_nat newIndex with
       | Some link =>
           match overlay link with
           | Some _ =>
               Classic.with_world (emit (Focus (TOverlay (Z.to_nat newIndex)))) s1
           | None => s1
           end
       | None => s1
       end)) = newIndex) as Hgo.
  { intros newIndex Hn. cbn zeta.
    assert (Classic.currentActiveIndex (Classic.vars
              (Classic.setActiveTab cfg newIndex
                 (Classic.with_world (emit PreventDefault) s))) = newIndex) as E.
    { by apply classic_setActiveTab_index. }
    repeat case_match; exact E. }
  repeat case_decide; try done; rewrite Hgo; try lia;
    repeat case_bool_decide; lia.
Qed.

Lemma optimized_keydown_index (key : string) (s : Optimized.State) :
  let n := Z.of_nat (length (Optimized.tabLinksArray s)) in
  let cur := Optimized.currentActiveIndex (Optimized.vars s) in
  0 ≤ cur < n →
  Optimized.currentActiveIndex (Optimized.vars (Optimized.keydownHandler cfg key s)) =
    if decide (key = "ArrowLeft"%string) then (if decide (cur = 0) then n - 1 else cur - 1)
    else if decide (key = "ArrowRight"%string)
         then (if decide (cur = n - 1) then 0 else cur + 1)
    else if decide (key = "Home"%string) then 0
    else if decide (key = "End"%string) then n - 1
    else cur.
Proof.
  intros n cur Hc. unfold Optimized.keydownHandler. fold n cur.
  assert (∀ newIndex, 0 ≤ newIndex < n →
    Optimized.currentActiveIndex (Optimized.vars
      (let s0 := Optimized.with_world (emit PreventDefault) s in
       let s1 := Optimized.setActiveTab cfg newIndex s0 in
       match Optimized.tabLinksArray s1 !! Z.to_nat newIndex with
       | Some link =>
           match overlay link with
           | Some _ =>
               Optimized.with_world (emit (Focus (TOverlay (Z.to_nat newIndex)))) s1
           | None => s1
           end
       | None => s1
       end)) = newIndex) as Hgo.
  { intros newIndex Hn. cbn zeta.
    assert (Optimized.currentActiveIndex (Optimized.vars
              (Optimized.setActiveTab cfg newIndex
                 (Optimized.with_world (emit PreventDefault) s))) = newIndex) as E.
    { by apply optimized_setActiveTab_index. }
    repeat case_match; exact E. }
  repeat case_decide; try done; rewrite Hgo; try lia;
    repeat case_bool_decide; lia.
Qed.
End KeyboardFacts.

(** C9. With n >= 1 tab links and the active index in range, the keydown
    listener of a tab control moves the active index: ArrowRight to the next
    position, from n - 1 to 0; ArrowLeft to the previous one, from 0 to
    n - 1; Home to 0 and End to n - 1. *)
Theorem keyboard_navigation_wraps (cfg : Config) :
  (∀ s : Classic.State,
     let n := Z.of_nat (length (Classic.links s)) in
     let cur := Classic.currentActiveIndex (Classic.vars s) in
     let after key :=
       Classic.currentActiveIndex (Classic.vars (Classic.keydownHandler cfg key s)) in
     0 ≤ cur < n →
     after "ArrowRight"%string = (if decide (cur = n - 1) then 0 else cur + 1) ∧
     after "ArrowLeft"%string = (if decide (cur = 0) then n - 1 else cur - 1) ∧
     after "Home"%string = 0 ∧
     after "End"%string = n - 1) ∧
  (∀ s : Optimized.State,
     let n := Z.of_nat (length (Optimized.tabLinksArray s)) in
     let cur := Optimized.currentActiveIndex (Optimized.vars s) in
     let after key :=
       Optimized.currentActiveIndex
         (Optimized.vars (Optimized.keydownHandler cfg key s)) in
     0 ≤ cur < n →
     after "ArrowRight"%string = (if decide (cur = n - 1) then 0 else cur + 1) ∧
     after "ArrowLeft"%string = (if decide (cur = 0) then n - 1 else cur - 1) ∧
     after "Home"%string = 0 ∧
     after "End"%string = n - 1).
Proof.
  split; intros s n cur after Hc; subst after; cbn beta.
  - rewrite !classic_keydown_index by done. fold n cur.
    repeat split; repeat case_decide; done.
  - rewrite !optimized_keydown_index by done. fold n cur.
    repeat split; repeat case_decide; done.
Qed.


Lemma keyboard_navigation_wraps_witness :
  Classic.currentActiveIndex (Classic.vars
    (Classic.keydownHandler plain_cfg "ArrowRight"
       (Classic.setActiveTab plain_cfg 2
          (classic_mounted plain_cfg (sample_world three_links 3 ""))))) = 0 ∧
  Optimized.currentActiveIndex (Optimized.vars
    (Optimized.keydownHandler plain_cfg "ArrowLeft"
       (Optimized.setActiveTab plain_cfg 0
          (optimized_mounted plain_cfg (sample_world three_links 3 ""))))) = 2.
Proof.
  split.
  - refine (eq_trans (proj1 (proj1 (keyboard_navigation_wraps plain_cfg)
             (Classic.setActiveTab plain_cfg 2
                (classic_mounted plain_cfg (sample_world three_links 3 ""))) _)) _).
    + vm_compute. split; [discriminate|reflexivity].
    + vm_compute. reflexivity.
  - refine (eq_trans (proj1 (proj2 (proj2 (keyboard_navigation_wraps plain_cfg)
             (Optimized.setActiveTab plain_cfg 0
                (optimized_mounted plain_cfg (sample_world three_links 3 ""))) _))) _).
    + vm_compute. split; [discriminate|reflexivity].
    + vm_compute. reflexivity.
Defined.

(** * The initial active index *)

Lemma findIndex_first {A} (P : A → Prop) `{∀ x, Decision (P x)} (l : list A) i :
  first_at P l i → findIndex P l = Z.of_nat i.
Proof.
  intros [(x & Hx & HP) Hmin]. unfold findIndex.
  assert (list_find P l = Some (i, x)) as ->; [|done].
  apply list_find_Some. eauto.
Qed.

Lemma findIndex_none {A} (P : A → Prop) `{∀ x, Decision (P x)} (l : list A) :
  (∀ x, x ∈ l → ¬ P x) → findIndex P l = -1.
Proof.
  intros Hn. unfold findIndex.
  assert (list_find P l = None) as ->; [|done].
  apply list_find_None, Forall_forall. done.
Qed.

Lemma findIndex_range {A} (P : A → Prop) `{∀ x, Decision (P x)} (l : list A) :
  findIndex P l = -1 ∨ 0 ≤ findIndex P l < Z.of_nat (length l).
Proof.
  unfold findIndex. destruct (list_find P l) as [[i x]|] eqn:E; [right|by left].
  apply list_find_Some in E as (Hx & _). apply lookup_lt_Some in Hx. lia.
Qed.

Section InitialIndex.
Variable cfg : Config.

Lemma classic_findInitial_range s :
  Classic.links s ≠ [] →
  0 ≤ Classic.findInitialActiveIndex s < Z.of_nat (length (Classic.links s)).
Proof.
  intros Hne. unfold Classic.findInitialActiveIndex, Classic.hashMatchIndex.
  repeat case_decide; try done.
  all: try (destruct (Classic.links s); [done|cbn; lia]).
  - pose proof (findIndex_range (λ link, cc_active link = true) (Classic.links s)). lia.
  - pose proof (findIndex_range (λ link, cc_active link = true) (Classic.links s)). lia.
  - pose proof (findIndex_range
      (λ link, link_id link = substring1 (location_hash (env (Classic.world s))))
      (Classic.links s)). lia.
Qed.

Lemma optimized_findInitial_range s :
  Optimized.tabLinksArray s ≠ [] →
  0 ≤ Optimized.findInitialActiveIndex s
  < Z.of_nat (length (Optimized.tabLinksArray s)).
Proof.
  intros Hne. unfold Optimized.findInitialActiveIndex, Optimized.hashMatchIndex.
  repeat case_decide; try done.
  all: try (destruct (Optimized.tabLinksArray s); [done|cbn; lia]).
  - pose proof (findIndex_range (λ link, cc_active link = true)
                  (Optimized.tabLinksArray s)). lia.
  - pose proof (findIndex_range (λ link, cc_active link = true)
                  (Optimized.tabLinksArray s)). lia.
  - pose proof (findIndex_range
      (λ link, link_id link = substring1 (location_hash (env (Optimized.world s))))
      (Optimized.tabLinksArray s)). lia.
Qed.
End InitialIndex.

Section MountedIndex.
Variable cfg : Config.

Lemma classic_start_index s :
  Classic.currentActiveIndex (Classic.vars (Classic.startAutoplay cfg s))
  = Classic.currentActiveIndex (Classic.vars s).
Proof.
  unfold Classic.startAutoplay, Classic.stopAutoplay. cnorm.
  repeat case_match; reflexivity.
Qed.

Lemma optimized_start_index s :
  Optimized.currentActiveIndex (Optimized.vars (Optimized.startAutoplay cfg s))
  = Optimized.currentActiveIndex (Optimized.vars s).
Proof.
  unfold Optimized.startAutoplay, Optimized.stopAutoplay. cnorm.
  repeat case_match; reflexivity.
Qed.

Lemma classic_setupPerLink_index ty h s :
  Classic.currentActiveIndex (Classic.vars (Classic.setupPerLink ty h s))
  = Classic.currentActiveIndex (Classic.vars s).
Proof.
  unfold Classic.setupPerLink. generalize (imap pair (Classic.links s)) as ils.
  intros ils. revert s.
  induction ils as [|il ils IH]; intros s; cbn; [done|].
  rewrite IH. by case_match.
Qed.

Lemma optimized_setupPerLink_index ty h s :
  Optimized.currentActiveIndex (Optimized.vars (Optimized.setupPerLink ty h s))
  = Optimized.currentActiveIndex (Optimized.vars s).
Proof.
  unfold Optimized.setupPerLink.
  generalize (imap pair (Optimized.tabLinksArray s)) as ils.
  intros ils. revert s.
  induction ils as [|il ils IH]; intros s; cbn; [done|].
  rewrite IH. by case_match.
Qed.

Lemma classic_setups_links s :
  (Classic.links (Classic.setupMobileDropdown cfg s) = Classic.links s ∧
   env (Classic.world (Classic.setupMobileDropdown cfg s)) = env (Classic.world s)) ∧
  (Classic.links (Classic.setupAutoplayProgressBars cfg s) = Classic.links s ∧
   env (Classic.world (Classic.setupAutoplayProgressBars cfg s))
   = env (Classic.world s)) ∧
  (Classic.links (Classic.setupAutoplayObserver cfg s) = Classic.links s ∧
   env (Classic.world (Classic.setupAutoplayObserver cfg s)) = env (Classic.world s)) ∧
  (Classic.links (Classic.setupAutoplayHoverPause cfg s) = Classic.links s ∧
   env (Classic.world (Classic.setupAutoplayHoverPause cfg s))
   = env (Classic.world s)) ∧
  (Classic.links (Classic.setupAutoplayToggle cfg s) = Classic.links s ∧
   env (Classic.world (Classic.setupAutoplayToggle cfg s)) = env (Classic.world s)).
Proof.
  unfold Classic.setupAutoplayToggle, Classic.setupAutoplayHoverPause,
    Classic.setupAutoplayObserver, Classic.setupAutoplayProgressBars,
    Classic.setupMobileDropdown, Classic.register, addEventListener.
  repeat split; cnorm; repeat case_match; reflexivity.
Qed.

Lemma classic_presetup_links s :
  Classic.links (classic_presetup cfg s) = Classic.links s ∧
  env (Classic.world (classic_presetup cfg s)) = env (Classic.world s).
Proof.
  unfold classic_presetup.
  repeat match goal with
  | |- context [Classic.links (?f cfg ?x)] =>
      destruct (classic_setups_links x) as (H1 & H2 & H3 & H4 & H5);
      first [ rewrite (proj1 H5), (proj2 H5) | rewrite (proj1 H4), (proj2 H4)
            | rewrite (proj1 H3), (proj2 H3) | rewrite (proj1 H2), (proj2 H2)
            | rewrite (proj1 H1), (proj2 H1) ];
      clear H1 H2 H3 H4 H5
  end.
  done.
Qed.

Lemma optimized_setups_links s :
  (Optimized.tabLinksArray (Optimized.setupMobileDropdown cfg s)
   = Optimized.tabLinksArray s ∧
   env (Optimized.world (Optimized.setupMobileDropdown cfg s))
   = env (Optimized.world s)) ∧
  (Optimized.tabLinksArray (Optimized.setupAutoplayProgressBars cfg s)
   = Optimized.tabLinksArray s ∧
   env (Optimized.world (Optimized.setupAutoplayProgressBars cfg s))
   = env (Optimized.world s)) ∧
  (Optimized.tabLinksArray (Optimized.setupAutoplayObserver cfg s)
   = Optimized.tabLinksArray s ∧
   env (Optimized.world (Optimized.setupAutoplayObserver cfg s))
   = env (Optimized.world s)) ∧
  (Optimized.tabLinksArray (Optimized.setupAutoplayHoverPause cfg s)
   = Optimized.tabLinksArray s ∧
   env (Optimized.world (Optimized.setupAutoplayHoverPause cfg s))
   = env (Optimized.world s)) ∧
  (Optimized.tabLinksArray (Optimized.setupAutoplayToggle cfg s)
   = Optimized.tabLinksArray s ∧
   env (Optimized.world (Optimized.setupAutoplayToggle cfg s))
   = env (Optimized.world s)).
Proof.
  unfold Optimized.setupAutoplayToggle, Optimized.setupAutoplayHoverPause,
    Optimized.setupAutoplayObserver, Optimized.setupAutoplayProgressBars,
    Optimized.setupMobileDropdown, Optimized.register, addEventListener.
  repeat split; cnorm; repeat case_match; reflexivity.
Qed.

Lemma optimized_presetup_links s :
  Optimized.tabLinksArray (optimized_presetup cfg s) = Optimized.tabLinksArray s ∧
  env (Optimized.world (optimized_presetup cfg s)) = env (Optimized.world s).
Proof.
  unfold optimized_presetup.
  repeat match goal with
  | |- context [Optimized.tabLinksArray (?f cfg ?x)] =>
      destruct (optimized_setups_links x) as (H1 & H2 & H3 & H4 & H5);
      first [ rewrite (proj1 H5), (proj2 H5) | rewrite (proj1 H4), (proj2 H4)
            | rewrite (proj1 H3), (proj2 H3) | rewrite (proj1 H2), (proj2 H2)
            | rewrite (proj1 H1), (proj2 H1) ];
      clear H1 H2 H3 H4 H5
  end.
  done.
Qed.

Lemma classic_findInitial_ext s s' :
  Classic.links s' = Classic.links s →
  env (Classic.world s') = env (Classic.world s) →
  Classic.findInitialActiveIndex s' = Classic.findInitialActiveIndex s.
Proof.
  intros Hl He. unfold Classic.findInitialActiveIndex, Classic.hashMatchIndex.
  by rewrite Hl, He.
Qed.

Lemma optimized_findInitial_ext s s' :
  Optimized.tabLinksArray s' = Optimized.tabLinksArray s →
  env (Optimized.world s') = env (Optimized.world s) →
  Optimized.findInitialActiveIndex s' = Optimized.findInitialActiveIndex s.
Proof.
  intros Hl He. unfold Optimized.findInitialActiveIndex, Optimized.hashMatchIndex.
  by rewrite Hl, He.
Qed.

Lemma classic_mounted_index w s :
  Classic.initTabsComponent cfg w = Some s →
  Classic.currentActiveIndex (Classic.vars s)
  = Classic.findInitialActiveIndex (Classic.mkState Classic.initialVars w).
Proof.
  unfold Classic.initTabsComponent. intros Hm.
  destruct (bool_decide (tabLinks (dom w) = []) || bool_decide (tabPanes (dom w) = []))
    eqn:E; [done|].
  apply orb_false_elim in E as [E _]. apply bool_decide_eq_false in E.
  injection Hm as <-. unfold Classic.init.
  fold (classic_presetup cfg (Classic.mkState Classic.initialVars w)).
  destruct (classic_presetup_links (Classic.mkState Classic.initialVars w)) as [Hl He].
  unfold Classic.setupClickHandlers, Classic.setupKeyboardNav.
  assert (∀ s, Classic.currentActiveIndex (Classic.vars
            (if autoplayEnabled cfg then Classic.startAutoplay cfg s else s))
          = Classic.currentActiveIndex (Classic.vars s)) as Hs.
  { intros s. destruct (autoplayEnabled cfg); [apply classic_start_index|done]. }
  cbn [Classic.register Classic.with_world Classic.vars].
  rewrite Hs, !classic_setupPerLink_index.
  rewrite classic_setActiveTab_index.
  - by apply classic_findInitial_ext.
  - apply classic_findInitial_range. by rewrite Hl.
Qed.

Lemma optimized_mounted_index w s :
  Optimized.initTabsComponent cfg w = Some s →
  Optimized.currentActiveIndex (Optimized.vars s)
  = Optimized.findInitialActiveIndex (Optimized.mkState (Optimized.initialVars w) w).
Proof.
  unfold Optimized.initTabsComponent. intros Hm.
  destruct (bool_decide (tabLinks (dom w) = []) || bool_decide (tabPanes (dom w) = []))
    eqn:E; [done|].
  apply orb_false_elim in E as [E _]. apply bool_decide_eq_false in E.
  injection Hm as <-. unfold Optimized.init.
  fold (optimized_presetup cfg (Optimized.mkState (Optimized.initialVars w) w)).
  destruct (optimized_presetup_links (Optimized.mkState (Optimized.initialVars w) w))
    as [Hl He].
  unfold Optimized.setupClickHandlers, Optimized.setupKeyboardNav,
    Optimized.setupResizeHandler.
  assert (∀ s, Optimized.currentActiveIndex (Optimized.vars
            (if autoplayEnabled cfg then Optimized.startAutoplay cfg s else s))
          = Optimized.currentActiveIndex (Optimized.vars s)) as Hs.
  { intros s. destruct (autoplayEnabled cfg); [apply optimized_start_index|done]. }
  assert (∀ l s, Optimized.currentActiveIndex (Optimized.vars (Optimized.register l s))
                 = Optimized.currentActiveIndex (Optimized.vars s)) as Hreg.
  { intros l s. reflexivity. }
  rewrite Hreg, Hs, Hreg.
  rewrite !optimized_setupPerLink_index.
  rewrite optimized_setActiveTab_index.
  - by apply optimized_findInitial_ext.
  - apply optimized_findInitial_range. by rewrite Hl.
Qed.
End MountedIndex.

(** C8. The active index of a freshly mounted component is the value of
    [findInitialActiveIndex], which chooses by strict priority: when the
    location hash is not empty and some tab link's id equals the fragment
    after its first character, the first such link, whatever the markup marks
    active; otherwise the first link carrying the class cc-active; otherwise
    index 0. *)
Theorem findInitialActiveIndex_priority (cfg : Config) :
  (∀ w s, Classic.initTabsComponent cfg w = Some s →
     Classic.currentActiveIndex (Classic.vars s)
     = Classic.findInitialActiveIndex (Classic.mkState Classic.initialVars w)) ∧
  (∀ w s, Optimized.initTabsComponent cfg w = Some s →
     Optimized.currentActiveIndex (Optimized.vars s)
     = Optimized.findInitialActiveIndex
         (Optimized.mkState (Optimized.initialVars w) w)) ∧
  (∀ s : Classic.State,
     let h := location_hash (env (Classic.world s)) in
     let links := Classic.links s in
     let no_match := h = ""%string ∨ ∀ l, l ∈ links → link_id l ≠ substring1 h in
     (∀ c frag i, h = String c frag →
        first_at (λ l, link_id l = frag) links i →
        Classic.findInitialActiveIndex s = Z.of_nat i) ∧
     (∀ i, no_match → first_at (λ l, cc_active l = true) links i →
        Classic.findInitialActiveIndex s = Z.of_nat i) ∧
     (no_match → (∀ l, l ∈ links → cc_active l ≠ true) →
        Classic.findInitialActiveIndex s = 0)) ∧
  (∀ s : Optimized.State,
     let h := location_hash (env (Optimized.world s)) in
     let links := Optimized.tabLinksArray s in
     let no_match := h = ""%string ∨ ∀ l, l ∈ links → link_id l ≠ substring1 h in
     (∀ c frag i, h = String c frag →
        first_at (λ l, link_id l = frag) links i →
        Optimized.findInitialActiveIndex s = Z.of_nat i) ∧
     (∀ i, no_match → first_at (λ l, cc_active l = true) links i →
        Optimized.findInitialActiveIndex s = Z.of_nat i) ∧
     (no_match → (∀ l, l ∈ links → cc_active l ≠ true) →
        Optimized.findInitialActiveIndex s = 0)).
Proof.
  split; [apply classic_mounted_index|]. split; [apply optimized_mounted_index|].
  split; intros s h links no_match.
  - assert (no_match → Classic.hashMatchIndex s = None) as Hnone.
    { unfold Classic.hashMatchIndex. fold h links. intros [->|Hn]; [done|].
      case_decide; [done|]. rewrite findIndex_none by done. done. }
    unfold Classic.findInitialActiveIndex. repeat split.
    + intros c frag i Hh Hf. unfold Classic.hashMatchIndex. fold h links.
      rewrite Hh. cbn. rewrite (findIndex_first _ _ i Hf).
      destruct (decide (String c frag = ""%string)); [done|].
      destruct (decide (Z.of_nat i = -1)); [lia|done].
    + intros i Hn Hf. rewrite Hnone by done. fold links.
      rewrite (findIndex_first _ _ i Hf). case_decide; [lia|done].
    + intros Hn Hf. rewrite Hnone by done. fold links.
      rewrite findIndex_none by done. done.
  - assert (no_match → Optimized.hashMatchIndex s = None) as Hnone.
    { unfold Optimized.hashMatchIndex. fold h links. intros [->|Hn]; [done|].
      case_decide; [done|]. rewrite findIndex_none by done. done. }
    unfold Optimized.findInitialActiveIndex. repeat split.
    + intros c frag i Hh Hf. unfold Optimized.hashMatchIndex. fold h links.
      rewrite Hh. cbn. rewrite (findIndex_first _ _ i Hf).
      destruct (decide (String c frag = ""%string)); [done|].
      destruct (decide (Z.of_nat i = -1)); [lia|done].
    + intros i Hn Hf. rewrite Hnone by done. fold links.
      rewrite (findIndex_first _ _ i Hf). case_decide; [lia|done].
    + intros Hn Hf. rewrite Hnone by done. fold links.
      rewrite findIndex_none by done. done.
Qed.

Lemma findInitialActiveIndex_priority_witness :
  Classic.findInitialActiveIndex
    (Classic.mkState Classic.initialVars (sample_world three_links 3 "#faq")) = 2 ∧
  Optimized.findInitialActiveIndex
    (Optimized.mkState (Optimized.initialVars (sample_world three_links 3 ""))
                       (sample_world three_links 3 "")) = 1.
Proof.
  split.
  - eapply (proj1 (proj1 (proj2 (proj2 (findInitialActiveIndex_priority plain_cfg)))
             (Classic.mkState Classic.initialVars (sample_world three_links 3 "#faq")))
             _ "faq"%string 2%nat).
    + reflexivity.
    + split; [eexists; split; reflexivity|].
      intros j y Hy Hj. destruct j as [|[|j]]; [| |lia];
        cbn in Hy; injection Hy as <-; intros Hc; cbn in Hc; discriminate.
  - apply (proj1 (proj2 (proj2 (proj2 (proj2 (findInitialActiveIndex_priority plain_cfg)))
             (Optimized.mkState (Optimized.initialVars (sample_world three_links 3 ""))
                                (sample_world three_links 3 ""))))
             1%nat).
    + left. reflexivity.
    + split; [eexists; split; reflexivity|].
      intros j y Hy Hj. destruct j as [|j]; [|lia].
      cbn in Hy; injection Hy as <-; intros Hc; cbn in Hc; discriminate.
Defined.

(** * The autoplay cycle *)

Lemma AutoOk_at_most_one v b : AutoOk v b → (length (autoTimers b) ≤ 1)%nat.
Proof. intros [->|(t & -> & _)]; cbn; lia. Qed.

Section AutoplayFacts.
Variable cfg : Config.

(** What [startAutoplay] leaves when it runs: the one timer it has armed. *)
Lemma classic_start_spec s :
  AutoOk (Classic.autoplayTimer (Classic.vars s)) (browser (Classic.world s)) →
  autoplayEnabled cfg = true →
  Classic.isAutoplayPaused (Classic.vars s) = false →
  let s' := Classic.startAutoplay cfg s in
  let id := nextTimerId (browser (Classic.world s)) in
  autoTimers (browser (Classic.world s'))
  = [mkTimer id AutoplayTick
       (autoplayDurationMs cfg - Classic.autoplayElapsedTime (Classic.vars s))
       (now (env (Classic.world s)))] ∧
  Classic.autoplayTimer (Classic.vars s') = Some id ∧
  Classic.autoplayStartTime (Classic.vars s') = Some (now (env (Classic.world s))) ∧
  Classic.autoplayElapsedTime (Classic.vars s')
  = Classic.autoplayElapsedTime (Classic.vars s) ∧
  Classic.isAutoplayPaused (Classic.vars s') = false.
Proof.
  cdestruct s. intros Ha En Hp. apply auto_cleared in Ha. cnorm. subst pa.
  unfold Classic.startAutoplay, Classic.stopAutoplay. rewrite En. cnorm.
  destruct tm; cnorm; rewrite filter_app, Ha; done.
Qed.

Lemma optimized_start_spec s :
  AutoOk (Optimized.autoplayTimer (Optimized.vars s)) (browser (Optimized.world s)) →
  autoplayEnabled cfg = true →
  Optimized.isAutoplayPaused (Optimized.vars s) = false →
  let s' := Optimized.startAutoplay cfg s in
  let id := nextTimerId (browser (Optimized.world s)) in
  autoTimers (browser (Optimized.world s'))
  = [mkTimer id AutoplayTick
       (autoplayDurationMs cfg - Optimized.autoplayElapsedTime (Optimized.vars s))
       (now (env (Optimized.world s)))] ∧
  Optimized.autoplayTimer (Optimized.vars s') = Some id ∧
  Optimized.autoplayStartTime (Optimized.vars s')
  = Some (now (env (Optimized.world s))) ∧
  Optimized.autoplayElapsedTime (Optimized.vars s')
  = Optimized.autoplayElapsedTime (Optimized.vars s) ∧
  Optimized.isAutoplayPaused (Optimized.vars s') = false.
Proof.
  destruct_opt s. intros Ha En Hp. apply auto_cleared in Ha. cnorm. subst pa.
  unfold Optimized.startAutoplay, Optimized.stopAutoplay. rewrite En. cnorm.
  destruct tm; cnorm; rewrite filter_app, Ha; done.
Qed.

(** What [pauseAutoplay] leaves: the time run so far is added to the
    elapsed time, the flag is set and no autoplay timer stays. *)
Lemma classic_pause_spec s :
  AutoOk (Classic.autoplayTimer (Classic.vars s)) (browser (Classic.world s)) →
  autoplayEnabled cfg = true →
  let s' := Classic.pauseAutoplay cfg s in
  autoTimers (browser (Classic.world s')) = [] ∧
  Classic.autoplayTimer (Classic.vars s') = None ∧
  Classic.autoplayStartTime (Classic.vars s') = None ∧
  Classic.isAutoplayPaused (Classic.vars s') = true ∧
  Classic.autoplayElapsedTime (Classic.vars s')
  = Classic.autoplayElapsedTime (Classic.vars s)
    + match Classic.autoplayStartTime (Classic.vars s) with
      | Some t0 => now (env (Classic.world s)) - t0
      | None => 0
      end ∧
  nextTimerId (browser (Classic.world s')) = nextTimerId (browser (Classic.world s)) ∧
  env (Classic.world s') = env (Classic.world s).
Proof.
  cdestruct s. intros Ha En. apply auto_cleared in Ha. cnorm.
  unfold Classic.pauseAutoplay, Classic.stopAutoplay, Classic.updateToggleButton.
  rewrite En. cnorm.
  destruct d as [lk pn mo dt tb pc]; destruct st, tm, tb; cnorm; rewrite ?Z.add_0_r; done.
Qed.

Lemma optimized_pause_spec s :
  AutoOk (Optimized.autoplayTimer (Optimized.vars s)) (browser (Optimized.world s)) →
  autoplayEnabled cfg = true →
  let s' := Optimized.pauseAutoplay cfg s in
  autoTimers (browser (Optimized.world s')) = [] ∧
  Optimized.autoplayTimer (Optimized.vars s') = None ∧
  Optimized.autoplayStartTime (Optimized.vars s') = None ∧
  Optimized.isAutoplayPaused (Optimized.vars s') = true ∧
  Optimized.autoplayElapsedTime (Optimized.vars s')
  = Optimized.autoplayElapsedTime (Optimized.vars s)
    + match Optimized.autoplayStartTime (Optimized.vars s) with
      | Some t0 => now (env (Optimized.world s)) - t0
      | None => 0
      end ∧
  nextTimerId (browser (Optimized.world s'))
  = nextTimerId (browser (Optimized.world s)) ∧
  env (Optimized.world s') = env (Optimized.world s).
Proof.
  destruct_opt s. intros Ha En. apply auto_cleared in Ha. cnorm.
  unfold Optimized.pauseAutoplay, Optimized.stopAutoplay, Optimized.updateToggleButton.
  rewrite En. cnorm.
  destruct d as [lk pn mo dt tb pc]; destruct st, tm, tb; cnorm; rewrite ?Z.add_0_r; done.
Qed.

(** [resumeAutoplay] arms a timer for what is left of the cycle. *)
Lemma classic_resume_spec s :
  AutoOk (Classic.autoplayTimer (Classic.vars s)) (browser (Classic.world s)) →
  autoplayEnabled cfg = true →
  let s' := Classic.resumeAutoplay cfg s in
  let id := nextTimerId (browser (Classic.world s)) in
  autoTimers (browser (Classic.world s'))
  = [mkTimer id AutoplayTick
       (autoplayDurationMs cfg - Classic.autoplayElapsedTime (Classic.vars s))
       (now (env (Classic.world s)))] ∧
  Classic.autoplayTimer (Classic.vars s') = Some id ∧
  Classic.isAutoplayPaused (Classic.vars s') = false.
Proof.
  cdestruct s. intros Ha En. apply auto_cleared in Ha. cnorm.
  unfold Classic.resumeAutoplay, Classic.startAutoplay, Classic.stopAutoplay,
    Classic.updateToggleButton.
  rewrite En. cnorm.
  destruct d as [lk pn mo dt tb pc]; destruct tm, tb; cnorm; rewrite filter_app, Ha; done.
Qed.

Lemma optimized_resume_spec s :
  AutoOk (Optimized.autoplayTimer (Optimized.vars s)) (browser (Optimized.world s)) →
  autoplayEnabled cfg = true →
  let s' := Optimized.resumeAutoplay cfg s in
  let id := nextTimerId (browser (Optimized.world s)) in
  autoTimers (browser (Optimized.world s'))
  = [mkTimer id AutoplayTick
       (autoplayDurationMs cfg - Optimized.autoplayElapsedTime (Optimized.vars s))
       (now (env (Optimized.world s)))] ∧
  Optimized.autoplayTimer (Optimized.vars s') = Some id ∧
  Optimized.isAutoplayPaused (Optimized.vars s') = false.
Proof.
  destruct_opt s. intros Ha En. apply auto_cleared in Ha. cnorm.
  unfold Optimized.resumeAutoplay, Optimized.startAutoplay, Optimized.stopAutoplay,
    Optimized.updateToggleButton.
  rewrite En. cnorm.
  destruct d as [lk pn mo dt tb pc]; destruct tm, tb; cnorm; rewrite filter_app, Ha; done.
Qed.

Lemma classic_wait d s :
  Classic.step cfg (EWait d) s
  = Classic.with_world (with_env (λ v, set_now (now v + Z.max 0 d) v)) s.
Proof. reflexivity. Qed.

Lemma optimized_wait d s :
  Optimized.step cfg (EWait d) s
  = Optimized.with_world (with_env (λ v, set_now (now v + Z.max 0 d) v)) s.
Proof. reflexivity. Qed.
End AutoplayFacts.

(** C3. In a mounted autoplay-enabled group whose cycle is running (started
    at [t0], with [elapsed] milliseconds carried over), let
    e = elapsed + (now - t0) be the time into the cycle.  If [pauseAutoplay]
    is called now and [resumeAutoplay] after [d] more milliseconds, the one
    autoplay timer scheduled afterwards is the one armed by the resume, with
    delay durationMs - e: 3000 for durationMs = 5000 and e = 2000. *)
Theorem pause_resume_keeps_remaining (cfg : Config) :
  (∀ (s : Classic.State) (t0 d : Z),
     Classic.reachable cfg s →
     autoplayEnabled cfg = true →
     Classic.autoplayStartTime (Classic.vars s) = Some t0 →
     let e := Classic.autoplayElapsedTime (Classic.vars s)
              + (now (env (Classic.world s)) - t0) in
     let s' := Classic.resumeAutoplay cfg
                 (Classic.step cfg (EWait d) (Classic.pauseAutoplay cfg s)) in
     ∃ id, Classic.autoplayTimer (Classic.vars s') = Some id ∧
           autoTimers (browser (Classic.world s'))
           = [mkTimer id AutoplayTick (autoplayDurationMs cfg - e)
                      (now (env (Classic.world s)) + Z.max 0 d)]) ∧
  (∀ (s : Optimized.State) (t0 d : Z),
     Optimized.reachable cfg s →
     autoplayEnabled cfg = true →
     Optimized.autoplayStartTime (Optimized.vars s) = Some t0 →
     let e := Optimized.autoplayElapsedTime (Optimized.vars s)
              + (now (env (Optimized.world s)) - t0) in
     let s' := Optimized.resumeAutoplay cfg
                 (Optimized.step cfg (EWait d) (Optimized.pauseAutoplay cfg s)) in
     ∃ id, Optimized.autoplayTimer (Optimized.vars s') = Some id ∧
           autoTimers (browser (Optimized.world s'))
           = [mkTimer id AutoplayTick (autoplayDurationMs cfg - e)
                      (now (env (Optimized.world s)) + Z.max 0 d)]).
Proof.
  split; intros s t0 d Hr En Hst e s'.
  - apply classic_reachable_inv in Hr as [Ha _ _ _].
    destruct (classic_pause_spec cfg s Ha En) as (P1 & P2 & P3 & P4 & P5 & P6 & P7).
    rewrite Hst in P5.
    set (s1 := Classic.pauseAutoplay cfg s) in *.
    assert (AutoOk (Classic.autoplayTimer (Classic.vars (Classic.step cfg (EWait d) s1)))
                   (browser (Classic.world (Classic.step cfg (EWait d) s1)))) as Ha1.
    { rewrite classic_wait. left. exact P1. }
    destruct (classic_resume_spec cfg _ Ha1 En) as (R1 & R2 & _).
    exists (nextTimerId (browser (Classic.world (Classic.step cfg (EWait d) s1)))).
    split; [exact R2|]. subst s'. rewrite R1. rewrite classic_wait. cbn.
    by rewrite P5, P7.
  - apply optimized_reachable_inv in Hr as [Ha _ _ _ _ _].
    destruct (optimized_pause_spec cfg s Ha En) as (P1 & P2 & P3 & P4 & P5 & P6 & P7).
    rewrite Hst in P5.
    set (s1 := Optimized.pauseAutoplay cfg s) in *.
    assert (AutoOk (Optimized.autoplayTimer
                      (Optimized.vars (Optimized.step cfg (EWait d) s1)))
                   (browser (Optimized.world (Optimized.step cfg (EWait d) s1)))) as Ha1.
    { rewrite optimized_wait. left. exact P1. }
    destruct (optimized_resume_spec cfg _ Ha1 En) as (R1 & R2 & _).
    exists (nextTimerId (browser (Optimized.world (Optimized.step cfg (EWait d) s1)))).
    split; [exact R2|]. subst s'. rewrite R1. rewrite optimized_wait. cbn.
    by rewrite P5, P7.
Qed.

(** * Reachable sample states *)

Lemma sample_pristine links panes hash : pristine (sample_world links panes hash).
Proof. repeat split. Qed.

Lemma classic_sample_reachable cfg l links panes hash :
  Classic.reachable cfg (classic_mounted cfg (sample_world (l :: links) (S panes) hash)).
Proof.
  apply (Classic.reach_mount cfg (sample_world (l :: links) (S panes) hash));
    [apply sample_pristine|reflexivity].
Defined.

Lemma optimized_sample_reachable cfg l links panes hash :
  Optimized.reachable cfg
    (optimized_mounted cfg (sample_world (l :: links) (S panes) hash)).
Proof.
  apply (Optimized.reach_mount cfg (sample_world (l :: links) (S panes) hash));
    [apply sample_pristine|reflexivity].
Defined.

Lemma pause_resume_keeps_remaining_witness :
  (∃ id,
     Classic.autoplayTimer (Classic.vars
       (Classic.resumeAutoplay autoplay_cfg
          (Classic.step autoplay_cfg (EWait 700)
             (Classic.pauseAutoplay autoplay_cfg
                (Classic.step autoplay_cfg (EWait 2000)
                   (classic_mounted autoplay_cfg (sample_world three_links 3 "")))))))
     = Some id ∧
     autoTimers (browser (Classic.world
       (Classic.resumeAutoplay autoplay_cfg
          (Classic.step autoplay_cfg (EWait 700)
             (Classic.pauseAutoplay autoplay_cfg
                (Classic.step autoplay_cfg (EWait 2000)
                   (classic_mounted autoplay_cfg (sample_world three_links 3 ""))))))))
     = [mkTimer id AutoplayTick 3000 2700]) ∧
  (∃ id,
     Optimized.autoplayTimer (Optimized.vars
       (Optimized.resumeAutoplay autoplay_cfg
          (Optimized.step autoplay_cfg (EWait 700)
             (Optimized.pauseAutoplay autoplay_cfg
                (Optimized.step autoplay_cfg (EWait 2000)
                   (optimized_mounted autoplay_cfg (sample_world three_links 3 "")))))))
     = Some id ∧
     autoTimers (browser (Optimized.world
       (Optimized.resumeAutoplay autoplay_cfg
          (Optimized.step autoplay_cfg (EWait 700)
             (Optimized.pauseAutoplay autoplay_cfg
                (Optimized.step autoplay_cfg (EWait 2000)
                   (optimized_mounted autoplay_cfg (sample_world three_links 3 ""))))))))
     = [mkTimer id AutoplayTick 3000 2700]).
Proof.
  split.
  - destruct (proj1 (pause_resume_keeps_remaining autoplay_cfg)
                (Classic.step autoplay_cfg (EWait 2000)
                   (classic_mounted autoplay_cfg (sample_world three_links 3 "")))
                0 700) as (id & H1 & H2).
    + apply Classic.reach_step, classic_sample_reachable.
    + reflexivity.
    + vm_compute. reflexivity.
    + exists id. split; [exact H1|].
      etransitivity; [exact H2|]. vm_compute. reflexivity.
  - destruct (proj2 (pause_resume_keeps_remaining autoplay_cfg)
                (Optimized.step autoplay_cfg (EWait 2000)
                   (optimized_mounted autoplay_cfg (sample_world three_links 3 "")))
                0 700) as (id & H1 & H2).
    + apply Optimized.reach_step, optimized_sample_reachable.
    + reflexivity.
    + vm_compute. reflexivity.
    + exists id. split; [exact H1|].
      etransitivity; [exact H2|]. vm_compute. reflexivity.
Defined.

Section SwitchFacts.
Variable cfg : Config.

Lemma classic_restart_spec s :
  AutoOk (Classic.autoplayTimer (Classic.vars s)) (browser (Classic.world s)) →
  autoplayEnabled cfg = true →
  Classic.isAutoplayPaused (Classic.vars s) = false →
  let s' := Classic.restartAutoplay cfg s in
  let id := nextTimerId (browser (Classic.world s)) in
  autoTimers (browser (Classic.world s'))
  = [mkTimer id AutoplayTick (autoplayDurationMs cfg) (now (env (Classic.world s)))] ∧
  Classic.autoplayTimer (Classic.vars s') = Some id ∧
  Classic.autoplayElapsedTime (Classic.vars s') = 0.
Proof.
  intros Ha En Hp. unfold Classic.restartAutoplay. rewrite En. cbn [negb].
  cbv zeta.
  set (s1 := Classic.with_vars (Classic.set_autoplayElapsedTime 0) s).
  assert (∀ s2, Classic.vars s2 = Classic.vars s1 →
                browser (Classic.world s2) = browser (Classic.world s) →
                env (Classic.world s2) = env (Classic.world s) →
    autoTimers (browser (Classic.world (Classic.startAutoplay cfg s2)))
    = [mkTimer (nextTimerId (browser (Classic.world s))) AutoplayTick
               (autoplayDurationMs cfg) (now (env (Classic.world s)))] ∧
    Classic.autoplayTimer (Classic.vars (Classic.startAutoplay cfg s2))
    = Some (nextTimerId (browser (Classic.world s))) ∧
    Classic.autoplayElapsedTime (Classic.vars (Classic.startAutoplay cfg s2)) = 0) as H.
  { intros s2 Hv Hb He.
    destruct (classic_start_spec cfg s2) as (S1 & S2 & S3 & S4 & S5).
    - by rewrite Hv, Hb.
    - done.
    - by rewrite Hv.
    - rewrite S1, S2, S4, Hv, Hb, He. cbn. by rewrite Z.sub_0_r. }
  repeat case_match; apply H; done.
Qed.

Lemma optimized_restart_spec s :
  AutoOk (Optimized.autoplayTimer (Optimized.vars s)) (browser (Optimized.world s)) →
  autoplayEnabled cfg = true →
  Optimized.isAutoplayPaused (Optimized.vars s) = false →
  let s' := Optimized.restartAutoplay cfg s in
  let id := nextTimerId (browser (Optimized.world s)) in
  autoTimers (browser (Optimized.world s'))
  = [mkTimer id AutoplayTick (autoplayDurationMs cfg)
             (now (env (Optimized.world s)))] ∧
  Optimized.autoplayTimer (Optimized.vars s') = Some id ∧
  Optimized.autoplayElapsedTime (Optimized.vars s') = 0.
Proof.
  intros Ha En Hp. unfold Optimized.restartAutoplay. rewrite En. cbn [negb].
  cbv zeta.
  set (s1 := Optimized.with_vars (Optimized.set_autoplayElapsedTime 0) s).
  assert (∀ s2, Optimized.vars s2 = Optimized.vars s1 →
                browser (Optimized.world s2) = browser (Optimized.world s) →
                env (Optimized.world s2) = env (Optimized.world s) →
    autoTimers (browser (Optimized.world (Optimized.startAutoplay cfg s2)))
    = [mkTimer (nextTimerId (browser (Optimized.world s))) AutoplayTick
               (autoplayDurationMs cfg) (now (env (Optimized.world s)))] ∧
    Optimized.autoplayTimer (Optimized.vars (Optimized.startAutoplay cfg s2))
    = Some (nextTimerId (browser (Optimized.world s))) ∧
    Optimized.autoplayElapsedTime (Optimized.vars (Optimized.startAutoplay cfg s2)) = 0)
    as H.
  { intros s2 Hv Hb He.
    destruct (optimized_start_spec cfg s2) as (S1 & S2 & S3 & S4 & S5).
    - by rewrite Hv, Hb.
    - done.
    - by rewrite Hv.
    - rewrite S1, S2, S4, Hv, Hb, He. cbn. by rewrite Z.sub_0_r. }
  repeat case_match; apply H; done.
Qed.
End SwitchFacts.

(** C4. In a mounted autoplay-enabled group, [setActiveTab] with a valid
    index, called while paused, sets the elapsed time to 0 and schedules
    nothing: the timer table is the one before and the timer slot stays
    empty; called while running, it sets the elapsed time to 0 and leaves
    exactly one autoplay timer, newly armed for the full duration. *)
Theorem setActiveTab_autoplay (cfg : Config) :
  (∀ (s : Classic.State) (index : Z),
     Classic.reachable cfg s →
     autoplayEnabled cfg = true →
     0 ≤ index < Z.of_nat (length (Classic.links s)) →
     let s' := Classic.setActiveTab cfg index s in
     (Classic.isAutoplayPaused (Classic.vars s) = true →
        Classic.autoplayElapsedTime (Classic.vars s') = 0 ∧
        Classic.autoplayTimer (Classic.vars s') = None ∧
        browser (Classic.world s') = browser (Classic.world s) ∧
        autoTimers (browser (Classic.world s')) = []) ∧
     (Classic.isAutoplayPaused (Classic.vars s) = false →
        Classic.autoplayElapsedTime (Classic.vars s') = 0 ∧
        Classic.autoplayTimer (Classic.vars s')
        = Some (nextTimerId (browser (Classic.world s))) ∧
        autoTimers (browser (Classic.world s'))
        = [mkTimer (nextTimerId (browser (Classic.world s))) AutoplayTick
                   (autoplayDurationMs cfg) (now (env (Classic.world s)))])) ∧
  (∀ (s : Optimized.State) (index : Z),
     Optimized.reachable cfg s →
     autoplayEnabled cfg = true →
     0 ≤ index < Z.of_nat (length (Optimized.tabLinksArray s)) →
     let s' := Optimized.setActiveTab cfg index s in
     (Optimized.isAutoplayPaused (Optimized.vars s) = true →
        Optimized.autoplayElapsedTime (Optimized.vars s') = 0 ∧
        Optimized.autoplayTimer (Optimized.vars s') = None ∧
        browser (Optimized.world s') = browser (Optimized.world s) ∧
        autoTimers (browser (Optimized.world s')) = []) ∧
     (Optimized.isAutoplayPaused (Optimized.vars s) = false →
        Optimized.autoplayElapsedTime (Optimized.vars s') = 0 ∧
        Optimized.autoplayTimer (Optimized.vars s')
        = Some (nextTimerId (browser (Optimized.world s))) ∧
        autoTimers (browser (Optimized.world s'))
        = [mkTimer (nextTimerId (browser (Optimized.world s))) AutoplayTick
                   (autoplayDurationMs cfg) (now (env (Optimized.world s)))])).
Proof.
  split; intros s index Hr En Hi s'; subst s'.
  - apply classic_reachable_inv in Hr as [Ha Hp _ _].
    rewrite classic_setActiveTab_stages.
    apply classic_outOfRange_false in Hi as ->.
    unfold ClassicStages.autoplayAfterSwitch. rewrite En.
    rewrite classic_activate_vars. cbn [Classic.isAutoplayPaused
      Classic.set_currentActiveIndex].
    split; intros Hpa; rewrite Hpa.
    + destruct (Hp Hpa) as [Hn Hv]. cbn.
      rewrite classic_activate_vars, classic_activate_browser. cbn. done.
    + destruct (classic_restart_spec cfg (ClassicStages.activate cfg index s))
        as (R1 & R2 & R3).
      * by rewrite classic_activate_vars, classic_activate_browser.
      * done.
      * by rewrite classic_activate_vars.
      * rewrite classic_activate_browser, classic_activate_env in *. done.
  - apply optimized_reachable_inv in Hr as [Ha Hp _ _ _ _].
    rewrite optimized_setActiveTab_stages.
    apply optimized_outOfRange_false in Hi as ->.
    unfold OptimizedStages.autoplayAfterSwitch. rewrite En.
    rewrite optimized_activate_vars. cbn [Optimized.isAutoplayPaused
      Optimized.set_currentActiveIndex].
    split; intros Hpa; rewrite Hpa.
    + destruct (Hp Hpa) as [Hn Hv]. cbn.
      rewrite optimized_activate_vars, optimized_activate_browser. cbn. done.
    + destruct (optimized_restart_spec cfg (OptimizedStages.activate cfg index s))
        as (R1 & R2 & R3).
      * by rewrite optimized_activate_vars, optimized_activate_browser.
      * done.
      * by rewrite optimized_activate_vars.
      * rewrite optimized_activate_browser, optimized_activate_env in *. done.
Qed.

Lemma setActiveTab_autoplay_witness :
  Classic.autoplayElapsedTime (Classic.vars
    (Classic.setActiveTab autoplay_cfg 2
       (Classic.step autoplay_cfg EMouseEnter
          (Classic.step autoplay_cfg (EWait 2000)
             (classic_mounted autoplay_cfg (sample_world three_links 3 "")))))) = 0 ∧
  Optimized.autoplayElapsedTime (Optimized.vars
    (Optimized.setActiveTab autoplay_cfg 2
       (Optimized.step autoplay_cfg (EWait 2000)
          (optimized_mounted autoplay_cfg (sample_world three_links 3 ""))))) = 0.
Proof.
  split.
  - refine (proj1 (proj1 (proj1 (setActiveTab_autoplay autoplay_cfg)
      (Classic.step autoplay_cfg EMouseEnter
         (Classic.step autoplay_cfg (EWait 2000)
            (classic_mounted autoplay_cfg (sample_world three_links 3 ""))))
      2 _ _ _) _)).
    + do 2 apply Classic.reach_step. apply classic_sample_reachable.
    + reflexivity.
    + vm_compute. split; [discriminate|reflexivity].
    + vm_compute. reflexivity.
  - refine (proj1 (proj2 (proj2 (setActiveTab_autoplay autoplay_cfg)
      (Optimized.step autoplay_cfg (EWait 2000)
         (optimized_mounted autoplay_cfg (sample_world three_links 3 "")))
      2 _ _ _) _)).
    + apply Optimized.reach_step. apply optimized_sample_reachable.
    + reflexivity.
    + vm_compute. split; [discriminate|reflexivity].
    + vm_compute. reflexivity.
Defined.

(** C5. In every reachable state of a mounted group at most one autoplay
    timer is scheduled, and it is the one whose id the timer slot holds; each
    operation that arms a timer ([startAutoplay], [restartAutoplay],
    [resumeAutoplay], [setActiveTab]) leaves at most one as well, having
    cleared the slot's timer first. *)
Theorem at_most_one_autoplay_timer (cfg : Config) :
  (∀ s : Classic.State,
     Classic.reachable cfg s →
     AutoOk (Classic.autoplayTimer (Classic.vars s)) (browser (Classic.world s)) ∧
     (length (autoTimers (browser (Classic.world s))) ≤ 1)%nat ∧
     ∀ op, op ∈ [Classic.startAutoplay cfg; Classic.restartAutoplay cfg;
                 Classic.resumeAutoplay cfg] ++
                ((λ i, Classic.setActiveTab cfg (Z.of_nat i))
                   <$> seq 0 (length (Classic.links s))) →
           (length (autoTimers (browser (Classic.world (op s)))) ≤ 1)%nat) ∧
  (∀ s : Optimized.State,
     Optimized.reachable cfg s →
     AutoOk (Optimized.autoplayTimer (Optimized.vars s))
            (browser (Optimized.world s)) ∧
     (length (autoTimers (browser (Optimized.world s))) ≤ 1)%nat ∧
     ∀ op, op ∈ [Optimized.startAutoplay cfg; Optimized.restartAutoplay cfg;
                 Optimized.resumeAutoplay cfg] ++
                ((λ i, Optimized.setActiveTab cfg (Z.of_nat i))
                   <$> seq 0 (length (Optimized.tabLinksArray s))) →
           (length (autoTimers (browser (Optimized.world (op s)))) ≤ 1)%nat).
Proof.
  split; intros s Hr.
  - apply classic_reachable_inv in Hr. split; [apply Hr|].
    split; [eapply AutoOk_at_most_one, Hr|].
    intros op Hop. eapply AutoOk_at_most_one, c_auto.
    apply elem_of_app in Hop as [Hop|Hop].
    + repeat (apply elem_of_cons in Hop as [->|Hop]);
        [by apply classic_start_inv|by apply classic_restart_inv
        |by apply classic_resume_inv|by apply elem_of_nil in Hop].
    + apply list_elem_of_fmap in Hop as (i & -> & _).
      by apply classic_setActiveTab_inv.
  - apply optimized_reachable_inv in Hr. split; [apply Hr|].
    split; [eapply AutoOk_at_most_one, Hr|].
    intros op Hop. eapply AutoOk_at_most_one, o_auto.
    apply elem_of_app in Hop as [Hop|Hop].
    + repeat (apply elem_of_cons in Hop as [->|Hop]);
        [by apply optimized_start_inv|by apply optimized_restart_inv
        |by apply optimized_resume_inv|by apply elem_of_nil in Hop].
    + apply list_elem_of_fmap in Hop as (i & -> & _).
      by apply optimized_setActiveTab_inv.
Qed.

Lemma classic_run_reachable cfg evs s :
  Classic.reachable cfg s → Classic.reachable cfg (Classic.run cfg evs s).
Proof.
  revert s. induction evs as [|e evs IH]; intros s Hs; [done|].
  apply (IH (Classic.step cfg e s)). by apply Classic.reach_step.
Qed.

Lemma optimized_run_reachable cfg evs s :
  Optimized.reachable cfg s → Optimized.reachable cfg (Optimized.run cfg evs s).
Proof.
  revert s. induction evs as [|e evs IH]; intros s Hs; [done|].
  apply (IH (Optimized.step cfg e s)). by apply Optimized.reach_step.
Qed.

Lemma at_most_one_autoplay_timer_witness :
  (length (autoTimers (browser (Classic.world
     (Classic.run autoplay_cfg [EWait 5000; ETimer AutoplayTick; EClickTab 0]
        (classic_mounted autoplay_cfg (sample_world three_links 3 ""))))))
   ≤ 1)%nat ∧
  (length (autoTimers (browser (Optimized.world
     (Optimized.run autoplay_cfg [EResize 500; EWait 5000; ETimer AutoplayTick]
        (optimized_mounted autoplay_cfg (sample_world three_links 3 ""))))))
   ≤ 1)%nat.
Proof.
  split.
  - refine (proj1 (proj2 (proj1 (at_most_one_autoplay_timer autoplay_cfg) _ _))).
    apply classic_run_reachable, classic_sample_reachable.
  - refine (proj1 (proj2 (proj2 (at_most_one_autoplay_timer autoplay_cfg) _ _))).
    apply optimized_run_reachable, optimized_sample_reachable.
Defined.

(** * The paused flag and the pause sources *)

Section PausedFlag.
Variable cfg : Config.

Lemma classic_setActiveTab_paused index s :
  Classic.isAutoplayPaused (Classic.vars (Classic.setActiveTab cfg index s))
  = Classic.isAutoplayPaused (Classic.vars s).
Proof.
  rewrite classic_setActiveTab_stages.
  destruct (ClassicStages.outOfRange index s); [done|].
  transitivity (Classic.isAutoplayPaused
                  (Classic.vars (ClassicStages.activate cfg index s)));
    [|by rewrite classic_activate_vars].
  generalize (ClassicStages.activate cfg index s) as s1. intros s1. cdestruct s1.
  unfold ClassicStages.autoplayAfterSwitch, Classic.restartAutoplay,
    Classic.startAutoplay, Classic.stopAutoplay. cnorm.
  repeat case_match; reflexivity.
Qed.

Lemma optimized_setActiveTab_paused index s :
  Optimized.isAutoplayPaused (Optimized.vars (Optimized.setActiveTab cfg index s))
  = Optimized.isAutoplayPaused (Optimized.vars s).
Proof.
  rewrite optimized_setActiveTab_stages.
  destruct (OptimizedStages.outOfRange index s); [done|].
  transitivity (Optimized.isAutoplayPaused
                  (Optimized.vars (OptimizedStages.activate cfg index s)));
    [|by rewrite optimized_activate_vars].
  generalize (OptimizedStages.activate cfg index s) as s1. intros s1. destruct_opt s1.
  unfold OptimizedStages.autoplayAfterSwitch, Optimized.restartAutoplay,
    Optimized.startAutoplay, Optimized.stopAutoplay. cnorm.
  repeat case_match; reflexivity.
Qed.

Lemma classic_pause_paused s :
  Classic.isAutoplayPaused (Classic.vars (Classic.pauseAutoplay cfg s))
  = if autoplayEnabled cfg then true else Classic.isAutoplayPaused (Classic.vars s).
Proof.
  unfold Classic.pauseAutoplay, Classic.stopAutoplay, Classic.updateToggleButton.
  cdestruct s. destruct d. cnorm.
  destruct (autoplayEnabled cfg); cnorm; repeat case_match; reflexivity.
Qed.

Lemma classic_resume_paused s :
  Classic.isAutoplayPaused (Classic.vars (Classic.resumeAutoplay cfg s))
  = if autoplayEnabled cfg then false else Classic.isAutoplayPaused (Classic.vars s).
Proof.
  unfold Classic.resumeAutoplay, Classic.startAutoplay, Classic.stopAutoplay,
    Classic.updateToggleButton.
  cdestruct s. destruct d. cnorm. destruct (autoplayEnabled cfg); cnorm; repeat case_match; reflexivity.
Qed.

Lemma optimized_pause_paused s :
  Optimized.isAutoplayPaused (Optimized.vars (Optimized.pauseAutoplay cfg s))
  = if autoplayEnabled cfg then true
    else Optimized.isAutoplayPaused (Optimized.vars s).
Proof.
  unfold Optimized.pauseAutoplay, Optimized.stopAutoplay, Optimized.updateToggleButton.
  destruct_opt s. destruct d. cnorm.
  destruct (autoplayEnabled cfg); cnorm; repeat case_match; reflexivity.
Qed.

Lemma optimized_resume_paused s :
  Optimized.isAutoplayPaused (Optimized.vars (Optimized.resumeAutoplay cfg s))
  = if autoplayEnabled cfg then false
    else Optimized.isAutoplayPaused (Optimized.vars s).
Proof.
  unfold Optimized.resumeAutoplay, Optimized.startAutoplay, Optimized.stopAutoplay,
    Optimized.updateToggleButton.
  destruct_opt s. destruct d. cnorm. destruct (autoplayEnabled cfg); cnorm; repeat case_match; reflexivity.
Qed.

(** What a listener does to the flag. *)
Lemma classic_handler_paused h d s :
  Classic.isAutoplayPaused (Classic.vars (Classic.run_handler cfg h d s))
  = match h with
    | HMouseEnter =>
        if autoplayEnabled cfg then true else Classic.isAutoplayPaused (Classic.vars s)
    | HMouseLeave =>
        if autoplayEnabled cfg then false else Classic.isAutoplayPaused (Classic.vars s)
    | HAutoplayToggle =>
        if autoplayEnabled cfg then negb (Classic.isAutoplayPaused (Classic.vars s))
        else Classic.isAutoplayPaused (Classic.vars s)
    | _ => Classic.isAutoplayPaused (Classic.vars s)
    end.
Proof.
  destruct h; cbn [Classic.run_handler].
  - unfold Classic.toggleDropdown, Classic.closeDropdown, Classic.openDropdown.
    cnorm. repeat case_match; reflexivity.
  - unfold Classic.closeDropdown. cnorm. repeat case_match; reflexivity.
  - unfold Classic.closeDropdown. cnorm. repeat case_match; reflexivity.
  - apply classic_pause_paused.
  - apply classic_resume_paused.
  - destruct (Classic.isAutoplayPaused (Classic.vars s)) eqn:E.
    + rewrite classic_resume_paused. by destruct (autoplayEnabled cfg).
    + rewrite classic_pause_paused. by destruct (autoplayEnabled cfg).
  - unfold Classic.keydownHandler. cbv zeta.
    repeat case_decide; try done;
      repeat case_match; cbn; by rewrite classic_setActiveTab_paused.
  - unfold Classic.clickHandler. cbv zeta.
    repeat case_match; cbn; by rewrite classic_setActiveTab_paused.
  - reflexivity.
  - case_match; [|done]. by rewrite classic_setActiveTab_paused.
Qed.

Lemma optimized_handler_paused h d s :
  Optimized.isAutoplayPaused (Optimized.vars (Optimized.run_handler cfg h d s))
  = match h with
    | HMouseEnter =>
        if autoplayEnabled cfg then true
        else Optimized.isAutoplayPaused (Optimized.vars s)
    | HMouseLeave =>
        if autoplayEnabled cfg then false
        else Optimized.isAutoplayPaused (Optimized.vars s)
    | HAutoplayToggle =>
        if autoplayEnabled cfg then negb (Optimized.isAutoplayPaused (Optimized.vars s))
        else Optimized.isAutoplayPaused (Optimized.vars s)
    | _ => Optimized.isAutoplayPaused (Optimized.vars s)
    end.
Proof.
  destruct h; cbn [Optimized.run_handler].
  - unfold Optimized.toggleDropdown, Optimized.closeDropdown, Optimized.openDropdown.
    cnorm. repeat case_match; reflexivity.
  - unfold Optimized.closeDropdown. cnorm. repeat case_match; reflexivity.
  - unfold Optimized.closeDropdown. cnorm. repeat case_match; reflexivity.
  - apply optimized_pause_paused.
  - apply optimized_resume_paused.
  - destruct (Optimized.isAutoplayPaused (Optimized.vars s)) eqn:E.
    + rewrite optimized_resume_paused. by destruct (autoplayEnabled cfg).
    + rewrite optimized_pause_paused. by destruct (autoplayEnabled cfg).
  - unfold Optimized.keydownHandler. cbv zeta.
    repeat case_decide; try done;
      repeat case_match; cbn; by rewrite optimized_setActiveTab_paused.
  - unfold Optimized.clickHandler. cbv zeta.
    repeat case_match; cbn; by rewrite optimized_setActiveTab_paused.
  - unfold Optimized.resizeHandler. cnorm. repeat case_match; reflexivity.
  - case_match; [|done]. by rewrite optimized_setActiveTab_paused.
Qed.

Lemma classic_flag_handler h d p :
  classic_flag_ok cfg p → classic_flag_ok cfg (Classic.run_handler_src cfg h d p).
Proof.
  destruct p as [s [v hv tg]]. unfold classic_flag_ok, Classic.run_handler_src.
  cbn [fst snd]. rewrite classic_handler_paused. intros [H1 H2].
  destruct h, (autoplayEnabled cfg) eqn:En,
    (Classic.isAutoplayPaused (Classic.vars s)) eqn:Ep;
    cbn in *; split; intros; try done;
    unfold any_source in *; cbn in *;
    try (by specialize (H1 eq_refl));
    try (specialize (H2 eq_refl)); by destruct v, hv, tg.
Qed.

Lemma optimized_flag_handler h d p :
  optimized_flag_ok cfg p → optimized_flag_ok cfg (Optimized.run_handler_src cfg h d p).
Proof.
  destruct p as [s [v hv tg]]. unfold optimized_flag_ok, Optimized.run_handler_src.
  cbn [fst snd]. rewrite optimized_handler_paused. intros [H1 H2].
  destruct h, (autoplayEnabled cfg) eqn:En,
    (Optimized.isAutoplayPaused (Optimized.vars s)) eqn:Ep;
    cbn in *; split; intros; try done;
    unfold any_source in *; cbn in *;
    try (by specialize (H1 eq_refl));
    try (specialize (H2 eq_refl)); by destruct v, hv, tg.
Qed.

Lemma classic_flag_observer entries p :
  classic_flag_ok cfg p → classic_flag_ok cfg (Classic.observerCallback_src cfg entries p).
Proof.
  unfold Classic.observerCallback_src. revert p.
  induction entries as [|b entries IH]; intros p Hp; cbn [foldl]; [done|].
  apply IH. destruct p as [s [v hv tg]], Hp as [H1 H2].
  unfold classic_flag_ok, Classic.observerCallback. cbn [fst snd foldl].
  destruct b; rewrite ?classic_resume_paused, ?classic_pause_paused;
    destruct (autoplayEnabled cfg); cbn in *; split; intros; try done;
    unfold any_source, note_entry in *; cbn in *; auto;
    specialize (H1 eq_refl); congruence.
Qed.

Lemma optimized_flag_observer entries p :
  optimized_flag_ok cfg p → optimized_flag_ok cfg (Optimized.observerCallback_src cfg entries p).
Proof.
  unfold Optimized.observerCallback_src. revert p.
  induction entries as [|b entries IH]; intros p Hp; cbn [foldl]; [done|].
  apply IH. destruct p as [s [v hv tg]], Hp as [H1 H2].
  unfold optimized_flag_ok, Optimized.observerCallback. cbn [fst snd foldl].
  destruct b; rewrite ?optimized_resume_paused, ?optimized_pause_paused;
    destruct (autoplayEnabled cfg); cbn in *; split; intros; try done;
    unfold any_source, note_entry in *; cbn in *; auto;
    specialize (H1 eq_refl); congruence.
Qed.

Lemma classic_flag_run evs p :
  classic_flag_ok cfg p → classic_flag_ok cfg (Classic.run_src cfg evs p).
Proof.
  apply run_keeps.
  - apply classic_flag_handler.
  - intros e [s src] H. exact H.
  - apply classic_flag_observer.
  - intros k t [s src] [H1 H2] _. unfold classic_flag_ok. cbn [fst snd].
    destruct k; cbn [Classic.run_timer]; [|by split].
    unfold Classic.autoplayTick. rewrite classic_setActiveTab_paused. by split.
Qed.

Lemma optimized_flag_run evs p :
  optimized_flag_ok cfg p → optimized_flag_ok cfg (Optimized.run_src cfg evs p).
Proof.
  apply run_keeps.
  - apply optimized_flag_handler.
  - intros e [s src] H. exact H.
  - apply optimized_flag_observer.
  - intros k t [s src] [H1 H2] _. unfold optimized_flag_ok. cbn [fst snd].
    destruct k; cbn [Optimized.run_timer]; [|by split].
    unfold Optimized.autoplayTick. rewrite optimized_setActiveTab_paused. by split.
Qed.
End PausedFlag.

(** * Two controllers under the same events

    [R] relates the states of two controllers run by the same event loop.
    The second may have listeners the first has not (those whose handler is
    not kept) and timers the first has not; both must leave [R] alone. *)

Section LoopRelation.
Context {S1 S2 : Type}.
Variable world1 : S1 → World.
Variable upd1 : (World → World) → S1 → S1.
Variable handler1 : Handler → EventData → S1 → S1.
Variable observer1 : list bool → S1 → S1.
Variable timer1 : TimerKind → S1 → S1.
Variable world2 : S2 → World.
Variable upd2 : (World → World) → S2 → S2.
Variable handler2 : Handler → EventData → S2 → S2.
Variable observer2 : list bool → S2 → S2.
Variable timer2 : TimerKind → S2 → S2.
Variable R : S1 → S2 → Prop.
Variable keep : Handler → Prop.
Context `{∀ h, Decision (keep h)}.

Hypothesis extra_quiet : ∀ h, ¬ keep h → stops_propagation h = false.
Hypothesis R_listeners : ∀ x y, R x y →
  listeners (browser (world1 x))
  = filter (λ l, keep (l_handler l)) (listeners (browser (world2 y))).
Hypothesis R_observing : ∀ x y, R x y →
  observing (browser (world1 x)) = observing (browser (world2 y)).
Hypothesis R_handler : ∀ h d x y, keep h → R x y → R (handler1 h d x) (handler2 h d y).
Hypothesis R_extra : ∀ h d x y, ¬ keep h → R x y → R x (handler2 h d y).
Hypothesis R_env : ∀ e x y, R x y → R (upd1 (env_event e) x) (upd2 (env_event e) y).
Hypothesis R_observer : ∀ es x y, R x y → R (observer1 es x) (observer2 es y).
Hypothesis R_timer : ∀ k x y, R x y →
  match next_timer k (world1 x), next_timer k (world2 y) with
  | Some t1, Some t2 =>
      R (timer1 k (upd1 (retire t1) x)) (timer2 k (upd2 (retire t2) y))
  | None, None => True
  | None, Some t2 => R x (timer2 k (upd2 (retire t2) y))
  | Some _, None => False
  end.

Lemma run_target_related ls t ty d x y :
  R x y →
  let r1 := EventLoop.run_target handler1 (filter (λ l, keep (l_handler l)) ls) t ty d x in
  let r2 := EventLoop.run_target handler2 ls t ty d y in
  R r1.1 r2.1 ∧ r1.2 = r2.2.
Proof.
  unfold EventLoop.run_target. generalize false as stop. intros stop. revert x y stop.
  induction ls as [|l ls IH]; intros x y stop Hxy; cbn [foldl]; [done|].
  rewrite !filter_cons.
  destruct (decide (keep (l_handler l))) as [Hk|Hk];
    rewrite ?filter_cons; destruct (decide (listens t ty l = true)) as [Hl|Hl];
    cbn [foldl fst snd].
  - apply IH. by apply R_handler.
  - by apply IH.
  - rewrite (extra_quiet _ Hk), orb_false_r. apply IH. by apply R_extra.
  - by apply IH.
Qed.

Lemma run_path_related ls path ty d x y :
  R x y →
  R (EventLoop.run_path handler1 (filter (λ l, keep (l_handler l)) ls) path ty d x)
    (EventLoop.run_path handler2 ls path ty d y).
Proof.
  revert x y. induction path as [|t path IH]; intros x y Hxy; cbn; [done|].
  destruct (run_target_related ls t ty d x y Hxy) as [Hr Hs].
  rewrite Hs. case_match; [done|]. by apply IH.
Qed.

Lemma step_related e x y :
  R x y →
  R (EventLoop.step world1 upd1 handler1 observer1 timer1 e x)
    (EventLoop.step world2 upd2 handler2 observer2 timer2 e y).
Proof.
  intros Hxy. unfold EventLoop.step.
  pose proof (R_env e x y Hxy) as Hxy'.
  pose proof (R_listeners _ _ Hxy') as Hls.
  pose proof (R_observing _ _ Hxy') as Hob.
  destruct e; cbn [dom_event]; rewrite ?Hls; try (by apply run_path_related); try done.
  - rewrite Hob. case_match; [by apply R_observer|done].
  - pose proof (R_timer k _ _ Hxy') as Ht. by repeat case_match.
Qed.

Lemma run_related evs x y :
  R x y →
  R (EventLoop.run world1 upd1 handler1 observer1 timer1 evs x)
    (EventLoop.run world2 upd2 handler2 observer2 timer2 evs y).
Proof.
  revert x y. induction evs as [|e evs IH]; intros x y Hxy; cbn; [done|].
  apply IH. by apply step_related.
Qed.
End LoopRelation.

Section Recording.
Variable cfg : Config.

(** Recording the pause sources does not change what the controller does. *)
Lemma classic_run_src_fst evs s src :
  (Classic.run_src cfg evs (s, src)).1 = Classic.run cfg evs s.
Proof.
  symmetry.
  apply (run_related _ _ _ _ _ _ _ _ _ _ (λ x y, x = y.1) (λ _, True)); try done.
  - intros x y ->. cbn. symmetry. apply filter_all, Forall_forall. done.
  - intros x y ->. done.
  - intros h d x y _ ->. done.
  - intros e x y ->. done.
  - intros es x y ->. unfold Classic.observerCallback_src, Classic.observerCallback.
    revert y. induction es as [|b es IH]; intros y; cbn [foldl]; [done|].
    rewrite <- IH. done.
  - intros k x y ->. cbn. by case_match.
Qed.

Lemma optimized_run_src_fst evs s src :
  (Optimized.run_src cfg evs (s, src)).1 = Optimized.run cfg evs s.
Proof.
  symmetry.
  apply (run_related _ _ _ _ _ _ _ _ _ _ (λ x y, x = y.1) (λ _, True)); try done.
  - intros x y ->. cbn. symmetry. apply filter_all, Forall_forall. done.
  - intros x y ->. done.
  - intros h d x y _ ->. done.
  - intros e x y ->. done.
  - intros es x y ->. unfold Optimized.observerCallback_src, Optimized.observerCallback.
    revert y. induction es as [|b es IH]; intros y; cbn [foldl]; [done|].
    rewrite <- IH. done.
  - intros k x y ->. cbn. by case_match.
Qed.
End Recording.

Section MountedPaused.
Variable cfg : Config.

Lemma classic_start_paused s :
  Classic.isAutoplayPaused (Classic.vars (Classic.startAutoplay cfg s))
  = Classic.isAutoplayPaused (Classic.vars s).
Proof.
  cdestruct s. unfold Classic.startAutoplay, Classic.stopAutoplay. cnorm.
  repeat case_match; reflexivity.
Qed.

Lemma optimized_start_paused s :
  Optimized.isAutoplayPaused (Optimized.vars (Optimized.startAutoplay cfg s))
  = Optimized.isAutoplayPaused (Optimized.vars s).
Proof.
  destruct_opt s. unfold Optimized.startAutoplay, Optimized.stopAutoplay. cnorm.
  repeat case_match; reflexivity.
Qed.

Lemma classic_setupPerLink_paused ty h s :
  Classic.isAutoplayPaused (Classic.vars (Classic.setupPerLink ty h s))
  = Classic.isAutoplayPaused (Classic.vars s).
Proof.
  unfold Classic.setupPerLink. generalize (imap pair (Classic.links s)) as ils.
  intros ils. revert s.
  induction ils as [|il ils IH]; intros s; cbn; [done|].
  rewrite IH. by case_match.
Qed.

Lemma optimized_setupPerLink_paused ty h s :
  Optimized.isAutoplayPaused (Optimized.vars (Optimized.setupPerLink ty h s))
  = Optimized.isAutoplayPaused (Optimized.vars s).
Proof.
  unfold Optimized.setupPerLink.
  generalize (imap pair (Optimized.tabLinksArray s)) as ils.
  intros ils. revert s.
  induction ils as [|il ils IH]; intros s; cbn; [done|].
  rewrite IH. by case_match.
Qed.

Lemma classic_setups_paused s :
  Classic.isAutoplayPaused (Classic.vars (Classic.setupMobileDropdown cfg s))
  = Classic.isAutoplayPaused (Classic.vars s) ∧
  Classic.isAutoplayPaused (Classic.vars (Classic.setupAutoplayProgressBars cfg s))
  = Classic.isAutoplayPaused (Classic.vars s) ∧
  Classic.isAutoplayPaused (Classic.vars (Classic.setupAutoplayObserver cfg s))
  = Classic.isAutoplayPaused (Classic.vars s) ∧
  Classic.isAutoplayPaused (Classic.vars (Classic.setupAutoplayHoverPause cfg s))
  = Classic.isAutoplayPaused (Classic.vars s) ∧
  Classic.isAutoplayPaused (Classic.vars (Classic.setupAutoplayToggle cfg s))
  = Classic.isAutoplayPaused (Classic.vars s).
Proof.
  unfold Classic.setupAutoplayToggle, Classic.setupAutoplayHoverPause,
    Classic.setupAutoplayObserver, Classic.setupAutoplayProgressBars,
    Classic.setupMobileDropdown, Classic.register, addEventListener.
  repeat split; cnorm; repeat case_match; reflexivity.
Qed.

Lemma optimized_setups_paused s :
  Optimized.isAutoplayPaused (Optimized.vars (Optimized.setupMobileDropdown cfg s))
  = Optimized.isAutoplayPaused (Optimized.vars s) ∧
  Optimized.isAutoplayPaused (Optimized.vars (Optimized.setupAutoplayProgressBars cfg s))
  = Optimized.isAutoplayPaused (Optimized.vars s) ∧
  Optimized.isAutoplayPaused (Optimized.vars (Optimized.setupAutoplayObserver cfg s))
  = Optimized.isAutoplayPaused (Optimized.vars s) ∧
  Optimized.isAutoplayPaused (Optimized.vars (Optimized.setupAutoplayHoverPause cfg s))
  = Optimized.isAutoplayPaused (Optimized.vars s) ∧
  Optimized.isAutoplayPaused (Optimized.vars (Optimized.setupAutoplayToggle cfg s))
  = Optimized.isAutoplayPaused (Optimized.vars s).
Proof.
  unfold Optimized.setupAutoplayToggle, Optimized.setupAutoplayHoverPause,
    Optimized.setupAutoplayObserver, Optimized.setupAutoplayProgressBars,
    Optimized.setupMobileDropdown, Optimized.register, addEventListener.
  repeat split; cnorm; repeat case_match; reflexivity.
Qed.

Lemma classic_init_paused s :
  Classic.isAutoplayPaused (Classic.vars (Classic.init cfg s))
  = Classic.isAutoplayPaused (Classic.vars s).
Proof.
  unfold Classic.init, Classic.setupClickHandlers, Classic.setupKeyboardNav.
  assert (∀ l s, Classic.isAutoplayPaused (Classic.vars (Classic.register l s))
                 = Classic.isAutoplayPaused (Classic.vars s)) as Hreg by done.
  assert (∀ s, Classic.isAutoplayPaused (Classic.vars
            (if autoplayEnabled cfg then Classic.startAutoplay cfg s else s))
          = Classic.isAutoplayPaused (Classic.vars s)) as Hs.
  { intros s'. destruct (autoplayEnabled cfg); [apply classic_start_paused|done]. }
  rewrite Hreg, Hs, !classic_setupPerLink_paused, classic_setActiveTab_paused.
  repeat match goal with
  | |- context [Classic.isAutoplayPaused (Classic.vars (?f cfg ?x))] =>
      destruct (classic_setups_paused x) as (H1 & H2 & H3 & H4 & H5);
      first [ rewrite H5 | rewrite H4 | rewrite H3 | rewrite H2 | rewrite H1 ];
      clear H1 H2 H3 H4 H5
  end.
  done.
Qed.

Lemma optimized_init_paused s :
  Optimized.isAutoplayPaused (Optimized.vars (Optimized.init cfg s))
  = Optimized.isAutoplayPaused (Optimized.vars s).
Proof.
  unfold Optimized.init, Optimized.setupClickHandlers, Optimized.setupKeyboardNav,
    Optimized.setupResizeHandler.
  assert (∀ l s, Optimized.isAutoplayPaused (Optimized.vars (Optimized.register l s))
                 = Optimized.isAutoplayPaused (Optimized.vars s)) as Hreg by done.
  assert (∀ s, Optimized.isAutoplayPaused (Optimized.vars
            (if autoplayEnabled cfg then Optimized.startAutoplay cfg s else s))
          = Optimized.isAutoplayPaused (Optimized.vars s)) as Hs.
  { intros s'. destruct (autoplayEnabled cfg); [apply optimized_start_paused|done]. }
  rewrite Hreg, Hs, Hreg, !optimized_setupPerLink_paused, optimized_setActiveTab_paused.
  repeat match goal with
  | |- context [Optimized.isAutoplayPaused (Optimized.vars (?f cfg ?x))] =>
      destruct (optimized_setups_paused x) as (H1 & H2 & H3 & H4 & H5);
      first [ rewrite H5 | rewrite H4 | rewrite H3 | rewrite H2 | rewrite H1 ];
      clear H1 H2 H3 H4 H5
  end.
  done.
Qed.

Lemma classic_mounted_flag_ok w s :
  Classic.initTabsComponent cfg w = Some s → classic_flag_ok cfg (s, no_source).
Proof.
  unfold Classic.initTabsComponent. case_match; [done|]. intros [= <-].
  unfold classic_flag_ok. cbn [fst snd]. rewrite classic_init_paused. by split.
Qed.

Lemma optimized_mounted_flag_ok w s :
  Optimized.initTabsComponent cfg w = Some s → optimized_flag_ok cfg (s, no_source).
Proof.
  unfold Optimized.initTabsComponent. case_match; [done|]. intros [= <-].
  unfold optimized_flag_ok. cbn [fst snd]. rewrite optimized_init_paused. by split.
Qed.
End MountedPaused.

(** C2, as the code has it.  The controller keeps one flag.  Run from the
    mount with the three pause sources recorded beside it (which changes
    nothing of what the controller does), the flag implies the sources: when
    it is set, at least one source is set.  The converse fails: a pause from
    any source sets the flag and a resume from any source clears it, whatever
    the other sources are. *)
Theorem paused_flag_implies_source (cfg : Config) :
  (∀ w s evs,
     Classic.initTabsComponent cfg w = Some s →
     let p := Classic.run_src cfg evs (s, no_source) in
     p.1 = Classic.run cfg evs s ∧
     (Classic.isAutoplayPaused (Classic.vars p.1) = true → any_source p.2 = true)) ∧
  (∀ w s evs,
     Optimized.initTabsComponent cfg w = Some s →
     let p := Optimized.run_src cfg evs (s, no_source) in
     p.1 = Optimized.run cfg evs s ∧
     (Optimized.isAutoplayPaused (Optimized.vars p.1) = true → any_source p.2 = true)) ∧
  (autoplayEnabled cfg = true →
   (∀ s, Classic.isAutoplayPaused (Classic.vars (Classic.pauseAutoplay cfg s)) = true ∧
         Classic.isAutoplayPaused (Classic.vars (Classic.resumeAutoplay cfg s)) = false) ∧
   (∀ s, Optimized.isAutoplayPaused (Optimized.vars (Optimized.pauseAutoplay cfg s))
         = true ∧
         Optimized.isAutoplayPaused (Optimized.vars (Optimized.resumeAutoplay cfg s))
         = false)).
Proof.
  repeat split.
  - apply classic_run_src_fst.
  - eapply classic_flag_run, classic_mounted_flag_ok. eassumption.
  - apply optimized_run_src_fst.
  - eapply optimized_flag_run, optimized_mounted_flag_ok. eassumption.
  - rewrite classic_pause_paused. by rewrite H.
  - rewrite classic_resume_paused. by rewrite H.
  - rewrite optimized_pause_paused. by rewrite H.
  - rewrite optimized_resume_paused. by rewrite H.
Qed.

Lemma paused_flag_implies_source_witness :
  any_source
    (Classic.run_src autoplay_cfg [EWait 1000; EMouseEnter]
       (classic_mounted autoplay_cfg (sample_world three_links 3 ""), no_source)).2
  = true ∧
  any_source
    (Optimized.run_src autoplay_cfg [EIntersect [true; false]]
       (optimized_mounted autoplay_cfg (sample_world three_links 3 ""), no_source)).2
  = true.
Proof.
  split.
  - refine (proj2 (proj1 (paused_flag_implies_source autoplay_cfg)
             (sample_world three_links 3 "") _ [EWait 1000; EMouseEnter] _) _).
    + reflexivity.
    + vm_compute. reflexivity.
  - refine (proj2 (proj1 (proj2 (paused_flag_implies_source autoplay_cfg))
             (sample_world three_links 3 "") _ [EIntersect [true; false]] _) _).
    + reflexivity.
    + vm_compute. reflexivity.
Defined.

(** C2 as stated fails: the group leaves the viewport (the observer pauses),
    the pointer enters and leaves (the hover listener pauses and resumes):
    the flag is clear although the group is still out of the viewport. *)
Lemma paused_flag_counterexample :
  Classic.isAutoplayPaused (Classic.vars
    (Classic.run autoplay_cfg [EIntersect [false]; EMouseEnter; EMouseLeave]
       (classic_mounted autoplay_cfg (sample_world three_links 3 "")))) = false ∧
  (Classic.run_src autoplay_cfg [EIntersect [false]; EMouseEnter; EMouseLeave]
     (classic_mounted autoplay_cfg (sample_world three_links 3 ""), no_source)).2
  = mkSources true false false ∧
  Optimized.isAutoplayPaused (Optimized.vars
    (Optimized.run autoplay_cfg [EIntersect [false]; EMouseEnter; EMouseLeave]
       (optimized_mounted autoplay_cfg (sample_world three_links 3 "")))) = false ∧
  (Optimized.run_src autoplay_cfg [EIntersect [false]; EMouseEnter; EMouseLeave]
     (optimized_mounted autoplay_cfg (sample_world three_links 3 ""), no_source)).2
  = mkSources true false false ∧
  Classic.isAutoplayPaused (Classic.vars
    (Classic.run autoplay_cfg [EIntersect [false]; EMouseEnter; EMouseLeave]
       (classic_mounted autoplay_cfg (sample_world three_links 3 ""))))
  ≠ any_source (mkSources true false false).
Proof.
  repeat split; try (vm_compute; reflexivity). vm_compute. discriminate.
Qed.

(** * Teardown *)

Lemma remove_all_listeners (ls L : list Listener) :
  foldl (λ L l, filter (λ l', l' ≠ l) L) L ls = filter (λ l', l' ∉ ls) L.
Proof.
  revert L. induction ls as [|l ls IH]; intros L; cbn [foldl].
  - symmetry. apply filter_all, Forall_forall. intros x _. apply not_elem_of_nil.
  - rewrite IH, list_filter_filter. apply list_filter_iff. intros x.
    rewrite not_elem_of_cons. tauto.
Qed.

Lemma filter_none {A} (P : A → Prop) `{∀ x, Decision (P x)} (l : list A) :
  (∀ x, x ∈ l → ¬ P x) → filter P l = [].
Proof.
  induction l as [|x l IH]; intros Hn; [done|].
  rewrite filter_cons. case_decide as Hx.
  - destruct (Hn x); [left|done].
  - apply IH. intros y Hy. apply Hn. by right.
Qed.

Section Teardown.
Variable cfg : Config.

Lemma cleanup_listeners_fold ls s :
  let s' := foldl (λ s l, Optimized.with_world (removeEventListener l) s) s ls in
  Optimized.vars s' = Optimized.vars s ∧
  dom (Optimized.world s') = dom (Optimized.world s) ∧
  env (Optimized.world s') = env (Optimized.world s) ∧
  effects (Optimized.world s') = effects (Optimized.world s) ∧
  timers (browser (Optimized.world s')) = timers (browser (Optimized.world s)) ∧
  nextTimerId (browser (Optimized.world s'))
  = nextTimerId (browser (Optimized.world s)) ∧
  listeners (browser (Optimized.world s'))
  = foldl (λ L l, filter (λ l', l' ≠ l) L) (listeners (browser (Optimized.world s))) ls.
Proof.
  revert s. induction ls as [|l ls IH]; intros s; cbn [foldl]; [done|].
  destruct (IH (Optimized.with_world (removeEventListener l) s))
    as (H1 & H2 & H3 & H4 & H5 & H6 & H7).
  cbv zeta. rewrite H1, H2, H3, H4, H5, H6, H7. done.
Qed.

(** After [cleanup] the browser holds no listener, no timer and no observer
    of the component. *)
Lemma cleanup_silent s :
  OptimizedInv s → silent (browser (Optimized.world (Optimized.cleanup s))).
Proof.
  intros [Ha Hp Hi Hr Hf Hl]. unfold Optimized.cleanup.
  destruct (cleanup_listeners_fold (Optimized.eventListeners (Optimized.vars s)) s)
    as (H1 & H2 & H3 & H4 & H5 & H6 & H7).
  revert H1 H2 H3 H4 H5 H6 H7.
  generalize (foldl (λ s l, Optimized.with_world (removeEventListener l) s) s
                    (Optimized.eventListeners (Optimized.vars s))) as s1.
  intros s1 H1 H2 H3 H4 H5 H6 H7.
  rewrite Hl, remove_all_listeners in H7.
  rewrite filter_none in H7 by (intros x Hx Hn; by apply Hn).
  unfold AutoOk, autoTimers, RszOk in Ha, Hr.
  rewrite <- H1, <- H5 in Ha, Hr.
  clear Hp Hi Hf Hl H2 H3 H4 H6. revert Ha Hr H7. clear.
  destruct_opt s1. cbn. intros Ha Hr ->.
  pose proof (auto_cleared tms tm nid [] ob Ha) as Hc.
  unfold Optimized.stopAutoplay. cnorm.
  assert (∀ T : list Timer,
            filter (λ t, kind t = AutoplayTick) T = [] →
            (∀ t, t ∈ T → t ∈ tms) →
            match rt with Some r => filter (λ t, tid t ≠ r) T | None => T end = [])
    as Hgone.
  { intros T HT Hsub. apply filter_none in HT || idtac.
    assert (∀ t, t ∈ T → kind t = ResizeSettle) as Hk.
    { intros t Ht. destruct (kind t) eqn:E; [|done].
      assert (t ∈ filter (λ t, kind t = AutoplayTick) T) as Hin
        by (by apply list_elem_of_filter).
      rewrite HT in Hin. by apply elem_of_nil in Hin. }
    destruct rt as [r|].
    - apply filter_none. intros t Ht Hne.
      specialize (Hr t (Hsub t Ht) (Hk t Ht)). congruence.
    - destruct T as [|t T]; [done|].
      specialize (Hr t (Hsub t ltac:(left)) (Hk t ltac:(left))). done. }
  destruct tm as [a|]; cnorm.
  - specialize (Hgone (filter (λ t, tid t ≠ a) tms) Hc).
    destruct rt as [r|]; cnorm; unfold silent; cbn; (rewrite Hgone; [done|]);
      intros t Ht; by eapply elem_of_filter_tid.
  - specialize (Hgone tms Hc).
    destruct rt as [r|]; cnorm; unfold silent; cbn; by rewrite Hgone.
Qed.

(** With nothing left in the browser, an event reaches no callback. *)
Lemma silent_run_path (h : Handler → EventData → Optimized.State → Optimized.State)
      path ty d s :
  EventLoop.run_path h [] path ty d s = s.
Proof. induction path as [|t path IH]; cbn; [done|]. exact IH. Qed.

Lemma silent_step e s :
  silent (browser (Optimized.world s)) →
  Optimized.step cfg e s = Optimized.with_world (env_event e) s.
Proof.
  intros (Ht & Hls & Hob). unfold Optimized.step, EventLoop.step.
  assert (browser (Optimized.world (Optimized.with_world (env_event e) s))
          = browser (Optimized.world s)) as Hb by (by destruct e).
  destruct e; cbn [dom_event]; rewrite ?Hb, ?Hls, ?silent_run_path; try done.
  - by rewrite Hob.
  - unfold next_timer. rewrite Hb, Ht. done.
Qed.

Lemma silent_run evs s :
  silent (browser (Optimized.world s)) →
  let s' := Optimized.run cfg evs s in
  Optimized.vars s' = Optimized.vars s ∧
  dom (Optimized.world s') = dom (Optimized.world s) ∧
  browser (Optimized.world s') = browser (Optimized.world s) ∧
  effects (Optimized.world s') = effects (Optimized.world s).
Proof.
  revert s. induction evs as [|e evs IH]; intros s Hs; [done|].
  change (Optimized.run cfg (e :: evs) s)
    with (Optimized.run cfg evs (Optimized.step cfg e s)).
  rewrite silent_step by done.
  assert (browser (Optimized.world (Optimized.with_world (env_event e) s))
          = browser (Optimized.world s)) as Hb by (by destruct e).
  destruct (IH (Optimized.with_world (env_event e) s)) as (H1 & H2 & H3 & H4).
  { by rewrite Hb. }
  cbv zeta. rewrite H1, H2, H3, H4, Hb. by destruct e.
Qed.
End Teardown.

(** C6. [cleanup], called in any reachable state of the optimized variant
    (the one that has a teardown), leaves no timer of the component
    scheduled, no listener registered and the observer disconnected; whatever
    events follow, the variables, the DOM of the component, the browser's
    tables and the log of effects stay as [cleanup] left them. *)
Theorem cleanup_silences (cfg : Config) (s : Optimized.State) (evs : list Event) :
  Optimized.reachable cfg s →
  let s0 := Optimized.cleanup s in
  let s' := Optimized.run cfg evs s0 in
  timers (browser (Optimized.world s0)) = [] ∧
  listeners (browser (Optimized.world s0)) = [] ∧
  observing (browser (Optimized.world s0)) = false ∧
  Optimized.vars s' = Optimized.vars s0 ∧
  dom (Optimized.world s') = dom (Optimized.world s0) ∧
  browser (Optimized.world s') = browser (Optimized.world s0) ∧
  effects (Optimized.world s') = effects (Optimized.world s0).
Proof.
  intros Hr s0 s'. apply optimized_reachable_inv in Hr.
  pose proof (cleanup_silent s Hr) as Hs. fold s0 in Hs.
  destruct Hs as (H1 & H2 & H3). repeat split; try done;
    by apply (silent_run cfg evs s0).
Qed.

Lemma cleanup_silences_witness :
  Optimized.vars
    (Optimized.run autoplay_cfg
       [EWait 9000; ETimer AutoplayTick; ETimer ResizeSettle; EClickTab 2;
        EKeydownTab 0 "End"; EMouseEnter; EIntersect [false]; EHashChange "#faq"]
       (Optimized.cleanup
          (Optimized.run autoplay_cfg [EWait 1000; EResize 600]
             (optimized_mounted autoplay_cfg (sample_world three_links 3 "")))))
  = Optimized.vars
      (Optimized.cleanup
         (Optimized.run autoplay_cfg [EWait 1000; EResize 600]
            (optimized_mounted autoplay_cfg (sample_world three_links 3 "")))).
Proof.
  refine (proj1 (proj2 (proj2 (proj2 (cleanup_silences autoplay_cfg _ _ _))))).
  apply optimized_run_reachable, optimized_sample_reachable.
Defined.

(** * The two variants side by side *)

Ltac sim_states c o :=
  destruct c as [[cur tm pa st el] [d [tms nid ls ob] e eff]];
  destruct o as [[cur' tm' pa' st' el' cw' rt' els'] [d' [tms' nid' ls' ob'] e' eff']].

Ltac sim_subst H :=
  destruct H as [S1 S2 S3 S4 S5 S6 S7 S8 S9]; cbn in S1, S2, S3, S4, S5, S6, S7, S8, S9;
  subst.

Section Simulation.
Variable cfg : Config.

Lemma sim_activate_dom index c o :
  dom (Classic.world c) = dom (Optimized.world o) →
  env (Classic.world c) = env (Optimized.world o) →
  dom (Classic.world (ClassicStages.activate cfg index c))
  = dom (Optimized.world (OptimizedStages.activate cfg index o)).
Proof.
  sim_states c o. cbn. intros -> ->.
  unfold ClassicStages.activate, OptimizedStages.activate,
    ClassicStages.scrollActive, OptimizedStages.scrollActive,
    ClassicStages.closeIfOpen, OptimizedStages.closeIfOpen,
    ClassicStages.writeDropdownText, OptimizedStages.writeDropdownText,
    ClassicStages.writePanes, OptimizedStages.writePanes,
    ClassicStages.writeLinks, OptimizedStages.writeLinks,
    Classic.closeDropdown, Optimized.closeDropdown.
  destruct d' as [lk pn mo dt tb pc]. cnorm.
  rewrite writeLinks_phases.
  rewrite (imap_ext (OptimizedStages.writePane index) (ClassicStages.writePane index))
    by (intros; apply writePane_same).
  repeat (case_match; cbn in *; simplify_eq); reflexivity.
Qed.

Lemma sim_activate index c o :
  Sim c o →
  Sim (ClassicStages.activate cfg index c) (OptimizedStages.activate cfg index o).
Proof.
  intros [S1 S2 S3 S4 S5 S6 S7 S8 S9].
  constructor;
    rewrite ?classic_activate_vars, ?optimized_activate_vars,
      ?classic_activate_browser, ?optimized_activate_browser,
      ?classic_activate_env, ?optimized_activate_env; try done.
  by apply sim_activate_dom.
Qed.
End Simulation.

Section SimulationAutoplay.
Variable cfg : Config.

(** Effects, timer ids and the variables of one variant only do not count. *)
Lemma sim_frame c o c' o' :
  Sim c o →
  Classic.vars c' = Classic.vars c →
  dom (Classic.world c') = dom (Classic.world c) →
  env (Classic.world c') = env (Classic.world c) →
  browser (Classic.world c') = browser (Classic.world c) →
  Optimized.currentActiveIndex (Optimized.vars o')
  = Optimized.currentActiveIndex (Optimized.vars o) →
  Optimized.isAutoplayPaused (Optimized.vars o')
  = Optimized.isAutoplayPaused (Optimized.vars o) →
  Optimized.autoplayStartTime (Optimized.vars o')
  = Optimized.autoplayStartTime (Optimized.vars o) →
  Optimized.autoplayElapsedTime (Optimized.vars o')
  = Optimized.autoplayElapsedTime (Optimized.vars o) →
  dom (Optimized.world o') = dom (Optimized.world o) →
  env (Optimized.world o') = env (Optimized.world o) →
  browser (Optimized.world o') = browser (Optimized.world o) →
  Sim c' o'.
Proof.
  intros [S1 S2 S3 S4 S5 S6 S7 S8 S9] C1 C2 C3 C4 O1 O2 O3 O4 O5 O6 O7.
  constructor; rewrite ?C1, ?C2, ?C3, ?C4, ?O1, ?O2, ?O3, ?O4, ?O5, ?O6, ?O7; done.
Qed.

Lemma sim_stopAutoplay c o :
  Sim c o →
  AutoOk (Classic.autoplayTimer (Classic.vars c)) (browser (Classic.world c)) →
  AutoOk (Optimized.autoplayTimer (Optimized.vars o)) (browser (Optimized.world o)) →
  Sim (Classic.stopAutoplay c) (Optimized.stopAutoplay o).
Proof.
  sim_states c o. intros H Hc Ho. apply auto_cleared in Hc, Ho. sim_subst H.
  unfold Classic.stopAutoplay, Optimized.stopAutoplay.
  destruct tm, tm'; constructor; cnorm; rewrite ?Hc, ?Ho; done.
Qed.

Lemma sim_startAutoplay c o :
  Sim c o →
  AutoOk (Classic.autoplayTimer (Classic.vars c)) (browser (Classic.world c)) →
  AutoOk (Optimized.autoplayTimer (Optimized.vars o)) (browser (Optimized.world o)) →
  Sim (Classic.startAutoplay cfg c) (Optimized.startAutoplay cfg o).
Proof.
  sim_states c o. intros H Hc Ho. apply auto_cleared in Hc, Ho. sim_subst H.
  unfold Classic.startAutoplay, Optimized.startAutoplay,
    Classic.stopAutoplay, Optimized.stopAutoplay. cnorm.
  destruct (negb (autoplayEnabled cfg) || pa'); [by constructor|].
  destruct tm, tm'; constructor; cnorm; rewrite ?filter_app, ?Hc, ?Ho; done.
Qed.

Lemma sim_restart c o :
  Sim c o →
  AutoOk (Classic.autoplayTimer (Classic.vars c)) (browser (Classic.world c)) →
  AutoOk (Optimized.autoplayTimer (Optimized.vars o)) (browser (Optimized.world o)) →
  Sim (Classic.restartAutoplay cfg c) (Optimized.restartAutoplay cfg o).
Proof.
  intros H Hc Ho. unfold Classic.restartAutoplay, Optimized.restartAutoplay.
  destruct (negb (autoplayEnabled cfg)); [done|].
  assert (Sim (Classic.with_vars (Classic.set_autoplayElapsedTime 0) c)
              (Optimized.with_vars (Optimized.set_autoplayElapsedTime 0) o)) as H0.
  { destruct H; constructor; done. }
  cbv zeta.
  repeat case_match; apply sim_startAutoplay; try done;
    eapply sim_frame; try exact H0; done.
Qed.

Lemma sim_afterSwitch c o :
  Sim c o →
  AutoOk (Classic.autoplayTimer (Classic.vars c)) (browser (Classic.world c)) →
  AutoOk (Optimized.autoplayTimer (Optimized.vars o)) (browser (Optimized.world o)) →
  Sim (ClassicStages.autoplayAfterSwitch cfg c)
      (OptimizedStages.autoplayAfterSwitch cfg o).
Proof.
  intros H Hc Ho.
  unfold ClassicStages.autoplayAfterSwitch, OptimizedStages.autoplayAfterSwitch.
  destruct (autoplayEnabled cfg); [|done].
  rewrite <- (sim_paused _ _ H).
  destruct (Classic.isAutoplayPaused (Classic.vars c)).
  - destruct H; constructor; done.
  - by apply sim_restart.
Qed.

Lemma sim_setActiveTab index c o :
  Sim c o →
  AutoOk (Classic.autoplayTimer (Classic.vars c)) (browser (Classic.world c)) →
  AutoOk (Optimized.autoplayTimer (Optimized.vars o)) (browser (Optimized.world o)) →
  Sim (Classic.setActiveTab cfg index c) (Optimized.setActiveTab cfg index o).
Proof.
  intros H Hc Ho.
  rewrite classic_setActiveTab_stages, optimized_setActiveTab_stages.
  unfold ClassicStages.outOfRange, OptimizedStages.outOfRange,
    Classic.links, Optimized.tabLinksArray.
  rewrite <- (sim_dom _ _ H).
  case_match; [done|].
  apply sim_afterSwitch.
  - by apply sim_activate.
  - by rewrite classic_activate_vars, classic_activate_browser.
  - by rewrite optimized_activate_vars, optimized_activate_browser.
Qed.

Lemma sim_updateToggleButton c o :
  Sim c o → Sim (Classic.updateToggleButton c) (Optimized.updateToggleButton o).
Proof.
  sim_states c o. intros H. sim_subst H.
  unfold Classic.updateToggleButton, Optimized.updateToggleButton. cnorm.
  destruct (toggleButton d'); constructor; cnorm; done.
Qed.

Lemma sim_pause_pre c o :
  Sim c o →
  Sim (Classic.with_world (with_dom (set_autoplay_paused_class true))
         (Classic.with_vars (Classic.set_isAutoplayPaused true)
            match Classic.autoplayStartTime (Classic.vars c) with
            | Some t0 =>
                Classic.with_vars (Classic.set_autoplayElapsedTime
                  (Classic.autoplayElapsedTime (Classic.vars c)
                   + (now (env (Classic.world c)) - t0))) c
            | None => c
            end))
      (Optimized.with_world (with_dom (set_autoplay_paused_class true))
         (Optimized.with_vars (Optimized.set_isAutoplayPaused true)
            match Optimized.autoplayStartTime (Optimized.vars o) with
            | Some t0 =>
                Optimized.with_vars (Optimized.set_autoplayElapsedTime
                  (Optimized.autoplayElapsedTime (Optimized.vars o)
                   + (now (env (Optimized.world o)) - t0))) o
            | None => o
            end)).
Proof.
  sim_states c o. intros H. sim_subst H. cnorm.
  destruct st'; constructor; cnorm; done.
Qed.

Lemma sim_pause c o :
  Sim c o →
  AutoOk (Classic.autoplayTimer (Classic.vars c)) (browser (Classic.world c)) →
  AutoOk (Optimized.autoplayTimer (Optimized.vars o)) (browser (Optimized.world o)) →
  Sim (Classic.pauseAutoplay cfg c) (Optimized.pauseAutoplay cfg o).
Proof.
  intros H Hc Ho. unfold Classic.pauseAutoplay, Optimized.pauseAutoplay.
  destruct (negb (autoplayEnabled cfg)); [done|].
  apply sim_updateToggleButton, sim_stopAutoplay.
  - by apply sim_pause_pre.
  - by destruct (Classic.autoplayStartTime (Classic.vars c)).
  - by destruct (Optimized.autoplayStartTime (Optimized.vars o)).
Qed.

Lemma sim_resume c o :
  Sim c o →
  AutoOk (Classic.autoplayTimer (Classic.vars c)) (browser (Classic.world c)) →
  AutoOk (Optimized.autoplayTimer (Optimized.vars o)) (browser (Optimized.world o)) →
  Sim (Classic.resumeAutoplay cfg c) (Optimized.resumeAutoplay cfg o).
Proof.
  intros H Hc Ho. unfold Classic.resumeAutoplay, Optimized.resumeAutoplay.
  destruct (negb (autoplayEnabled cfg)); [done|].
  apply sim_updateToggleButton, sim_startAutoplay; try done.
  revert H. clear. sim_states c o. intros H. sim_subst H. constructor; cnorm; done.
Qed.

Lemma sim_closeDropdown c o :
  Sim c o → Sim (Classic.closeDropdown c) (Optimized.closeDropdown o).
Proof.
  sim_states c o. intros H. sim_subst H.
  unfold Classic.closeDropdown, Optimized.closeDropdown. cnorm.
  destruct (dropdownToggle d'); constructor; cnorm; done.
Qed.

Lemma sim_openDropdown c o :
  Sim c o → Sim (Classic.openDropdown c) (Optimized.openDropdown o).
Proof.
  sim_states c o. intros H. sim_subst H.
  unfold Classic.openDropdown, Optimized.openDropdown. cnorm.
  destruct (dropdownToggle d'); constructor; cnorm; done.
Qed.

Lemma sim_emit e1 e2 c o :
  Sim c o → Sim (Classic.with_world (emit e1) c) (Optimized.with_world (emit e2) o).
Proof. intros H. by eapply sim_frame. Qed.

Lemma sim_emit_l e1 c o : Sim c o → Sim (Classic.with_world (emit e1) c) o.
Proof. intros H. by eapply sim_frame. Qed.

Lemma sim_emit_r e2 c o : Sim c o → Sim c (Optimized.with_world (emit e2) o).
Proof. intros H. by eapply sim_frame. Qed.
End SimulationAutoplay.

Section SimulationHandlers.
Variable cfg : Config.

Lemma sim_toggleDropdown c o :
  Sim c o → Sim (Classic.toggleDropdown c) (Optimized.toggleDropdown o).
Proof.
  intros H. unfold Classic.toggleDropdown, Optimized.toggleDropdown.
  rewrite <- (sim_dom _ _ H).
  case_match; [by apply sim_closeDropdown|by apply sim_openDropdown].
Qed.

Lemma sim_keydown key c o :
  Related c o →
  Sim (Classic.keydownHandler cfg key c) (Optimized.keydownHandler cfg key o).
Proof.
  intros (H & Hc & Ho). unfold Classic.keydownHandler, Optimized.keydownHandler.
  unfold Classic.links, Optimized.tabLinksArray.
  rewrite <- (sim_index _ _ H), <- (sim_dom _ _ H). cbv zeta.
  assert (∀ i, Sim (Classic.setActiveTab cfg i (Classic.with_world (emit PreventDefault) c))
                   (Optimized.setActiveTab cfg i
                      (Optimized.with_world (emit PreventDefault) o))) as Hset.
  { intros i. apply sim_setActiveTab; [by apply sim_emit|apply Hc|apply Ho]. }
  repeat case_decide; try done;
    repeat case_match;
    repeat first [apply sim_emit | apply sim_emit_l | apply sim_emit_r];
    apply Hset.
Qed.

Lemma sim_click index c o :
  Related c o →
  Sim (Classic.clickHandler cfg index c) (Optimized.clickHandler cfg index o).
Proof.
  intros (H & Hc & Ho). unfold Classic.clickHandler, Optimized.clickHandler.
  cbv zeta.
  repeat case_match;
    repeat first [apply sim_emit | apply sim_emit_l | apply sim_emit_r];
    (apply sim_setActiveTab; [by apply sim_emit|apply Hc|apply Ho]).
Qed.

Lemma sim_hashMatchIndex c o :
  Sim c o → Classic.hashMatchIndex c = Optimized.hashMatchIndex o.
Proof.
  intros H. unfold Classic.hashMatchIndex, Optimized.hashMatchIndex,
    Classic.links, Optimized.tabLinksArray.
  by rewrite (sim_dom _ _ H), (sim_env _ _ H).
Qed.

Lemma sim_handler h d c o :
  h ≠ HResize →
  Related c o →
  Sim (Classic.run_handler cfg h d c) (Optimized.run_handler cfg h d o).
Proof.
  intros Hh HR. pose proof HR as (H & Hc & Ho).
  destruct h; cbn [Classic.run_handler Optimized.run_handler]; try done.
  - by apply sim_toggleDropdown, sim_emit.
  - case_match; [done|by apply sim_closeDropdown].
  - rewrite <- (sim_dom _ _ H).
    case_match; [|done]. by apply sim_emit, sim_closeDropdown.
  - apply sim_pause; [done|apply Hc|apply Ho].
  - apply sim_resume; [done|apply Hc|apply Ho].
  - rewrite <- (sim_paused _ _ H). case_match.
    + apply sim_resume; [done|apply Hc|apply Ho].
    + apply sim_pause; [done|apply Hc|apply Ho].
  - by apply sim_keydown.
  - by apply sim_click.
  - rewrite <- (sim_hashMatchIndex _ _ H). case_match; [|done].
    apply sim_setActiveTab; [done|apply Hc|apply Ho].
Qed.

Lemma related_handler h d c o :
  h ≠ HResize →
  Related c o →
  Related (Classic.run_handler cfg h d c) (Optimized.run_handler cfg h d o).
Proof.
  intros Hh HR. split; [by apply sim_handler|].
  destruct HR as (_ & Hc & Ho).
  split; [by apply classic_handler_inv|by apply optimized_handler_inv].
Qed.

(** The resize listener exists in the optimized variant only; it leaves
    everything the two variants share. *)
Lemma related_resize d c o :
  Related c o → Related c (Optimized.run_handler cfg HResize d o).
Proof.
  intros (H & Hc & Ho). split; [|split; [done|by apply optimized_handler_inv]].
  cbn [Optimized.run_handler].
  pose proof (optimized_resize_auto o Ho) as Hauto.
  destruct H as [S1 S2 S3 S4 S5 S6 S7 S8 S9].
  constructor; rewrite ?Hauto; try done; revert S1 S2 S3 S4 S5 S6 S7 S8;
    clear; sim_states c o; unfold Optimized.resizeHandler;
    intros; destruct rt'; cnorm; done.
Qed.

Lemma related_env ev c o :
  Related c o →
  Related (Classic.with_world (env_event ev) c)
          (Optimized.with_world (env_event ev) o).
Proof.
  intros (H & Hc & Ho).
  split; [|split; [by apply classic_env_inv|by apply optimized_env_inv]].
  revert H. clear. sim_states c o. intros H. sim_subst H.
  destruct ev; constructor; cnorm; done.
Qed.

Lemma related_observer es c o :
  Related c o →
  Related (Classic.observerCallback cfg es c) (Optimized.observerCallback cfg es o).
Proof.
  unfold Classic.observerCallback, Optimized.observerCallback. revert c o.
  induction es as [|b es IH]; intros c o HR; cbn [foldl]; [done|].
  apply IH. destruct HR as (H & Hc & Ho). destruct b.
  - split; [apply sim_resume; [done|apply Hc|apply Ho]|].
    split; [by apply classic_resume_inv|by apply optimized_resume_inv].
  - split; [apply sim_pause; [done|apply Hc|apply Ho]|].
    split; [by apply classic_pause_inv|by apply optimized_pause_inv].
Qed.
End SimulationHandlers.

(** * Timer fires side by side *)

Lemma list_find_head {A} (P : A → Prop) `{∀ x, Decision (P x)} (l : list A) :
  snd <$> list_find P l = head (filter P l).
Proof.
  induction l as [|x l IH]; [done|].
  cbn [list_find]. rewrite filter_cons. case_decide; [done|].
  rewrite <- IH. by destruct (list_find P l) as [[i y]|].
Qed.

Lemma next_timer_head k w :
  next_timer k w
  = head (filter (λ t, due t (now (env w)))
                 (filter (λ t, kind t = k) (timers (browser w)))).
Proof.
  unfold next_timer. rewrite list_find_head, list_filter_filter.
  f_equal. apply list_filter_iff. tauto.
Qed.

Lemma next_timer_elem k w t :
  next_timer k w = Some t → t ∈ timers (browser w) ∧ kind t = k.
Proof.
  unfold next_timer. destruct (list_find _ _) as [[i x]|] eqn:E; [|done].
  intros [= <-]. apply list_find_Some in E as (Hx & [Hk _] & _).
  split; [by eapply list_elem_of_lookup_2|done].
Qed.

Section SimulationTimers.
Variable cfg : Config.

Lemma related_retire_autoplay t1 t2 c o :
  Related c o →
  next_timer AutoplayTick (Classic.world c) = Some t1 →
  next_timer AutoplayTick (Optimized.world o) = Some t2 →
  Related (Classic.with_world (retire t1) c) (Optimized.with_world (retire t2) o).
Proof.
  intros (H & Hc & Ho) H1 H2.
  split; [|split; [by apply classic_retire_inv|by apply optimized_retire_inv]].
  rewrite next_timer_head in H1, H2.
  destruct Hc as [Hc _ _ _], Ho as [Ho _ _ _ _ _].
  unfold AutoOk, autoTimers in Hc, Ho.
  revert H H1 H2 Hc Ho. clear. sim_states c o. intros H. sim_subst H. cbn.
  intros H1 H2 Hc Ho.
  assert (filter (λ t, kind t = AutoplayTick) (filter (λ t, tid t ≠ tid t1) tms) = [])
    as E1.
  { rewrite filter_comm_tid. destruct Hc as [Hc|(t & Hc & _)]; rewrite Hc in *; [done|].
    assert (t = t1) as ->.
    { rewrite filter_cons in H1. case_decide; cbn in H1; by simplify_eq. }
    rewrite filter_cons. by case_decide. }
  assert (filter (λ t, kind t = AutoplayTick) (filter (λ t, tid t ≠ tid t2) tms') = [])
    as E2.
  { rewrite filter_comm_tid. destruct Ho as [Ho|(t & Ho & _)]; rewrite Ho in *; [done|].
    assert (t = t2) as ->.
    { rewrite filter_cons in H2. case_decide; cbn in H2; by simplify_eq. }
    rewrite filter_cons. by case_decide. }
  constructor; cnorm; rewrite ?E1, ?E2; done.
Qed.

Lemma related_retire_resize t2 c o :
  Related c o →
  next_timer ResizeSettle (Optimized.world o) = Some t2 →
  Related c (Optimized.with_world (retire t2) o).
Proof.
  intros (H & Hc & Ho) H2.
  split; [|split; [done|by apply optimized_retire_inv]].
  apply next_timer_elem in H2 as [Hin Hk].
  destruct Ho as [_ _ _ Hr (_ & _ & F3) _].
  specialize (Hr t2 Hin Hk).
  assert (autoTimers (browser (Optimized.world (Optimized.with_world (retire t2) o)))
          = autoTimers (browser (Optimized.world o))) as Hauto.
  { revert Hr F3. clear. destruct_opt o. cnorm. intros -> F3.
    rewrite filter_comm_tid. apply filter_all, Forall_forall. intros t Ht.
    apply list_elem_of_filter in Ht as [Hk Ht]. specialize (F3 t Ht Hk). congruence. }
  destruct H as [S1 S2 S3 S4 S5 S6 S7 S8 S9].
  constructor; rewrite ?Hauto; done.
Qed.

Lemma related_timer k c o :
  Related c o →
  match next_timer k (Classic.world c), next_timer k (Optimized.world o) with
  | Some t1, Some t2 =>
      Related (Classic.run_timer cfg k (Classic.with_world (retire t1) c))
              (Optimized.run_timer cfg k (Optimized.with_world (retire t2) o))
  | None, None => True
  | None, Some t2 =>
      Related c (Optimized.run_timer cfg k (Optimized.with_world (retire t2) o))
  | Some _, None => False
  end.
Proof.
  intros HR. destruct k.
  - (* the autoplay timer: scheduled, and due, in both or in neither *)
    assert (next_timer AutoplayTick (Classic.world c) = None ↔
            next_timer AutoplayTick (Optimized.world o) = None) as Hsame.
    { destruct HR as (H & Hc & Ho). rewrite !next_timer_head.
      destruct Hc as [Hc _ _ _], Ho as [Ho _ _ _ _ _].
      unfold AutoOk, autoTimers in Hc, Ho.
      pose proof (sim_timers _ _ H) as Ht. pose proof (sim_env _ _ H) as He.
      unfold autoTimers in Ht. rewrite He.
      destruct Hc as [Hc|(t1 & Hc & _)], Ho as [Ho|(t2 & Ho & _)];
        rewrite Hc, Ho in *; try done.
      cbn in Ht. injection Ht as Hd Ha. rewrite !filter_cons.
      assert (due t1 (now (env (Optimized.world o)))
              ↔ due t2 (now (env (Optimized.world o)))) as Hdue.
      { unfold due. by rewrite Hd, Ha. }
      repeat case_decide; cbn; try done; tauto. }
    destruct (next_timer AutoplayTick (Classic.world c)) as [t1|] eqn:E1,
             (next_timer AutoplayTick (Optimized.world o)) as [t2|] eqn:E2;
      try done; try (by destruct Hsame as [Hs1 Hs2]; (discriminate Hs1 || discriminate Hs2)).
    pose proof (related_retire_autoplay t1 t2 c o HR E1 E2) as (H & Hc & Ho).
    cbn [Classic.run_timer Optimized.run_timer].
    unfold Classic.autoplayTick, Optimized.autoplayTick.
    unfold Classic.links, Optimized.tabLinksArray.
    rewrite <- (sim_index _ _ H), <- (sim_dom _ _ H).
    split; [apply sim_setActiveTab; [done|apply Hc|apply Ho]|].
    split; [by apply classic_setActiveTab_inv|by apply optimized_setActiveTab_inv].
  - (* a resize timer exists in the optimized variant only *)
    assert (next_timer ResizeSettle (Classic.world c) = None) as ->.
    { destruct HR as (_ & [_ _ _ Hk] & _). rewrite next_timer_head.
      rewrite (filter_none (λ t, kind t = ResizeSettle)); [done|].
      intros t Ht. rewrite Forall_forall in Hk. rewrite (Hk t Ht). done. }
    destruct (next_timer ResizeSettle (Optimized.world o)) as [t2|] eqn:E2; [|done].
    pose proof (related_retire_resize t2 c o HR E2) as (H & Hc & Ho).
    split; [|split; [done|by apply optimized_timer_inv]].
    cbn [Optimized.run_timer]. destruct H. constructor; done.
Qed.
End SimulationTimers.

(** * Mounting side by side *)

Section SimulationMount.
Variable cfg : Config.

Lemma classic_presetup_inv s : ClassicInv s → ClassicInv (classic_presetup cfg s).
Proof.
  intros Hs. unfold classic_presetup.
  assert (ClassicInv (Classic.setupMobileDropdown cfg s)) as H1.
  { unfold Classic.setupMobileDropdown. repeat case_match; try done;
      repeat apply classic_register_inv;
      (eapply classic_inv_frame; [exact Hs|done..]). }
  revert H1. generalize (Classic.setupMobileDropdown cfg s) as s1. intros s1 H1.
  unfold Classic.setupAutoplayProgressBars, Classic.setupAutoplayObserver,
    Classic.setupAutoplayHoverPause, Classic.setupAutoplayToggle.
  destruct (autoplayEnabled cfg); cbn [negb orb]; [|done].
  assert (ClassicInv (Classic.with_world (with_browser (set_observing true))
                        (Classic.with_world (emit SetDurationProperty) s1))) as H2.
  { eapply classic_inv_frame; [exact H1|done..]. }
  repeat case_match; repeat apply classic_register_inv; done.
Qed.

Lemma optimized_presetup_inv s : OptimizedInv s → OptimizedInv (optimized_presetup cfg s).
Proof.
  intros Hs. unfold optimized_presetup.
  assert (OptimizedInv (Optimized.setupMobileDropdown cfg s)) as H1.
  { unfold Optimized.setupMobileDropdown. repeat case_match; try done;
      repeat apply optimized_register_inv;
      (eapply optimized_inv_frame; [exact Hs|done..]). }
  revert H1. generalize (Optimized.setupMobileDropdown cfg s) as s1. intros s1 H1.
  assert (OptimizedInv (Optimized.setupAutoplayObserver cfg
                          (Optimized.setupAutoplayProgressBars cfg s1))) as H2.
  { unfold Optimized.setupAutoplayProgressBars, Optimized.setupAutoplayObserver.
    destruct (negb (autoplayEnabled cfg)); [done|].
    revert H1. generalize s1. intros s2. destruct_opt s2.
    intros [Ha Hp Hi Hr Hf Hl]. constructor; cnorm; auto. }
  apply (optimized_setupHover_inv cfg) in H2.
  unfold Optimized.setupAutoplayToggle. repeat case_match; try done.
  by apply optimized_register_inv.
Qed.

Lemma sim_register l c o :
  l_handler l ≠ HResize →
  Sim c o → Sim (Classic.register l c) (Optimized.register l o).
Proof.
  intros Hl. sim_states c o. intros H. sim_subst H.
  unfold Classic.register, Optimized.register, addEventListener.
  constructor; cnorm; try done.
  rewrite filter_app, filter_cons. by case_decide.
Qed.

Lemma sim_register_resize c o :
  Sim c o → Sim c (Optimized.register (mkListener TWindow Resize HResize) o).
Proof.
  sim_states c o. intros H. sim_subst H.
  unfold Optimized.register, addEventListener.
  constructor; cnorm; try done.
  rewrite filter_app, filter_cons. case_decide; [done|]. by rewrite app_nil_r.
Qed.

Lemma sim_setupMobileDropdown c o :
  Sim c o →
  Sim (Classic.setupMobileDropdown cfg c) (Optimized.setupMobileDropdown cfg o).
Proof.
  intros H. unfold Classic.setupMobileDropdown, Optimized.setupMobileDropdown.
  destruct (negb (isMobileDropdown cfg)); [done|].
  unfold Classic.initialDropdownLink, Optimized.initialDropdownLink,
    Classic.links, Optimized.tabLinksArray.
  rewrite <- (sim_dom _ _ H).
  destruct (dropdownToggle (dom (Classic.world c))) as [t|]; [|done].
  do 3 (apply sim_register; [done|]).
  revert H. clear. sim_states c o. intros H. sim_subst H.
  constructor; cnorm; done.
Qed.

Lemma sim_setupAutoplay c o :
  Sim c o →
  Sim (Classic.setupAutoplayToggle cfg (Classic.setupAutoplayHoverPause cfg
         (Classic.setupAutoplayObserver cfg
            (Classic.setupAutoplayProgressBars cfg c))))
      (Optimized.setupAutoplayToggle cfg (Optimized.setupAutoplayHoverPause cfg
         (Optimized.setupAutoplayObserver cfg
            (Optimized.setupAutoplayProgressBars cfg o)))).
Proof.
  intros H.
  unfold Classic.setupAutoplayToggle, Optimized.setupAutoplayToggle,
    Classic.setupAutoplayHoverPause, Optimized.setupAutoplayHoverPause,
    Classic.setupAutoplayObserver, Optimized.setupAutoplayObserver,
    Classic.setupAutoplayProgressBars, Optimized.setupAutoplayProgressBars.
  destruct (autoplayEnabled cfg); cbn [negb orb]; [|done].
  assert (Sim (Classic.with_world (with_browser (set_observing true))
                 (Classic.with_world (emit SetDurationProperty) c))
              (Optimized.with_world (with_browser (set_observing true))
                 (Optimized.with_world (emit SetDurationProperty) o))) as H1.
  { revert H. clear. sim_states c o. intros H. sim_subst H.
    constructor; cnorm; done. }
  revert H1.
  generalize (Classic.with_world (with_browser (set_observing true))
                (Classic.with_world (emit SetDurationProperty) c)) as c1.
  generalize (Optimized.with_world (with_browser (set_observing true))
                (Optimized.with_world (emit SetDurationProperty) o)) as o1.
  intros o1 c1 H1.
  assert (Sim (if negb (autoplayHoverPause cfg) then c1
               else Classic.register (mkListener TComponent MouseLeave HMouseLeave)
                      (Classic.register (mkListener TComponent MouseEnter HMouseEnter) c1))
              (if negb (autoplayHoverPause cfg) then o1
               else Optimized.with_vars (λ v, Optimized.set_eventListeners
                      (Optimized.eventListeners v
                       ++ [mkListener TComponent MouseEnter HMouseEnter;
                           mkListener TComponent MouseLeave HMouseLeave]) v)
                      (Optimized.with_world
                         (addEventListener (mkListener TComponent MouseLeave HMouseLeave))
                         (Optimized.with_world
                            (addEventListener
                               (mkListener TComponent MouseEnter HMouseEnter)) o1))))
    as H2.
  { destruct (negb (autoplayHoverPause cfg)); [done|].
    revert H1. clear. sim_states c1 o1. intros H. sim_subst H.
    unfold Classic.register, addEventListener.
    constructor; cnorm; try done.
    rewrite !filter_app, !filter_cons. by repeat case_decide. }
  revert H2. cbv zeta.
  match goal with |- Sim ?a ?b → _ => generalize a as c2; generalize b as o2 end.
  intros o2 c2 H2.
  unfold Classic.links, Optimized.tabLinksArray.
  rewrite <- (sim_dom _ _ H2).
  destruct (toggleButton (dom (Classic.world c2))); [|done].
  by apply sim_register.
Qed.

Lemma sim_presetup c o :
  Sim c o → Sim (classic_presetup cfg c) (optimized_presetup cfg o).
Proof.
  intros H. unfold classic_presetup, optimized_presetup.
  by apply sim_setupAutoplay, sim_setupMobileDropdown.
Qed.

Lemma sim_setupPerLink ty h c o :
  (∀ i, h i ≠ HResize) →
  Sim c o →
  Sim (Classic.setupPerLink ty h c) (Optimized.setupPerLink ty h o).
Proof.
  intros Hh H. unfold Classic.setupPerLink, Optimized.setupPerLink,
    Classic.links, Optimized.tabLinksArray.
  rewrite <- (sim_dom _ _ H).
  generalize (imap pair (tabLinks (dom (Classic.world c)))) as ils.
  intros ils. revert c o H.
  induction ils as [|il ils IH]; intros c o H; cbn [foldl]; [done|].
  apply IH. case_match; [|done]. apply sim_register; [apply Hh|done].
Qed.

Lemma sim_findInitial c o :
  Sim c o → Classic.findInitialActiveIndex c = Optimized.findInitialActiveIndex o.
Proof.
  intros H. unfold Classic.findInitialActiveIndex, Optimized.findInitialActiveIndex,
    Classic.links, Optimized.tabLinksArray.
  by rewrite (sim_hashMatchIndex c o H), (sim_dom _ _ H).
Qed.

Lemma related_init c o :
  Related c o → Related (Classic.init cfg c) (Optimized.init cfg o).
Proof.
  intros (H & Hc & Ho).
  split; [|split; [by apply classic_init_inv|by apply optimized_init_inv]].
  unfold Classic.init, Optimized.init.
  fold (classic_presetup cfg c). fold (optimized_presetup cfg o).
  pose proof (sim_presetup c o H) as H1.
  pose proof (classic_presetup_inv c Hc) as Hc1.
  pose proof (optimized_presetup_inv o Ho) as Ho1.
  revert H1 Hc1 Ho1.
  generalize (classic_presetup cfg c) as c1. generalize (optimized_presetup cfg o) as o1.
  intros o1 c1 H1 Hc1 Ho1.
  rewrite <- (sim_findInitial c1 o1 H1).
  set (i := Classic.findInitialActiveIndex c1).
  pose proof (sim_setActiveTab cfg i c1 o1 H1 (c_auto _ Hc1) (o_auto _ Ho1)) as H2.
  pose proof (classic_setActiveTab_inv cfg i c1 Hc1) as Hc2.
  pose proof (optimized_setActiveTab_inv cfg i o1 Ho1) as Ho2.
  revert H2 Hc2 Ho2.
  generalize (Classic.setActiveTab cfg i c1) as c2.
  generalize (Optimized.setActiveTab cfg i o1) as o2.
  intros o2 c2 H2 Hc2 Ho2.
  unfold Classic.setupClickHandlers, Classic.setupKeyboardNav,
    Optimized.setupClickHandlers, Optimized.setupKeyboardNav,
    Optimized.setupResizeHandler.
  apply sim_register; [done|].
  assert (Sim (Classic.setupPerLink Keydown HKeydownNav
                 (Classic.setupPerLink Click HClickTab c2))
              (Optimized.register (mkListener TWindow Resize HResize)
                 (Optimized.setupPerLink Keydown HKeydownNav
                    (Optimized.setupPerLink Click HClickTab o2)))) as H3.
  { apply sim_register_resize. do 2 (apply sim_setupPerLink; [done|]). done. }
  destruct (autoplayEnabled cfg); [|done].
  apply sim_startAutoplay; [done|..].
  - apply c_auto. by do 2 apply classic_setupPerLink_inv.
  - apply o_auto. apply optimized_register_inv.
    by do 2 apply optimized_setupPerLink_inv.
Qed.
End SimulationMount.

(** * The two variants under the same events *)

Lemma not_kept_is_resize h : ¬ h ≠ HResize → h = HResize.
Proof. intros Hn. destruct (decide (h = HResize)); [done|]. by destruct Hn. Qed.

Lemma related_run cfg evs c o :
  Related c o → Related (Classic.run cfg evs c) (Optimized.run cfg evs o).
Proof.
  apply (run_related _ _ _ _ _ _ _ _ _ _ Related (λ h, h ≠ HResize)).
  - intros h Hh%not_kept_is_resize. by subst.
  - intros x y (H & _ & _). apply (sim_listeners _ _ H).
  - intros x y (H & _ & _). apply (sim_observing _ _ H).
  - intros h d x y Hh HR. by apply related_handler.
  - intros h d x y Hh%not_kept_is_resize HR. subst. by apply related_resize.
  - intros e x y HR. by apply related_env.
  - intros es x y HR. by apply related_observer.
  - intros k x y HR. by apply related_timer.
Qed.

Lemma related_unmounted w :
  pristine w → tabLinks (dom w) ≠ [] →
  Related (Classic.mkState Classic.initialVars w)
          (Optimized.mkState (Optimized.initialVars w) w).
Proof.
  intros (Ht & Hls & Hob) Hne.
  assert (0 ≤ 0 < Z.of_nat (length (tabLinks (dom w)))) as Hi.
  { destruct (tabLinks (dom w)); [done|]. cbn. lia. }
  split; [|split].
  - constructor; cbn; try done. by rewrite Hls.
  - constructor; cnorm; rewrite ?Ht; auto.
  - constructor; cnorm; rewrite ?Ht; auto.
    + intros t Hin. rewrite Ht in Hin. by apply elem_of_nil in Hin.
    + repeat split; cbn; rewrite ?Ht; try done.
      all: intros t Hin; by apply elem_of_nil in Hin.
Qed.

(** C10. Mounted on the same page, with the same configuration, the classic
    and the optimized controller mount together or not at all, and after any
    same sequence of events (clicks and key presses on tabs, timer fires,
    pointer enter and leave, observer reports, toggle clicks, hash changes,
    resizes, waits) they have the same active index, the same paused flag,
    the same elapsed time and cycle start, and the same DOM of the
    component. *)
Theorem variants_agree (cfg : Config) (w : World) (evs : list Event) :
  pristine w →
  match Classic.initTabsComponent cfg w, Optimized.initTabsComponent cfg w with
  | Some c, Some o =>
      let c' := Classic.run cfg evs c in
      let o' := Optimized.run cfg evs o in
      Classic.currentActiveIndex (Classic.vars c')
      = Optimized.currentActiveIndex (Optimized.vars o') ∧
      Classic.isAutoplayPaused (Classic.vars c')
      = Optimized.isAutoplayPaused (Optimized.vars o') ∧
      Classic.autoplayElapsedTime (Classic.vars c')
      = Optimized.autoplayElapsedTime (Optimized.vars o') ∧
      Classic.autoplayStartTime (Classic.vars c')
      = Optimized.autoplayStartTime (Optimized.vars o') ∧
      dom (Classic.world c') = dom (Optimized.world o')
  | None, None => True
  | _, _ => False
  end.
Proof.
  intros Hw. unfold Classic.initTabsComponent, Optimized.initTabsComponent.
  destruct (bool_decide (tabLinks (dom w) = []) || bool_decide (tabPanes (dom w) = []))
    eqn:E; [done|].
  apply orb_false_elim in E as [E _]. apply bool_decide_eq_false in E.
  pose proof (related_run cfg evs _ _
                (related_init cfg _ _ (related_unmounted w Hw E))) as (H & _ & _).
  cbv zeta. destruct H. done.
Qed.

Lemma variants_agree_witness :
  Classic.currentActiveIndex (Classic.vars
    (Classic.run autoplay_cfg
       [EResize 500; EWait 200; ETimer ResizeSettle; EWait 4800; ETimer AutoplayTick;
        EMouseEnter; EKeydownTab 0 "ArrowRight"; EMouseLeave]
       (classic_mounted autoplay_cfg (sample_world three_links 3 "#intro"))))
  = Optimized.currentActiveIndex (Optimized.vars
      (Optimized.run autoplay_cfg
         [EResize 500; EWait 200; ETimer ResizeSettle; EWait 4800; ETimer AutoplayTick;
          EMouseEnter; EKeydownTab 0 "ArrowRight"; EMouseLeave]
         (optimized_mounted autoplay_cfg (sample_world three_links 3 "#intro")))).
Proof.
  exact (proj1 (variants_agree autoplay_cfg (sample_world three_links 3 "#intro")
                  [EResize 500; EWait 200; ETimer ResizeSettle; EWait 4800;
                   ETimer AutoplayTick; EMouseEnter; EKeydownTab 0 "ArrowRight";
                   EMouseLeave]
                  (sample_pristine three_links 3 "#intro"))).
Defined.

(** * The tabs as the user sees them *)

Lemma tabs_move_sync before after :
  tabs_move before after → tabs_in_sync before → tabs_in_sync after.
Proof.
  intros [->|(i & Hi & ->)] Hs; [done|].
  destruct before as [[cur links] panes]. unfold tabs_in_sync. cbn in *.
  split; [by rewrite length_imap|].
  split; [by apply links_written|apply panes_written; lia].
Qed.

Lemma tabs_move_activates before after :
  tabs_move before after → tabs_in_sync after ∨ after = before.
Proof.
  intros [->|(i & Hi & ->)]; [by right|left].
  destruct before as [[cur links] panes]. unfold tabs_in_sync. cbn in *.
  split; [by rewrite length_imap|].
  split; [by apply links_written|apply panes_written; lia].
Qed.

Section TabsFrame.
Variable cfg : Config.

Lemma classic_setActiveTab_invalid index s :
  ¬ 0 ≤ index < Z.of_nat (length (Classic.links s)) →
  Classic.setActiveTab cfg index s = s.
Proof.
  intros Hi. rewrite classic_setActiveTab_stages.
  destruct (ClassicStages.outOfRange index s) eqn:E; [done|].
  by apply classic_outOfRange_false in E.
Qed.

Lemma optimized_setActiveTab_invalid index s :
  ¬ 0 ≤ index < Z.of_nat (length (Optimized.tabLinksArray s)) →
  Optimized.setActiveTab cfg index s = s.
Proof.
  intros Hi. rewrite optimized_setActiveTab_stages.
  destruct (OptimizedStages.outOfRange index s) eqn:E; [done|].
  by apply optimized_outOfRange_false in E.
Qed.

Lemma classic_setActiveTab_tabs index s :
  tabs_move (classic_tabs s) (classic_tabs (Classic.setActiveTab cfg index s)).
Proof.
  destruct (decide (0 ≤ index < Z.of_nat (length (Classic.links s)))) as [Hi|Hi].
  - right. exists index. split; [done|]. unfold classic_tabs.
    by rewrite classic_setActiveTab_index, classic_setActiveTab_links,
      classic_setActiveTab_panes.
  - left. by rewrite classic_setActiveTab_invalid.
Qed.

Lemma optimized_setActiveTab_tabs index s :
  tabs_move (optimized_tabs s) (optimized_tabs (Optimized.setActiveTab cfg index s)).
Proof.
  destruct (decide (0 ≤ index < Z.of_nat (length (Optimized.tabLinksArray s))))
    as [Hi|Hi].
  - right. exists index. split; [done|]. unfold optimized_tabs.
    by rewrite optimized_setActiveTab_index, optimized_setActiveTab_links,
      optimized_setActiveTab_panes.
  - left. by rewrite optimized_setActiveTab_invalid.
Qed.
End TabsFrame.

Section TabsHandlers.
Variable cfg : Config.

Lemma classic_pause_tabs s :
  classic_tabs (Classic.pauseAutoplay cfg s) = classic_tabs s.
Proof.
  cdestruct s. destruct d.
  unfold classic_tabs, Classic.pauseAutoplay, Classic.stopAutoplay,
    Classic.updateToggleButton. cnorm.
  destruct (autoplayEnabled cfg); cnorm; repeat case_match; reflexivity.
Qed.

Lemma classic_resume_tabs s :
  classic_tabs (Classic.resumeAutoplay cfg s) = classic_tabs s.
Proof.
  cdestruct s. destruct d.
  unfold classic_tabs, Classic.resumeAutoplay, Classic.startAutoplay,
    Classic.stopAutoplay, Classic.updateToggleButton. cnorm.
  destruct (autoplayEnabled cfg); cnorm; repeat case_match; reflexivity.
Qed.

Lemma classic_dropdown_tabs s :
  classic_tabs (Classic.closeDropdown s) = classic_tabs s ∧
  classic_tabs (Classic.openDropdown s) = classic_tabs s ∧
  classic_tabs (Classic.toggleDropdown s) = classic_tabs s.
Proof.
  cdestruct s. destruct d.
  unfold classic_tabs, Classic.toggleDropdown, Classic.closeDropdown,
    Classic.openDropdown. cnorm.
  repeat split; repeat case_match; reflexivity.
Qed.

Lemma optimized_pause_tabs s :
  optimized_tabs (Optimized.pauseAutoplay cfg s) = optimized_tabs s.
Proof.
  destruct_opt s. destruct d.
  unfold optimized_tabs, Optimized.pauseAutoplay, Optimized.stopAutoplay,
    Optimized.updateToggleButton. cnorm.
  destruct (autoplayEnabled cfg); cnorm; repeat case_match; reflexivity.
Qed.

Lemma optimized_resume_tabs s :
  optimized_tabs (Optimized.resumeAutoplay cfg s) = optimized_tabs s.
Proof.
  destruct_opt s. destruct d.
  unfold optimized_tabs, Optimized.resumeAutoplay, Optimized.startAutoplay,
    Optimized.stopAutoplay, Optimized.updateToggleButton. cnorm.
  destruct (autoplayEnabled cfg); cnorm; repeat case_match; reflexivity.
Qed.

Lemma optimized_dropdown_tabs s :
  optimized_tabs (Optimized.closeDropdown s) = optimized_tabs s ∧
  optimized_tabs (Optimized.openDropdown s) = optimized_tabs s ∧
  optimized_tabs (Optimized.toggleDropdown s) = optimized_tabs s.
Proof.
  destruct_opt s. destruct d.
  unfold optimized_tabs, Optimized.toggleDropdown, Optimized.closeDropdown,
    Optimized.openDropdown. cnorm.
  repeat split; repeat case_match; reflexivity.
Qed.

Lemma optimized_resize_tabs s :
  optimized_tabs (Optimized.resizeHandler s) = optimized_tabs s.
Proof.
  destruct_opt s. unfold optimized_tabs, Optimized.resizeHandler. cnorm.
  by destruct rt.
Qed.

Lemma classic_tabs_emit e s :
  classic_tabs (Classic.with_world (emit e) s) = classic_tabs s.
Proof. reflexivity. Qed.

Lemma optimized_tabs_emit e s :
  optimized_tabs (Optimized.with_world (emit e) s) = optimized_tabs s.
Proof. reflexivity. Qed.

Lemma classic_keydown_tabs key s :
  tabs_move (classic_tabs s) (classic_tabs (Classic.keydownHandler cfg key s)).
Proof.
  unfold Classic.keydownHandler. cbv zeta.
  assert (∀ i, tabs_move (classic_tabs s)
                 (classic_tabs (Classic.setActiveTab cfg i
                    (Classic.with_world (emit PreventDefault) s)))) as Hset.
  { intros i. rewrite <- (classic_tabs_emit PreventDefault s) at 1.
    apply classic_setActiveTab_tabs. }
  repeat case_decide; try (by left); repeat case_match;
    rewrite ?classic_tabs_emit; apply Hset.
Qed.

Lemma optimized_keydown_tabs key s :
  tabs_move (optimized_tabs s) (optimized_tabs (Optimized.keydownHandler cfg key s)).
Proof.
  unfold Optimized.keydownHandler. cbv zeta.
  assert (∀ i, tabs_move (optimized_tabs s)
                 (optimized_tabs (Optimized.setActiveTab cfg i
                    (Optimized.with_world (emit PreventDefault) s)))) as Hset.
  { intros i. rewrite <- (optimized_tabs_emit PreventDefault s) at 1.
    apply optimized_setActiveTab_tabs. }
  repeat case_decide; try (by left); repeat case_match;
    rewrite ?optimized_tabs_emit; apply Hset.
Qed.

Lemma classic_handler_tabs h d s :
  tabs_move (classic_tabs s) (classic_tabs (Classic.run_handler cfg h d s)).
Proof.
  destruct (classic_dropdown_tabs s) as (Dc & Do & Dt).
  destruct h as [| | | | | |i|index| |]; cbn [Classic.run_handler].
  - left. apply (proj2 (proj2 (classic_dropdown_tabs
                                 (Classic.with_world (emit StopPropagation) s)))).
  - left. by case_match.
  - left. case_match; [|done]. exact Dc.
  - left. apply classic_pause_tabs.
  - left. apply classic_resume_tabs.
  - left. case_match; [apply classic_resume_tabs|apply classic_pause_tabs].
  - apply classic_keydown_tabs.
  - unfold Classic.clickHandler. cbv zeta.
    repeat case_match; rewrite ?classic_tabs_emit;
      rewrite <- (classic_tabs_emit PreventDefault s) at 1;
      apply classic_setActiveTab_tabs.
  - by left.
  - case_match; [apply classic_setActiveTab_tabs|by left].
Qed.

Lemma optimized_handler_tabs h d s :
  tabs_move (optimized_tabs s) (optimized_tabs (Optimized.run_handler cfg h d s)).
Proof.
  destruct (optimized_dropdown_tabs s) as (Dc & Do & Dt).
  destruct h as [| | | | | |i|index| |]; cbn [Optimized.run_handler].
  - left. apply (proj2 (proj2 (optimized_dropdown_tabs
                                 (Optimized.with_world (emit StopPropagation) s)))).
  - left. by case_match.
  - left. case_match; [|done]. exact Dc.
  - left. apply optimized_pause_tabs.
  - left. apply optimized_resume_tabs.
  - left. case_match; [apply optimized_resume_tabs|apply optimized_pause_tabs].
  - apply optimized_keydown_tabs.
  - unfold Optimized.clickHandler. cbv zeta.
    repeat case_match; rewrite ?optimized_tabs_emit;
      rewrite <- (optimized_tabs_emit PreventDefault s) at 1;
      apply optimized_setActiveTab_tabs.
  - left. apply optimized_resize_tabs.
  - case_match; [apply optimized_setActiveTab_tabs|by left].
Qed.

Lemma classic_observer_tabs es s :
  classic_tabs (Classic.observerCallback cfg es s) = classic_tabs s.
Proof.
  unfold Classic.observerCallback. revert s.
  induction es as [|b es IH]; intros s; cbn [foldl]; [done|].
  rewrite IH. destruct b; [apply classic_resume_tabs|apply classic_pause_tabs].
Qed.

Lemma optimized_observer_tabs es s :
  optimized_tabs (Optimized.observerCallback cfg es s) = optimized_tabs s.
Proof.
  unfold Optimized.observerCallback. revert s.
  induction es as [|b es IH]; intros s; cbn [foldl]; [done|].
  rewrite IH. destruct b; [apply optimized_resume_tabs|apply optimized_pause_tabs].
Qed.

Lemma classic_step_sync e s :
  tabs_in_sync (classic_tabs s) → tabs_in_sync (classic_tabs (Classic.step cfg e s)).
Proof.
  apply (step_keeps Classic.world Classic.with_world _ _ _
           (λ s, tabs_in_sync (classic_tabs s))).
  - intros h d s' Hs. eapply tabs_move_sync; [apply classic_handler_tabs|done].
  - intros e' s' Hs. by destruct e'.
  - intros es s' Hs. by rewrite classic_observer_tabs.
  - intros k t s' Hs _. destruct k; cbn [Classic.run_timer]; [|done].
    eapply tabs_move_sync; [apply classic_setActiveTab_tabs|done].
Qed.

Lemma optimized_step_sync e s :
  tabs_in_sync (optimized_tabs s) →
  tabs_in_sync (optimized_tabs (Optimized.step cfg e s)).
Proof.
  apply (step_keeps Optimized.world Optimized.with_world _ _ _
           (λ s, tabs_in_sync (optimized_tabs s))).
  - intros h d s' Hs. eapply tabs_move_sync; [apply optimized_handler_tabs|done].
  - intros e' s' Hs. by destruct e'.
  - intros es s' Hs. by rewrite optimized_observer_tabs.
  - intros k t s' Hs _. destruct k; cbn [Optimized.run_timer]; [|done].
    eapply tabs_move_sync; [apply optimized_setActiveTab_tabs|done].
Qed.
End TabsHandlers.

Section TabsMount.
Variable cfg : Config.

Lemma classic_start_tabs s :
  classic_tabs (Classic.startAutoplay cfg s) = classic_tabs s.
Proof.
  cdestruct s. unfold classic_tabs, Classic.startAutoplay, Classic.stopAutoplay.
  cnorm. repeat case_match; reflexivity.
Qed.

Lemma optimized_start_tabs s :
  optimized_tabs (Optimized.startAutoplay cfg s) = optimized_tabs s.
Proof.
  destruct_opt s.
  unfold optimized_tabs, Optimized.startAutoplay, Optimized.stopAutoplay.
  cnorm. repeat case_match; reflexivity.
Qed.

Lemma classic_setupPerLink_tabs ty h s :
  classic_tabs (Classic.setupPerLink ty h s) = classic_tabs s.
Proof.
  unfold Classic.setupPerLink. generalize (imap pair (Classic.links s)) as ils.
  intros ils. revert s.
  induction ils as [|il ils IH]; intros s; cbn [foldl]; [done|].
  rewrite IH. by case_match.
Qed.

Lemma optimized_setupPerLink_tabs ty h s :
  optimized_tabs (Optimized.setupPerLink ty h s) = optimized_tabs s.
Proof.
  unfold Optimized.setupPerLink.
  generalize (imap pair (Optimized.tabLinksArray s)) as ils.
  intros ils. revert s.
  induction ils as [|il ils IH]; intros s; cbn [foldl]; [done|].
  rewrite IH. by case_match.
Qed.

Lemma classic_mounted_sync w s :
  Classic.initTabsComponent cfg w = Some s → tabs_in_sync (classic_tabs s).
Proof.
  unfold Classic.initTabsComponent. intros Hm.
  destruct (bool_decide (tabLinks (dom w) = []) || bool_decide (tabPanes (dom w) = []))
    eqn:E; [done|].
  apply orb_false_elim in E as [E _]. apply bool_decide_eq_false in E.
  injection Hm as <-. unfold Classic.init.
  fold (classic_presetup cfg (Classic.mkState Classic.initialVars w)).
  destruct (classic_presetup_links cfg (Classic.mkState Classic.initialVars w))
    as [Hl He].
  generalize dependent (classic_presetup cfg (Classic.mkState Classic.initialVars w)).
  intros s1 Hl He.
  unfold Classic.setupClickHandlers, Classic.setupKeyboardNav.
  assert (∀ l s, classic_tabs (Classic.register l s) = classic_tabs s) as Hreg by done.
  assert (∀ s, classic_tabs (if autoplayEnabled cfg then Classic.startAutoplay cfg s
                             else s) = classic_tabs s) as Hs.
  { intros s. destruct (autoplayEnabled cfg); [apply classic_start_tabs|done]. }
  rewrite Hreg, Hs, !classic_setupPerLink_tabs.
  pose proof (classic_findInitial_range s1) as Hr. rewrite Hl in Hr.
  specialize (Hr E). rewrite <- Hl in Hr.
  unfold classic_tabs.
  rewrite classic_setActiveTab_index, classic_setActiveTab_links,
    classic_setActiveTab_panes by done.
  unfold tabs_in_sync. cbn [fst snd]. rewrite length_imap.
  split; [done|]. split; [by apply links_written|apply panes_written; lia].
Qed.

Lemma optimized_mounted_sync w s :
  Optimized.initTabsComponent cfg w = Some s → tabs_in_sync (optimized_tabs s).
Proof.
  unfold Optimized.initTabsComponent. intros Hm.
  destruct (bool_decide (tabLinks (dom w) = []) || bool_decide (tabPanes (dom w) = []))
    eqn:E; [done|].
  apply orb_false_elim in E as [E _]. apply bool_decide_eq_false in E.
  injection Hm as <-. unfold Optimized.init.
  fold (optimized_presetup cfg (Optimized.mkState (Optimized.initialVars w) w)).
  destruct (optimized_presetup_links cfg
              (Optimized.mkState (Optimized.initialVars w) w)) as [Hl He].
  generalize dependent
    (optimized_presetup cfg (Optimized.mkState (Optimized.initialVars w) w)).
  intros s1 Hl He.
  unfold Optimized.setupClickHandlers, Optimized.setupKeyboardNav,
    Optimized.setupResizeHandler.
  assert (∀ l s, optimized_tabs (Optimized.register l s) = optimized_tabs s)
    as Hreg by done.
  assert (∀ s, optimized_tabs (if autoplayEnabled cfg
                               then Optimized.startAutoplay cfg s else s)
               = optimized_tabs s) as Hs.
  { intros s. destruct (autoplayEnabled cfg); [apply optimized_start_tabs|done]. }
  rewrite Hreg, Hs, Hreg, !optimized_setupPerLink_tabs.
  pose proof (optimized_findInitial_range s1) as Hr. rewrite Hl in Hr.
  specialize (Hr E). rewrite <- Hl in Hr.
  unfold optimized_tabs.
  rewrite optimized_setActiveTab_index, optimized_setActiveTab_links,
    optimized_setActiveTab_panes by done.
  unfold tabs_in_sync. cbn [fst snd]. rewrite length_imap.
  split; [done|]. split; [by apply links_written|apply panes_written; lia].
Qed.
End TabsMount.

(** X1. In every reachable state of a mounted component the active index is
    a valid position and the DOM shows it: the link at that position, and no
    other, is selected and carries the active class; every pane elsewhere is
    hidden and the pane at that position, if there is one, is shown. *)
Theorem tabs_always_in_sync (cfg : Config) :
  (∀ s, Classic.reachable cfg s → tabs_in_sync (classic_tabs s)) ∧
  (∀ s, Optimized.reachable cfg s → tabs_in_sync (optimized_tabs s)).
Proof.
  split; intros s Hr.
  - induction Hr as [w s Hw Hm|e s _ IH].
    + by eapply classic_mounted_sync.
    + by apply classic_step_sync.
  - induction Hr as [w s Hw Hm|e s _ IH].
    + by eapply optimized_mounted_sync.
    + by apply optimized_step_sync.
Qed.

Lemma tabs_always_in_sync_witness :
  tabs_in_sync (classic_tabs
    (Classic.run autoplay_cfg [EWait 5000; ETimer AutoplayTick; EKeydownTab 2 "End"]
       (classic_mounted autoplay_cfg (sample_world three_links 3 "#faq")))) ∧
  tabs_in_sync (optimized_tabs
    (Optimized.run plain_cfg [EClickTab 1; EHashChange "#nope"]
       (optimized_mounted plain_cfg (sample_world three_links 3 "")))).
Proof.
  split.
  - apply (proj1 (tabs_always_in_sync autoplay_cfg)).
    apply classic_run_reachable, classic_sample_reachable.
  - apply (proj2 (tabs_always_in_sync plain_cfg)).
    apply optimized_run_reachable, optimized_sample_reachable.
Defined.

(** * The autoplay cycle as an invariant *)

Section CycleClassic.
Variable cfg : Config.

(** The autoplay part of the state after [startAutoplay] has run. *)
Lemma classic_start_cycle s :
  AutoOk (Classic.autoplayTimer (Classic.vars s)) (browser (Classic.world s)) →
  autoplayEnabled cfg = true →
  Classic.isAutoplayPaused (Classic.vars s) = false →
  classic_cycle_ok cfg (Classic.startAutoplay cfg s).
Proof.
  intros Ha En Hp.
  destruct (classic_start_spec cfg s Ha En Hp) as (S1 & S2 & S3 & S4 & S5).
  unfold classic_cycle_ok, cycle_ok. rewrite En, S5.
  eexists. split; [exact S1|]. cbn. by rewrite S2, S3, S4.
Qed.

Lemma classic_pause_cycle s :
  AutoOk (Classic.autoplayTimer (Classic.vars s)) (browser (Classic.world s)) →
  classic_cycle_ok cfg s →
  classic_cycle_ok cfg (Classic.pauseAutoplay cfg s).
Proof.
  intros Ha Hc. destruct (autoplayEnabled cfg) eqn:En.
  - destruct (classic_pause_spec cfg s Ha En) as (P1 & P2 & P3 & P4 & _).
    unfold classic_cycle_ok, cycle_ok. by rewrite En, P4.
  - unfold Classic.pauseAutoplay. by rewrite En.
Qed.

Lemma classic_resume_cycle s :
  AutoOk (Classic.autoplayTimer (Classic.vars s)) (browser (Classic.world s)) →
  classic_cycle_ok cfg s →
  classic_cycle_ok cfg (Classic.resumeAutoplay cfg s).
Proof.
  intros Ha Hc. unfold Classic.resumeAutoplay.
  destruct (autoplayEnabled cfg) eqn:En; cbn [negb]; [|done].
  cbv zeta.
  set (s1 := Classic.with_world (with_dom (set_autoplay_paused_class false))
               (Classic.with_vars (Classic.set_isAutoplayPaused false) s)).
  pose proof (classic_start_cycle s1 Ha En eq_refl) as H1.
  revert H1. generalize (Classic.startAutoplay cfg s1) as s2. intros s2 H1.
  unfold Classic.updateToggleButton. by case_match.
Qed.

Lemma classic_afterSwitch_cycle s :
  AutoOk (Classic.autoplayTimer (Classic.vars s)) (browser (Classic.world s)) →
  classic_cycle_ok cfg s →
  classic_cycle_ok cfg (ClassicStages.autoplayAfterSwitch cfg s).
Proof.
  intros Ha Hc. unfold ClassicStages.autoplayAfterSwitch.
  destruct (autoplayEnabled cfg) eqn:En; [|done].
  destruct (Classic.isAutoplayPaused (Classic.vars s)) eqn:Ep.
  - unfold classic_cycle_ok, cycle_ok in *. rewrite En in *. cbn. by rewrite Ep in *.
  - unfold Classic.restartAutoplay. rewrite En. cbn [negb]. cbv zeta.
    repeat case_match; by apply classic_start_cycle.
Qed.

Lemma classic_setActiveTab_cycle index s :
  AutoOk (Classic.autoplayTimer (Classic.vars s)) (browser (Classic.world s)) →
  classic_cycle_ok cfg s →
  classic_cycle_ok cfg (Classic.setActiveTab cfg index s).
Proof.
  intros Ha Hc. rewrite classic_setActiveTab_stages.
  destruct (ClassicStages.outOfRange index s); [done|].
  apply classic_afterSwitch_cycle.
  - by rewrite classic_activate_vars, classic_activate_browser.
  - unfold classic_cycle_ok.
    by rewrite classic_activate_vars, classic_activate_browser.
Qed.
End CycleClassic.

Section HandlerShape.
Variable cfg : Config.

(** A navigation key either is ignored or activates one tab; the focus call
    after it changes neither the variables nor the timers. *)
Lemma classic_keydown_shape key s :
  Classic.keydownHandler cfg key s = s ∨
  ∃ j, let s' := Classic.setActiveTab cfg j
                   (Classic.with_world (emit PreventDefault) s) in
       Classic.vars (Classic.keydownHandler cfg key s) = Classic.vars s' ∧
       timers (browser (Classic.world (Classic.keydownHandler cfg key s)))
       = timers (browser (Classic.world s')).
Proof.
  unfold Classic.keydownHandler. cbv zeta.
  assert (∀ e x, Classic.vars (Classic.with_world (emit e) x) = Classic.vars x ∧
                 timers (browser (Classic.world (Classic.with_world (emit e) x)))
                 = timers (browser (Classic.world x))) as Hfocus by done.
  repeat case_decide;
    [right; repeat case_match; eexists;
     first [apply Hfocus | split; reflexivity]..|].
  by left.
Qed.

Lemma classic_click_shape index s :
  let s' := Classic.setActiveTab cfg (Z.of_nat index)
              (Classic.with_world (emit PreventDefault) s) in
  Classic.vars (Classic.clickHandler cfg index s) = Classic.vars s' ∧
  timers (browser (Classic.world (Classic.clickHandler cfg index s)))
  = timers (browser (Classic.world s')).
Proof.
  unfold Classic.clickHandler. cbv zeta. by case_match.
Qed.
End HandlerShape.

Section CycleClassicLoop.
Variable cfg : Config.

Lemma classic_cycle_frame s s' :
  classic_cycle_ok cfg s →
  Classic.vars s' = Classic.vars s →
  timers (browser (Classic.world s')) = timers (browser (Classic.world s)) →
  classic_cycle_ok cfg s'.
Proof.
  unfold classic_cycle_ok, cycle_ok, autoTimers. intros H Hv Ht.
  by rewrite Hv, Ht.
Qed.

Lemma classic_handler_cycle h d s :
  ClassicInv s → classic_cycle_ok cfg s →
  classic_cycle_ok cfg (Classic.run_handler cfg h d s).
Proof.
  intros Hi Hc. pose proof (c_auto _ Hi) as Ha.
  destruct h as [| | | | | |i|index| |]; cbn [Classic.run_handler].
  - unfold Classic.toggleDropdown, Classic.closeDropdown, Classic.openDropdown.
    repeat case_match; by eapply classic_cycle_frame.
  - unfold Classic.closeDropdown. repeat case_match; by eapply classic_cycle_frame.
  - unfold Classic.closeDropdown. repeat case_match; by eapply classic_cycle_frame.
  - by apply classic_pause_cycle.
  - by apply classic_resume_cycle.
  - case_match; [by apply classic_resume_cycle|by apply classic_pause_cycle].
  - destruct (classic_keydown_shape cfg (ev_key d) s) as [->|(j & Hv & Ht)]; [done|].
    eapply classic_cycle_frame; [|exact Hv|exact Ht].
    by apply classic_setActiveTab_cycle.
  - destruct (classic_click_shape cfg index s) as (Hv & Ht).
    eapply classic_cycle_frame; [|exact Hv|exact Ht].
    by apply classic_setActiveTab_cycle.
  - done.
  - case_match; [|done]. by apply classic_setActiveTab_cycle.
Qed.

Lemma classic_observer_cycle es s :
  ClassicInv s → classic_cycle_ok cfg s →
  ClassicInv (Classic.observerCallback cfg es s) ∧
  classic_cycle_ok cfg (Classic.observerCallback cfg es s).
Proof.
  unfold Classic.observerCallback. revert s.
  induction es as [|b es IH]; intros s Hi Hc; cbn [foldl]; [done|].
  destruct b.
  - apply IH; [by apply classic_resume_inv|].
    apply classic_resume_cycle; [apply Hi|done].
  - apply IH; [by apply classic_pause_inv|].
    apply classic_pause_cycle; [apply Hi|done].
Qed.

(** The callback of a fired autoplay timer starts the next cycle. *)
Lemma classic_tick_cycle t s :
  ClassicInv s → classic_cycle_ok cfg s →
  next_timer AutoplayTick (Classic.world s) = Some t →
  classic_cycle_ok cfg (Classic.autoplayTick cfg (Classic.with_world (retire t) s)).
Proof.
  intros Hi Hc Ht.
  pose proof (classic_retire_inv t s Hi) as Hi'.
  assert (autoplayEnabled cfg = true ∧
          Classic.isAutoplayPaused (Classic.vars s) = false) as [En Hp].
  { apply next_timer_elem in Ht as [Hin Hk].
    assert (t ∈ autoTimers (browser (Classic.world s))) as Hat
      by (by apply list_elem_of_filter).
    unfold classic_cycle_ok, cycle_ok in Hc.
    destruct (autoplayEnabled cfg), (Classic.isAutoplayPaused (Classic.vars s));
      try done.
    - destruct Hc as (_ & Hn & _). rewrite Hn in Hat. by apply elem_of_nil in Hat.
    - destruct Hc as (Hn & _). rewrite Hn in Hat. by apply elem_of_nil in Hat.
    - destruct Hc as (Hn & _). rewrite Hn in Hat. by apply elem_of_nil in Hat. }
  unfold Classic.autoplayTick. rewrite classic_setActiveTab_stages.
  set (s1 := Classic.with_world (retire t) s) in *.
  assert (ClassicStages.outOfRange
            (Z.rem (Classic.currentActiveIndex (Classic.vars s1) + 1)
                   (Z.of_nat (length (Classic.links s1)))) s1 = false) as ->.
  { apply classic_outOfRange_false. pose proof (c_index _ Hi') as Hr.
    unfold Classic.links. rewrite Z.rem_mod_nonneg by lia.
    apply Z.mod_pos_bound. lia. }
  unfold ClassicStages.autoplayAfterSwitch. rewrite En, classic_activate_vars.
  cbn [Classic.isAutoplayPaused Classic.set_currentActiveIndex].
  change (Classic.isAutoplayPaused (Classic.vars s1))
    with (Classic.isAutoplayPaused (Classic.vars s)).
  rewrite Hp. unfold Classic.restartAutoplay. rewrite En. cbn [negb]. cbv zeta.
  repeat case_match; apply classic_start_cycle; try done;
    cbn; rewrite ?classic_activate_vars, ?classic_activate_browser; try done;
    apply Hi'.
Qed.

Lemma classic_step_cycle e s :
  ClassicInv s ∧ classic_cycle_ok cfg s →
  ClassicInv (Classic.step cfg e s) ∧ classic_cycle_ok cfg (Classic.step cfg e s).
Proof.
  apply (step_keeps Classic.world Classic.with_world _ _ _
           (λ s, ClassicInv s ∧ classic_cycle_ok cfg s)).
  - intros h d s' [Hi Hc].
    split; [by apply classic_handler_inv|by apply classic_handler_cycle].
  - intros e' s' [Hi Hc]. split; [by apply classic_env_inv|].
    eapply classic_cycle_frame; [exact Hc|..]; by destruct e'.
  - intros es s' [Hi Hc]. by apply classic_observer_cycle.
  - intros k t s' [Hi Hc] Ht.
    split; [by apply classic_timer_inv, classic_retire_inv|].
    destruct k; cbn [Classic.run_timer].
    + by apply classic_tick_cycle.
    + apply next_timer_elem in Ht as [Hin Hk].
      pose proof (c_kinds _ Hi) as Hks. rewrite Forall_forall in Hks.
      rewrite (Hks t Hin) in Hk. done.
Qed.

Lemma classic_setupPerLink_frame ty h s :
  Classic.vars (Classic.setupPerLink ty h s) = Classic.vars s ∧
  timers (browser (Classic.world (Classic.setupPerLink ty h s)))
  = timers (browser (Classic.world s)).
Proof.
  unfold Classic.setupPerLink. generalize (imap pair (Classic.links s)) as ils.
  intros ils. revert s.
  induction ils as [|il ils IH]; intros s; cbn [foldl]; [done|].
  destruct (IH (match overlay il.2 with
                | Some _ => Classic.register
                              (mkListener (TOverlay il.1) ty (h il.1)) s
                | None => s
                end)) as [-> ->].
  by case_match.
Qed.

Lemma classic_register_frame l s :
  Classic.vars (Classic.register l s) = Classic.vars s ∧
  timers (browser (Classic.world (Classic.register l s)))
  = timers (browser (Classic.world s)).
Proof. done. Qed.

Lemma classic_setups_frame :
  ∀ f, f ∈ [Classic.setupMobileDropdown cfg; Classic.setupAutoplayProgressBars cfg;
            Classic.setupAutoplayObserver cfg; Classic.setupAutoplayHoverPause cfg;
            Classic.setupAutoplayToggle cfg] →
  ∀ s, Classic.vars (f s) = Classic.vars s ∧
       timers (browser (Classic.world (f s))) = timers (browser (Classic.world s)).
Proof.
  intros f Hf s. repeat (apply elem_of_cons in Hf as [->|Hf]);
    [..|by apply elem_of_nil in Hf].
  all: unfold Classic.setupAutoplayToggle, Classic.setupAutoplayHoverPause,
         Classic.setupAutoplayObserver, Classic.setupAutoplayProgressBars,
         Classic.setupMobileDropdown, Classic.register, addEventListener;
       cnorm; repeat case_match; done.
Qed.

Lemma classic_presetup_frame s :
  Classic.vars (classic_presetup cfg s) = Classic.vars s ∧
  timers (browser (Classic.world (classic_presetup cfg s)))
  = timers (browser (Classic.world s)).
Proof.
  unfold classic_presetup.
  repeat match goal with
  | |- context [Classic.vars (?f ?x)] =>
      destruct (classic_setups_frame f ltac:(repeat constructor) x) as [-> ->]
  end.
  done.
Qed.

Lemma classic_mounted_cycle w s :
  pristine w → Classic.initTabsComponent cfg w = Some s → classic_cycle_ok cfg s.
Proof.
  intros Hw Hm. unfold Classic.initTabsComponent in Hm.
  destruct (bool_decide (tabLinks (dom w) = []) || bool_decide (tabPanes (dom w) = []))
    eqn:E; [done|].
  apply orb_false_elim in E as [E _]. apply bool_decide_eq_false in E.
  injection Hm as <-. unfold Classic.init.
  fold (classic_presetup cfg (Classic.mkState Classic.initialVars w)).
  set (s0 := Classic.mkState Classic.initialVars w).
  assert (ClassicInv s0) as Hi0.
  { destruct Hw as (Ht & _ & _). constructor; cnorm; rewrite ?Ht; auto.
    destruct (tabLinks (dom w)); [done|]. cbn. lia. }
  pose proof (classic_presetup_inv cfg s0 Hi0) as Hi1.
  set (s1 := classic_presetup cfg s0) in *.
  pose proof (classic_setActiveTab_inv cfg (Classic.findInitialActiveIndex s1) s1 Hi1)
    as Hi2.
  set (s2 := Classic.setActiveTab cfg (Classic.findInitialActiveIndex s1) s1) in *.
  unfold Classic.setupClickHandlers, Classic.setupKeyboardNav.
  pose proof (classic_setupPerLink_inv Keydown HKeydownNav _
                (classic_setupPerLink_inv Click HClickTab s2 Hi2)) as Hi3.
  set (s3 := Classic.setupPerLink Keydown HKeydownNav
               (Classic.setupPerLink Click HClickTab s2)) in *.
  assert (Classic.isAutoplayPaused (Classic.vars s3) = false) as Hp3.
  { subst s3 s2 s1.
    destruct (classic_setupPerLink_frame Keydown HKeydownNav
                (Classic.setupPerLink Click HClickTab
                   (Classic.setActiveTab cfg
                      (Classic.findInitialActiveIndex (classic_presetup cfg s0))
                      (classic_presetup cfg s0)))) as [-> _].
    destruct (classic_setupPerLink_frame Click HClickTab
                (Classic.setActiveTab cfg
                   (Classic.findInitialActiveIndex (classic_presetup cfg s0))
                   (classic_presetup cfg s0))) as [-> _].
    rewrite classic_setActiveTab_paused.
    by destruct (classic_presetup_frame s0) as [-> _]. }
  destruct (autoplayEnabled cfg) eqn:En.
  - eapply classic_cycle_frame;
      [apply (classic_start_cycle cfg s3 (c_auto _ Hi3) En Hp3)
      |apply classic_register_frame..].
  - eapply classic_cycle_frame with (s := s3); [|apply classic_register_frame..].
    eapply classic_cycle_frame;
      [|apply classic_setupPerLink_frame..].
    eapply classic_cycle_frame;
      [|apply classic_setupPerLink_frame..].
    apply classic_setActiveTab_cycle; [apply Hi1|].
    eapply classic_cycle_frame; [|apply classic_presetup_frame..].
    unfold classic_cycle_ok, cycle_ok. rewrite En.
    destruct Hw as (Ht & _ & _). unfold autoTimers. cbn. by rewrite Ht.
Qed.
End CycleClassicLoop.

Section CycleOptimized.
Variable cfg : Config.

Lemma optimized_start_cycle s :
  AutoOk (Optimized.autoplayTimer (Optimized.vars s)) (browser (Optimized.world s)) →
  autoplayEnabled cfg = true →
  Optimized.isAutoplayPaused (Optimized.vars s) = false →
  optimized_cycle_ok cfg (Optimized.startAutoplay cfg s).
Proof.
  intros Ha En Hp.
  destruct (optimized_start_spec cfg s Ha En Hp) as (S1 & S2 & S3 & S4 & S5).
  unfold optimized_cycle_ok, cycle_ok. rewrite En, S5.
  eexists. split; [exact S1|]. cbn. by rewrite S2, S3, S4.
Qed.

Lemma optimized_pause_cycle s :
  AutoOk (Optimized.autoplayTimer (Optimized.vars s)) (browser (Optimized.world s)) →
  optimized_cycle_ok cfg s →
  optimized_cycle_ok cfg (Optimized.pauseAutoplay cfg s).
Proof.
  intros Ha Hc. destruct (autoplayEnabled cfg) eqn:En.
  - destruct (optimized_pause_spec cfg s Ha En) as (P1 & P2 & P3 & P4 & _).
    unfold optimized_cycle_ok, cycle_ok. by rewrite En, P4.
  - unfold Optimized.pauseAutoplay. by rewrite En.
Qed.

Lemma optimized_resume_cycle s :
  AutoOk (Optimized.autoplayTimer (Optimized.vars s)) (browser (Optimized.world s)) →
  optimized_cycle_ok cfg s →
  optimized_cycle_ok cfg (Optimized.resumeAutoplay cfg s).
Proof.
  intros Ha Hc. unfold Optimized.resumeAutoplay.
  destruct (autoplayEnabled cfg) eqn:En; cbn [negb]; [|done].
  cbv zeta.
  set (s1 := Optimized.with_world (with_dom (set_autoplay_paused_class false))
               (Optimized.with_vars (Optimized.set_isAutoplayPaused false) s)).
  pose proof (optimized_start_cycle s1 Ha En eq_refl) as H1.
  revert H1. generalize (Optimized.startAutoplay cfg s1) as s2. intros s2 H1.
  unfold Optimized.updateToggleButton. by case_match.
Qed.

Lemma optimized_afterSwitch_cycle s :
  AutoOk (Optimized.autoplayTimer (Optimized.vars s)) (browser (Optimized.world s)) →
  optimized_cycle_ok cfg s →
  optimized_cycle_ok cfg (OptimizedStages.autoplayAfterSwitch cfg s).
Proof.
  intros Ha Hc. unfold OptimizedStages.autoplayAfterSwitch.
  destruct (autoplayEnabled cfg) eqn:En; [|done].
  destruct (Optimized.isAutoplayPaused (Optimized.vars s)) eqn:Ep.
  - unfold optimized_cycle_ok, cycle_ok in *. rewrite En in *. cbn.
    by rewrite Ep in *.
  - unfold Optimized.restartAutoplay. rewrite En. cbn [negb]. cbv zeta.
    repeat case_match; by apply optimized_start_cycle.
Qed.

Lemma optimized_setActiveTab_cycle index s :
  AutoOk (Optimized.autoplayTimer (Optimized.vars s)) (browser (Optimized.world s)) →
  optimized_cycle_ok cfg s →
  optimized_cycle_ok cfg (Optimized.setActiveTab cfg index s).
Proof.
  intros Ha Hc. rewrite optimized_setActiveTab_stages.
  destruct (OptimizedStages.outOfRange index s); [done|].
  apply optimized_afterSwitch_cycle.
  - by rewrite optimized_activate_vars, optimized_activate_browser.
  - unfold optimized_cycle_ok.
    by rewrite optimized_activate_vars, optimized_activate_browser.
Qed.

(** The part of the variables the cycle is made of. *)
Lemma optimized_cycle_frame s s' :
  optimized_cycle_ok cfg s →
  Optimized.isAutoplayPaused (Optimized.vars s')
  = Optimized.isAutoplayPaused (Optimized.vars s) ∧
  Optimized.autoplayStartTime (Optimized.vars s')
  = Optimized.autoplayStartTime (Optimized.vars s) ∧
  Optimized.autoplayElapsedTime (Optimized.vars s')
  = Optimized.autoplayElapsedTime (Optimized.vars s) ∧
  Optimized.autoplayTimer (Optimized.vars s')
  = Optimized.autoplayTimer (Optimized.vars s) →
  autoTimers (browser (Optimized.world s')) = autoTimers (browser (Optimized.world s)) →
  optimized_cycle_ok cfg s'.
Proof.
  unfold optimized_cycle_ok, cycle_ok. intros H (-> & -> & -> & ->) Ht.
  by rewrite Ht.
Qed.

Lemma optimized_cycle_same s s' :
  optimized_cycle_ok cfg s →
  Optimized.vars s' = Optimized.vars s →
  timers (browser (Optimized.world s')) = timers (browser (Optimized.world s)) →
  optimized_cycle_ok cfg s'.
Proof.
  intros H Hv Ht. eapply optimized_cycle_frame; [exact H|by rewrite Hv|].
  unfold autoTimers. by rewrite Ht.
Qed.

Lemma optimized_keydown_shape key s :
  Optimized.keydownHandler cfg key s = s ∨
  ∃ j, let s' := Optimized.setActiveTab cfg j
                   (Optimized.with_world (emit PreventDefault) s) in
       Optimized.vars (Optimized.keydownHandler cfg key s) = Optimized.vars s' ∧
       timers (browser (Optimized.world (Optimized.keydownHandler cfg key s)))
       = timers (browser (Optimized.world s')).
Proof.
  unfold Optimized.keydownHandler. cbv zeta.
  assert (∀ e x, Optimized.vars (Optimized.with_world (emit e) x) = Optimized.vars x ∧
                 timers (browser (Optimized.world (Optimized.with_world (emit e) x)))
                 = timers (browser (Optimized.world x))) as Hfocus by done.
  repeat case_decide;
    [right; repeat case_match; eexists;
     first [apply Hfocus | split; reflexivity]..|].
  by left.
Qed.

Lemma optimized_click_shape index s :
  let s' := Optimized.setActiveTab cfg (Z.of_nat index)
              (Optimized.with_world (emit PreventDefault) s) in
  Optimized.vars (Optimized.clickHandler cfg index s) = Optimized.vars s' ∧
  timers (browser (Optimized.world (Optimized.clickHandler cfg index s)))
  = timers (browser (Optimized.world s')).
Proof.
  unfold Optimized.clickHandler. cbv zeta. by case_match.
Qed.

Lemma optimized_handler_cycle h d s :
  OptimizedInv s → optimized_cycle_ok cfg s →
  optimized_cycle_ok cfg (Optimized.run_handler cfg h d s).
Proof.
  intros Hi Hc. pose proof (o_auto _ Hi) as Ha.
  destruct h as [| | | | | |i|index| |]; cbn [Optimized.run_handler].
  - unfold Optimized.toggleDropdown, Optimized.closeDropdown, Optimized.openDropdown.
    repeat case_match; by eapply optimized_cycle_same.
  - unfold Optimized.closeDropdown. repeat case_match; by eapply optimized_cycle_same.
  - unfold Optimized.closeDropdown. repeat case_match; by eapply optimized_cycle_same.
  - by apply optimized_pause_cycle.
  - by apply optimized_resume_cycle.
  - case_match; [by apply optimized_resume_cycle|by apply optimized_pause_cycle].
  - destruct (optimized_keydown_shape (ev_key d) s) as [->|(j & Hv & Ht)]; [done|].
    eapply optimized_cycle_same; [|exact Hv|exact Ht].
    by apply optimized_setActiveTab_cycle.
  - destruct (optimized_click_shape index s) as (Hv & Ht).
    eapply optimized_cycle_same; [|exact Hv|exact Ht].
    by apply optimized_setActiveTab_cycle.
  - eapply optimized_cycle_frame; [exact Hc| |by apply optimized_resize_auto].
    unfold Optimized.resizeHandler. by case_match.
  - case_match; [|done]. by apply optimized_setActiveTab_cycle.
Qed.

Lemma optimized_observer_cycle es s :
  OptimizedInv s → optimized_cycle_ok cfg s →
  OptimizedInv (Optimized.observerCallback cfg es s) ∧
  optimized_cycle_ok cfg (Optimized.observerCallback cfg es s).
Proof.
  unfold Optimized.observerCallback. revert s.
  induction es as [|b es IH]; intros s Hi Hc; cbn [foldl]; [done|].
  destruct b.
  - apply IH; [by apply optimized_resume_inv|].
    apply optimized_resume_cycle; [apply Hi|done].
  - apply IH; [by apply optimized_pause_inv|].
    apply optimized_pause_cycle; [apply Hi|done].
Qed.

Lemma optimized_tick_cycle t s :
  OptimizedInv s → optimized_cycle_ok cfg s →
  next_timer AutoplayTick (Optimized.world s) = Some t →
  optimized_cycle_ok cfg
    (Optimized.autoplayTick cfg (Optimized.with_world (retire t) s)).
Proof.
  intros Hi Hc Ht.
  pose proof (optimized_retire_inv t s Hi) as Hi'.
  assert (autoplayEnabled cfg = true ∧
          Optimized.isAutoplayPaused (Optimized.vars s) = false) as [En Hp].
  { apply next_timer_elem in Ht as [Hin Hk].
    assert (t ∈ autoTimers (browser (Optimized.world s))) as Hat
      by (by apply list_elem_of_filter).
    unfold optimized_cycle_ok, cycle_ok in Hc.
    destruct (autoplayEnabled cfg), (Optimized.isAutoplayPaused (Optimized.vars s));
      try done.
    - destruct Hc as (_ & Hn & _). rewrite Hn in Hat. by apply elem_of_nil in Hat.
    - destruct Hc as (Hn & _). rewrite Hn in Hat. by apply elem_of_nil in Hat.
    - destruct Hc as (Hn & _). rewrite Hn in Hat. by apply elem_of_nil in Hat. }
  unfold Optimized.autoplayTick. rewrite optimized_setActiveTab_stages.
  set (s1 := Optimized.with_world (retire t) s) in *.
  assert (OptimizedStages.outOfRange
            (Z.rem (Optimized.currentActiveIndex (Optimized.vars s1) + 1)
                   (Z.of_nat (length (Optimized.tabLinksArray s1)))) s1 = false) as ->.
  { apply optimized_outOfRange_false. pose proof (o_index _ Hi') as Hr.
    unfold Optimized.tabLinksArray. rewrite Z.rem_mod_nonneg by lia.
    apply Z.mod_pos_bound. lia. }
  unfold OptimizedStages.autoplayAfterSwitch. rewrite En, optimized_activate_vars.
  cbn [Optimized.isAutoplayPaused Optimized.set_currentActiveIndex].
  change (Optimized.isAutoplayPaused (Optimized.vars s1))
    with (Optimized.isAutoplayPaused (Optimized.vars s)).
  rewrite Hp. unfold Optimized.restartAutoplay. rewrite En. cbn [negb]. cbv zeta.
  repeat case_match; apply optimized_start_cycle; try done;
    cbn; rewrite ?optimized_activate_vars, ?optimized_activate_browser; try done;
    apply Hi'.
Qed.

(** A fired resize timer only refreshes the cached width. *)
Lemma optimized_settle_cycle t s :
  OptimizedInv s → optimized_cycle_ok cfg s →
  next_timer ResizeSettle (Optimized.world s) = Some t →
  optimized_cycle_ok cfg
    (Optimized.run_timer cfg ResizeSettle (Optimized.with_world (retire t) s)).
Proof.
  intros Hi Hc Ht. apply next_timer_elem in Ht as [Hin Hk].
  eapply optimized_cycle_frame; [exact Hc|done|].
  pose proof (o_rsz _ Hi t Hin Hk) as Hr.
  destruct (o_fresh _ Hi) as (_ & _ & F3).
  cbn. unfold retire, clearTimeout, autoTimers. cbn.
  rewrite filter_comm_tid. apply filter_all, Forall_forall.
  intros t' Ht'. apply list_elem_of_filter in Ht' as [Hk' Hin'].
  specialize (F3 t' Hin' Hk'). congruence.
Qed.

Lemma optimized_step_cycle e s :
  OptimizedInv s ∧ optimized_cycle_ok cfg s →
  OptimizedInv (Optimized.step cfg e s) ∧
  optimized_cycle_ok cfg (Optimized.step cfg e s).
Proof.
  apply (step_keeps Optimized.world Optimized.with_world _ _ _
           (λ s, OptimizedInv s ∧ optimized_cycle_ok cfg s)).
  - intros h d s' [Hi Hc].
    split; [by apply optimized_handler_inv|by apply optimized_handler_cycle].
  - intros e' s' [Hi Hc]. split; [by apply optimized_env_inv|].
    eapply optimized_cycle_same; [exact Hc|..]; by destruct e'.
  - intros es s' [Hi Hc]. by apply optimized_observer_cycle.
  - intros k t s' [Hi Hc] Ht.
    split; [by apply optimized_timer_inv, optimized_retire_inv|].
    destruct k; [by apply optimized_tick_cycle|by apply optimized_settle_cycle].
Qed.

Lemma optimized_register_frame l s :
  Optimized.isAutoplayPaused (Optimized.vars (Optimized.register l s))
  = Optimized.isAutoplayPaused (Optimized.vars s) ∧
  Optimized.autoplayStartTime (Optimized.vars (Optimized.register l s))
  = Optimized.autoplayStartTime (Optimized.vars s) ∧
  Optimized.autoplayElapsedTime (Optimized.vars (Optimized.register l s))
  = Optimized.autoplayElapsedTime (Optimized.vars s) ∧
  Optimized.autoplayTimer (Optimized.vars (Optimized.register l s))
  = Optimized.autoplayTimer (Optimized.vars s).
Proof. done. Qed.

Lemma optimized_register_cycle l s :
  optimized_cycle_ok cfg s → optimized_cycle_ok cfg (Optimized.register l s).
Proof.
  intros H. eapply optimized_cycle_frame; [exact H|apply optimized_register_frame|done].
Qed.

Lemma optimized_setupPerLink_cycle ty h s :
  optimized_cycle_ok cfg s → optimized_cycle_ok cfg (Optimized.setupPerLink ty h s).
Proof.
  unfold Optimized.setupPerLink.
  generalize (imap pair (Optimized.tabLinksArray s)) as ils.
  intros ils. revert s.
  induction ils as [|il ils IH]; intros s Hs; cbn [foldl]; [done|].
  apply IH. case_match; [by apply optimized_register_cycle|done].
Qed.

Lemma optimized_presetup_cycle s :
  optimized_cycle_ok cfg s → optimized_cycle_ok cfg (optimized_presetup cfg s).
Proof.
  assert (∀ f, f ∈ [Optimized.setupMobileDropdown cfg;
                    Optimized.setupAutoplayProgressBars cfg;
                    Optimized.setupAutoplayObserver cfg;
                    Optimized.setupAutoplayHoverPause cfg;
                    Optimized.setupAutoplayToggle cfg] →
          ∀ x, optimized_cycle_ok cfg x → optimized_cycle_ok cfg (f x)) as Hk.
  { intros f Hf x Hx. repeat (apply elem_of_cons in Hf as [->|Hf]);
      [..|by apply elem_of_nil in Hf].
    all: eapply optimized_cycle_frame; [exact Hx|..].
    all: unfold Optimized.setupAutoplayToggle, Optimized.setupAutoplayHoverPause,
           Optimized.setupAutoplayObserver, Optimized.setupAutoplayProgressBars,
           Optimized.setupMobileDropdown, Optimized.register, addEventListener;
         cnorm; repeat case_match; done. }
  intros Hs. unfold optimized_presetup.
  repeat (apply Hk; [repeat constructor|]). done.
Qed.

Lemma optimized_mounted_cycle w s :
  pristine w → Optimized.initTabsComponent cfg w = Some s → optimized_cycle_ok cfg s.
Proof.
  intros Hw Hm. unfold Optimized.initTabsComponent in Hm.
  destruct (bool_decide (tabLinks (dom w) = []) || bool_decide (tabPanes (dom w) = []))
    eqn:E; [done|].
  apply orb_false_elim in E as [E _]. apply bool_decide_eq_false in E.
  injection Hm as <-. unfold Optimized.init.
  fold (optimized_presetup cfg (Optimized.mkState (Optimized.initialVars w) w)).
  set (s0 := Optimized.mkState (Optimized.initialVars w) w).
  assert (OptimizedInv s0) as Hi0.
  { destruct Hw as (Ht & Hl & _). constructor; cnorm; rewrite ?Ht; auto.
    - destruct (tabLinks (dom w)); [done|]. cbn. lia.
    - intros t Hin. rewrite Ht in Hin. by apply elem_of_nil in Hin.
    - repeat split; cbn; rewrite ?Ht; try done.
      all: intros t Hin; by apply elem_of_nil in Hin. }
  pose proof (optimized_presetup_inv cfg s0 Hi0) as Hi1.
  set (s1 := optimized_presetup cfg s0) in *.
  pose proof (optimized_setActiveTab_inv cfg (Optimized.findInitialActiveIndex s1) s1 Hi1)
    as Hi2.
  set (s2 := Optimized.setActiveTab cfg (Optimized.findInitialActiveIndex s1) s1) in *.
  unfold Optimized.setupClickHandlers, Optimized.setupKeyboardNav,
    Optimized.setupResizeHandler.
  pose proof (optimized_register_inv (mkListener TWindow Resize HResize) _
               (optimized_setupPerLink_inv Keydown HKeydownNav _
                 (optimized_setupPerLink_inv Click HClickTab s2 Hi2))) as Hi3.
  set (s3 := Optimized.register (mkListener TWindow Resize HResize)
               (Optimized.setupPerLink Keydown HKeydownNav
                 (Optimized.setupPerLink Click HClickTab s2))) in *.
  apply optimized_register_cycle.
  destruct (autoplayEnabled cfg) eqn:En.
  - apply optimized_start_cycle; [apply Hi3|done|].
    subst s3 s2 s1.
    destruct (optimized_register_frame (mkListener TWindow Resize HResize)
      (Optimized.setupPerLink Keydown HKeydownNav
         (Optimized.setupPerLink Click HClickTab
            (Optimized.setActiveTab cfg
               (Optimized.findInitialActiveIndex (optimized_presetup cfg s0))
               (optimized_presetup cfg s0))))) as [-> _].
    rewrite !optimized_setupPerLink_paused, optimized_setActiveTab_paused.
    unfold optimized_presetup.
    repeat match goal with
    | |- context [Optimized.isAutoplayPaused (Optimized.vars (?f cfg ?x))] =>
        destruct (optimized_setups_paused cfg x) as (H1 & H2 & H3 & H4 & H5);
        first [ rewrite H5 | rewrite H4 | rewrite H3 | rewrite H2 | rewrite H1 ];
        clear H1 H2 H3 H4 H5
    end.
    done.
  - subst s3. apply optimized_register_cycle.
    do 2 apply optimized_setupPerLink_cycle.
    apply optimized_setActiveTab_cycle; [apply Hi1|].
    apply optimized_presetup_cycle.
    unfold optimized_cycle_ok, cycle_ok. rewrite En.
    destruct Hw as (Ht & _ & _). unfold autoTimers. cbn. by rewrite Ht.
Qed.
End CycleOptimized.

Section CycleReachable.
Variable cfg : Config.

Lemma classic_reachable_cycle s :
  Classic.reachable cfg s → ClassicInv s ∧ classic_cycle_ok cfg s.
Proof.
  induction 1 as [w s Hw Hm|e s _ IH].
  - split; [by eapply classic_mount_inv|by eapply classic_mounted_cycle].
  - by apply classic_step_cycle.
Qed.

Lemma optimized_reachable_cycle s :
  Optimized.reachable cfg s → OptimizedInv s ∧ optimized_cycle_ok cfg s.
Proof.
  induction 1 as [w s Hw Hm|e s _ IH].
  - split; [by eapply optimized_mount_inv|by eapply optimized_mounted_cycle].
  - by apply optimized_step_cycle.
Qed.
End CycleReachable.

(** * Further properties of the controllers *)

(** X2. The autoplay cycle is always accounted for, in both variants.  In
    every state reached from a mount: with autoplay on and not paused, exactly
    one autoplay timer is scheduled, [autoplayTimer] holds its id,
    [autoplayStartTime] the clock value at which it was armed, and its delay
    is the configured duration less [autoplayElapsedTime]; while paused no
    autoplay timer is scheduled, [autoplayTimer] and [autoplayStartTime] are
    null; with autoplay off nothing is ever scheduled, the paused flag stays
    false and the elapsed time stays 0. *)
Theorem autoplay_cycle_accounted (cfg : Config) :
  (∀ s, Classic.reachable cfg s → classic_cycle_ok cfg s) ∧
  (∀ s, Optimized.reachable cfg s → optimized_cycle_ok cfg s).
Proof.
  split; intros s Hr.
  - by apply classic_reachable_cycle.
  - by apply optimized_reachable_cycle.
Qed.

Lemma autoplay_cycle_accounted_witness :
  classic_cycle_ok autoplay_cfg
    (Classic.run autoplay_cfg
       [EWait 1200; EMouseEnter; EWait 9000; EMouseLeave; EWait 3800;
        ETimer AutoplayTick]
       (classic_mounted autoplay_cfg (sample_world three_links 3 ""))) ∧
  optimized_cycle_ok autoplay_cfg
    (Optimized.run autoplay_cfg
       [EResize 600; EWait 5000; ETimer AutoplayTick; EIntersect [false]]
       (optimized_mounted autoplay_cfg (sample_world three_links 3 ""))).
Proof.
  split.
  - apply (proj1 (autoplay_cycle_accounted autoplay_cfg)).
    apply classic_run_reachable, classic_sample_reachable.
  - apply (proj2 (autoplay_cycle_accounted autoplay_cfg)).
    apply optimized_run_reachable, optimized_sample_reachable.
Defined.


(** ** When the autoplay timer fires *)

Lemma auto_none_next w :
  autoTimers (browser w) = [] → next_timer AutoplayTick w = None.
Proof. intros H. rewrite next_timer_head. unfold autoTimers in H. by rewrite H. Qed.

Lemma auto_one_next w t :
  autoTimers (browser w) = [t] →
  next_timer AutoplayTick w = if decide (due t (now (env w))) then Some t else None.
Proof.
  intros H. rewrite next_timer_head. unfold autoTimers in H. rewrite H.
  rewrite filter_cons. by case_decide.
Qed.

Section TimerSteps.
Variable cfg : Config.

Lemma classic_step_timer_idle k s :
  next_timer k (Classic.world s) = None → Classic.step cfg (ETimer k) s = s.
Proof.
  intros H. unfold Classic.step, EventLoop.step. destruct s as [v w].
  cbn in *. change (env_event (ETimer k) w) with w. by rewrite H.
Qed.

Lemma classic_step_timer_fire k t s :
  next_timer k (Classic.world s) = Some t →
  Classic.step cfg (ETimer k) s
  = Classic.run_timer cfg k (Classic.with_world (retire t) s).
Proof.
  intros H. unfold Classic.step, EventLoop.step. destruct s as [v w].
  cbn in *. change (env_event (ETimer k) w) with w. by rewrite H.
Qed.

Lemma optimized_step_timer_idle k s :
  next_timer k (Optimized.world s) = None → Optimized.step cfg (ETimer k) s = s.
Proof.
  intros H. unfold Optimized.step, EventLoop.step. destruct s as [v w].
  cbn in *. change (env_event (ETimer k) w) with w. by rewrite H.
Qed.

Lemma optimized_step_timer_fire k t s :
  next_timer k (Optimized.world s) = Some t →
  Optimized.step cfg (ETimer k) s
  = Optimized.run_timer cfg k (Optimized.with_world (retire t) s).
Proof.
  intros H. unfold Optimized.step, EventLoop.step. destruct s as [v w].
  cbn in *. change (env_event (ETimer k) w) with w. by rewrite H.
Qed.

(** Nothing is scheduled unless autoplay is on and running. *)
Lemma classic_idle_none s :
  classic_cycle_ok cfg s →
  autoplayEnabled cfg = false ∨ Classic.isAutoplayPaused (Classic.vars s) = true →
  autoTimers (browser (Classic.world s)) = [].
Proof.
  unfold classic_cycle_ok, cycle_ok. intros Hc [En|Hp].
  - rewrite En in Hc. tauto.
  - rewrite Hp in Hc. destruct (autoplayEnabled cfg); tauto.
Qed.

Lemma optimized_idle_none s :
  optimized_cycle_ok cfg s →
  autoplayEnabled cfg = false ∨ Optimized.isAutoplayPaused (Optimized.vars s) = true →
  autoTimers (browser (Optimized.world s)) = [].
Proof.
  unfold optimized_cycle_ok, cycle_ok. intros Hc [En|Hp].
  - rewrite En in Hc. tauto.
  - rewrite Hp in Hc. destruct (autoplayEnabled cfg); tauto.
Qed.

Lemma classic_running_one s :
  classic_cycle_ok cfg s →
  autoplayEnabled cfg = true → Classic.isAutoplayPaused (Classic.vars s) = false →
  ∃ t, autoTimers (browser (Classic.world s)) = [t] ∧
       Classic.autoplayStartTime (Classic.vars s) = Some (armedAt t) ∧
       delay t = autoplayDurationMs cfg - Classic.autoplayElapsedTime (Classic.vars s).
Proof.
  unfold classic_cycle_ok, cycle_ok. intros Hc En Hp. rewrite En, Hp in Hc.
  destruct Hc as (t & ? & ? & ? & ?). eauto.
Qed.

Lemma optimized_running_one s :
  optimized_cycle_ok cfg s →
  autoplayEnabled cfg = true → Optimized.isAutoplayPaused (Optimized.vars s) = false →
  ∃ t, autoTimers (browser (Optimized.world s)) = [t] ∧
       Optimized.autoplayStartTime (Optimized.vars s) = Some (armedAt t) ∧
       delay t
       = autoplayDurationMs cfg - Optimized.autoplayElapsedTime (Optimized.vars s).
Proof.
  unfold optimized_cycle_ok, cycle_ok. intros Hc En Hp. rewrite En, Hp in Hc.
  destruct Hc as (t & ? & ? & ? & ?). eauto.
Qed.

(** The state the callback of the autoplay timer leaves. *)
Lemma classic_tick_spec t s :
  ClassicInv s →
  autoplayEnabled cfg = true → Classic.isAutoplayPaused (Classic.vars s) = false →
  let s' := Classic.autoplayTick cfg (Classic.with_world (retire t) s) in
  Classic.currentActiveIndex (Classic.vars s')
  = Z.rem (Classic.currentActiveIndex (Classic.vars s) + 1)
          (Z.of_nat (length (Classic.links s))) ∧
  Classic.isAutoplayPaused (Classic.vars s') = false ∧
  Classic.autoplayElapsedTime (Classic.vars s') = 0 ∧
  Classic.autoplayStartTime (Classic.vars s') = Some (now (env (Classic.world s))) ∧
  autoTimers (browser (Classic.world s'))
  = [mkTimer (nextTimerId (browser (Classic.world s))) AutoplayTick
             (autoplayDurationMs cfg) (now (env (Classic.world s)))].
Proof.
  intros Hi En Hp. pose proof (classic_retire_inv t s Hi) as Hi'.
  set (s1 := Classic.with_world (retire t) s) in *. cbv zeta.
  assert (0 ≤ Z.rem (Classic.currentActiveIndex (Classic.vars s1) + 1)
                    (Z.of_nat (length (Classic.links s1)))
          < Z.of_nat (length (Classic.links s1))) as Hr.
  { pose proof (c_index _ Hi') as Hr. unfold Classic.links.
    rewrite Z.rem_mod_nonneg by lia. apply Z.mod_pos_bound. lia. }
  unfold Classic.autoplayTick.
  split; [by rewrite classic_setActiveTab_index|].
  split; [by rewrite classic_setActiveTab_paused|].
  rewrite classic_setActiveTab_stages.
  apply classic_outOfRange_false in Hr as ->.
  set (s2 := ClassicStages.activate cfg _ s1).
  assert (AutoOk (Classic.autoplayTimer (Classic.vars s2)) (browser (Classic.world s2)))
    as Ha2.
  { subst s2. rewrite classic_activate_vars, classic_activate_browser. apply Hi'. }
  assert (Classic.isAutoplayPaused (Classic.vars s2) = false) as Hp2.
  { subst s2. by rewrite classic_activate_vars. }
  unfold ClassicStages.autoplayAfterSwitch. rewrite En, Hp2.
  destruct (classic_restart_spec cfg s2 Ha2 En Hp2) as (R1 & R2 & R3).
  assert (classic_cycle_ok cfg (Classic.restartAutoplay cfg s2)) as Hc.
  { unfold Classic.restartAutoplay. rewrite En. cbn [negb]. cbv zeta.
    repeat case_match; by apply classic_start_cycle. }
  assert (Classic.isAutoplayPaused (Classic.vars (Classic.restartAutoplay cfg s2))
          = false) as Hp3.
  { unfold Classic.restartAutoplay. rewrite En. cbn [negb]. cbv zeta.
    repeat case_match; by rewrite classic_start_paused. }
  destruct (classic_running_one _ Hc En Hp3) as (t' & T1 & T2 & T3).
  rewrite R1 in T1. injection T1 as <-.
  assert (env (Classic.world s2) = env (Classic.world s)) as He
    by (subst s2; by rewrite classic_activate_env).
  assert (nextTimerId (browser (Classic.world s2))
          = nextTimerId (browser (Classic.world s))) as Hn
    by (subst s2; by rewrite classic_activate_browser).
  rewrite R1, R3, T2, He, Hn. done.
Qed.

Lemma optimized_tick_spec t s :
  OptimizedInv s →
  autoplayEnabled cfg = true → Optimized.isAutoplayPaused (Optimized.vars s) = false →
  let s' := Optimized.autoplayTick cfg (Optimized.with_world (retire t) s) in
  Optimized.currentActiveIndex (Optimized.vars s')
  = Z.rem (Optimized.currentActiveIndex (Optimized.vars s) + 1)
          (Z.of_nat (length (Optimized.tabLinksArray s))) ∧
  Optimized.isAutoplayPaused (Optimized.vars s') = false ∧
  Optimized.autoplayElapsedTime (Optimized.vars s') = 0 ∧
  Optimized.autoplayStartTime (Optimized.vars s')
  = Some (now (env (Optimized.world s))) ∧
  autoTimers (browser (Optimized.world s'))
  = [mkTimer (nextTimerId (browser (Optimized.world s))) AutoplayTick
             (autoplayDurationMs cfg) (now (env (Optimized.world s)))].
Proof.
  intros Hi En Hp. pose proof (optimized_retire_inv t s Hi) as Hi'.
  set (s1 := Optimized.with_world (retire t) s) in *. cbv zeta.
  assert (0 ≤ Z.rem (Optimized.currentActiveIndex (Optimized.vars s1) + 1)
                    (Z.of_nat (length (Optimized.tabLinksArray s1)))
          < Z.of_nat (length (Optimized.tabLinksArray s1))) as Hr.
  { pose proof (o_index _ Hi') as Hr. unfold Optimized.tabLinksArray.
    rewrite Z.rem_mod_nonneg by lia. apply Z.mod_pos_bound. lia. }
  unfold Optimized.autoplayTick.
  split; [by rewrite optimized_setActiveTab_index|].
  split; [by rewrite optimized_setActiveTab_paused|].
  rewrite optimized_setActiveTab_stages.
  apply optimized_outOfRange_false in Hr as ->.
  set (s2 := OptimizedStages.activate cfg _ s1).
  assert (AutoOk (Optimized.autoplayTimer (Optimized.vars s2))
                 (browser (Optimized.world s2))) as Ha2.
  { subst s2. rewrite optimized_activate_vars, optimized_activate_browser. apply Hi'. }
  assert (Optimized.isAutoplayPaused (Optimized.vars s2) = false) as Hp2.
  { subst s2. by rewrite optimized_activate_vars. }
  unfold OptimizedStages.autoplayAfterSwitch. rewrite En, Hp2.
  destruct (optimized_restart_spec cfg s2 Ha2 En Hp2) as (R1 & R2 & R3).
  assert (optimized_cycle_ok cfg (Optimized.restartAutoplay cfg s2)) as Hc.
  { unfold Optimized.restartAutoplay. rewrite En. cbn [negb]. cbv zeta.
    repeat case_match; by apply optimized_start_cycle. }
  assert (Optimized.isAutoplayPaused
            (Optimized.vars (Optimized.restartAutoplay cfg s2)) = false) as Hp3.
  { unfold Optimized.restartAutoplay. rewrite En. cbn [negb]. cbv zeta.
    repeat case_match; by rewrite optimized_start_paused. }
  destruct (optimized_running_one _ Hc En Hp3) as (t' & T1 & T2 & T3).
  rewrite R1 in T1. injection T1 as <-.
  assert (env (Optimized.world s2) = env (Optimized.world s)) as He
    by (subst s2; by rewrite optimized_activate_env).
  assert (nextTimerId (browser (Optimized.world s2))
          = nextTimerId (browser (Optimized.world s))) as Hn
    by (subst s2; by rewrite optimized_activate_browser).
  rewrite R1, R3, T2, He, Hn. done.
Qed.
End TimerSteps.

(** X3. Autoplay never advances the tabs on its own unless it is on and
    running: in a reachable state that is paused, or with autoplay off, no
    amount of waiting makes the autoplay timer fire; the state after the wait
    is the state after the wait and the (absent) timer. *)
Theorem no_advance_unless_running (cfg : Config) :
  (∀ s ms, Classic.reachable cfg s →
     autoplayEnabled cfg = false ∨ Classic.isAutoplayPaused (Classic.vars s) = true →
     Classic.run cfg [EWait ms; ETimer AutoplayTick] s
     = Classic.step cfg (EWait ms) s) ∧
  (∀ s ms, Optimized.reachable cfg s →
     autoplayEnabled cfg = false ∨ Optimized.isAutoplayPaused (Optimized.vars s) = true →
     Optimized.run cfg [EWait ms; ETimer AutoplayTick] s
     = Optimized.step cfg (EWait ms) s).
Proof.
  split; intros s ms Hr Hidle.
  - change (Classic.run cfg [EWait ms; ETimer AutoplayTick] s)
      with (Classic.step cfg (ETimer AutoplayTick) (Classic.step cfg (EWait ms) s)).
    apply classic_step_timer_idle, auto_none_next.
    destruct (classic_reachable_cycle cfg _ (Classic.reach_step cfg (EWait ms) s Hr))
      as [_ Hc].
    by apply (classic_idle_none cfg _ Hc).
  - change (Optimized.run cfg [EWait ms; ETimer AutoplayTick] s)
      with (Optimized.step cfg (ETimer AutoplayTick) (Optimized.step cfg (EWait ms) s)).
    apply optimized_step_timer_idle, auto_none_next.
    destruct (optimized_reachable_cycle cfg _
                (Optimized.reach_step cfg (EWait ms) s Hr)) as [_ Hc].
    by apply (optimized_idle_none cfg _ Hc).
Qed.

Lemma no_advance_unless_running_witness :
  Classic.run autoplay_cfg [EWait 60000; ETimer AutoplayTick]
    (Classic.run autoplay_cfg [EWait 4000; EMouseEnter]
       (classic_mounted autoplay_cfg (sample_world three_links 3 "")))
  = Classic.step autoplay_cfg (EWait 60000)
      (Classic.run autoplay_cfg [EWait 4000; EMouseEnter]
         (classic_mounted autoplay_cfg (sample_world three_links 3 ""))) ∧
  Optimized.run plain_cfg [EWait 60000; ETimer AutoplayTick]
    (optimized_mounted plain_cfg (sample_world three_links 3 ""))
  = Optimized.step plain_cfg (EWait 60000)
      (optimized_mounted plain_cfg (sample_world three_links 3 "")).
Proof.
  split.
  - refine (proj1 (no_advance_unless_running autoplay_cfg) _ 60000 _ _).
    + apply classic_run_reachable, classic_sample_reachable.
    + right. vm_compute. reflexivity.
  - refine (proj2 (no_advance_unless_running plain_cfg) _ 60000 _ _).
    + apply optimized_sample_reachable.
    + left. reflexivity.
Defined.

(** X4. With autoplay on and running, the timer callback runs exactly when
    the remaining time has passed since [autoplayStartTime]: before that
    deadline a timer turn changes nothing; from the deadline on it activates
    the next tab, wrapping from the last to the first, and a fresh full cycle
    starts (elapsed time 0, start time now, one timer for the whole
    duration). *)
Theorem autoplay_advances_on_time (cfg : Config) :
  (∀ s, Classic.reachable cfg s →
     autoplayEnabled cfg = true → Classic.isAutoplayPaused (Classic.vars s) = false →
     ∃ t0, Classic.autoplayStartTime (Classic.vars s) = Some t0 ∧
       let clock := now (env (Classic.world s)) in
       let deadline :=
         t0 + Z.max 0 (autoplayDurationMs cfg
                       - Classic.autoplayElapsedTime (Classic.vars s)) in
       let s' := Classic.step cfg (ETimer AutoplayTick) s in
       if decide (deadline ≤ clock) then
         Classic.currentActiveIndex (Classic.vars s')
         = Z.rem (Classic.currentActiveIndex (Classic.vars s) + 1)
                 (Z.of_nat (length (Classic.links s))) ∧
         Classic.isAutoplayPaused (Classic.vars s') = false ∧
         Classic.autoplayElapsedTime (Classic.vars s') = 0 ∧
         Classic.autoplayStartTime (Classic.vars s') = Some clock ∧
         shape <$> autoTimers (browser (Classic.world s'))
         = [(autoplayDurationMs cfg, clock)]
       else s' = s) ∧
  (∀ s, Optimized.reachable cfg s →
     autoplayEnabled cfg = true → Optimized.isAutoplayPaused (Optimized.vars s) = false →
     ∃ t0, Optimized.autoplayStartTime (Optimized.vars s) = Some t0 ∧
       let clock := now (env (Optimized.world s)) in
       let deadline :=
         t0 + Z.max 0 (autoplayDurationMs cfg
                       - Optimized.autoplayElapsedTime (Optimized.vars s)) in
       let s' := Optimized.step cfg (ETimer AutoplayTick) s in
       if decide (deadline ≤ clock) then
         Optimized.currentActiveIndex (Optimized.vars s')
         = Z.rem (Optimized.currentActiveIndex (Optimized.vars s) + 1)
                 (Z.of_nat (length (Optimized.tabLinksArray s))) ∧
         Optimized.isAutoplayPaused (Optimized.vars s') = false ∧
         Optimized.autoplayElapsedTime (Optimized.vars s') = 0 ∧
         Optimized.autoplayStartTime (Optimized.vars s') = Some clock ∧
         shape <$> autoTimers (browser (Optimized.world s'))
         = [(autoplayDurationMs cfg, clock)]
       else s' = s).
Proof.
  split; intros s Hr En Hp.
  - destruct (classic_reachable_cycle cfg s Hr) as [Hi Hc].
    destruct (classic_running_one cfg s Hc En Hp) as (t & T1 & T2 & T3).
    exists (armedAt t). split; [done|]. cbv zeta.
    pose proof (auto_one_next _ _ T1) as Hn.
    assert (due t (now (env (Classic.world s)))
            ↔ armedAt t + Z.max 0 (autoplayDurationMs cfg
                 - Classic.autoplayElapsedTime (Classic.vars s))
              ≤ now (env (Classic.world s))) as Hdue
      by (unfold due; by rewrite T3).
    destruct (decide (due t (now (env (Classic.world s))))) as [Hd|Hd];
      case_decide as Hg; try tauto.
    + rewrite (classic_step_timer_fire cfg _ t s Hn). cbn [Classic.run_timer].
      destruct (classic_tick_spec cfg t s Hi En Hp) as (K1 & K2 & K3 & K4 & K5).
      by rewrite K5.
    + by apply classic_step_timer_idle.
  - destruct (optimized_reachable_cycle cfg s Hr) as [Hi Hc].
    destruct (optimized_running_one cfg s Hc En Hp) as (t & T1 & T2 & T3).
    exists (armedAt t). split; [done|]. cbv zeta.
    pose proof (auto_one_next _ _ T1) as Hn.
    assert (due t (now (env (Optimized.world s)))
            ↔ armedAt t + Z.max 0 (autoplayDurationMs cfg
                 - Optimized.autoplayElapsedTime (Optimized.vars s))
              ≤ now (env (Optimized.world s))) as Hdue
      by (unfold due; by rewrite T3).
    destruct (decide (due t (now (env (Optimized.world s))))) as [Hd|Hd];
      case_decide as Hg; try tauto.
    + rewrite (optimized_step_timer_fire cfg _ t s Hn). cbn [Optimized.run_timer].
      destruct (optimized_tick_spec cfg t s Hi En Hp) as (K1 & K2 & K3 & K4 & K5).
      by rewrite K5.
    + by apply optimized_step_timer_idle.
Qed.

Lemma autoplay_advances_on_time_witness :
  (let s := Classic.run autoplay_cfg [EWait 5000]
              (classic_mounted autoplay_cfg (sample_world three_links 3 "#faq")) in
   ∃ t0, Classic.autoplayStartTime (Classic.vars s) = Some t0 ∧
     let clock := now (env (Classic.world s)) in
     let deadline :=
       t0 + Z.max 0 (autoplayDurationMs autoplay_cfg
                     - Classic.autoplayElapsedTime (Classic.vars s)) in
     let s' := Classic.step autoplay_cfg (ETimer AutoplayTick) s in
     if decide (deadline ≤ clock) then
       Classic.currentActiveIndex (Classic.vars s')
       = Z.rem (Classic.currentActiveIndex (Classic.vars s) + 1)
               (Z.of_nat (length (Classic.links s))) ∧
       Classic.isAutoplayPaused (Classic.vars s') = false ∧
       Classic.autoplayElapsedTime (Classic.vars s') = 0 ∧
       Classic.autoplayStartTime (Classic.vars s') = Some clock ∧
       shape <$> autoTimers (browser (Classic.world s'))
       = [(autoplayDurationMs autoplay_cfg, clock)]
     else s' = s) ∧
  (let s := Optimized.run autoplay_cfg [EWait 4999]
              (optimized_mounted autoplay_cfg (sample_world three_links 3 "")) in
   ∃ t0, Optimized.autoplayStartTime (Optimized.vars s) = Some t0 ∧
     let clock := now (env (Optimized.world s)) in
     let deadline :=
       t0 + Z.max 0 (autoplayDurationMs autoplay_cfg
                     - Optimized.autoplayElapsedTime (Optimized.vars s)) in
     let s' := Optimized.step autoplay_cfg (ETimer AutoplayTick) s in
     if decide (deadline ≤ clock) then
       Optimized.currentActiveIndex (Optimized.vars s')
       = Z.rem (Optimized.currentActiveIndex (Optimized.vars s) + 1)
               (Z.of_nat (length (Optimized.tabLinksArray s))) ∧
       Optimized.isAutoplayPaused (Optimized.vars s') = false ∧
       Optimized.autoplayElapsedTime (Optimized.vars s') = 0 ∧
       Optimized.autoplayStartTime (Optimized.vars s') = Some clock ∧
       shape <$> autoTimers (browser (Optimized.world s'))
       = [(autoplayDurationMs autoplay_cfg, clock)]
     else s' = s).
Proof.
  split.
  - refine (proj1 (autoplay_advances_on_time autoplay_cfg) _ _ _ _).
    + apply classic_run_reachable, classic_sample_reachable.
    + reflexivity.
    + vm_compute. reflexivity.
  - refine (proj2 (autoplay_advances_on_time autoplay_cfg) _ _ _ _).
    + apply optimized_run_reachable, optimized_sample_reachable.
    + reflexivity.
    + vm_compute. reflexivity.
Defined.

(** ** Pausing twice, toggling twice, cleaning up twice *)

Lemma classic_pause_explicit (cfg : Config) cur tm pa st el 
      lk pn mo dt tb pc tms nid ls ob e eff :
  autoplayEnabled cfg = true →
  Classic.pauseAutoplay cfg
    (Classic.mkState (Classic.mkVars cur tm pa st el )
       (mkWorld (mkDom lk pn mo dt tb pc) (mkBrowser tms nid ls ob) e eff))
  = Classic.mkState
      (Classic.mkVars cur None true None
         (match st with Some t0 => el + (now e - t0) | None => el end) )
      (mkWorld
         (mkDom lk pn mo dt
            (match tb with Some _ => Some (Some "Play autoplay"%string) | None => None end)
            true)
         (mkBrowser (match tm with
                     | Some id => filter (λ t, tid t ≠ id) tms
                     | None => tms
                     end) nid ls ob) e eff).
Proof.
  intros En.
  unfold Classic.pauseAutoplay, Classic.stopAutoplay, Classic.updateToggleButton.
  rewrite En. cnorm. destruct st, tm, tb; reflexivity.
Qed.

Lemma optimized_pause_explicit (cfg : Config) cur tm pa st el cw rt evl
      lk pn mo dt tb pc tms nid ls ob e eff :
  autoplayEnabled cfg = true →
  Optimized.pauseAutoplay cfg
    (Optimized.mkState (Optimized.mkVars cur tm pa st el cw rt evl)
       (mkWorld (mkDom lk pn mo dt tb pc) (mkBrowser tms nid ls ob) e eff))
  = Optimized.mkState
      (Optimized.mkVars cur None true None
         (match st with Some t0 => el + (now e - t0) | None => el end) cw rt evl)
      (mkWorld
         (mkDom lk pn mo dt
            (match tb with Some _ => Some (Some "Play autoplay"%string) | None => None end)
            true)
         (mkBrowser (match tm with
                     | Some id => filter (λ t, tid t ≠ id) tms
                     | None => tms
                     end) nid ls ob) e eff).
Proof.
  intros En.
  unfold Optimized.pauseAutoplay, Optimized.stopAutoplay, Optimized.updateToggleButton.
  rewrite En. cnorm. destruct st, tm, tb; reflexivity.
Qed.

(** X5. A pause while paused changes nothing: [pauseAutoplay] clears
    [autoplayStartTime], so a second pause (the pointer entering while the
    component is off screen, say) adds no time to [autoplayElapsedTime] and
    leaves the state of the first pause. *)
Theorem pauseAutoplay_idempotent (cfg : Config) :
  (∀ s, Classic.pauseAutoplay cfg (Classic.pauseAutoplay cfg s)
        = Classic.pauseAutoplay cfg s) ∧
  (∀ s, Optimized.pauseAutoplay cfg (Optimized.pauseAutoplay cfg s)
        = Optimized.pauseAutoplay cfg s).
Proof.
  split; intros s.
  - destruct (autoplayEnabled cfg) eqn:En;
      [|unfold Classic.pauseAutoplay; by rewrite En].
    cdestruct s. destruct d as [lk pn mo dt tb pc].
    rewrite !classic_pause_explicit by done. by destruct tb.
  - destruct (autoplayEnabled cfg) eqn:En;
      [|unfold Optimized.pauseAutoplay; by rewrite En].
    destruct_opt s. destruct d as [lk pn mo dt tb pc].
    rewrite !optimized_pause_explicit by done. by destruct tb.
Qed.

(** X6. Toggling the dropdown twice is a round trip.  When the toggle's
    class and [aria-expanded] agree with the menu's [cc-open] class,
    [toggleDropdown] applied twice gives back the state; without a toggle
    element it does nothing at all. *)
Theorem toggleDropdown_round_trip :
  (∀ s t, dropdownToggle (dom (Classic.world s)) = Some t →
     toggle_cc_open t = menu_cc_open (dom (Classic.world s)) →
     aria_expanded t = Some (attr_of_bool (menu_cc_open (dom (Classic.world s)))) →
     Classic.toggleDropdown (Classic.toggleDropdown s) = s) ∧
  (∀ s, dropdownToggle (dom (Classic.world s)) = None →
     Classic.toggleDropdown s = s) ∧
  (∀ s t, dropdownToggle (dom (Optimized.world s)) = Some t →
     toggle_cc_open t = menu_cc_open (dom (Optimized.world s)) →
     aria_expanded t = Some (attr_of_bool (menu_cc_open (dom (Optimized.world s)))) →
     Optimized.toggleDropdown (Optimized.toggleDropdown s) = s) ∧
  (∀ s, dropdownToggle (dom (Optimized.world s)) = None →
     Optimized.toggleDropdown s = s).
Proof.
  repeat split.
  - intros s t. cdestruct s. destruct d as [lk pn mo dt tb pc]. cbn.
    intros -> Ho He. destruct t as [co ae ah tx]. cbn in *. subst.
    unfold Classic.toggleDropdown, Classic.closeDropdown, Classic.openDropdown.
    by destruct mo.
  - intros s. cdestruct s. destruct d as [lk pn mo dt tb pc]. cbn. intros ->.
    unfold Classic.toggleDropdown, Classic.closeDropdown, Classic.openDropdown.
    by destruct mo.
  - intros s t. destruct_opt s. destruct d as [lk pn mo dt tb pc]. cbn.
    intros -> Ho He. destruct t as [co ae ah tx]. cbn in *. subst.
    unfold Optimized.toggleDropdown, Optimized.closeDropdown, Optimized.openDropdown.
    by destruct mo.
  - intros s. destruct_opt s. destruct d as [lk pn mo dt tb pc]. cbn. intros ->.
    unfold Optimized.toggleDropdown, Optimized.closeDropdown, Optimized.openDropdown.
    by destruct mo.
Qed.

Lemma toggleDropdown_round_trip_witness :
  Classic.toggleDropdown (Classic.toggleDropdown
    (Classic.openDropdown (classic_mounted plain_cfg (sample_world three_links 3 ""))))
  = Classic.openDropdown (classic_mounted plain_cfg (sample_world three_links 3 "")) ∧
  Optimized.toggleDropdown (Optimized.toggleDropdown
    (Optimized.closeDropdown
       (optimized_mounted plain_cfg (sample_world three_links 3 ""))))
  = Optimized.closeDropdown
      (optimized_mounted plain_cfg (sample_world three_links 3 "")).
Proof.
  split.
  - eapply (proj1 toggleDropdown_round_trip); vm_compute; reflexivity.
  - eapply (proj1 (proj2 (proj2 toggleDropdown_round_trip))); vm_compute; reflexivity.
Defined.

Lemma filter_idemp {A} (P : A → Prop) `{∀ x, Decision (P x)} (l : list A) :
  filter P (filter P l) = filter P l.
Proof. rewrite list_filter_filter. apply list_filter_iff. tauto. Qed.

(** [cleanup], written out. *)
Lemma cleanup_explicit s :
  Optimized.cleanup s
  = Optimized.mkState
      (Optimized.set_autoplayStartTime None
         (Optimized.set_autoplayTimer None (Optimized.vars s)))
      (mkWorld (dom (Optimized.world s))
         (mkBrowser
            (let tms := timers (browser (Optimized.world s)) in
             let tms := match Optimized.autoplayTimer (Optimized.vars s) with
                        | Some id => filter (λ t, tid t ≠ id) tms
                        | None => tms
                        end in
             match Optimized.resizeTimer (Optimized.vars s) with
             | Some id => filter (λ t, tid t ≠ id) tms
             | None => tms
             end)
            (nextTimerId (browser (Optimized.world s)))
            (filter (λ l, l ∉ Optimized.eventListeners (Optimized.vars s))
                    (listeners (browser (Optimized.world s))))
            false)
         (env (Optimized.world s)) (effects (Optimized.world s))).
Proof.
  unfold Optimized.cleanup.
  destruct (cleanup_listeners_fold (Optimized.eventListeners (Optimized.vars s)) s)
    as (H1 & H2 & H3 & H4 & H5 & H6 & H7).
  rewrite remove_all_listeners in H7.
  revert H1 H2 H3 H4 H5 H6 H7.
  generalize (foldl (λ s l, Optimized.with_world (removeEventListener l) s) s
                    (Optimized.eventListeners (Optimized.vars s))) as s1.
  intros s1. destruct_opt s1. cbn. intros <- <- <- <- <- <- ->.
  unfold Optimized.stopAutoplay. cnorm. destruct tm, rt; reflexivity.
Qed.

(** X7. [cleanup] can be called again: a second call finds nothing left to
    remove or cancel and returns the state of the first.  It resets neither
    the active tab, the DOM, nor the paused flag. *)
Theorem cleanup_idempotent (s : Optimized.State) :
  Optimized.cleanup (Optimized.cleanup s) = Optimized.cleanup s ∧
  dom (Optimized.world (Optimized.cleanup s)) = dom (Optimized.world s) ∧
  Optimized.currentActiveIndex (Optimized.vars (Optimized.cleanup s))
  = Optimized.currentActiveIndex (Optimized.vars s) ∧
  Optimized.isAutoplayPaused (Optimized.vars (Optimized.cleanup s))
  = Optimized.isAutoplayPaused (Optimized.vars s).
Proof.
  rewrite (cleanup_explicit (Optimized.cleanup s)), (cleanup_explicit s).
  destruct_opt s. cbn. repeat split.
  rewrite filter_idemp. destruct rt; rewrite ?filter_idemp; reflexivity.
Qed.

(** ** The last activation decides *)

Lemma writeLink_twice i j k l :
  ClassicStages.writeLink j k (ClassicStages.writeLink i k l)
  = ClassicStages.writeLink j k l.
Proof.
  unfold ClassicStages.writeLink. destruct l as [id nm tx se ac ov pr ol ow].
  destruct ov; reflexivity.
Qed.

Lemma writeLinks_twice i j (links : list TabLink) :
  imap (ClassicStages.writeLink j) (imap (ClassicStages.writeLink i) links)
  = imap (ClassicStages.writeLink j) links.
Proof.
  apply list_eq. intros k. rewrite !list_lookup_imap.
  destruct (links !! k) as [l|]; [|done]. cbn. by rewrite writeLink_twice.
Qed.

Lemma writePanes_twice i j (panes : list TabPane) :
  imap (ClassicStages.writePane j) (imap (ClassicStages.writePane i) panes)
  = imap (ClassicStages.writePane j) panes.
Proof.
  apply list_eq. intros k. rewrite !list_lookup_imap.
  by destruct (panes !! k) as [p|].
Qed.

Lemma tabs_move_last j before after :
  0 ≤ j < Z.of_nat (length before.1.2) →
  tabs_move before after →
  (j, imap (ClassicStages.writeLink j) after.1.2,
   imap (ClassicStages.writePane j) after.2)
  = (j, imap (ClassicStages.writeLink j) before.1.2,
     imap (ClassicStages.writePane j) before.2).
Proof.
  intros Hj [->|(i & Hi & ->)]; [done|]. cbn [fst snd].
  by rewrite writeLinks_twice, writePanes_twice.
Qed.

Lemma tabs_move_length before after :
  tabs_move before after → length after.1.2 = length before.1.2.
Proof. intros [->|(i & Hi & ->)]; [done|]. cbn. by rewrite length_imap. Qed.

(** X8. The last valid activation decides what the tabs show: whatever
    [setActiveTab] call came before it (valid or not), after
    [setActiveTab j] with [j] in range the active index, the links and the
    panes are those [setActiveTab j] alone would have left. *)
Theorem setActiveTab_last_wins (cfg : Config) (i j : Z) :
  (∀ s, 0 ≤ j < Z.of_nat (length (Classic.links s)) →
     classic_tabs (Classic.setActiveTab cfg j (Classic.setActiveTab cfg i s))
     = classic_tabs (Classic.setActiveTab cfg j s)) ∧
  (∀ s, 0 ≤ j < Z.of_nat (length (Optimized.tabLinksArray s)) →
     optimized_tabs (Optimized.setActiveTab cfg j (Optimized.setActiveTab cfg i s))
     = optimized_tabs (Optimized.setActiveTab cfg j s)).
Proof.
  split; intros s Hj.
  - pose proof (classic_setActiveTab_tabs cfg i s) as Hm.
    pose proof (tabs_move_length _ _ Hm) as Hlen. cbn in Hlen.
    assert (0 ≤ j < Z.of_nat (length (Classic.links (Classic.setActiveTab cfg i s))))
      as Hj' by (by rewrite Hlen).
    unfold classic_tabs.
    rewrite (classic_setActiveTab_index cfg j s Hj),
      (classic_setActiveTab_index cfg j _ Hj'),
      (classic_setActiveTab_links cfg j s Hj),
      (classic_setActiveTab_links cfg j _ Hj'),
      (classic_setActiveTab_panes cfg j s Hj),
      (classic_setActiveTab_panes cfg j _ Hj').
    exact (tabs_move_last j (classic_tabs s) _ Hj Hm).
  - pose proof (optimized_setActiveTab_tabs cfg i s) as Hm.
    pose proof (tabs_move_length _ _ Hm) as Hlen. cbn in Hlen.
    assert (0 ≤ j < Z.of_nat (length (Optimized.tabLinksArray
                                        (Optimized.setActiveTab cfg i s))))
      as Hj' by (by rewrite Hlen).
    unfold optimized_tabs.
    rewrite (optimized_setActiveTab_index cfg j s Hj),
      (optimized_setActiveTab_index cfg j _ Hj'),
      (optimized_setActiveTab_links cfg j s Hj),
      (optimized_setActiveTab_links cfg j _ Hj'),
      (optimized_setActiveTab_panes cfg j s Hj),
      (optimized_setActiveTab_panes cfg j _ Hj').
    exact (tabs_move_last j (optimized_tabs s) _ Hj Hm).
Qed.

Lemma setActiveTab_last_wins_witness :
  classic_tabs (Classic.setActiveTab autoplay_cfg 2
    (Classic.setActiveTab autoplay_cfg 0
       (classic_mounted autoplay_cfg (sample_world three_links 3 ""))))
  = classic_tabs (Classic.setActiveTab autoplay_cfg 2
      (classic_mounted autoplay_cfg (sample_world three_links 3 ""))) ∧
  optimized_tabs (Optimized.setActiveTab plain_cfg 1
    (Optimized.setActiveTab plain_cfg 7
       (optimized_mounted plain_cfg (sample_world three_links 3 ""))))
  = optimized_tabs (Optimized.setActiveTab plain_cfg 1
      (optimized_mounted plain_cfg (sample_world three_links 3 ""))).
Proof.
  split.
  - refine (proj1 (setActiveTab_last_wins autoplay_cfg 0 2) _ _).
    split; vm_compute; [intros H; discriminate H|reflexivity].
  - refine (proj2 (setActiveTab_last_wins plain_cfg 7 1) _ _).
    split; vm_compute; [intros H; discriminate H|reflexivity].
Defined.

(** * What no event changes *)

Lemma writeLink_static index i l :
  link_static (ClassicStages.writeLink index i l) = link_static l.
Proof.
  unfold ClassicStages.writeLink. destruct l as [id nm tx se ac ov pr ol ow].
  by destruct ov.
Qed.

Lemma writeLinks_static index (links : list TabLink) :
  link_static <$> imap (ClassicStages.writeLink index) links = link_static <$> links.
Proof.
  apply list_eq. intros k. rewrite !list_lookup_fmap, list_lookup_imap.
  destruct (links !! k) as [l|]; [|done]. cbn. by rewrite writeLink_static.
Qed.

Section HandlerCases.
Variable cfg : Config.

(** A navigation key is ignored, or one tab is activated and then possibly
    focused; a click activates one tab and then possibly scrolls to it. *)
Lemma classic_keydown_cases key s :
  Classic.keydownHandler cfg key s = s ∨
  ∃ j, let s' := Classic.setActiveTab cfg j
                   (Classic.with_world (emit PreventDefault) s) in
       Classic.keydownHandler cfg key s = s' ∨
       ∃ e, Classic.keydownHandler cfg key s = Classic.with_world (emit e) s'.
Proof.
  unfold Classic.keydownHandler. cbv zeta.
  repeat case_decide;
    [right; repeat case_match; eexists;
     first [left; reflexivity | right; eexists; reflexivity]..|].
  by left.
Qed.

Lemma classic_click_cases index s :
  let s' := Classic.setActiveTab cfg (Z.of_nat index)
              (Classic.with_world (emit PreventDefault) s) in
  Classic.clickHandler cfg index s = s' ∨
  ∃ e, Classic.clickHandler cfg index s = Classic.with_world (emit e) s'.
Proof.
  unfold Classic.clickHandler. cbv zeta.
  case_match; [right; eexists; reflexivity|by left].
Qed.

Lemma optimized_keydown_cases key s :
  Optimized.keydownHandler cfg key s = s ∨
  ∃ j, let s' := Optimized.setActiveTab cfg j
                   (Optimized.with_world (emit PreventDefault) s) in
       Optimized.keydownHandler cfg key s = s' ∨
       ∃ e, Optimized.keydownHandler cfg key s = Optimized.with_world (emit e) s'.
Proof.
  unfold Optimized.keydownHandler. cbv zeta.
  repeat case_decide;
    [right; repeat case_match; eexists;
     first [left; reflexivity | right; eexists; reflexivity]..|].
  by left.
Qed.

Lemma optimized_click_cases index s :
  let s' := Optimized.setActiveTab cfg (Z.of_nat index)
              (Optimized.with_world (emit PreventDefault) s) in
  Optimized.clickHandler cfg index s = s' ∨
  ∃ e, Optimized.clickHandler cfg index s = Optimized.with_world (emit e) s'.
Proof.
  unfold Optimized.clickHandler. cbv zeta.
  case_match; [right; eexists; reflexivity|by left].
Qed.
End HandlerCases.

Section FixedClassic.
Variable cfg : Config.

Lemma classic_dropdown_fixed s :
  fixed_part (Classic.world (Classic.closeDropdown s)) = fixed_part (Classic.world s) ∧
  fixed_part (Classic.world (Classic.openDropdown s)) = fixed_part (Classic.world s) ∧
  fixed_part (Classic.world (Classic.toggleDropdown s)) = fixed_part (Classic.world s).
Proof.
  cdestruct s. destruct d as [lk pn mo dt tb pc].
  unfold Classic.toggleDropdown, Classic.closeDropdown, Classic.openDropdown. cnorm.
  repeat split; repeat case_match; reflexivity.
Qed.

Lemma classic_pause_fixed s :
  fixed_part (Classic.world (Classic.pauseAutoplay cfg s))
  = fixed_part (Classic.world s).
Proof.
  cdestruct s. destruct d as [lk pn mo dt tb pc].
  unfold Classic.pauseAutoplay, Classic.stopAutoplay, Classic.updateToggleButton.
  destruct (autoplayEnabled cfg); [|done]. cnorm. destruct st, tm, tb; reflexivity.
Qed.

Lemma classic_start_fixed s :
  fixed_part (Classic.world (Classic.startAutoplay cfg s))
  = fixed_part (Classic.world s).
Proof.
  cdestruct s. unfold Classic.startAutoplay, Classic.stopAutoplay.
  destruct (autoplayEnabled cfg), pa, tm; reflexivity.
Qed.

Lemma classic_resume_fixed s :
  fixed_part (Classic.world (Classic.resumeAutoplay cfg s))
  = fixed_part (Classic.world s).
Proof.
  cdestruct s. destruct d as [lk pn mo dt tb pc].
  unfold Classic.resumeAutoplay, Classic.startAutoplay, Classic.stopAutoplay,
    Classic.updateToggleButton.
  destruct (autoplayEnabled cfg); [|done]. cnorm. destruct tm, tb; reflexivity.
Qed.

Lemma classic_closeDropdown_static s :
  dom_static (dom (Classic.world (Classic.closeDropdown s)))
  = dom_static (dom (Classic.world s)).
Proof.
  cdestruct s. destruct d as [lk pn mo dt tb pc].
  unfold Classic.closeDropdown. cnorm. by destruct dt.
Qed.

Lemma classic_closeIfOpen_static s :
  dom_static (dom (Classic.world (ClassicStages.closeIfOpen s)))
  = dom_static (dom (Classic.world s)).
Proof.
  unfold ClassicStages.closeIfOpen.
  repeat case_match; try done. apply classic_closeDropdown_static.
Qed.

Lemma classic_writeDropdownText_static index s :
  dom_static (dom (Classic.world (ClassicStages.writeDropdownText cfg index s)))
  = dom_static (dom (Classic.world s)).
Proof.
  cdestruct s. destruct d as [lk pn mo dt tb pc].
  unfold ClassicStages.writeDropdownText. cnorm.
  destruct dt as [[co ae ah [tx|]]|]; cbn; repeat case_match; reflexivity.
Qed.

Lemma classic_scrollActive_dom index s :
  dom (Classic.world (ClassicStages.scrollActive cfg index s)) = dom (Classic.world s).
Proof. unfold ClassicStages.scrollActive. by repeat case_match. Qed.

Lemma classic_activate_fixed index s :
  fixed_part (Classic.world (ClassicStages.activate cfg index s))
  = fixed_part (Classic.world s).
Proof.
  unfold fixed_part.
  rewrite classic_activate_browser, classic_activate_env. f_equal.
  unfold ClassicStages.activate.
  rewrite classic_scrollActive_dom, classic_closeIfOpen_static,
    classic_writeDropdownText_static.
  unfold dom_static. cbn. by rewrite writeLinks_static, length_imap.
Qed.

Lemma classic_afterSwitch_fixed s :
  fixed_part (Classic.world (ClassicStages.autoplayAfterSwitch cfg s))
  = fixed_part (Classic.world s).
Proof.
  unfold ClassicStages.autoplayAfterSwitch, Classic.restartAutoplay.
  repeat case_match; try done; by rewrite classic_start_fixed.
Qed.

Lemma classic_setActiveTab_fixed index s :
  fixed_part (Classic.world (Classic.setActiveTab cfg index s))
  = fixed_part (Classic.world s).
Proof.
  rewrite classic_setActiveTab_stages. case_match; [done|].
  by rewrite classic_afterSwitch_fixed, classic_activate_fixed.
Qed.

Lemma classic_emit_fixed e s :
  fixed_part (Classic.world (Classic.with_world (emit e) s))
  = fixed_part (Classic.world s).
Proof. reflexivity. Qed.

Lemma classic_handler_fixed h d s :
  fixed_part (Classic.world (Classic.run_handler cfg h d s))
  = fixed_part (Classic.world s).
Proof.
  destruct (classic_dropdown_fixed s) as (Dc & Do & Dt).
  destruct h as [| | | | | |i|index| |]; cbn [Classic.run_handler].
  - apply (proj2 (proj2 (classic_dropdown_fixed
                           (Classic.with_world (emit StopPropagation) s)))).
  - by case_match.
  - case_match; [|done]. exact Dc.
  - apply classic_pause_fixed.
  - apply classic_resume_fixed.
  - case_match; [apply classic_resume_fixed|apply classic_pause_fixed].
  - destruct (classic_keydown_cases cfg (ev_key d) s) as [->|(j & [->|(e & ->)])];
      [done|..]; by rewrite ?classic_emit_fixed, classic_setActiveTab_fixed.
  - destruct (classic_click_cases cfg index s) as [->|(e & ->)];
      by rewrite ?classic_emit_fixed, classic_setActiveTab_fixed.
  - done.
  - case_match; [apply classic_setActiveTab_fixed|done].
Qed.

Lemma classic_observer_fixed es s :
  fixed_part (Classic.world (Classic.observerCallback cfg es s))
  = fixed_part (Classic.world s).
Proof.
  unfold Classic.observerCallback. revert s.
  induction es as [|b es IH]; intros s; cbn [foldl]; [done|].
  rewrite IH. destruct b; [apply classic_resume_fixed|apply classic_pause_fixed].
Qed.
End FixedClassic.

Section FixedOptimized.
Variable cfg : Config.

Lemma optimized_dropdown_fixed s :
  fixed_part (Optimized.world (Optimized.closeDropdown s)) = fixed_part (Optimized.world s) ∧
  fixed_part (Optimized.world (Optimized.openDropdown s)) = fixed_part (Optimized.world s) ∧
  fixed_part (Optimized.world (Optimized.toggleDropdown s)) = fixed_part (Optimized.world s).
Proof.
  destruct_opt s. destruct d as [lk pn mo dt tb pc].
  unfold Optimized.toggleDropdown, Optimized.closeDropdown, Optimized.openDropdown. cnorm.
  repeat split; repeat case_match; reflexivity.
Qed.

Lemma optimized_pause_fixed s :
  fixed_part (Optimized.world (Optimized.pauseAutoplay cfg s))
  = fixed_part (Optimized.world s).
Proof.
  destruct_opt s. destruct d as [lk pn mo dt tb pc].
  unfold Optimized.pauseAutoplay, Optimized.stopAutoplay, Optimized.updateToggleButton.
  destruct (autoplayEnabled cfg); [|done]. cnorm. destruct st, tm, tb; reflexivity.
Qed.

Lemma optimized_start_fixed s :
  fixed_part (Optimized.world (Optimized.startAutoplay cfg s))
  = fixed_part (Optimized.world s).
Proof.
  destruct_opt s. unfold Optimized.startAutoplay, Optimized.stopAutoplay.
  destruct (autoplayEnabled cfg), pa, tm; reflexivity.
Qed.

Lemma optimized_resume_fixed s :
  fixed_part (Optimized.world (Optimized.resumeAutoplay cfg s))
  = fixed_part (Optimized.world s).
Proof.
  destruct_opt s. destruct d as [lk pn mo dt tb pc].
  unfold Optimized.resumeAutoplay, Optimized.startAutoplay, Optimized.stopAutoplay,
    Optimized.updateToggleButton.
  destruct (autoplayEnabled cfg); [|done]. cnorm. destruct tm, tb; reflexivity.
Qed.

Lemma optimized_closeDropdown_static s :
  dom_static (dom (Optimized.world (Optimized.closeDropdown s)))
  = dom_static (dom (Optimized.world s)).
Proof.
  destruct_opt s. destruct d as [lk pn mo dt tb pc].
  unfold Optimized.closeDropdown. cnorm. by destruct dt.
Qed.

Lemma optimized_closeIfOpen_static s :
  dom_static (dom (Optimized.world (OptimizedStages.closeIfOpen s)))
  = dom_static (dom (Optimized.world s)).
Proof.
  unfold OptimizedStages.closeIfOpen.
  repeat case_match; try done. apply optimized_closeDropdown_static.
Qed.

Lemma optimized_writeDropdownText_static index s :
  dom_static (dom (Optimized.world (OptimizedStages.writeDropdownText cfg index s)))
  = dom_static (dom (Optimized.world s)).
Proof.
  destruct_opt s. destruct d as [lk pn mo dt tb pc].
  unfold OptimizedStages.writeDropdownText. cnorm.
  destruct dt as [[co ae ah [tx|]]|]; cbn; repeat case_match; reflexivity.
Qed.

Lemma optimized_scrollActive_dom index s :
  dom (Optimized.world (OptimizedStages.scrollActive cfg index s)) = dom (Optimized.world s).
Proof. unfold OptimizedStages.scrollActive. by repeat case_match. Qed.

Lemma optimized_activate_fixed index s :
  fixed_part (Optimized.world (OptimizedStages.activate cfg index s))
  = fixed_part (Optimized.world s).
Proof.
  unfold fixed_part.
  rewrite optimized_activate_browser, optimized_activate_env. f_equal.
  unfold OptimizedStages.activate.
  rewrite optimized_scrollActive_dom, optimized_closeIfOpen_static,
    optimized_writeDropdownText_static.
  unfold dom_static, OptimizedStages.writePanes, OptimizedStages.writeLinks,
    Optimized.tabLinksArray. cbn.
  by rewrite writeLinks_phases, writeLinks_static, length_imap.
Qed.

Lemma optimized_afterSwitch_fixed s :
  fixed_part (Optimized.world (OptimizedStages.autoplayAfterSwitch cfg s))
  = fixed_part (Optimized.world s).
Proof.
  unfold OptimizedStages.autoplayAfterSwitch, Optimized.restartAutoplay.
  repeat case_match; try done; by rewrite optimized_start_fixed.
Qed.

Lemma optimized_setActiveTab_fixed index s :
  fixed_part (Optimized.world (Optimized.setActiveTab cfg index s))
  = fixed_part (Optimized.world s).
Proof.
  rewrite optimized_setActiveTab_stages. case_match; [done|].
  by rewrite optimized_afterSwitch_fixed, optimized_activate_fixed.
Qed.

Lemma optimized_emit_fixed e s :
  fixed_part (Optimized.world (Optimized.with_world (emit e) s))
  = fixed_part (Optimized.world s).
Proof. reflexivity. Qed.

Lemma optimized_handler_fixed h d s :
  fixed_part (Optimized.world (Optimized.run_handler cfg h d s))
  = fixed_part (Optimized.world s).
Proof.
  destruct (optimized_dropdown_fixed s) as (Dc & Do & Dt).
  destruct h as [| | | | | |i|index| |]; cbn [Optimized.run_handler].
  - apply (proj2 (proj2 (optimized_dropdown_fixed
                           (Optimized.with_world (emit StopPropagation) s)))).
  - by case_match.
  - case_match; [|done]. exact Dc.
  - apply optimized_pause_fixed.
  - apply optimized_resume_fixed.
  - case_match; [apply optimized_resume_fixed|apply optimized_pause_fixed].
  - destruct (optimized_keydown_cases cfg (ev_key d) s) as [->|(j & [->|(e & ->)])];
      [done|..]; by rewrite ?optimized_emit_fixed, optimized_setActiveTab_fixed.
  - destruct (optimized_click_cases cfg index s) as [->|(e & ->)];
      by rewrite ?optimized_emit_fixed, optimized_setActiveTab_fixed.
  - unfold Optimized.resizeHandler. by case_match.
  - case_match; [apply optimized_setActiveTab_fixed|done].
Qed.

Lemma optimized_observer_fixed es s :
  fixed_part (Optimized.world (Optimized.observerCallback cfg es s))
  = fixed_part (Optimized.world s).
Proof.
  unfold Optimized.observerCallback. revert s.
  induction es as [|b es IH]; intros s; cbn [foldl]; [done|].
  rewrite IH. destruct b; [apply optimized_resume_fixed|apply optimized_pause_fixed].
Qed.
End FixedOptimized.

Section FixedStep.
Variable cfg : Config.

Lemma classic_step_fixed e s :
  fixed_part (Classic.world (Classic.step cfg e s))
  = fixed_part (env_event e (Classic.world s)).
Proof.
  unfold Classic.step, EventLoop.step.
  set (s1 := Classic.with_world (env_event e) s).
  change (fixed_part (env_event e (Classic.world s)))
    with (fixed_part (Classic.world s1)).
  assert (∀ path ty d,
            fixed_part (Classic.world
              (EventLoop.run_path (Classic.run_handler cfg)
                 (listeners (browser (Classic.world s1))) path ty d s1))
            = fixed_part (Classic.world s1)) as Hpath.
  { intros path ty d.
    apply (run_path_keeps (Classic.run_handler cfg)
             (λ x, fixed_part (Classic.world x) = fixed_part (Classic.world s1)));
      [|done].
    intros h d' x Hx. by rewrite classic_handler_fixed. }
  destruct e; cbn [dom_event]; try apply Hpath; try done.
  - case_match; [apply classic_observer_fixed|done].
  - case_match; [|done]. destruct k; cbn [Classic.run_timer]; [|done].
    unfold Classic.autoplayTick. by rewrite classic_setActiveTab_fixed.
Qed.

Lemma optimized_step_fixed e s :
  fixed_part (Optimized.world (Optimized.step cfg e s))
  = fixed_part (env_event e (Optimized.world s)).
Proof.
  unfold Optimized.step, EventLoop.step.
  set (s1 := Optimized.with_world (env_event e) s).
  change (fixed_part (env_event e (Optimized.world s)))
    with (fixed_part (Optimized.world s1)).
  assert (∀ path ty d,
            fixed_part (Optimized.world
              (EventLoop.run_path (Optimized.run_handler cfg)
                 (listeners (browser (Optimized.world s1))) path ty d s1))
            = fixed_part (Optimized.world s1)) as Hpath.
  { intros path ty d.
    apply (run_path_keeps (Optimized.run_handler cfg)
             (λ x, fixed_part (Optimized.world x) = fixed_part (Optimized.world s1)));
      [|done].
    intros h d' x Hx. by rewrite optimized_handler_fixed. }
  destruct e; cbn [dom_event]; try apply Hpath; try done.
  - case_match; [apply optimized_observer_fixed|done].
  - case_match; [|done]. destruct k; cbn [Optimized.run_timer]; [|done].
    unfold Optimized.autoplayTick. by rewrite optimized_setActiveTab_fixed.
Qed.
End FixedStep.

(** X9. No event changes what the controller does not own.  After any
    event, in any state, the listener table and the observer registration
    are what they were (no callback adds or removes a listener), the
    environment is what the event itself made it, and in the DOM the links
    keep their number, ids, names, texts, overlays and progress bars, the
    panes their number, and the optional elements their presence. *)
Theorem events_keep_fixed_part (cfg : Config) :
  (∀ e s, fixed_part (Classic.world (Classic.step cfg e s))
          = fixed_part (env_event e (Classic.world s))) ∧
  (∀ e s, fixed_part (Optimized.world (Optimized.step cfg e s))
          = fixed_part (env_event e (Optimized.world s))).
Proof. split; [apply classic_step_fixed|apply optimized_step_fixed]. Qed.

(** * The listener table *)

Lemma link_listeners_static ty h (l1 l2 : list TabLink) :
  link_static <$> l1 = link_static <$> l2 →
  link_listeners ty h l1 = link_listeners ty h l2.
Proof.
  intros H. unfold link_listeners. f_equal.
  assert ((present ∘ overlay) <$> l1 = (present ∘ overlay) <$> l2) as Ho.
  { apply (f_equal (fmap (λ x : string * option string * string * bool * bool * Z * Z,
                            x.1.1.1.2))) in H.
    rewrite <- !list_fmap_compose in H. exact H. }
  transitivity (imap (λ i (b : bool), if b then [mkListener (TOverlay i) ty (h i)]
                                      else []) ((present ∘ overlay) <$> l1)).
  - by rewrite imap_fmap.
  - rewrite Ho. by rewrite imap_fmap.
Qed.

Lemma listeners_static cfg d1 d2 :
  dom_static d1 = dom_static d2 →
  classic_listeners cfg d1 = classic_listeners cfg d2 ∧
  optimized_listeners cfg d1 = optimized_listeners cfg d2.
Proof.
  unfold dom_static. intros [= Hl Hp Ht Hx Hb].
  unfold classic_listeners, optimized_listeners, dropdown_listeners,
    autoplay_listeners.
  rewrite Ht, Hb, (link_listeners_static Click HClickTab _ _ Hl),
    (link_listeners_static Keydown HKeydownNav _ _ Hl). done.
Qed.

(** [setupPerLink] appends the listeners of the links, in order. *)
Lemma classic_setupPerLink_listeners ty h s :
  listeners (browser (Classic.world (Classic.setupPerLink ty h s)))
  = listeners (browser (Classic.world s)) ++ link_listeners ty h (Classic.links s) ∧
  dom (Classic.world (Classic.setupPerLink ty h s)) = dom (Classic.world s).
Proof.
  unfold Classic.setupPerLink, link_listeners.
  change (imap (λ i l, if present (overlay l)
                       then [mkListener (TOverlay i) ty (h i)] else [])
               (Classic.links s))
    with (imap (λ n, (λ il : nat * TabLink,
                        if present (overlay il.2)
                        then [mkListener (TOverlay il.1) ty (h il.1)] else [])
                     ∘ pair n) (Classic.links s)).
  rewrite <- fmap_imap.
  generalize (imap pair (Classic.links s)) as ils. intros ils. revert s.
  induction ils as [|il ils IH]; intros s; cbn [foldl fmap list_fmap mjoin list_join].
  - by rewrite app_nil_r.
  - destruct (IH (match overlay il.2 with
                  | Some _ => Classic.register
                                (mkListener (TOverlay il.1) ty (h il.1)) s
                  | None => s
                  end)) as [-> ->].
    destruct (overlay il.2); cbn; [|done].
    by rewrite <- app_assoc.
Qed.

Lemma optimized_setupPerLink_listeners ty h s :
  listeners (browser (Optimized.world (Optimized.setupPerLink ty h s)))
  = listeners (browser (Optimized.world s))
    ++ link_listeners ty h (Optimized.tabLinksArray s) ∧
  dom (Optimized.world (Optimized.setupPerLink ty h s)) = dom (Optimized.world s).
Proof.
  unfold Optimized.setupPerLink, link_listeners.
  change (imap (λ i l, if present (overlay l)
                       then [mkListener (TOverlay i) ty (h i)] else [])
               (Optimized.tabLinksArray s))
    with (imap (λ n, (λ il : nat * TabLink,
                        if present (overlay il.2)
                        then [mkListener (TOverlay il.1) ty (h il.1)] else [])
                     ∘ pair n) (Optimized.tabLinksArray s)).
  rewrite <- fmap_imap.
  generalize (imap pair (Optimized.tabLinksArray s)) as ils. intros ils. revert s.
  induction ils as [|il ils IH]; intros s; cbn [foldl fmap list_fmap mjoin list_join].
  - by rewrite app_nil_r.
  - destruct (IH (match overlay il.2 with
                  | Some _ => Optimized.register
                                (mkListener (TOverlay il.1) ty (h il.1)) s
                  | None => s
                  end)) as [-> ->].
    destruct (overlay il.2); cbn; [|done].
    by rewrite <- app_assoc.
Qed.

Section TableMountClassic.
Variable cfg : Config.

Lemma classic_setupMobileDropdown_listeners s :
  listeners (browser (Classic.world (Classic.setupMobileDropdown cfg s)))
  = listeners (browser (Classic.world s)) ++ dropdown_listeners cfg (dom (Classic.world s)) ∧
  dom_static (dom (Classic.world (Classic.setupMobileDropdown cfg s)))
  = dom_static (dom (Classic.world s)).
Proof.
  unfold Classic.setupMobileDropdown, dropdown_listeners, dom_static.
  destruct (isMobileDropdown cfg); cbn [negb andb];
    [|by rewrite app_nil_r].
  destruct (dropdownToggle (dom (Classic.world s))) as [t|] eqn:Et; cbn [present];
    [|by rewrite app_nil_r, Et].
  cbn. rewrite <- !app_assoc. split; [done|].
  destruct (dropdownText t); [|done]. by case_match.
Qed.

Lemma classic_setupAutoplay_listeners s :
  let s1 := Classic.setupAutoplayToggle cfg (Classic.setupAutoplayHoverPause cfg
              (Classic.setupAutoplayObserver cfg (Classic.setupAutoplayProgressBars cfg s))) in
  listeners (browser (Classic.world s1))
  = listeners (browser (Classic.world s)) ++ autoplay_listeners cfg (dom (Classic.world s)) ∧
  dom (Classic.world s1) = dom (Classic.world s).
Proof.
  unfold Classic.setupAutoplayToggle, Classic.setupAutoplayHoverPause,
    Classic.setupAutoplayObserver, Classic.setupAutoplayProgressBars, autoplay_listeners.
  destruct (autoplayEnabled cfg); cbn [negb andb orb]; [|by rewrite app_nil_r].
  destruct (autoplayHoverPause cfg); cbn [negb andb orb]; cbn;
    destruct (toggleButton (dom (Classic.world s))); cbn;
    rewrite ?app_nil_r, <- ?app_assoc; done.
Qed.

Lemma classic_presetup_listeners s :
  listeners (browser (Classic.world (classic_presetup cfg s)))
  = listeners (browser (Classic.world s))
    ++ dropdown_listeners cfg (dom (Classic.world s))
    ++ autoplay_listeners cfg (dom (Classic.world s)) ∧
  dom_static (dom (Classic.world (classic_presetup cfg s)))
  = dom_static (dom (Classic.world s)).
Proof.
  unfold classic_presetup.
  destruct (classic_setupAutoplay_listeners (Classic.setupMobileDropdown cfg s)) as [-> ->].
  destruct (classic_setupMobileDropdown_listeners s) as [-> Hs].
  rewrite <- app_assoc. split; [|done].
  do 2 f_equal. unfold autoplay_listeners.
  unfold dom_static in Hs. by injection Hs as _ _ _ _ ->.
Qed.
End TableMountClassic.

Section TableMountOptimized.
Variable cfg : Config.

Lemma optimized_setupMobileDropdown_listeners s :
  listeners (browser (Optimized.world (Optimized.setupMobileDropdown cfg s)))
  = listeners (browser (Optimized.world s)) ++ dropdown_listeners cfg (dom (Optimized.world s)) ∧
  dom_static (dom (Optimized.world (Optimized.setupMobileDropdown cfg s)))
  = dom_static (dom (Optimized.world s)).
Proof.
  unfold Optimized.setupMobileDropdown, dropdown_listeners, dom_static.
  destruct (isMobileDropdown cfg); cbn [negb andb];
    [|by rewrite app_nil_r].
  destruct (dropdownToggle (dom (Optimized.world s))) as [t|] eqn:Et; cbn [present];
    [|by rewrite app_nil_r, Et].
  cbn. rewrite <- !app_assoc. split; [done|].
  destruct (dropdownText t); [|done]. by case_match.
Qed.

Lemma optimized_setupAutoplay_listeners s :
  let s1 := Optimized.setupAutoplayToggle cfg (Optimized.setupAutoplayHoverPause cfg
              (Optimized.setupAutoplayObserver cfg (Optimized.setupAutoplayProgressBars cfg s))) in
  listeners (browser (Optimized.world s1))
  = listeners (browser (Optimized.world s)) ++ autoplay_listeners cfg (dom (Optimized.world s)) ∧
  dom (Optimized.world s1) = dom (Optimized.world s).
Proof.
  unfold Optimized.setupAutoplayToggle, Optimized.setupAutoplayHoverPause,
    Optimized.setupAutoplayObserver, Optimized.setupAutoplayProgressBars, autoplay_listeners.
  destruct (autoplayEnabled cfg); cbn [negb andb orb]; [|by rewrite app_nil_r].
  destruct (autoplayHoverPause cfg); cbn [negb andb orb]; cbn;
    destruct (toggleButton (dom (Optimized.world s))); cbn;
    rewrite ?app_nil_r, <- ?app_assoc; done.
Qed.

Lemma optimized_presetup_listeners s :
  listeners (browser (Optimized.world (optimized_presetup cfg s)))
  = listeners (browser (Optimized.world s))
    ++ dropdown_listeners cfg (dom (Optimized.world s))
    ++ autoplay_listeners cfg (dom (Optimized.world s)) ∧
  dom_static (dom (Optimized.world (optimized_presetup cfg s)))
  = dom_static (dom (Optimized.world s)).
Proof.
  unfold optimized_presetup.
  destruct (optimized_setupAutoplay_listeners (Optimized.setupMobileDropdown cfg s)) as [-> ->].
  destruct (optimized_setupMobileDropdown_listeners s) as [-> Hs].
  rewrite <- app_assoc. split; [|done].
  do 2 f_equal. unfold autoplay_listeners.
  unfold dom_static in Hs. by injection Hs as _ _ _ _ ->.
Qed.
End TableMountOptimized.

Section TableReachable.
Variable cfg : Config.

Lemma fixed_part_static w1 w2 :
  fixed_part w1 = fixed_part w2 →
  listeners (browser w1) = listeners (browser w2) ∧
  dom_static (dom w1) = dom_static (dom w2).
Proof.
  intros H. split; [exact (f_equal (λ x, x.1.1.1) H)|exact (f_equal snd H)].
Qed.

Lemma link_listeners_dom ty h d1 d2 :
  dom_static d1 = dom_static d2 →
  link_listeners ty h (tabLinks d1) = link_listeners ty h (tabLinks d2).
Proof.
  unfold dom_static. intros [= Hl _ _ _ _]. by apply link_listeners_static.
Qed.

Lemma classic_register_listeners l s :
  listeners (browser (Classic.world (Classic.register l s)))
  = listeners (browser (Classic.world s)) ++ [l] ∧
  dom (Classic.world (Classic.register l s)) = dom (Classic.world s).
Proof. done. Qed.

Lemma optimized_register_listeners l s :
  listeners (browser (Optimized.world (Optimized.register l s)))
  = listeners (browser (Optimized.world s)) ++ [l] ∧
  dom (Optimized.world (Optimized.register l s)) = dom (Optimized.world s).
Proof. done. Qed.

Lemma classic_mounted_listeners w s :
  pristine w → Classic.initTabsComponent cfg w = Some s →
  listeners (browser (Classic.world s)) = classic_listeners cfg (dom (Classic.world s)).
Proof.
  intros (_ & Hls & _) Hm. unfold Classic.initTabsComponent in Hm.
  case_match; [done|]. injection Hm as <-. unfold Classic.init.
  fold (classic_presetup cfg (Classic.mkState Classic.initialVars w)).
  set (s0 := Classic.mkState Classic.initialVars w).
  destruct (classic_presetup_listeners cfg s0) as [L1 D1].
  set (s1 := classic_presetup cfg s0) in *.
  destruct (fixed_part_static _ _
              (classic_setActiveTab_fixed cfg (Classic.findInitialActiveIndex s1) s1))
    as [L2 D2].
  set (s2 := Classic.setActiveTab cfg (Classic.findInitialActiveIndex s1) s1) in *.
  unfold Classic.setupClickHandlers, Classic.setupKeyboardNav.
  destruct (classic_setupPerLink_listeners Click HClickTab s2) as [L3 D3].
  set (s3 := Classic.setupPerLink Click HClickTab s2) in *.
  destruct (classic_setupPerLink_listeners Keydown HKeydownNav s3) as [L4 D4].
  set (s4 := Classic.setupPerLink Keydown HKeydownNav s3) in *.
  assert (fixed_part (Classic.world
            (if autoplayEnabled cfg then Classic.startAutoplay cfg s4 else s4))
          = fixed_part (Classic.world s4)) as F5
    by (destruct (autoplayEnabled cfg); [apply classic_start_fixed|done]).
  destruct (fixed_part_static _ _ F5) as [L5 D5].
  set (s5 := if autoplayEnabled cfg then Classic.startAutoplay cfg s4 else s4) in *.
  assert (dom_static (dom (Classic.world s5)) = dom_static (dom w)) as D
    by (by rewrite D5, D4, D3, D2, D1).
  destruct (classic_register_listeners
              (mkListener TWindow HashChange HHashChange) s5) as [-> ->].
  rewrite (proj1 (listeners_static cfg _ _ D)).
  rewrite L5, L4, L3, L2, L1. unfold Classic.links. rewrite D3.
  rewrite !(link_listeners_dom _ _ (dom (Classic.world s2)) (dom w))
    by (by rewrite D2, D1).
  cbn [s0 Classic.world]. rewrite Hls. unfold classic_listeners.
  cbn [app]. by rewrite <- !app_assoc.
Qed.

Lemma optimized_mounted_listeners w s :
  pristine w → Optimized.initTabsComponent cfg w = Some s →
  listeners (browser (Optimized.world s))
  = optimized_listeners cfg (dom (Optimized.world s)).
Proof.
  intros (_ & Hls & _) Hm. unfold Optimized.initTabsComponent in Hm.
  case_match; [done|]. injection Hm as <-. unfold Optimized.init.
  fold (optimized_presetup cfg (Optimized.mkState (Optimized.initialVars w) w)).
  set (s0 := Optimized.mkState (Optimized.initialVars w) w).
  destruct (optimized_presetup_listeners cfg s0) as [L1 D1].
  set (s1 := optimized_presetup cfg s0) in *.
  destruct (fixed_part_static _ _
              (optimized_setActiveTab_fixed cfg
                 (Optimized.findInitialActiveIndex s1) s1)) as [L2 D2].
  set (s2 := Optimized.setActiveTab cfg (Optimized.findInitialActiveIndex s1) s1) in *.
  unfold Optimized.setupClickHandlers, Optimized.setupKeyboardNav,
    Optimized.setupResizeHandler.
  destruct (optimized_setupPerLink_listeners Click HClickTab s2) as [L3 D3].
  set (s3 := Optimized.setupPerLink Click HClickTab s2) in *.
  destruct (optimized_setupPerLink_listeners Keydown HKeydownNav s3) as [L4 D4].
  set (s4 := Optimized.setupPerLink Keydown HKeydownNav s3) in *.
  destruct (optimized_register_listeners (mkListener TWindow Resize HResize) s4)
    as [L4' D4'].
  set (s4' := Optimized.register (mkListener TWindow Resize HResize) s4) in *.
  assert (fixed_part (Optimized.world
            (if autoplayEnabled cfg then Optimized.startAutoplay cfg s4' else s4'))
          = fixed_part (Optimized.world s4')) as F5
    by (destruct (autoplayEnabled cfg); [apply optimized_start_fixed|done]).
  destruct (fixed_part_static _ _ F5) as [L5 D5].
  set (s5 := if autoplayEnabled cfg then Optimized.startAutoplay cfg s4' else s4') in *.
  assert (dom_static (dom (Optimized.world s5)) = dom_static (dom w)) as D.
  { by rewrite D5, D4', D4, D3, D2, D1. }
  destruct (optimized_register_listeners
              (mkListener TWindow HashChange HHashChange) s5) as [-> ->].
  rewrite (proj2 (listeners_static cfg _ _ D)).
  rewrite L5, L4', L4, L3, L2, L1. unfold Optimized.tabLinksArray. rewrite D3.
  rewrite !(link_listeners_dom _ _ (dom (Optimized.world s2)) (dom w))
    by (by rewrite D2, D1).
  cbn [s0 Optimized.world]. rewrite Hls. unfold optimized_listeners.
  cbn [app]. by rewrite <- !app_assoc.
Qed.

Lemma classic_reachable_listeners s :
  Classic.reachable cfg s →
  listeners (browser (Classic.world s)) = classic_listeners cfg (dom (Classic.world s)).
Proof.
  induction 1 as [w s Hw Hm|e s _ IH]; [by eapply classic_mounted_listeners|].
  destruct (fixed_part_static _ _ (classic_step_fixed cfg e s)) as [Hl Hd].
  assert (listeners (browser (env_event e (Classic.world s)))
          = listeners (browser (Classic.world s))) as Hl' by (by destruct e).
  assert (dom (env_event e (Classic.world s)) = dom (Classic.world s)) as Hd'
    by (by destruct e).
  rewrite Hl, Hl', IH. rewrite Hd' in Hd. symmetry.
  by apply listeners_static.
Qed.

Lemma optimized_reachable_listeners s :
  Optimized.reachable cfg s →
  listeners (browser (Optimized.world s))
  = optimized_listeners cfg (dom (Optimized.world s)).
Proof.
  induction 1 as [w s Hw Hm|e s _ IH]; [by eapply optimized_mounted_listeners|].
  destruct (fixed_part_static _ _ (optimized_step_fixed cfg e s)) as [Hl Hd].
  assert (listeners (browser (env_event e (Optimized.world s)))
          = listeners (browser (Optimized.world s))) as Hl' by (by destruct e).
  assert (dom (env_event e (Optimized.world s)) = dom (Optimized.world s)) as Hd'
    by (by destruct e).
  rewrite Hl, Hl', IH. rewrite Hd' in Hd. symmetry.
  by apply listeners_static.
Qed.
End TableReachable.

(** X10. A mounted controller has exactly the listeners [init] registers,
    once each and in that order: the three dropdown listeners when the
    mobile dropdown is on and the toggle exists, mouseenter and mouseleave
    when autoplay pauses on hover, the click listener of the play/pause
    button when autoplay is on and the button exists, one click and one
    keydown listener for every link with an overlay, (in the optimized
    variant) the resize listener, and the hashchange listener.  No event
    changes the table; in the optimized variant [eventListeners], the list
    [cleanup] works from, holds the same. *)
Theorem listener_table_fixed (cfg : Config) :
  (∀ s, Classic.reachable cfg s →
     listeners (browser (Classic.world s))
     = classic_listeners cfg (dom (Classic.world s))) ∧
  (∀ s, Optimized.reachable cfg s →
     listeners (browser (Optimized.world s))
     = optimized_listeners cfg (dom (Optimized.world s)) ∧
     Optimized.eventListeners (Optimized.vars s)
     = optimized_listeners cfg (dom (Optimized.world s))).
Proof.
  split; intros s Hr.
  - by apply classic_reachable_listeners.
  - pose proof (optimized_reachable_listeners cfg s Hr) as Hl.
    split; [done|]. rewrite <- Hl. symmetry.
    apply o_listeners. by eapply optimized_reachable_inv.
Qed.

Lemma listener_table_fixed_witness :
  listeners (browser (Classic.world
    (Classic.run autoplay_cfg [EMouseEnter; EClickTab 2; EWait 100]
       (classic_mounted autoplay_cfg (sample_world three_links 3 "")))))
  = classic_listeners autoplay_cfg (dom (Classic.world
      (Classic.run autoplay_cfg [EMouseEnter; EClickTab 2; EWait 100]
         (classic_mounted autoplay_cfg (sample_world three_links 3 ""))))) ∧
  listeners (browser (Optimized.world
    (Optimized.run plain_cfg [EResize 500; EKeydownTab 0 "End"]
       (optimized_mounted plain_cfg (sample_world two_links 2 "")))))
  = optimized_listeners plain_cfg (dom (Optimized.world
      (Optimized.run plain_cfg [EResize 500; EKeydownTab 0 "End"]
         (optimized_mounted plain_cfg (sample_world two_links 2 ""))))).
Proof.
  split.
  - apply (proj1 (listener_table_fixed autoplay_cfg)).
    apply classic_run_reachable, classic_sample_reachable.
  - refine (proj1 (proj2 (listener_table_fixed plain_cfg) _ _)).
    apply optimized_run_reachable, optimized_sample_reachable.
Defined.

(** * Events, from the browser to the callback *)

(** The listeners of the links, from position [k] on. *)
Lemma filter_link_listeners_from k i ty ty' (h : nat → Handler) (links : list TabLink) :
  filter (λ l, listens (TOverlay i) ty' l = true)
         (mjoin (imap (λ n l, if present (overlay l)
                              then [mkListener (TOverlay (k + n)) ty (h (k + n)%nat)]
                              else []) links))
  = if decide (ty = ty' ∧ (k ≤ i)%nat) then
      match links !! (i - k)%nat with
      | Some l => if present (overlay l) then [mkListener (TOverlay i) ty (h i)] else []
      | None => []
      end
    else [].
Proof.
  revert k. induction links as [|l links IH]; intros k.
  - cbn. by repeat case_match.
  - rewrite imap_cons. cbn [mjoin list_join]. rewrite filter_app.
    rewrite (imap_ext _ (λ n l, if present (overlay l)
                                then [mkListener (TOverlay (S k + n)) ty
                                                 (h (S k + n)%nat)]
                                else [])).
    2:{ intros n x _. cbn. by rewrite Nat.add_succ_r. }
    rewrite IH. rewrite Nat.add_0_r.
    assert (filter (λ l0, listens (TOverlay i) ty' l0 = true)
              (if present (overlay l) then [mkListener (TOverlay k) ty (h k)] else [])
            = if decide (ty = ty' ∧ k = i)
              then (if present (overlay l) then [mkListener (TOverlay i) ty (h i)]
                    else [])
              else []) as ->.
    { destruct (present (overlay l)); [|rewrite filter_nil; by destruct (decide _)].
      rewrite filter_cons, filter_nil. unfold listens. cbn [l_target l_type].
      destruct (decide (ty = ty' ∧ k = i)) as [[-> ->]|Hn].
      - rewrite decide_True; [done|]. by rewrite !bool_decide_eq_true_2.
      - rewrite decide_False; [done|]. intros E.
        apply andb_true_iff in E as [E1 E2].
        apply bool_decide_eq_true in E1, E2. injection E1 as ->. tauto. }
    destruct (decide (ty = ty')) as [->|Hty].
    + destruct (lt_eq_lt_dec k i) as [[Hlt| ->]|Hgt].
      * rewrite decide_False by lia. rewrite !decide_True by (split; [done|lia]).
        replace (i - k)%nat with (S (i - S k)) by lia. done.
      * rewrite decide_True by done. rewrite decide_False by lia.
        rewrite decide_True by done. rewrite Nat.sub_diag. cbn.
        by rewrite app_nil_r.
      * rewrite !decide_False by lia. done.
    + rewrite !decide_False by tauto. done.
Qed.

Lemma filter_link_listeners i ty ty' h links :
  filter (λ l, listens (TOverlay i) ty' l = true) (link_listeners ty h links)
  = if decide (ty = ty') then
      match links !! i with
      | Some l => if present (overlay l) then [mkListener (TOverlay i) ty (h i)] else []
      | None => []
      end
    else [].
Proof.
  unfold link_listeners.
  pose proof (filter_link_listeners_from 0 i ty ty' h links) as H.
  cbn in H. rewrite H. rewrite Nat.sub_0_r.
  destruct (decide (ty = ty')).
  - by rewrite decide_True by (split; [done|lia]).
  - by rewrite decide_False by tauto.
Qed.

Lemma link_listeners_target ty h links l :
  l ∈ link_listeners ty h links → ∃ i, l_target l = TOverlay i.
Proof.
  unfold link_listeners. intros Hin. apply list_elem_of_join in Hin as (L & Hl & HL).
  apply elem_of_lookup_imap in HL as (i & x & -> & _).
  destruct (present (overlay x)); [|by apply elem_of_nil in Hl].
  apply list_elem_of_singleton in Hl as ->. by exists i.
Qed.

Lemma filter_link_listeners_other t ty ty' h links :
  (∀ i, t ≠ TOverlay i) →
  filter (λ l, listens t ty' l = true) (link_listeners ty h links) = [].
Proof.
  intros Ht. apply filter_none. intros l Hl.
  apply link_listeners_target in Hl as (i & Hi).
  unfold listens. rewrite Hi. rewrite bool_decide_eq_false_2; [done|].
  intros E. by apply (Ht i).
Qed.

Section Dispatch.
Variable cfg : Config.

(** The listeners a click on the overlay of link [i] meets on its way up. *)
Lemma table_click_path d i :
  let common := dropdown_listeners cfg d ++ autoplay_listeners cfg d
                ++ link_listeners Click HClickTab (tabLinks d)
                ++ link_listeners Keydown HKeydownNav (tabLinks d) in
  ∀ rest, Forall (λ l, l_target l = TWindow ∧ l_type l ≠ Click) rest →
  filter (λ l, listens (TOverlay i) Click l = true) (common ++ rest)
  = match tabLinks d !! i with
    | Some l => if present (overlay l)
                then [mkListener (TOverlay i) Click (HClickTab i)] else []
    | None => []
    end ∧
  filter (λ l, listens TComponent Click l = true) (common ++ rest) = [] ∧
  filter (λ l, listens TDocument Click l = true) (common ++ rest)
  = (if isMobileDropdown cfg && present (dropdownToggle d)
     then [mkListener TDocument Click HOutsideClick] else []) ∧
  filter (λ l, listens TWindow Click l = true) (common ++ rest) = [].
Proof.
  intros common rest Hrest. subst common.
  assert (∀ t, filter (λ l, listens t Click l = true) rest = []) as Hr.
  { intros t. apply filter_none. intros l Hl.
    rewrite Forall_forall in Hrest. destruct (Hrest l Hl) as [_ Hty].
    unfold listens. rewrite (bool_decide_eq_false_2 (l_type l = Click)) by done.
    by rewrite andb_false_r. }
  rewrite !filter_app, !Hr, !filter_link_listeners.
  rewrite !filter_link_listeners_other by done.
  unfold dropdown_listeners, autoplay_listeners.
  destruct (isMobileDropdown cfg), (present (dropdownToggle d)),
    (autoplayEnabled cfg), (autoplayHoverPause cfg), (present (toggleButton d));
    cbn; rewrite ?app_nil_r; done.
Qed.

Lemma classic_click_table d i :
  filter (λ l, listens (TOverlay i) Click l = true) (classic_listeners cfg d)
  = match tabLinks d !! i with
    | Some l => if present (overlay l)
                then [mkListener (TOverlay i) Click (HClickTab i)] else []
    | None => []
    end ∧
  filter (λ l, listens TComponent Click l = true) (classic_listeners cfg d) = [] ∧
  filter (λ l, listens TDocument Click l = true) (classic_listeners cfg d)
  = (if isMobileDropdown cfg && present (dropdownToggle d)
     then [mkListener TDocument Click HOutsideClick] else []) ∧
  filter (λ l, listens TWindow Click l = true) (classic_listeners cfg d) = [].
Proof.
  unfold classic_listeners. rewrite !app_assoc. rewrite <- !app_assoc.
  pose proof (table_click_path d i [mkListener TWindow HashChange HHashChange]) as H.
  cbv zeta in H. rewrite <- !app_assoc in H. apply H.
  by repeat constructor.
Qed.

Lemma optimized_click_table d i :
  filter (λ l, listens (TOverlay i) Click l = true) (optimized_listeners cfg d)
  = match tabLinks d !! i with
    | Some l => if present (overlay l)
                then [mkListener (TOverlay i) Click (HClickTab i)] else []
    | None => []
    end ∧
  filter (λ l, listens TComponent Click l = true) (optimized_listeners cfg d) = [] ∧
  filter (λ l, listens TDocument Click l = true) (optimized_listeners cfg d)
  = (if isMobileDropdown cfg && present (dropdownToggle d)
     then [mkListener TDocument Click HOutsideClick] else []) ∧
  filter (λ l, listens TWindow Click l = true) (optimized_listeners cfg d) = [].
Proof.
  unfold optimized_listeners.
  pose proof (table_click_path d i [mkListener TWindow Resize HResize;
                                    mkListener TWindow HashChange HHashChange]) as H.
  cbv zeta in H. rewrite <- !app_assoc in H. apply H.
  by repeat constructor.
Qed.

(** A click on the overlay of link [i] runs the click listener of that link
    and nothing else. *)
Lemma classic_click_dispatch i s :
  Classic.reachable cfg s →
  Classic.step cfg (EClickTab i) s
  = match Classic.links s !! i with
    | Some l => if present (overlay l) then Classic.clickHandler cfg i s else s
    | None => s
    end.
Proof.
  intros Hr. pose proof (classic_reachable_listeners cfg s Hr) as Hl.
  unfold Classic.step, EventLoop.step. cbn [dom_event].
  destruct s as [v w]. cbn [Classic.world Classic.with_world Classic.vars] in *.
  change (env_event (EClickTab i) w) with w. rewrite Hl.
  destruct (classic_click_table (dom w) i) as (T1 & T2 & T3 & T4).
  cbn [EventLoop.run_path]. unfold EventLoop.run_target.
  rewrite T1, T2, T3, T4. unfold Classic.links. cbn [Classic.world].
  destruct (tabLinks (dom w) !! i) as [l|]; cbn [foldl fst snd];
    [destruct (present (overlay l)); cbn [foldl fst snd orb stops_propagation
                                           l_handler Classic.run_handler]|];
    destruct (isMobileDropdown cfg && present (dropdownToggle (dom w)));
    cbn [foldl fst snd orb stops_propagation l_handler Classic.run_handler
         ev_inside]; reflexivity.
Qed.

Lemma optimized_click_dispatch i s :
  Optimized.reachable cfg s →
  Optimized.step cfg (EClickTab i) s
  = match Optimized.tabLinksArray s !! i with
    | Some l => if present (overlay l) then Optimized.clickHandler cfg i s else s
    | None => s
    end.
Proof.
  intros Hr. pose proof (optimized_reachable_listeners cfg s Hr) as Hl.
  unfold Optimized.step, EventLoop.step. cbn [dom_event].
  destruct s as [v w]. cbn [Optimized.world Optimized.with_world Optimized.vars] in *.
  change (env_event (EClickTab i) w) with w. rewrite Hl.
  destruct (optimized_click_table (dom w) i) as (T1 & T2 & T3 & T4).
  cbn [EventLoop.run_path]. unfold EventLoop.run_target.
  rewrite T1, T2, T3, T4. unfold Optimized.tabLinksArray. cbn [Optimized.world].
  destruct (tabLinks (dom w) !! i) as [l|]; cbn [foldl fst snd];
    [destruct (present (overlay l)); cbn [foldl fst snd orb stops_propagation
                                           l_handler Optimized.run_handler]|];
    destruct (isMobileDropdown cfg && present (dropdownToggle (dom w)));
    cbn [foldl fst snd orb stops_propagation l_handler Optimized.run_handler
         ev_inside]; reflexivity.
Qed.

(** The one listener a hashchange event meets. *)
Lemma table_hash_path d :
  filter (λ l, listens TWindow HashChange l = true) (classic_listeners cfg d)
  = [mkListener TWindow HashChange HHashChange] ∧
  filter (λ l, listens TWindow HashChange l = true) (optimized_listeners cfg d)
  = [mkListener TWindow HashChange HHashChange].
Proof.
  unfold classic_listeners, optimized_listeners.
  rewrite !filter_app, !filter_link_listeners_other by done.
  unfold dropdown_listeners, autoplay_listeners.
  destruct (isMobileDropdown cfg), (present (dropdownToggle d)),
    (autoplayEnabled cfg), (autoplayHoverPause cfg), (present (toggleButton d));
    cbn; done.
Qed.

Lemma classic_hash_dispatch h s :
  Classic.reachable cfg s →
  Classic.step cfg (EHashChange h) s
  = Classic.run_handler cfg HHashChange (mkEventData "" false)
      (Classic.with_world (with_env (set_location_hash h)) s).
Proof.
  intros Hr. pose proof (classic_reachable_listeners cfg s Hr) as Hl.
  unfold Classic.step, EventLoop.step. cbn [dom_event].
  destruct s as [v w]. cbn [Classic.world Classic.with_world Classic.vars] in *.
  change (listeners (browser (env_event (EHashChange h) w)))
    with (listeners (browser w)).
  cbn [EventLoop.run_path]. unfold EventLoop.run_target.
  rewrite Hl, (proj1 (table_hash_path _)). reflexivity.
Qed.

Lemma optimized_hash_dispatch h s :
  Optimized.reachable cfg s →
  Optimized.step cfg (EHashChange h) s
  = Optimized.run_handler cfg HHashChange (mkEventData "" false)
      (Optimized.with_world (with_env (set_location_hash h)) s).
Proof.
  intros Hr. pose proof (optimized_reachable_listeners cfg s Hr) as Hl.
  unfold Optimized.step, EventLoop.step. cbn [dom_event].
  destruct s as [v w]. cbn [Optimized.world Optimized.with_world Optimized.vars] in *.
  change (listeners (browser (env_event (EHashChange h) w)))
    with (listeners (browser w)).
  cbn [EventLoop.run_path]. unfold EventLoop.run_target.
  rewrite Hl, (proj2 (table_hash_path _)). reflexivity.
Qed.
End Dispatch.

(** X11. A click on a tab activates it.  In every reachable state a click
    on the overlay of link [i] runs the click listener of that link, once,
    and no other callback; afterwards [i] is the active index.  A link
    without an overlay has no listener: a click there changes nothing. *)
Theorem click_activates_tab (cfg : Config) (i : nat) :
  (∀ s l o, Classic.reachable cfg s →
     Classic.links s !! i = Some l → overlay l = Some o →
     Classic.step cfg (EClickTab i) s = Classic.clickHandler cfg i s ∧
     Classic.currentActiveIndex (Classic.vars (Classic.step cfg (EClickTab i) s))
     = Z.of_nat i) ∧
  (∀ s, Classic.reachable cfg s →
     (∀ l, Classic.links s !! i = Some l → overlay l = None) →
     Classic.step cfg (EClickTab i) s = s) ∧
  (∀ s l o, Optimized.reachable cfg s →
     Optimized.tabLinksArray s !! i = Some l → overlay l = Some o →
     Optimized.step cfg (EClickTab i) s = Optimized.clickHandler cfg i s ∧
     Optimized.currentActiveIndex
       (Optimized.vars (Optimized.step cfg (EClickTab i) s)) = Z.of_nat i) ∧
  (∀ s, Optimized.reachable cfg s →
     (∀ l, Optimized.tabLinksArray s !! i = Some l → overlay l = None) →
     Optimized.step cfg (EClickTab i) s = s).
Proof.
  split; [|split; [|split]].
  - intros s l o Hr Hl Ho. rewrite classic_click_dispatch by done.
    rewrite Hl, Ho. cbn [present]. split; [done|].
    apply lookup_lt_Some in Hl.
    destruct (classic_click_cases cfg i s) as [->|(e & ->)];
      cbn [Classic.vars Classic.with_world];
      apply classic_setActiveTab_index; unfold Classic.links in *; cbn; lia.
  - intros s Hr Hno. rewrite classic_click_dispatch by done.
    destruct (Classic.links s !! i) as [l|] eqn:El; [|done].
    by rewrite (Hno l eq_refl).
  - intros s l o Hr Hl Ho. rewrite optimized_click_dispatch by done.
    rewrite Hl, Ho. cbn [present]. split; [done|].
    apply lookup_lt_Some in Hl.
    destruct (optimized_click_cases cfg i s) as [->|(e & ->)];
      cbn [Optimized.vars Optimized.with_world];
      apply optimized_setActiveTab_index; unfold Optimized.tabLinksArray in *;
      cbn; lia.
  - intros s Hr Hno. rewrite optimized_click_dispatch by done.
    destruct (Optimized.tabLinksArray s !! i) as [l|] eqn:El; [|done].
    by rewrite (Hno l eq_refl).
Qed.

Lemma click_activates_tab_witness :
  Classic.currentActiveIndex (Classic.vars
    (Classic.step autoplay_cfg (EClickTab 2)
       (Classic.run autoplay_cfg [EWait 300; EMouseEnter]
          (classic_mounted autoplay_cfg (sample_world three_links 3 ""))))) = 2 ∧
  Optimized.currentActiveIndex (Optimized.vars
    (Optimized.step plain_cfg (EClickTab 0)
       (optimized_mounted plain_cfg (sample_world three_links 3 "#faq")))) = 0.
Proof.
  split.
  - refine (proj2 (proj1 (click_activates_tab autoplay_cfg 2) _ _ _ _ _ _)).
    + apply classic_run_reachable, classic_sample_reachable.
    + vm_compute. reflexivity.
    + reflexivity.
  - refine (proj2 (proj1 (proj2 (proj2 (click_activates_tab plain_cfg 0)))
                     _ _ _ _ _ _)).
    + apply optimized_sample_reachable.
    + vm_compute. reflexivity.
    + reflexivity.
Defined.

Section HashFacts.
Variable cfg : Config.

Lemma classic_hashMatch_first h k s :
  h ≠ ""%string → location_hash (env (Classic.world s)) = h →
  first_at (λ l, link_id l = substring1 h) (Classic.links s) k →
  Classic.hashMatchIndex s = Some (Z.of_nat k).
Proof.
  intros Hh He Hf. unfold Classic.hashMatchIndex. rewrite He. cbv zeta.
  rewrite decide_False by done. rewrite (findIndex_first _ _ k Hf).
  by rewrite decide_False by lia.
Qed.

Lemma classic_hashMatch_none h s :
  location_hash (env (Classic.world s)) = h →
  h = ""%string ∨ (∀ l, l ∈ Classic.links s → link_id l ≠ substring1 h) →
  Classic.hashMatchIndex s = None.
Proof.
  intros He Hn. unfold Classic.hashMatchIndex. rewrite He. cbv zeta.
  case_decide; [done|]. destruct Hn as [?|Hn]; [done|].
  rewrite findIndex_none by done. by rewrite decide_True.
Qed.

Lemma optimized_hashMatch_first h k s :
  h ≠ ""%string → location_hash (env (Optimized.world s)) = h →
  first_at (λ l, link_id l = substring1 h) (Optimized.tabLinksArray s) k →
  Optimized.hashMatchIndex s = Some (Z.of_nat k).
Proof.
  intros Hh He Hf. unfold Optimized.hashMatchIndex. rewrite He. cbv zeta.
  rewrite decide_False by done. rewrite (findIndex_first _ _ k Hf).
  by rewrite decide_False by lia.
Qed.

Lemma optimized_hashMatch_none h s :
  location_hash (env (Optimized.world s)) = h →
  h = ""%string ∨ (∀ l, l ∈ Optimized.tabLinksArray s → link_id l ≠ substring1 h) →
  Optimized.hashMatchIndex s = None.
Proof.
  intros He Hn. unfold Optimized.hashMatchIndex. rewrite He. cbv zeta.
  case_decide; [done|]. destruct Hn as [?|Hn]; [done|].
  rewrite findIndex_none by done. by rewrite decide_True.
Qed.
End HashFacts.

(** X12. The tabs follow the URL fragment.  In every reachable state a
    hashchange event to a non-empty fragment activates the first link whose
    id is the fragment without its leading character; a fragment that is
    empty or names no link only changes [location.hash]: no tab, no timer
    and no variable is touched. *)
Theorem hashchange_follows_fragment (cfg : Config) (h : string) :
  (∀ s k, Classic.reachable cfg s →
     h ≠ ""%string →
     first_at (λ l, link_id l = substring1 h) (Classic.links s) k →
     Classic.step cfg (EHashChange h) s
     = Classic.setActiveTab cfg (Z.of_nat k)
         (Classic.with_world (with_env (set_location_hash h)) s) ∧
     Classic.currentActiveIndex (Classic.vars (Classic.step cfg (EHashChange h) s))
     = Z.of_nat k) ∧
  (∀ s, Classic.reachable cfg s →
     h = ""%string ∨ (∀ l, l ∈ Classic.links s → link_id l ≠ substring1 h) →
     Classic.step cfg (EHashChange h) s
     = Classic.with_world (with_env (set_location_hash h)) s) ∧
  (∀ s k, Optimized.reachable cfg s →
     h ≠ ""%string →
     first_at (λ l, link_id l = substring1 h) (Optimized.tabLinksArray s) k →
     Optimized.step cfg (EHashChange h) s
     = Optimized.setActiveTab cfg (Z.of_nat k)
         (Optimized.with_world (with_env (set_location_hash h)) s) ∧
     Optimized.currentActiveIndex
       (Optimized.vars (Optimized.step cfg (EHashChange h) s)) = Z.of_nat k) ∧
  (∀ s, Optimized.reachable cfg s →
     h = ""%string ∨ (∀ l, l ∈ Optimized.tabLinksArray s → link_id l ≠ substring1 h) →
     Optimized.step cfg (EHashChange h) s
     = Optimized.with_world (with_env (set_location_hash h)) s).
Proof.
  split; [|split; [|split]].
  - intros s k Hr Hh Hf. rewrite classic_hash_dispatch by done.
    cbn [Classic.run_handler].
    rewrite (classic_hashMatch_first h k) by done.
    split; [done|]. apply classic_setActiveTab_index.
    destruct Hf as [(x & Hx & _) _]. apply lookup_lt_Some in Hx.
    unfold Classic.links in *. cbn. lia.
  - intros s Hr Hn. rewrite classic_hash_dispatch by done.
    cbn [Classic.run_handler]. by rewrite (classic_hashMatch_none h).
  - intros s k Hr Hh Hf. rewrite optimized_hash_dispatch by done.
    cbn [Optimized.run_handler].
    rewrite (optimized_hashMatch_first h k) by done.
    split; [done|]. apply optimized_setActiveTab_index.
    destruct Hf as [(x & Hx & _) _]. apply lookup_lt_Some in Hx.
    unfold Optimized.tabLinksArray in *. cbn. lia.
  - intros s Hr Hn. rewrite optimized_hash_dispatch by done.
    cbn [Optimized.run_handler]. by rewrite (optimized_hashMatch_none h).
Qed.

Lemma hashchange_follows_fragment_witness :
  Classic.currentActiveIndex (Classic.vars
    (Classic.step plain_cfg (EHashChange "#faq")
       (classic_mounted plain_cfg (sample_world three_links 3 "")))) = 2 ∧
  Optimized.step autoplay_cfg (EHashChange "#nope")
    (optimized_mounted autoplay_cfg (sample_world three_links 3 ""))
  = Optimized.with_world (with_env (set_location_hash "#nope"))
      (optimized_mounted autoplay_cfg (sample_world three_links 3 "")).
Proof.
  split.
  - refine (proj2 (proj1 (hashchange_follows_fragment plain_cfg "#faq") _ 2%nat
                     _ _ _)).
    + apply classic_sample_reachable.
    + discriminate.
    + split.
      * eexists. split; [vm_compute; reflexivity|reflexivity].
      * intros j y Hj Hlt. destruct j as [|[|j]]; [| |lia];
          vm_compute in Hj; injection Hj as <-; discriminate.
  - refine (proj2 (proj2 (proj2 (hashchange_follows_fragment autoplay_cfg "#nope")))
              _ _ _).
    + apply optimized_sample_reachable.
    + right. intros l Hl. vm_compute in Hl.
      repeat (apply elem_of_cons in Hl as [->|Hl]; [discriminate|]).
      by apply elem_of_nil in Hl.
Defined.

Section DropdownDispatch.
Variable cfg : Config.

(** The listeners a key pressed outside the tab controls meets. *)
Lemma table_keydown_path d :
  (filter (λ l, listens TDocument Keydown l = true) (classic_listeners cfg d)
   = (if isMobileDropdown cfg && present (dropdownToggle d)
      then [mkListener TDocument Keydown HEscape] else []) ∧
   filter (λ l, listens TWindow Keydown l = true) (classic_listeners cfg d) = []) ∧
  (filter (λ l, listens TDocument Keydown l = true) (optimized_listeners cfg d)
   = (if isMobileDropdown cfg && present (dropdownToggle d)
      then [mkListener TDocument Keydown HEscape] else []) ∧
   filter (λ l, listens TWindow Keydown l = true) (optimized_listeners cfg d) = []).
Proof.
  unfold classic_listeners, optimized_listeners.
  rewrite !filter_app, !filter_link_listeners_other by done.
  unfold dropdown_listeners, autoplay_listeners.
  destruct (isMobileDropdown cfg), (present (dropdownToggle d)),
    (autoplayEnabled cfg), (autoplayHoverPause cfg), (present (toggleButton d));
    cbn; done.
Qed.

Lemma classic_elsewhere_dispatch s :
  Classic.reachable cfg s →
  let handles := isMobileDropdown cfg && present (dropdownToggle (dom (Classic.world s))) in
  (∀ inside,
     Classic.step cfg (EClickElsewhere inside) s
     = if handles && negb inside then Classic.closeDropdown s else s) ∧
  (∀ key,
     Classic.step cfg (EKeydownElsewhere key) s
     = if handles && bool_decide (key = "Escape"%string)
          && menu_cc_open (dom (Classic.world s))
       then Classic.with_world (emit (Focus TDropdownToggle)) (Classic.closeDropdown s)
       else s).
Proof.
  intros Hr handles. subst handles.
  pose proof (classic_reachable_listeners cfg s Hr) as Hl.
  destruct s as [v w]. cbn [Classic.world Classic.with_world Classic.vars] in *.
  destruct (classic_click_table cfg (dom w) 0) as (_ & T2 & T3 & T4).
  destruct (proj1 (table_keydown_path (dom w))) as (K3 & K4).
  split.
  - intros inside. unfold Classic.step, EventLoop.step. cbn [dom_event].
    cbn [Classic.world Classic.with_world Classic.vars].
    change (env_event (EClickElsewhere inside) w) with w. rewrite Hl.
    destruct inside; cbn [app EventLoop.run_path]; unfold EventLoop.run_target;
      rewrite ?T2, T3, T4;
      destruct (isMobileDropdown cfg && present (dropdownToggle (dom w)));
      reflexivity.
  - intros key. unfold Classic.step, EventLoop.step. cbn [dom_event].
    cbn [Classic.world Classic.with_world Classic.vars].
    change (env_event (EKeydownElsewhere key) w) with w. rewrite Hl.
    cbn [EventLoop.run_path]. unfold EventLoop.run_target. rewrite K3, K4.
    destruct (isMobileDropdown cfg && present (dropdownToggle (dom w)));
      reflexivity.
Qed.

Lemma optimized_elsewhere_dispatch s :
  Optimized.reachable cfg s →
  let handles :=
    isMobileDropdown cfg && present (dropdownToggle (dom (Optimized.world s))) in
  (∀ inside,
     Optimized.step cfg (EClickElsewhere inside) s
     = if handles && negb inside then Optimized.closeDropdown s else s) ∧
  (∀ key,
     Optimized.step cfg (EKeydownElsewhere key) s
     = if handles && bool_decide (key = "Escape"%string)
          && menu_cc_open (dom (Optimized.world s))
       then Optimized.with_world (emit (Focus TDropdownToggle))
              (Optimized.closeDropdown s)
       else s).
Proof.
  intros Hr handles. subst handles.
  pose proof (optimized_reachable_listeners cfg s Hr) as Hl.
  destruct s as [v w]. cbn [Optimized.world Optimized.with_world Optimized.vars] in *.
  destruct (optimized_click_table cfg (dom w) 0) as (_ & T2 & T3 & T4).
  destruct (proj2 (table_keydown_path (dom w))) as (K3 & K4).
  split.
  - intros inside. unfold Optimized.step, EventLoop.step. cbn [dom_event].
    cbn [Optimized.world Optimized.with_world Optimized.vars].
    change (env_event (EClickElsewhere inside) w) with w. rewrite Hl.
    destruct inside; cbn [app EventLoop.run_path]; unfold EventLoop.run_target;
      rewrite ?T2, T3, T4;
      destruct (isMobileDropdown cfg && present (dropdownToggle (dom w)));
      reflexivity.
  - intros key. unfold Optimized.step, EventLoop.step. cbn [dom_event].
    cbn [Optimized.world Optimized.with_world Optimized.vars].
    change (env_event (EKeydownElsewhere key) w) with w. rewrite Hl.
    cbn [EventLoop.run_path]. unfold EventLoop.run_target. rewrite K3, K4.
    destruct (isMobileDropdown cfg && present (dropdownToggle (dom w)));
      reflexivity.
Qed.
End DropdownDispatch.

(** X13. What closes the dropdown from outside.  With the mobile dropdown
    on and a toggle element, a click outside the component closes the
    dropdown, and the Escape key closes it when it is open and moves the
    focus to the toggle.  A click inside the component, any other key,
    Escape while the dropdown is closed, and every such event when the
    mobile dropdown is off, leave the state as it is. *)
Theorem dropdown_closes_from_outside (cfg : Config) :
  (∀ s, Classic.reachable cfg s →
     let handles :=
       isMobileDropdown cfg && present (dropdownToggle (dom (Classic.world s))) in
     (∀ inside,
        Classic.step cfg (EClickElsewhere inside) s
        = if handles && negb inside then Classic.closeDropdown s else s) ∧
     (∀ key,
        Classic.step cfg (EKeydownElsewhere key) s
        = if handles && bool_decide (key = "Escape"%string)
             && menu_cc_open (dom (Classic.world s))
          then Classic.with_world (emit (Focus TDropdownToggle))
                 (Classic.closeDropdown s)
          else s)) ∧
  (∀ s, Optimized.reachable cfg s →
     let handles :=
       isMobileDropdown cfg && present (dropdownToggle (dom (Optimized.world s))) in
     (∀ inside,
        Optimized.step cfg (EClickElsewhere inside) s
        = if handles && negb inside then Optimized.closeDropdown s else s) ∧
     (∀ key,
        Optimized.step cfg (EKeydownElsewhere key) s
        = if handles && bool_decide (key = "Escape"%string)
             && menu_cc_open (dom (Optimized.world s))
          then Optimized.with_world (emit (Focus TDropdownToggle))
                 (Optimized.closeDropdown s)
          else s)).
Proof.
  split; intros s Hr.
  - by apply classic_elsewhere_dispatch.
  - by apply optimized_elsewhere_dispatch.
Qed.

Lemma dropdown_closes_from_outside_witness :
  Classic.step mobile_cfg (EClickElsewhere false)
    (Classic.run mobile_cfg [EClickDropdownToggle]
       (classic_mounted mobile_cfg (sample_world three_links 3 "")))
  = Classic.closeDropdown
      (Classic.run mobile_cfg [EClickDropdownToggle]
         (classic_mounted mobile_cfg (sample_world three_links 3 ""))) ∧
  Optimized.step mobile_cfg (EKeydownElsewhere "Escape")
    (Optimized.run mobile_cfg [EClickDropdownToggle]
       (optimized_mounted mobile_cfg (sample_world three_links 3 "")))
  = Optimized.with_world (emit (Focus TDropdownToggle))
      (Optimized.closeDropdown
         (Optimized.run mobile_cfg [EClickDropdownToggle]
            (optimized_mounted mobile_cfg (sample_world three_links 3 "")))).
Proof.
  split.
  - refine (eq_trans (proj1 (proj1 (dropdown_closes_from_outside mobile_cfg) _ _)
                        false) _).
    + apply classic_run_reachable, classic_sample_reachable.
    + vm_compute. reflexivity.
  - refine (eq_trans (proj2 (proj2 (dropdown_closes_from_outside mobile_cfg) _ _)
                        "Escape"%string) _).
    + apply optimized_run_reachable, optimized_sample_reachable.
    + vm_compute. reflexivity.
Defined.

(** * The one tab stop *)



Section TabStop.
Variable cfg : Config.




End TabStop.



(** * The visibility observer *)

Section Observer.
Variable cfg : Config.

Lemma classic_setupPerLink_observing ty h s :
  observing (browser (Classic.world (Classic.setupPerLink ty h s)))
  = observing (browser (Classic.world s)).
Proof.
  unfold Classic.setupPerLink. generalize (imap pair (Classic.links s)) as ils.
  intros ils. revert s.
  induction ils as [|il ils IH]; intros s; cbn [foldl]; [done|].
  rewrite IH. by case_match.
Qed.

Lemma optimized_setupPerLink_observing ty h s :
  observing (browser (Optimized.world (Optimized.setupPerLink ty h s)))
  = observing (browser (Optimized.world s)).
Proof.
  unfold Optimized.setupPerLink.
  generalize (imap pair (Optimized.tabLinksArray s)) as ils.
  intros ils. revert s.
  induction ils as [|il ils IH]; intros s; cbn [foldl]; [done|].
  rewrite IH. by case_match.
Qed.

Lemma classic_presetup_observing s :
  observing (browser (Classic.world (classic_presetup cfg s)))
  = autoplayEnabled cfg || observing (browser (Classic.world s)).
Proof.
  unfold classic_presetup, Classic.setupAutoplayToggle, Classic.setupAutoplayHoverPause,
    Classic.setupAutoplayObserver, Classic.setupAutoplayProgressBars.
  assert (observing (browser (Classic.world (Classic.setupMobileDropdown cfg s)))
          = observing (browser (Classic.world s))) as Hm.
  { unfold Classic.setupMobileDropdown. by repeat case_match. }
  destruct (autoplayEnabled cfg); cbn [negb orb]; [|done].
  destruct (autoplayHoverPause cfg); cbn [negb orb]; by case_match.
Qed.

Lemma optimized_presetup_observing s :
  observing (browser (Optimized.world (optimized_presetup cfg s)))
  = autoplayEnabled cfg || observing (browser (Optimized.world s)).
Proof.
  unfold optimized_presetup, Optimized.setupAutoplayToggle,
    Optimized.setupAutoplayHoverPause, Optimized.setupAutoplayObserver,
    Optimized.setupAutoplayProgressBars.
  assert (observing (browser (Optimized.world (Optimized.setupMobileDropdown cfg s)))
          = observing (browser (Optimized.world s))) as Hm.
  { unfold Optimized.setupMobileDropdown. by repeat case_match. }
  destruct (autoplayEnabled cfg); cbn [negb orb]; [|done].
  destruct (autoplayHoverPause cfg); cbn [negb orb]; by case_match.
Qed.

Lemma fixed_part_observing w1 w2 :
  fixed_part w1 = fixed_part w2 → observing (browser w1) = observing (browser w2).
Proof. intros H. exact (f_equal (λ x, x.1.1.2) H). Qed.

(** The component is observed exactly when autoplay is on. *)
Lemma classic_reachable_observing s :
  Classic.reachable cfg s → observing (browser (Classic.world s)) = autoplayEnabled cfg.
Proof.
  assert (∀ l x, observing (browser (Classic.world (Classic.register l x)))
                 = observing (browser (Classic.world x))) as Hreg by done.
  assert (∀ x, observing (browser (Classic.world
                 (if autoplayEnabled cfg then Classic.startAutoplay cfg x else x)))
               = observing (browser (Classic.world x))) as Hstart.
  { intros x. destruct (autoplayEnabled cfg); [|done].
    apply fixed_part_observing, classic_start_fixed. }
  induction 1 as [w s (_ & _ & Hob) Hm|e s _ IH].
  - unfold Classic.initTabsComponent in Hm. case_match; [done|].
    injection Hm as <-. unfold Classic.init.
    fold (classic_presetup cfg (Classic.mkState Classic.initialVars w)).
    unfold Classic.setupClickHandlers, Classic.setupKeyboardNav.
    rewrite Hreg, Hstart.
    rewrite !classic_setupPerLink_observing.
    rewrite (fixed_part_observing _ _ (classic_setActiveTab_fixed cfg _ _)).
    rewrite classic_presetup_observing. cbn [Classic.world browser]. rewrite Hob.
    by destruct (autoplayEnabled cfg).
  - rewrite (fixed_part_observing _ _ (classic_step_fixed cfg e s)).
    rewrite <- IH. by destruct e.
Qed.

Lemma optimized_reachable_observing s :
  Optimized.reachable cfg s → observing (browser (Optimized.world s)) = autoplayEnabled cfg.
Proof.
  assert (∀ l x, observing (browser (Optimized.world (Optimized.register l x)))
                 = observing (browser (Optimized.world x))) as Hreg by done.
  assert (∀ x, observing (browser (Optimized.world
                 (if autoplayEnabled cfg then Optimized.startAutoplay cfg x else x)))
               = observing (browser (Optimized.world x))) as Hstart.
  { intros x. destruct (autoplayEnabled cfg); [|done].
    apply fixed_part_observing, optimized_start_fixed. }
  induction 1 as [w s (_ & _ & Hob) Hm|e s _ IH].
  - unfold Optimized.initTabsComponent in Hm. case_match; [done|].
    injection Hm as <-. unfold Optimized.init.
    fold (optimized_presetup cfg (Optimized.mkState (Optimized.initialVars w) w)).
    unfold Optimized.setupClickHandlers, Optimized.setupKeyboardNav,
      Optimized.setupResizeHandler.
    rewrite Hreg, Hstart.
    rewrite Hreg.
    rewrite !optimized_setupPerLink_observing.
    rewrite (fixed_part_observing _ _ (optimized_setActiveTab_fixed cfg _ _)).
    rewrite optimized_presetup_observing. cbn [Optimized.world browser]. rewrite Hob.
    by destruct (autoplayEnabled cfg).
  - rewrite (fixed_part_observing _ _ (optimized_step_fixed cfg e s)).
    rewrite <- IH. by destruct e.
Qed.

Lemma classic_observer_last es b s :
  autoplayEnabled cfg = true →
  Classic.isAutoplayPaused (Classic.vars (Classic.observerCallback cfg (es ++ [b]) s))
  = negb b.
Proof.
  intros En. unfold Classic.observerCallback. rewrite foldl_app. cbn [foldl].
  destruct b; [rewrite classic_resume_paused|rewrite classic_pause_paused];
    by rewrite En.
Qed.

Lemma optimized_observer_last es b s :
  autoplayEnabled cfg = true →
  Optimized.isAutoplayPaused
    (Optimized.vars (Optimized.observerCallback cfg (es ++ [b]) s)) = negb b.
Proof.
  intros En. unfold Optimized.observerCallback. rewrite foldl_app. cbn [foldl].
  destruct b; [rewrite optimized_resume_paused|rewrite optimized_pause_paused];
    by rewrite En.
Qed.

Lemma classic_intersect_dispatch es s :
  Classic.reachable cfg s →
  Classic.step cfg (EIntersect es) s
  = if autoplayEnabled cfg then Classic.observerCallback cfg es s else s.
Proof.
  intros Hr. pose proof (classic_reachable_observing s Hr) as Ho.
  unfold Classic.step, EventLoop.step. destruct s as [v w].
  cbn [Classic.world Classic.with_world Classic.vars] in *.
  change (env_event (EIntersect es) w) with w. by rewrite Ho.
Qed.

Lemma optimized_intersect_dispatch es s :
  Optimized.reachable cfg s →
  Optimized.step cfg (EIntersect es) s
  = if autoplayEnabled cfg then Optimized.observerCallback cfg es s else s.
Proof.
  intros Hr. pose proof (optimized_reachable_observing s Hr) as Ho.
  unfold Optimized.step, EventLoop.step. destruct s as [v w].
  cbn [Optimized.world Optimized.with_world Optimized.vars] in *.
  change (env_event (EIntersect es) w) with w. by rewrite Ho.
Qed.
End Observer.

(** X15. The last observer entry decides.  The component is observed
    exactly when autoplay is on.  With autoplay on, after an observer
    callback with at least one entry the controller is paused exactly when
    the last entry is not intersecting, whatever the entries before it and
    whatever the flag was; with autoplay off an intersection event changes
    nothing. *)
Theorem observer_last_entry_decides (cfg : Config) :
  (∀ s es b, Classic.reachable cfg s → autoplayEnabled cfg = true →
     Classic.isAutoplayPaused
       (Classic.vars (Classic.step cfg (EIntersect (es ++ [b])) s)) = negb b) ∧
  (∀ s es, Classic.reachable cfg s → autoplayEnabled cfg = false →
     Classic.step cfg (EIntersect es) s = s) ∧
  (∀ s es b, Optimized.reachable cfg s → autoplayEnabled cfg = true →
     Optimized.isAutoplayPaused
       (Optimized.vars (Optimized.step cfg (EIntersect (es ++ [b])) s)) = negb b) ∧
  (∀ s es, Optimized.reachable cfg s → autoplayEnabled cfg = false →
     Optimized.step cfg (EIntersect es) s = s).
Proof.
  split; [|split; [|split]].
  - intros s es b Hr En. rewrite classic_intersect_dispatch, En by done.
    by apply classic_observer_last.
  - intros s es Hr En. by rewrite classic_intersect_dispatch, En.
  - intros s es b Hr En. rewrite optimized_intersect_dispatch, En by done.
    by apply optimized_observer_last.
  - intros s es Hr En. by rewrite optimized_intersect_dispatch, En.
Qed.

Lemma observer_last_entry_decides_witness :
  Classic.isAutoplayPaused (Classic.vars
    (Classic.step autoplay_cfg (EIntersect ([true; false; true] ++ [false]))
       (classic_mounted autoplay_cfg (sample_world three_links 3 "")))) = negb false ∧
  Optimized.step plain_cfg (EIntersect [false])
    (optimized_mounted plain_cfg (sample_world three_links 3 ""))
  = optimized_mounted plain_cfg (sample_world three_links 3 "").
Proof.
  split.
  - refine (proj1 (observer_last_entry_decides autoplay_cfg) _ _ _ _ _).
    + apply classic_sample_reachable.
    + reflexivity.
  - refine (proj2 (proj2 (proj2 (observer_last_entry_decides plain_cfg))) _ _ _ _).
    + apply optimized_sample_reachable.
    + reflexivity.
Defined.


(** * The debounced resize listener *)

Section Resize.
Variable cfg : Config.

Lemma table_resize_path d :
  filter (λ l, listens TWindow Resize l = true) (classic_listeners cfg d) = [] ∧
  filter (λ l, listens TWindow Resize l = true) (optimized_listeners cfg d)
  = [mkListener TWindow Resize HResize].
Proof.
  unfold classic_listeners, optimized_listeners.
  rewrite !filter_app, !filter_link_listeners_other by done.
  unfold dropdown_listeners, autoplay_listeners.
  destruct (isMobileDropdown cfg), (present (dropdownToggle d)),
    (autoplayEnabled cfg), (autoplayHoverPause cfg), (present (toggleButton d));
    cbn; done.
Qed.

Lemma classic_resize_dispatch x s :
  Classic.reachable cfg s →
  Classic.step cfg (EResize x) s = Classic.with_world (with_env (set_innerWidth x)) s.
Proof.
  intros Hr. pose proof (classic_reachable_listeners cfg s Hr) as Hl.
  unfold Classic.step, EventLoop.step. cbn [dom_event].
  destruct s as [v w]. cbn [Classic.world Classic.with_world Classic.vars] in *.
  change (listeners (browser (env_event (EResize x) w))) with (listeners (browser w)).
  cbn [EventLoop.run_path]. unfold EventLoop.run_target.
  rewrite Hl, (proj1 (table_resize_path _)). reflexivity.
Qed.

Lemma optimized_resize_dispatch x s :
  Optimized.reachable cfg s →
  Optimized.step cfg (EResize x) s
  = Optimized.resizeHandler (Optimized.with_world (with_env (set_innerWidth x)) s).
Proof.
  intros Hr. pose proof (optimized_reachable_listeners cfg s Hr) as Hl.
  unfold Optimized.step, EventLoop.step. cbn [dom_event].
  destruct s as [v w]. cbn [Optimized.world Optimized.with_world Optimized.vars] in *.
  change (listeners (browser (env_event (EResize x) w))) with (listeners (browser w)).
  cbn [EventLoop.run_path]. unfold EventLoop.run_target.
  rewrite Hl, (proj2 (table_resize_path _)). reflexivity.
Qed.

(** Clearing the timer [resizeTimer] names leaves no resize timer. *)
Lemma resize_cleared (rt : option positive) (b : Browser) :
  RszOk rt b →
  filter (λ t, kind t = ResizeSettle)
         (match rt with
          | Some id => filter (λ t, tid t ≠ id) (timers b)
          | None => timers b
          end) = [].
Proof.
  intros Hr. apply filter_none. intros t Ht Hk. destruct rt as [r|].
  - apply list_elem_of_filter in Ht as [Hne Ht].
    specialize (Hr t Ht Hk). congruence.
  - by specialize (Hr t Ht Hk).
Qed.

Lemma optimized_resize_spec s :
  RszOk (Optimized.resizeTimer (Optimized.vars s)) (browser (Optimized.world s)) →
  let s' := Optimized.resizeHandler s in
  let id := nextTimerId (browser (Optimized.world s)) in
  resizeTimers (browser (Optimized.world s'))
  = [mkTimer id ResizeSettle 150 (now (env (Optimized.world s)))] ∧
  Optimized.resizeTimer (Optimized.vars s') = Some id ∧
  Optimized.cachedWindowWidth (Optimized.vars s')
  = Optimized.cachedWindowWidth (Optimized.vars s).
Proof.
  intros Hr. pose proof (resize_cleared _ _ Hr) as Hc.
  unfold Optimized.resizeHandler, resizeTimers.
  destruct (Optimized.resizeTimer (Optimized.vars s)) as [r|];
    cbn; rewrite filter_app, Hc; done.
Qed.

Lemma optimized_settle_spec t s :
  RszOk (Optimized.resizeTimer (Optimized.vars s)) (browser (Optimized.world s)) →
  next_timer ResizeSettle (Optimized.world s) = Some t →
  let s' := Optimized.step cfg (ETimer ResizeSettle) s in
  resizeTimers (browser (Optimized.world s')) = [] ∧
  Optimized.cachedWindowWidth (Optimized.vars s') = innerWidth (env (Optimized.world s)).
Proof.
  intros Hr Ht. cbv zeta. rewrite (optimized_step_timer_fire cfg _ t s Ht).
  cbn [Optimized.run_timer]. split; [|done].
  apply next_timer_elem in Ht as [Hin Hk].
  pose proof (Hr t Hin Hk) as Hrt.
  unfold resizeTimers. cbn. apply filter_none. intros t' Ht' Hk'.
  apply list_elem_of_filter in Ht' as [Hne Ht'].
  specialize (Hr t' Ht' Hk'). congruence.
Qed.
End Resize.

(** X16. The resize listener is debounced.  In the optimized variant a
    resize event cancels the resize timer that was pending and arms one for
    150 ms, so that after the event exactly one resize timer is scheduled;
    [cachedWindowWidth] stays as it was until that timer fires, and is then
    the window width read at that moment, with no resize timer left.  The
    classic variant has no resize listener: there the event only changes
    the window width. *)
Theorem resize_is_debounced (cfg : Config) :
  (∀ s x, Optimized.reachable cfg s →
     let s' := Optimized.step cfg (EResize x) s in
     resizeTimers (browser (Optimized.world s'))
     = [mkTimer (nextTimerId (browser (Optimized.world s))) ResizeSettle 150
                (now (env (Optimized.world s)))] ∧
     Optimized.resizeTimer (Optimized.vars s')
     = Some (nextTimerId (browser (Optimized.world s))) ∧
     Optimized.cachedWindowWidth (Optimized.vars s')
     = Optimized.cachedWindowWidth (Optimized.vars s)) ∧
  (∀ s t, Optimized.reachable cfg s →
     next_timer ResizeSettle (Optimized.world s) = Some t →
     let s' := Optimized.step cfg (ETimer ResizeSettle) s in
     resizeTimers (browser (Optimized.world s')) = [] ∧
     Optimized.cachedWindowWidth (Optimized.vars s')
     = innerWidth (env (Optimized.world s))) ∧
  (∀ s x, Classic.reachable cfg s →
     Classic.step cfg (EResize x) s
     = Classic.with_world (with_env (set_innerWidth x)) s).
Proof.
  split; [|split].
  - intros s x Hr. cbv zeta. rewrite optimized_resize_dispatch by done.
    apply optimized_reachable_inv in Hr.
    apply (optimized_resize_spec
             (Optimized.with_world (with_env (set_innerWidth x)) s)).
    apply Hr.
  - intros s t Hr Ht. apply (optimized_settle_spec cfg t s); [|done].
    apply optimized_reachable_inv in Hr. apply Hr.
  - intros s x Hr. by apply classic_resize_dispatch.
Qed.

Lemma resize_is_debounced_witness :
  (let s := Optimized.run plain_cfg [EResize 700; EWait 40; EResize 650; EWait 10]
              (optimized_mounted plain_cfg (sample_world three_links 3 "")) in
   let s' := Optimized.step plain_cfg (EResize 600) s in
   resizeTimers (browser (Optimized.world s'))
   = [mkTimer (nextTimerId (browser (Optimized.world s))) ResizeSettle 150
              (now (env (Optimized.world s)))] ∧
   Optimized.resizeTimer (Optimized.vars s')
   = Some (nextTimerId (browser (Optimized.world s))) ∧
   Optimized.cachedWindowWidth (Optimized.vars s')
   = Optimized.cachedWindowWidth (Optimized.vars s)) ∧
  Classic.step plain_cfg (EResize 600)
    (classic_mounted plain_cfg (sample_world three_links 3 ""))
  = Classic.with_world (with_env (set_innerWidth 600))
      (classic_mounted plain_cfg (sample_world three_links 3 "")).
Proof.
  split.
  - refine (proj1 (resize_is_debounced plain_cfg) _ 600 _).
    apply optimized_run_reachable, optimized_sample_reachable.
  - refine (proj2 (proj2 (resize_is_debounced plain_cfg)) _ 600 _).
    apply classic_sample_reachable.
Defined.

(** * Pointer, button and keyboard events *)

Section Controls.
Variable cfg : Config.

(** The listeners of the hover events and of a click on the play/pause
    button. *)
Lemma table_hover_path d :
  (filter (λ l, listens TComponent MouseEnter l = true) (classic_listeners cfg d)
   = (if autoplayEnabled cfg && autoplayHoverPause cfg
      then [mkListener TComponent MouseEnter HMouseEnter] else []) ∧
   filter (λ l, listens TComponent MouseLeave l = true) (classic_listeners cfg d)
   = (if autoplayEnabled cfg && autoplayHoverPause cfg
      then [mkListener TComponent MouseLeave HMouseLeave] else []) ∧
   filter (λ l, listens TToggleButton Click l = true) (classic_listeners cfg d)
   = (if autoplayEnabled cfg && present (toggleButton d)
      then [mkListener TToggleButton Click HAutoplayToggle] else [])) ∧
  (filter (λ l, listens TComponent MouseEnter l = true) (optimized_listeners cfg d)
   = (if autoplayEnabled cfg && autoplayHoverPause cfg
      then [mkListener TComponent MouseEnter HMouseEnter] else []) ∧
   filter (λ l, listens TComponent MouseLeave l = true) (optimized_listeners cfg d)
   = (if autoplayEnabled cfg && autoplayHoverPause cfg
      then [mkListener TComponent MouseLeave HMouseLeave] else []) ∧
   filter (λ l, listens TToggleButton Click l = true) (optimized_listeners cfg d)
   = (if autoplayEnabled cfg && present (toggleButton d)
      then [mkListener TToggleButton Click HAutoplayToggle] else [])).
Proof.
  unfold classic_listeners, optimized_listeners.
  rewrite !filter_app, !filter_link_listeners_other by done.
  unfold dropdown_listeners, autoplay_listeners.
  destruct (isMobileDropdown cfg), (present (dropdownToggle d)),
    (autoplayEnabled cfg), (autoplayHoverPause cfg), (present (toggleButton d));
    cbn; done.
Qed.

Lemma classic_controls_dispatch s :
  Classic.reachable cfg s →
  Classic.step cfg EMouseEnter s
  = (if autoplayEnabled cfg && autoplayHoverPause cfg
     then Classic.pauseAutoplay cfg s else s) ∧
  Classic.step cfg EMouseLeave s
  = (if autoplayEnabled cfg && autoplayHoverPause cfg
     then Classic.resumeAutoplay cfg s else s) ∧
  Classic.step cfg EClickAutoplayToggle s
  = (if autoplayEnabled cfg && present (toggleButton (dom (Classic.world s)))
     then (if Classic.isAutoplayPaused (Classic.vars s)
           then Classic.resumeAutoplay cfg s else Classic.pauseAutoplay cfg s)
     else s).
Proof.
  intros Hr. pose proof (classic_reachable_listeners cfg s Hr) as Hl.
  destruct s as [v w]. cbn [Classic.world Classic.with_world Classic.vars] in *.
  destruct (proj1 (table_hover_path (dom w))) as (H1 & H2 & H3).
  destruct (classic_click_table cfg (dom w) 0) as (_ & T2 & T3 & T4).
  unfold Classic.step, EventLoop.step. cbn [dom_event].
  cbn [Classic.world Classic.with_world Classic.vars].
  change (env_event EMouseEnter w) with w. change (env_event EMouseLeave w) with w.
  change (env_event EClickAutoplayToggle w) with w. rewrite Hl.
  cbn [EventLoop.run_path]. unfold EventLoop.run_target.
  rewrite H1, H2, H3, T2, T3, T4.
  repeat split.
  - by destruct (autoplayEnabled cfg && autoplayHoverPause cfg).
  - by destruct (autoplayEnabled cfg && autoplayHoverPause cfg).
  - destruct (autoplayEnabled cfg && present (toggleButton (dom w)));
      destruct (isMobileDropdown cfg && present (dropdownToggle (dom w)));
      reflexivity.
Qed.

Lemma optimized_controls_dispatch s :
  Optimized.reachable cfg s →
  Optimized.step cfg EMouseEnter s
  = (if autoplayEnabled cfg && autoplayHoverPause cfg
     then Optimized.pauseAutoplay cfg s else s) ∧
  Optimized.step cfg EMouseLeave s
  = (if autoplayEnabled cfg && autoplayHoverPause cfg
     then Optimized.resumeAutoplay cfg s else s) ∧
  Optimized.step cfg EClickAutoplayToggle s
  = (if autoplayEnabled cfg && present (toggleButton (dom (Optimized.world s)))
     then (if Optimized.isAutoplayPaused (Optimized.vars s)
           then Optimized.resumeAutoplay cfg s else Optimized.pauseAutoplay cfg s)
     else s).
Proof.
  intros Hr. pose proof (optimized_reachable_listeners cfg s Hr) as Hl.
  destruct s as [v w]. cbn [Optimized.world Optimized.with_world Optimized.vars] in *.
  destruct (proj2 (table_hover_path (dom w))) as (H1 & H2 & H3).
  destruct (optimized_click_table cfg (dom w) 0) as (_ & T2 & T3 & T4).
  unfold Optimized.step, EventLoop.step. cbn [dom_event].
  cbn [Optimized.world Optimized.with_world Optimized.vars].
  change (env_event EMouseEnter w) with w. change (env_event EMouseLeave w) with w.
  change (env_event EClickAutoplayToggle w) with w. rewrite Hl.
  cbn [EventLoop.run_path]. unfold EventLoop.run_target.
  rewrite H1, H2, H3, T2, T3, T4.
  repeat split.
  - by destruct (autoplayEnabled cfg && autoplayHoverPause cfg).
  - by destruct (autoplayEnabled cfg && autoplayHoverPause cfg).
  - destruct (autoplayEnabled cfg && present (toggleButton (dom w)));
      destruct (isMobileDropdown cfg && present (dropdownToggle (dom w)));
      reflexivity.
Qed.

(** What the user is shown of the paused flag after a pause or a resume. *)
Lemma classic_pause_shown s :
  autoplayEnabled cfg = true →
  autoplay_paused_class (dom (Classic.world (Classic.pauseAutoplay cfg s))) = true ∧
  toggleButton (dom (Classic.world (Classic.pauseAutoplay cfg s)))
  = (λ _, Some "Play autoplay"%string) <$> toggleButton (dom (Classic.world s)).
Proof.
  intros En. cdestruct s. destruct d as [lk pn mo dt tb pc].
  rewrite classic_pause_explicit by done. by destruct tb.
Qed.

Lemma optimized_pause_shown s :
  autoplayEnabled cfg = true →
  autoplay_paused_class (dom (Optimized.world (Optimized.pauseAutoplay cfg s))) = true ∧
  toggleButton (dom (Optimized.world (Optimized.pauseAutoplay cfg s)))
  = (λ _, Some "Play autoplay"%string) <$> toggleButton (dom (Optimized.world s)).
Proof.
  intros En. destruct_opt s. destruct d as [lk pn mo dt tb pc].
  rewrite optimized_pause_explicit by done. by destruct tb.
Qed.

Lemma classic_resume_shown s :
  autoplayEnabled cfg = true →
  autoplay_paused_class (dom (Classic.world (Classic.resumeAutoplay cfg s))) = false ∧
  toggleButton (dom (Classic.world (Classic.resumeAutoplay cfg s)))
  = (λ _, Some "Pause autoplay"%string) <$> toggleButton (dom (Classic.world s)).
Proof.
  intros En. unfold Classic.resumeAutoplay. rewrite En. cbn [negb]. cbv zeta.
  set (s1 := Classic.with_world (with_dom (set_autoplay_paused_class false))
               (Classic.with_vars (Classic.set_isAutoplayPaused false) s)).
  assert (dom (Classic.world (Classic.startAutoplay cfg s1)) = dom (Classic.world s1)
          ∧ Classic.isAutoplayPaused (Classic.vars (Classic.startAutoplay cfg s1))
            = false) as [Hd Hp].
  { split; [|by rewrite classic_start_paused].
    unfold Classic.startAutoplay, Classic.stopAutoplay. by repeat case_match. }
  revert Hd Hp. generalize (Classic.startAutoplay cfg s1) as s2. intros s2 Hd Hp.
  unfold Classic.updateToggleButton. rewrite Hd, Hp. subst s1.
  cbn [Classic.world Classic.with_world Classic.with_vars with_dom dom toggleButton
       set_autoplay_paused_class] in *.
  destruct (toggleButton (dom (Classic.world s))) eqn:Eb; cbn; rewrite Hd; cbn;
    by rewrite ?Eb.
Qed.

Lemma optimized_resume_shown s :
  autoplayEnabled cfg = true →
  autoplay_paused_class (dom (Optimized.world (Optimized.resumeAutoplay cfg s)))
  = false ∧
  toggleButton (dom (Optimized.world (Optimized.resumeAutoplay cfg s)))
  = (λ _, Some "Pause autoplay"%string) <$> toggleButton (dom (Optimized.world s)).
Proof.
  intros En. unfold Optimized.resumeAutoplay. rewrite En. cbn [negb]. cbv zeta.
  set (s1 := Optimized.with_world (with_dom (set_autoplay_paused_class false))
               (Optimized.with_vars (Optimized.set_isAutoplayPaused false) s)).
  assert (dom (Optimized.world (Optimized.startAutoplay cfg s1))
          = dom (Optimized.world s1)
          ∧ Optimized.isAutoplayPaused (Optimized.vars (Optimized.startAutoplay cfg s1))
            = false) as [Hd Hp].
  { split; [|by rewrite optimized_start_paused].
    unfold Optimized.startAutoplay, Optimized.stopAutoplay. by repeat case_match. }
  revert Hd Hp. generalize (Optimized.startAutoplay cfg s1) as s2. intros s2 Hd Hp.
  unfold Optimized.updateToggleButton. rewrite Hd, Hp. subst s1.
  cbn [Optimized.world Optimized.with_world Optimized.with_vars with_dom dom toggleButton
       set_autoplay_paused_class] in *.
  destruct (toggleButton (dom (Optimized.world s))) eqn:Eb; cbn; rewrite Hd; cbn;
    by rewrite ?Eb.
Qed.
End Controls.

(** X17. The pause controls.  In every reachable state the pointer entering
    or leaving the component pauses or resumes autoplay when autoplay with
    pause-on-hover is configured, and does nothing otherwise.  A click on the
    play/pause button, with autoplay on, flips the paused flag, and the
    component's [autoplay-paused] class and the button's label ("Play
    autoplay" while paused, "Pause autoplay" while running) show the new
    flag; with autoplay off or no button the click does nothing. *)
Theorem pause_controls (cfg : Config) :
  (∀ s, Classic.reachable cfg s →
     (autoplayEnabled cfg && autoplayHoverPause cfg = true →
      Classic.step cfg EMouseEnter s = Classic.pauseAutoplay cfg s ∧
      Classic.step cfg EMouseLeave s = Classic.resumeAutoplay cfg s) ∧
     (autoplayEnabled cfg && autoplayHoverPause cfg = false →
      Classic.step cfg EMouseEnter s = s ∧ Classic.step cfg EMouseLeave s = s) ∧
     (∀ lbl, autoplayEnabled cfg = true →
        toggleButton (dom (Classic.world s)) = Some lbl →
        let s' := Classic.step cfg EClickAutoplayToggle s in
        let p := negb (Classic.isAutoplayPaused (Classic.vars s)) in
        Classic.isAutoplayPaused (Classic.vars s') = p ∧
        autoplay_paused_class (dom (Classic.world s')) = p ∧
        toggleButton (dom (Classic.world s'))
        = Some (Some (if p then "Play autoplay" else "Pause autoplay")%string)) ∧
     (autoplayEnabled cfg && present (toggleButton (dom (Classic.world s))) = false →
      Classic.step cfg EClickAutoplayToggle s = s)) ∧
  (∀ s, Optimized.reachable cfg s →
     (autoplayEnabled cfg && autoplayHoverPause cfg = true →
      Optimized.step cfg EMouseEnter s = Optimized.pauseAutoplay cfg s ∧
      Optimized.step cfg EMouseLeave s = Optimized.resumeAutoplay cfg s) ∧
     (autoplayEnabled cfg && autoplayHoverPause cfg = false →
      Optimized.step cfg EMouseEnter s = s ∧ Optimized.step cfg EMouseLeave s = s) ∧
     (∀ lbl, autoplayEnabled cfg = true →
        toggleButton (dom (Optimized.world s)) = Some lbl →
        let s' := Optimized.step cfg EClickAutoplayToggle s in
        let p := negb (Optimized.isAutoplayPaused (Optimized.vars s)) in
        Optimized.isAutoplayPaused (Optimized.vars s') = p ∧
        autoplay_paused_class (dom (Optimized.world s')) = p ∧
        toggleButton (dom (Optimized.world s'))
        = Some (Some (if p then "Play autoplay" else "Pause autoplay")%string)) ∧
     (autoplayEnabled cfg && present (toggleButton (dom (Optimized.world s))) = false →
      Optimized.step cfg EClickAutoplayToggle s = s)).
Proof.
  split; intros s Hr.
  - destruct (classic_controls_dispatch cfg s Hr) as (D1 & D2 & D3).
    rewrite D1, D2, D3. split; [|split; [|split]].
    + by intros ->.
    + by intros ->.
    + intros lbl En Hb. cbv zeta. rewrite En, Hb. cbn [present andb].
      destruct (classic_pause_shown cfg s En) as [P1 P2].
      destruct (classic_resume_shown cfg s En) as [R1 R2].
      destruct (Classic.isAutoplayPaused (Classic.vars s)); cbn [negb].
      * by rewrite classic_resume_paused, En, R1, R2, Hb.
      * by rewrite classic_pause_paused, En, P1, P2, Hb.
    + by intros ->.
  - destruct (optimized_controls_dispatch cfg s Hr) as (D1 & D2 & D3).
    rewrite D1, D2, D3. split; [|split; [|split]].
    + by intros ->.
    + by intros ->.
    + intros lbl En Hb. cbv zeta. rewrite En, Hb. cbn [present andb].
      destruct (optimized_pause_shown cfg s En) as [P1 P2].
      destruct (optimized_resume_shown cfg s En) as [R1 R2].
      destruct (Optimized.isAutoplayPaused (Optimized.vars s)); cbn [negb].
      * by rewrite optimized_resume_paused, En, R1, R2, Hb.
      * by rewrite optimized_pause_paused, En, P1, P2, Hb.
    + by intros ->.
Qed.

Lemma pause_controls_witness :
  (let s := Classic.run autoplay_cfg [EWait 1000]
              (classic_mounted autoplay_cfg (sample_world three_links 3 "")) in
   let s' := Classic.step autoplay_cfg EClickAutoplayToggle s in
   let p := negb (Classic.isAutoplayPaused (Classic.vars s)) in
   Classic.isAutoplayPaused (Classic.vars s') = p ∧
   autoplay_paused_class (dom (Classic.world s')) = p ∧
   toggleButton (dom (Classic.world s'))
   = Some (Some (if p then "Play autoplay" else "Pause autoplay")%string)) ∧
  (Optimized.step plain_cfg EMouseEnter
     (optimized_mounted plain_cfg (sample_world three_links 3 ""))
   = optimized_mounted plain_cfg (sample_world three_links 3 "") ∧
   Optimized.step plain_cfg EMouseLeave
     (optimized_mounted plain_cfg (sample_world three_links 3 ""))
   = optimized_mounted plain_cfg (sample_world three_links 3 "")).
Proof.
  split.
  - refine (proj1 (proj2 (proj2 (proj1 (pause_controls autoplay_cfg) _ _)))
              None _ _).
    + apply classic_run_reachable, classic_sample_reachable.
    + reflexivity.
    + vm_compute. reflexivity.
  - refine (proj1 (proj2 (proj2 (pause_controls plain_cfg) _ _)) _).
    + apply optimized_sample_reachable.
    + reflexivity.
Defined.

Section Keyboard.
Variable cfg : Config.

(** The listeners a key pressed on the overlay of link [i] meets. *)
Lemma table_key_path d i :
  (filter (λ l, listens (TOverlay i) Keydown l = true) (classic_listeners cfg d)
   = match tabLinks d !! i with
     | Some l => if present (overlay l)
                 then [mkListener (TOverlay i) Keydown (HKeydownNav i)] else []
     | None => []
     end ∧
   filter (λ l, listens TComponent Keydown l = true) (classic_listeners cfg d) = []) ∧
  (filter (λ l, listens (TOverlay i) Keydown l = true) (optimized_listeners cfg d)
   = match tabLinks d !! i with
     | Some l => if present (overlay l)
                 then [mkListener (TOverlay i) Keydown (HKeydownNav i)] else []
     | None => []
     end ∧
   filter (λ l, listens TComponent Keydown l = true) (optimized_listeners cfg d) = []).
Proof.
  unfold classic_listeners, optimized_listeners.
  rewrite !filter_app, !filter_link_listeners.
  rewrite !filter_link_listeners_other by done.
  unfold dropdown_listeners, autoplay_listeners.
  destruct (isMobileDropdown cfg), (present (dropdownToggle d)),
    (autoplayEnabled cfg), (autoplayHoverPause cfg), (present (toggleButton d));
    cbn; rewrite ?app_nil_r; done.
Qed.

Lemma classic_key_dispatch i key s :
  Classic.reachable cfg s → key ≠ "Escape"%string →
  Classic.step cfg (EKeydownTab i key) s
  = match Classic.links s !! i with
    | Some l => if present (overlay l) then Classic.keydownHandler cfg key s else s
    | None => s
    end.
Proof.
  intros Hr Hk. pose proof (classic_reachable_listeners cfg s Hr) as Hl.
  unfold Classic.step, EventLoop.step. cbn [dom_event].
  destruct s as [v w]. cbn [Classic.world Classic.with_world Classic.vars] in *.
  change (env_event (EKeydownTab i key) w) with w. rewrite Hl.
  destruct (proj1 (table_key_path (dom w) i)) as (T1 & T2).
  destruct (proj1 (table_keydown_path cfg (dom w))) as (T3 & T4).
  cbn [EventLoop.run_path]. unfold EventLoop.run_target.
  rewrite T1, T2, T3, T4. unfold Classic.links. cbn [Classic.world].
  assert (bool_decide (key = "Escape"%string) = false) as Hne
    by (by apply bool_decide_eq_false).
  destruct (tabLinks (dom w) !! i) as [l|]; cbn [foldl fst snd];
    [destruct (present (overlay l)); cbn [foldl fst snd orb stops_propagation
                                           l_handler Classic.run_handler]|];
    destruct (isMobileDropdown cfg && present (dropdownToggle (dom w)));
    cbn [foldl fst snd orb stops_propagation l_handler Classic.run_handler
         ev_key]; rewrite ?Hne; reflexivity.
Qed.

Lemma optimized_key_dispatch i key s :
  Optimized.reachable cfg s → key ≠ "Escape"%string →
  Optimized.step cfg (EKeydownTab i key) s
  = match Optimized.tabLinksArray s !! i with
    | Some l => if present (overlay l) then Optimized.keydownHandler cfg key s else s
    | None => s
    end.
Proof.
  intros Hr Hk. pose proof (optimized_reachable_listeners cfg s Hr) as Hl.
  unfold Optimized.step, EventLoop.step. cbn [dom_event].
  destruct s as [v w]. cbn [Optimized.world Optimized.with_world Optimized.vars] in *.
  change (env_event (EKeydownTab i key) w) with w. rewrite Hl.
  destruct (proj2 (table_key_path (dom w) i)) as (T1 & T2).
  destruct (proj2 (table_keydown_path cfg (dom w))) as (T3 & T4).
  cbn [EventLoop.run_path]. unfold EventLoop.run_target.
  rewrite T1, T2, T3, T4. unfold Optimized.tabLinksArray. cbn [Optimized.world].
  assert (bool_decide (key = "Escape"%string) = false) as Hne
    by (by apply bool_decide_eq_false).
  destruct (tabLinks (dom w) !! i) as [l|]; cbn [foldl fst snd];
    [destruct (present (overlay l)); cbn [foldl fst snd orb stops_propagation
                                           l_handler Optimized.run_handler]|];
    destruct (isMobileDropdown cfg && present (dropdownToggle (dom w)));
    cbn [foldl fst snd orb stops_propagation l_handler Optimized.run_handler
         ev_key]; rewrite ?Hne; reflexivity.
Qed.

Lemma classic_keydown_other key s :
  key ∉ ["ArrowLeft"; "ArrowRight"; "Home"; "End"]%string →
  Classic.keydownHandler cfg key s = s.
Proof.
  rewrite !not_elem_of_cons. intros (? & ? & ? & ? & _).
  unfold Classic.keydownHandler. cbv zeta. by rewrite !decide_False.
Qed.

Lemma optimized_keydown_other key s :
  key ∉ ["ArrowLeft"; "ArrowRight"; "Home"; "End"]%string →
  Optimized.keydownHandler cfg key s = s.
Proof.
  rewrite !not_elem_of_cons. intros (? & ? & ? & ? & _).
  unfold Optimized.keydownHandler. cbv zeta. by rewrite !decide_False.
Qed.

(** After a navigation key the focus is where the selection is. *)
Lemma classic_keydown_focus key s :
  key ∈ ["ArrowLeft"; "ArrowRight"; "Home"; "End"]%string →
  0 ≤ Classic.currentActiveIndex (Classic.vars s)
    < Z.of_nat (length (Classic.links s)) →
  let s' := Classic.keydownHandler cfg key s in
  let cur' := Z.to_nat (Classic.currentActiveIndex (Classic.vars s')) in
  ∀ l o, Classic.links s' !! cur' = Some l → overlay l = Some o →
         last (effects (Classic.world s')) = Some (Focus (TOverlay cur')).
Proof.
  intros Hkey Hc.
  assert (∀ j, 0 ≤ j < Z.of_nat (length (Classic.links s)) →
            let s1 := Classic.setActiveTab cfg j
                        (Classic.with_world (emit PreventDefault) s) in
            let s' := match Classic.links s1 !! Z.to_nat j with
                      | Some link =>
                          match overlay link with
                          | Some _ => Classic.with_world
                                        (emit (Focus (TOverlay (Z.to_nat j)))) s1
                          | None => s1
                          end
                      | None => s1
                      end in
            let cur' := Z.to_nat (Classic.currentActiveIndex (Classic.vars s')) in
            ∀ l o, Classic.links s' !! cur' = Some l → overlay l = Some o →
                   last (effects (Classic.world s')) = Some (Focus (TOverlay cur')))
    as Hgo.
  { intros j Hj s1 s' cur' l o. subst cur' s'.
    assert (Classic.currentActiveIndex (Classic.vars s1) = j) as Hidx
      by (by apply classic_setActiveTab_index).
    destruct (Classic.links s1 !! Z.to_nat j) as [link|] eqn:El.
    - destruct (overlay link) eqn:Eo.
      + intros _ _. cbn. rewrite Hidx. by rewrite last_snoc.
      + rewrite Hidx, El. intros [= <-]. by rewrite Eo.
    - rewrite Hidx, El. done. }
  unfold Classic.keydownHandler. cbv zeta.
  set (n := Z.of_nat (length (Classic.links s))) in *.
  repeat (apply elem_of_cons in Hkey as [->|Hkey]);
    [..|by apply elem_of_nil in Hkey]; cbn [decide]; repeat case_decide; try done;
    apply Hgo; repeat case_bool_decide; lia.
Qed.

Lemma optimized_keydown_focus key s :
  key ∈ ["ArrowLeft"; "ArrowRight"; "Home"; "End"]%string →
  0 ≤ Optimized.currentActiveIndex (Optimized.vars s)
    < Z.of_nat (length (Optimized.tabLinksArray s)) →
  let s' := Optimized.keydownHandler cfg key s in
  let cur' := Z.to_nat (Optimized.currentActiveIndex (Optimized.vars s')) in
  ∀ l o, Optimized.tabLinksArray s' !! cur' = Some l → overlay l = Some o →
         last (effects (Optimized.world s')) = Some (Focus (TOverlay cur')).
Proof.
  intros Hkey Hc.
  assert (∀ j, 0 ≤ j < Z.of_nat (length (Optimized.tabLinksArray s)) →
            let s1 := Optimized.setActiveTab cfg j
                        (Optimized.with_world (emit PreventDefault) s) in
            let s' := match Optimized.tabLinksArray s1 !! Z.to_nat j with
                      | Some link =>
                          match overlay link with
                          | Some _ => Optimized.with_world
                                        (emit (Focus (TOverlay (Z.to_nat j)))) s1
                          | None => s1
                          end
                      | None => s1
                      end in
            let cur' := Z.to_nat (Optimized.currentActiveIndex (Optimized.vars s')) in
            ∀ l o, Optimized.tabLinksArray s' !! cur' = Some l → overlay l = Some o →
                   last (effects (Optimized.world s')) = Some (Focus (TOverlay cur')))
    as Hgo.
  { intros j Hj s1 s' cur' l o. subst cur' s'.
    assert (Optimized.currentActiveIndex (Optimized.vars s1) = j) as Hidx
      by (by apply optimized_setActiveTab_index).
    destruct (Optimized.tabLinksArray s1 !! Z.to_nat j) as [link|] eqn:El.
    - destruct (overlay link) eqn:Eo.
      + intros _ _. cbn. rewrite Hidx. by rewrite last_snoc.
      + rewrite Hidx, El. intros [= <-]. by rewrite Eo.
    - rewrite Hidx, El. done. }
  unfold Optimized.keydownHandler. cbv zeta.
  set (n := Z.of_nat (length (Optimized.tabLinksArray s))) in *.
  repeat (apply elem_of_cons in Hkey as [->|Hkey]);
    [..|by apply elem_of_nil in Hkey]; cbn [decide]; repeat case_decide; try done;
    apply Hgo; repeat case_bool_decide; lia.
Qed.
End Keyboard.

(** X18. Keys pressed on a tab.  In every reachable state a key other than
    Escape pressed on the overlay of a link runs the keydown listener of that
    link, once, and no other callback.  ArrowLeft, ArrowRight, Home and End
    then leave the focus on the overlay of the newly active link (the last
    call logged is the [focus()] on it); any other key changes nothing, and
    in particular its default action is not prevented. *)
Theorem keys_on_a_tab (cfg : Config) (i : nat) (key : string) :
  (∀ s l o, Classic.reachable cfg s →
     Classic.links s !! i = Some l → overlay l = Some o →
     key ∈ ["ArrowLeft"; "ArrowRight"; "Home"; "End"]%string →
     let s' := Classic.step cfg (EKeydownTab i key) s in
     let cur' := Z.to_nat (Classic.currentActiveIndex (Classic.vars s')) in
     s' = Classic.keydownHandler cfg key s ∧
     (∀ l' o', Classic.links s' !! cur' = Some l' → overlay l' = Some o' →
               last (effects (Classic.world s')) = Some (Focus (TOverlay cur')))) ∧
  (∀ s, Classic.reachable cfg s →
     key ∉ ["ArrowLeft"; "ArrowRight"; "Home"; "End"; "Escape"]%string →
     Classic.step cfg (EKeydownTab i key) s = s) ∧
  (∀ s l o, Optimized.reachable cfg s →
     Optimized.tabLinksArray s !! i = Some l → overlay l = Some o →
     key ∈ ["ArrowLeft"; "ArrowRight"; "Home"; "End"]%string →
     let s' := Optimized.step cfg (EKeydownTab i key) s in
     let cur' := Z.to_nat (Optimized.currentActiveIndex (Optimized.vars s')) in
     s' = Optimized.keydownHandler cfg key s ∧
     (∀ l' o', Optimized.tabLinksArray s' !! cur' = Some l' → overlay l' = Some o' →
               last (effects (Optimized.world s')) = Some (Focus (TOverlay cur')))) ∧
  (∀ s, Optimized.reachable cfg s →
     key ∉ ["ArrowLeft"; "ArrowRight"; "Home"; "End"; "Escape"]%string →
     Optimized.step cfg (EKeydownTab i key) s = s).
Proof.
  assert (key ∈ ["ArrowLeft"; "ArrowRight"; "Home"; "End"]%string →
          key ≠ "Escape"%string) as Hnav.
  { intros Hk ->. repeat (apply elem_of_cons in Hk as [Hk|Hk]; [done|]).
    by apply elem_of_nil in Hk. }
  assert (key ∉ ["ArrowLeft"; "ArrowRight"; "Home"; "End"; "Escape"]%string →
          (key ∉ ["ArrowLeft"; "ArrowRight"; "Home"; "End"]%string) ∧
          key ≠ "Escape"%string) as Hother.
  { rewrite !not_elem_of_cons. tauto. }
  split; [|split; [|split]].
  - intros s l o Hr Hl Ho Hk. cbv zeta.
    rewrite (classic_key_dispatch cfg i key s Hr (Hnav Hk)), Hl, Ho. cbn [present].
    split; [done|]. apply (classic_keydown_focus cfg key s Hk).
    apply (c_index _ (classic_reachable_inv cfg s Hr)).
  - intros s Hr Hk. destruct (Hother Hk) as [Hk1 Hk2].
    rewrite (classic_key_dispatch cfg i key s Hr Hk2).
    rewrite classic_keydown_other by done. by repeat case_match.
  - intros s l o Hr Hl Ho Hk. cbv zeta.
    rewrite (optimized_key_dispatch cfg i key s Hr (Hnav Hk)), Hl, Ho. cbn [present].
    split; [done|]. apply (optimized_keydown_focus cfg key s Hk).
    apply (o_index _ (optimized_reachable_inv cfg s Hr)).
  - intros s Hr Hk. destruct (Hother Hk) as [Hk1 Hk2].
    rewrite (optimized_key_dispatch cfg i key s Hr Hk2).
    rewrite optimized_keydown_other by done. by repeat case_match.
Qed.

Lemma keys_on_a_tab_witness :
  Classic.step plain_cfg (EKeydownTab 1 "ArrowRight")
    (classic_mounted plain_cfg (sample_world three_links 3 ""))
  = Classic.keydownHandler plain_cfg "ArrowRight"
      (classic_mounted plain_cfg (sample_world three_links 3 "")) ∧
  Optimized.step mobile_cfg (EKeydownTab 0 "Tab")
    (optimized_mounted mobile_cfg (sample_world three_links 3 ""))
  = optimized_mounted mobile_cfg (sample_world three_links 3 "").
Proof.
  split.
  - refine (proj1 (proj1 (keys_on_a_tab plain_cfg 1 "ArrowRight") _ _ _ _ _ _ _)).
    + apply classic_sample_reachable.
    + vm_compute. reflexivity.
    + reflexivity.
    + apply elem_of_cons. right. apply elem_of_cons. by left.
  - refine (proj2 (proj2 (proj2 (keys_on_a_tab mobile_cfg 0 "Tab"))) _ _ _).
    + apply optimized_sample_reachable.
    + intros Hk. repeat (apply elem_of_cons in Hk as [Hk|Hk]; [discriminate Hk|]).
      by apply elem_of_nil in Hk.
Defined.

(** * The label of the mobile dropdown *)

Lemma writeLink_label index i l :
  label_of (ClassicStages.writeLink index i l) = label_of l.
Proof.
  unfold ClassicStages.writeLink. destruct l as [id nm tx se ac ov pr ol ow].
  by destruct ov.
Qed.

Lemma written_label index (links : list TabLink) k :
  label_of <$> imap (ClassicStages.writeLink index) links !! k
  = label_of <$> links !! k.
Proof.
  rewrite list_lookup_imap. destruct (links !! k) as [l|]; [|done].
  cbn. by rewrite writeLink_label.
Qed.

Lemma classic_register_tabs l s :
  classic_tabs (Classic.register l s) = classic_tabs s.
Proof. reflexivity. Qed.

Lemma optimized_register_tabs l s :
  optimized_tabs (Optimized.register l s) = optimized_tabs s.
Proof. reflexivity. Qed.

Lemma label_ok_tabs (t t' : Z * list TabLink * list TabPane) d d' :
  t' = t →
  dropdownToggle d' ≫= dropdownText = dropdownToggle d ≫= dropdownText →
  dropdown_label_ok t.1.1 t.1.2 d → dropdown_label_ok t'.1.1 t'.1.2 d'.
Proof. intros -> Ht. unfold dropdown_label_ok. by rewrite Ht. Qed.

Section LabelClassic.
Variable cfg : Config.
Hypothesis mobile : isMobileDropdown cfg = true.

Lemma classic_dropdown_text s :
  dropdownToggle (dom (Classic.world (Classic.closeDropdown s))) ≫= dropdownText
  = dropdownToggle (dom (Classic.world s)) ≫= dropdownText ∧
  dropdownToggle (dom (Classic.world (Classic.openDropdown s))) ≫= dropdownText
  = dropdownToggle (dom (Classic.world s)) ≫= dropdownText ∧
  dropdownToggle (dom (Classic.world (Classic.toggleDropdown s))) ≫= dropdownText
  = dropdownToggle (dom (Classic.world s)) ≫= dropdownText.
Proof.
  unfold Classic.toggleDropdown, Classic.closeDropdown, Classic.openDropdown.
  destruct (dropdownToggle (dom (Classic.world s))) as [t|] eqn:Et;
    destruct (menu_cc_open (dom (Classic.world s))); cbn; rewrite ?Et; done.
Qed.

Lemma classic_writeDropdownText_text index s :
  is_Some (Classic.links s !! Z.to_nat index) →
  dropdownToggle (dom (Classic.world (ClassicStages.writeDropdownText cfg index s)))
    ≫= dropdownText
  = (dropdownToggle (dom (Classic.world s)) ≫= dropdownText)
      ≫= (λ _, label_of <$> Classic.links s !! Z.to_nat index).
Proof.
  intros [link El]. unfold ClassicStages.writeDropdownText. rewrite mobile, El.
  destruct (dropdownToggle (dom (Classic.world s))) as [t|] eqn:Et;
    [|cbn; by rewrite Et].
  destruct (dropdownText t) eqn:Ex; cbn; rewrite ?Et; cbn; by rewrite ?Ex.
Qed.

(** What [setActiveTab] leaves of the label, for an index in range. *)
Lemma classic_setActiveTab_text index s :
  0 ≤ index < Z.of_nat (length (Classic.links s)) →
  dropdownToggle (dom (Classic.world (Classic.setActiveTab cfg index s)))
    ≫= dropdownText
  = (dropdownToggle (dom (Classic.world s)) ≫= dropdownText)
      ≫= (λ _, label_of <$> Classic.links s !! Z.to_nat index).
Proof.
  intros Hi. rewrite classic_setActiveTab_stages.
  pose proof Hi as Hi'. apply classic_outOfRange_false in Hi' as ->.
  rewrite classic_afterSwitch_dom. unfold ClassicStages.activate.
  rewrite classic_scrollActive_dom.
  set (s1 := Classic.with_vars (Classic.set_currentActiveIndex index)
               (ClassicStages.writePanes index (ClassicStages.writeLinks index s))).
  assert (Classic.links s1 = imap (ClassicStages.writeLink index) (Classic.links s))
    as Hl by done.
  assert (dropdownToggle (dom (Classic.world s1))
          = dropdownToggle (dom (Classic.world s))) as Ht by done.
  assert (is_Some (Classic.links s1 !! Z.to_nat index)) as Hsome.
  { apply lookup_lt_is_Some. rewrite Hl, length_imap. lia. }
  pose proof (classic_writeDropdownText_text index s1 Hsome) as H2.
  rewrite Hl, Ht, written_label in H2.
  revert H2. generalize (ClassicStages.writeDropdownText cfg index s1) as s2.
  intros s2 H2. rewrite <- H2. unfold ClassicStages.closeIfOpen.
  destruct (dropdownToggle (dom (Classic.world s2))) eqn:E2; [|by rewrite E2].
  destruct (menu_cc_open (dom (Classic.world s2))); [|by rewrite E2].
  rewrite (proj1 (classic_dropdown_text s2)). by rewrite E2.
Qed.

Lemma classic_setActiveTab_label index s :
  dropdown_label_ok (Classic.currentActiveIndex (Classic.vars s)) (Classic.links s)
                    (dom (Classic.world s)) →
  let s' := Classic.setActiveTab cfg index s in
  dropdown_label_ok (Classic.currentActiveIndex (Classic.vars s')) (Classic.links s')
                    (dom (Classic.world s')).
Proof.
  intros Hok. cbv zeta.
  destruct (decide (0 ≤ index < Z.of_nat (length (Classic.links s)))) as [Hi|Hi];
    [|by rewrite classic_setActiveTab_invalid].
  unfold dropdown_label_ok.
  rewrite classic_setActiveTab_index, classic_setActiveTab_links,
    classic_setActiveTab_text by done.
  intros txt. rewrite written_label.
  destruct (dropdownToggle (dom (Classic.world s)) ≫= dropdownText); [|done].
  done.
Qed.

Lemma classic_start_dom s :
  dom (Classic.world (Classic.startAutoplay cfg s)) = dom (Classic.world s).
Proof.
  cdestruct s. unfold Classic.startAutoplay, Classic.stopAutoplay.
  destruct (autoplayEnabled cfg), pa, tm; reflexivity.
Qed.

Lemma classic_pause_toggle s :
  dropdownToggle (dom (Classic.world (Classic.pauseAutoplay cfg s)))
  = dropdownToggle (dom (Classic.world s)).
Proof.
  destruct (autoplayEnabled cfg) eqn:En;
    [|unfold Classic.pauseAutoplay; by rewrite En].
  cdestruct s. destruct d as [lk pn mo dt tb pc].
  by rewrite classic_pause_explicit.
Qed.

Lemma classic_resume_toggle s :
  dropdownToggle (dom (Classic.world (Classic.resumeAutoplay cfg s)))
  = dropdownToggle (dom (Classic.world s)).
Proof.
  unfold Classic.resumeAutoplay, Classic.updateToggleButton.
  destruct (autoplayEnabled cfg); [|done]. cbn [negb]. cbv zeta.
  set (s1 := Classic.with_world _ _).
  pose proof (classic_start_dom s1) as Hd.
  revert Hd. generalize (Classic.startAutoplay cfg s1) as s2. intros s2 Hd.
  destruct (toggleButton (dom (Classic.world s2))); cbn; by rewrite Hd.
Qed.

(** The callbacks that leave the tabs and the text of the toggle. *)
Lemma classic_label_kept s s' :
  classic_tabs s' = classic_tabs s →
  dropdownToggle (dom (Classic.world s')) ≫= dropdownText
  = dropdownToggle (dom (Classic.world s)) ≫= dropdownText →
  dropdown_label_ok (Classic.currentActiveIndex (Classic.vars s)) (Classic.links s)
                    (dom (Classic.world s)) →
  dropdown_label_ok (Classic.currentActiveIndex (Classic.vars s')) (Classic.links s')
                    (dom (Classic.world s')).
Proof. intros Ht Hx. by apply (label_ok_tabs (classic_tabs s) (classic_tabs s')). Qed.

Lemma classic_handler_label h d s :
  dropdown_label_ok (Classic.currentActiveIndex (Classic.vars s)) (Classic.links s)
                    (dom (Classic.world s)) →
  let s' := Classic.run_handler cfg h d s in
  dropdown_label_ok (Classic.currentActiveIndex (Classic.vars s')) (Classic.links s')
                    (dom (Classic.world s')).
Proof.
  intros Hok. cbv zeta.
  destruct (classic_dropdown_tabs s) as (Dc & Do & Dt).
  destruct (classic_dropdown_text s) as (Xc & Xo & Xt).
  destruct h as [| | | | | |i|index| |]; cbn [Classic.run_handler].
  - apply (classic_label_kept s); [| |done].
    + apply (proj2 (proj2 (classic_dropdown_tabs
                             (Classic.with_world (emit StopPropagation) s)))).
    + apply (proj2 (proj2 (classic_dropdown_text
                             (Classic.with_world (emit StopPropagation) s)))).
  - case_match; [done|]. by apply (classic_label_kept s).
  - case_match; [|done].
    apply (classic_label_kept s); [exact Dc|exact Xc|done].
  - apply (classic_label_kept s); [apply classic_pause_tabs| |done].
    by rewrite classic_pause_toggle.
  - apply (classic_label_kept s); [apply classic_resume_tabs| |done].
    by rewrite classic_resume_toggle.
  - case_match.
    + apply (classic_label_kept s); [apply classic_resume_tabs| |done].
      by rewrite classic_resume_toggle.
    + apply (classic_label_kept s); [apply classic_pause_tabs| |done].
      by rewrite classic_pause_toggle.
  - destruct (classic_keydown_cases cfg (ev_key d) s) as [->|(j & [->|(e & ->)])];
      [done|..];
      by apply (classic_setActiveTab_label j
                  (Classic.with_world (emit PreventDefault) s)).
  - destruct (classic_click_cases cfg index s) as [->|(e & ->)];
      by apply (classic_setActiveTab_label (Z.of_nat index)
                  (Classic.with_world (emit PreventDefault) s)).
  - done.
  - case_match; [|done]. by apply classic_setActiveTab_label.
Qed.

Lemma classic_step_label e s :
  dropdown_label_ok (Classic.currentActiveIndex (Classic.vars s)) (Classic.links s)
                    (dom (Classic.world s)) →
  let s' := Classic.step cfg e s in
  dropdown_label_ok (Classic.currentActiveIndex (Classic.vars s')) (Classic.links s')
                    (dom (Classic.world s')).
Proof.
  apply (step_keeps Classic.world Classic.with_world _ _ _
           (λ s, dropdown_label_ok (Classic.currentActiveIndex (Classic.vars s))
                   (Classic.links s) (dom (Classic.world s)))).
  - intros h d s' Hs. by apply classic_handler_label.
  - intros e' s' Hs. by destruct e'.
  - intros es s'. unfold Classic.observerCallback. revert s'.
    induction es as [|b es IH]; intros s' Hs; cbn [foldl]; [done|].
    apply IH. destruct b.
    + apply (classic_label_kept s'); [apply classic_resume_tabs| |done].
      by rewrite classic_resume_toggle.
    + apply (classic_label_kept s'); [apply classic_pause_tabs| |done].
      by rewrite classic_pause_toggle.
  - intros k t s' Hs _. destruct k; cbn [Classic.run_timer]; [|done].
    by apply classic_setActiveTab_label.
Qed.

Lemma classic_mounted_label w s :
  Classic.initTabsComponent cfg w = Some s →
  dropdown_label_ok (Classic.currentActiveIndex (Classic.vars s)) (Classic.links s)
                    (dom (Classic.world s)).
Proof.
  unfold Classic.initTabsComponent. intros Hm.
  destruct (bool_decide (tabLinks (dom w) = []) || bool_decide (tabPanes (dom w) = []))
    eqn:E; [done|].
  apply orb_false_elim in E as [E _]. apply bool_decide_eq_false in E.
  injection Hm as <-. unfold Classic.init.
  fold (classic_presetup cfg (Classic.mkState Classic.initialVars w)).
  destruct (classic_presetup_links cfg (Classic.mkState Classic.initialVars w))
    as [Hl He].
  generalize dependent (classic_presetup cfg (Classic.mkState Classic.initialVars w)).
  intros s1 Hl He.
  pose proof (classic_findInitial_range s1) as Hr. rewrite Hl in Hr.
  specialize (Hr E). rewrite <- Hl in Hr.
  set (s2 := Classic.setActiveTab cfg (Classic.findInitialActiveIndex s1) s1).
  assert (dropdown_label_ok (Classic.currentActiveIndex (Classic.vars s2))
            (Classic.links s2) (dom (Classic.world s2))) as H2.
  { subst s2. unfold dropdown_label_ok.
    rewrite classic_setActiveTab_index, classic_setActiveTab_links,
      classic_setActiveTab_text by done.
    intros txt. rewrite written_label.
    by destruct (dropdownToggle (dom (Classic.world s1)) ≫= dropdownText). }
  unfold Classic.setupClickHandlers, Classic.setupKeyboardNav.
  set (s4 := Classic.setupPerLink Keydown HKeydownNav
               (Classic.setupPerLink Click HClickTab s2)).
  assert (classic_tabs s4 = classic_tabs s2) as T4
    by (subst s4; by rewrite !classic_setupPerLink_tabs).
  assert (dom (Classic.world s4) = dom (Classic.world s2)) as D4.
  { subst s4.
    rewrite (proj2 (classic_setupPerLink_listeners Keydown HKeydownNav _)).
    by rewrite (proj2 (classic_setupPerLink_listeners Click HClickTab _)). }
  set (s5 := if autoplayEnabled cfg then Classic.startAutoplay cfg s4 else s4).
  assert (classic_tabs s5 = classic_tabs s4 ∧
          dom (Classic.world s5) = dom (Classic.world s4)) as [T5 D5].
  { subst s5. destruct (autoplayEnabled cfg); [|done].
    split; [apply classic_start_tabs|apply classic_start_dom]. }
  destruct (classic_register_listeners
              (mkListener TWindow HashChange HHashChange) s5) as [_ D6].
  apply (classic_label_kept s2); [| |exact H2].
  - by rewrite classic_register_tabs, T5.
  - by rewrite D6, D5, D4.
Qed.
End LabelClassic.

Section LabelOptimized.
Variable cfg : Config.
Hypothesis mobile : isMobileDropdown cfg = true.

Lemma optimized_dropdown_text s :
  dropdownToggle (dom (Optimized.world (Optimized.closeDropdown s))) ≫= dropdownText
  = dropdownToggle (dom (Optimized.world s)) ≫= dropdownText ∧
  dropdownToggle (dom (Optimized.world (Optimized.openDropdown s))) ≫= dropdownText
  = dropdownToggle (dom (Optimized.world s)) ≫= dropdownText ∧
  dropdownToggle (dom (Optimized.world (Optimized.toggleDropdown s))) ≫= dropdownText
  = dropdownToggle (dom (Optimized.world s)) ≫= dropdownText.
Proof.
  unfold Optimized.toggleDropdown, Optimized.closeDropdown, Optimized.openDropdown.
  destruct (dropdownToggle (dom (Optimized.world s))) as [t|] eqn:Et;
    destruct (menu_cc_open (dom (Optimized.world s))); cbn; rewrite ?Et; done.
Qed.

Lemma optimized_writeDropdownText_text index s :
  is_Some (Optimized.tabLinksArray s !! Z.to_nat index) →
  dropdownToggle (dom (Optimized.world (OptimizedStages.writeDropdownText cfg index s)))
    ≫= dropdownText
  = (dropdownToggle (dom (Optimized.world s)) ≫= dropdownText)
      ≫= (λ _, label_of <$> Optimized.tabLinksArray s !! Z.to_nat index).
Proof.
  intros [link El]. unfold OptimizedStages.writeDropdownText. rewrite mobile, El.
  destruct (dropdownToggle (dom (Optimized.world s))) as [t|] eqn:Et;
    [|cbn; by rewrite Et].
  destruct (dropdownText t) eqn:Ex; cbn; rewrite ?Et; cbn; by rewrite ?Ex.
Qed.

(** What [setActiveTab] leaves of the label, for an index in range. *)
Lemma optimized_setActiveTab_text index s :
  0 ≤ index < Z.of_nat (length (Optimized.tabLinksArray s)) →
  dropdownToggle (dom (Optimized.world (Optimized.setActiveTab cfg index s)))
    ≫= dropdownText
  = (dropdownToggle (dom (Optimized.world s)) ≫= dropdownText)
      ≫= (λ _, label_of <$> Optimized.tabLinksArray s !! Z.to_nat index).
Proof.
  intros Hi. rewrite optimized_setActiveTab_stages.
  pose proof Hi as Hi'. apply optimized_outOfRange_false in Hi' as ->.
  rewrite optimized_afterSwitch_dom. unfold OptimizedStages.activate.
  rewrite optimized_scrollActive_dom.
  set (s1 := Optimized.with_vars (Optimized.set_currentActiveIndex index)
               (OptimizedStages.writePanes index (OptimizedStages.writeLinks index s))).
  assert (Optimized.tabLinksArray s1
          = imap (ClassicStages.writeLink index) (Optimized.tabLinksArray s))
    as Hl by apply writeLinks_phases.
  assert (dropdownToggle (dom (Optimized.world s1))
          = dropdownToggle (dom (Optimized.world s))) as Ht by done.
  assert (is_Some (Optimized.tabLinksArray s1 !! Z.to_nat index)) as Hsome.
  { apply lookup_lt_is_Some. rewrite Hl, length_imap. lia. }
  pose proof (optimized_writeDropdownText_text index s1 Hsome) as H2.
  rewrite Hl, Ht, written_label in H2.
  revert H2. generalize (OptimizedStages.writeDropdownText cfg index s1) as s2.
  intros s2 H2. rewrite <- H2. unfold OptimizedStages.closeIfOpen.
  destruct (dropdownToggle (dom (Optimized.world s2))) eqn:E2; [|by rewrite E2].
  destruct (menu_cc_open (dom (Optimized.world s2))); [|by rewrite E2].
  rewrite (proj1 (optimized_dropdown_text s2)). by rewrite E2.
Qed.

Lemma optimized_setActiveTab_label index s :
  dropdown_label_ok (Optimized.currentActiveIndex (Optimized.vars s)) (Optimized.tabLinksArray s)
                    (dom (Optimized.world s)) →
  let s' := Optimized.setActiveTab cfg index s in
  dropdown_label_ok (Optimized.currentActiveIndex (Optimized.vars s')) (Optimized.tabLinksArray s')
                    (dom (Optimized.world s')).
Proof.
  intros Hok. cbv zeta.
  destruct (decide (0 ≤ index < Z.of_nat (length (Optimized.tabLinksArray s)))) as [Hi|Hi];
    [|by rewrite optimized_setActiveTab_invalid].
  unfold dropdown_label_ok.
  rewrite optimized_setActiveTab_index, optimized_setActiveTab_links,
    optimized_setActiveTab_text by done.
  intros txt. rewrite written_label.
  destruct (dropdownToggle (dom (Optimized.world s)) ≫= dropdownText); [|done].
  done.
Qed.

Lemma optimized_start_dom s :
  dom (Optimized.world (Optimized.startAutoplay cfg s)) = dom (Optimized.world s).
Proof.
  destruct_opt s. unfold Optimized.startAutoplay, Optimized.stopAutoplay.
  destruct (autoplayEnabled cfg), pa, tm; reflexivity.
Qed.

Lemma optimized_pause_toggle s :
  dropdownToggle (dom (Optimized.world (Optimized.pauseAutoplay cfg s)))
  = dropdownToggle (dom (Optimized.world s)).
Proof.
  destruct (autoplayEnabled cfg) eqn:En;
    [|unfold Optimized.pauseAutoplay; by rewrite En].
  destruct_opt s. destruct d as [lk pn mo dt tb pc].
  by rewrite optimized_pause_explicit.
Qed.

Lemma optimized_resume_toggle s :
  dropdownToggle (dom (Optimized.world (Optimized.resumeAutoplay cfg s)))
  = dropdownToggle (dom (Optimized.world s)).
Proof.
  unfold Optimized.resumeAutoplay, Optimized.updateToggleButton.
  destruct (autoplayEnabled cfg); [|done]. cbn [negb]. cbv zeta.
  set (s1 := Optimized.with_world _ _).
  pose proof (optimized_start_dom s1) as Hd.
  revert Hd. generalize (Optimized.startAutoplay cfg s1) as s2. intros s2 Hd.
  destruct (toggleButton (dom (Optimized.world s2))); cbn; by rewrite Hd.
Qed.

(** The callbacks that leave the tabs and the text of the toggle. *)
Lemma optimized_label_kept s s' :
  optimized_tabs s' = optimized_tabs s →
  dropdownToggle (dom (Optimized.world s')) ≫= dropdownText
  = dropdownToggle (dom (Optimized.world s)) ≫= dropdownText →
  dropdown_label_ok (Optimized.currentActiveIndex (Optimized.vars s)) (Optimized.tabLinksArray s)
                    (dom (Optimized.world s)) →
  dropdown_label_ok (Optimized.currentActiveIndex (Optimized.vars s')) (Optimized.tabLinksArray s')
                    (dom (Optimized.world s')).
Proof. intros Ht Hx. by apply (label_ok_tabs (optimized_tabs s) (optimized_tabs s')). Qed.

Lemma optimized_handler_label h d s :
  dropdown_label_ok (Optimized.currentActiveIndex (Optimized.vars s)) (Optimized.tabLinksArray s)
                    (dom (Optimized.world s)) →
  let s' := Optimized.run_handler cfg h d s in
  dropdown_label_ok (Optimized.currentActiveIndex (Optimized.vars s')) (Optimized.tabLinksArray s')
                    (dom (Optimized.world s')).
Proof.
  intros Hok. cbv zeta.
  destruct (optimized_dropdown_tabs s) as (Dc & Do & Dt).
  destruct (optimized_dropdown_text s) as (Xc & Xo & Xt).
  destruct h as [| | | | | |i|index| |]; cbn [Optimized.run_handler].
  - apply (optimized_label_kept s); [| |done].
    + apply (proj2 (proj2 (optimized_dropdown_tabs
                             (Optimized.with_world (emit StopPropagation) s)))).
    + apply (proj2 (proj2 (optimized_dropdown_text
                             (Optimized.with_world (emit StopPropagation) s)))).
  - case_match; [done|]. by apply (optimized_label_kept s).
  - case_match; [|done].
    apply (optimized_label_kept s); [exact Dc|exact Xc|done].
  - apply (optimized_label_kept s); [apply optimized_pause_tabs| |done].
    by rewrite optimized_pause_toggle.
  - apply (optimized_label_kept s); [apply optimized_resume_tabs| |done].
    by rewrite optimized_resume_toggle.
  - case_match.
    + apply (optimized_label_kept s); [apply optimized_resume_tabs| |done].
      by rewrite optimized_resume_toggle.
    + apply (optimized_label_kept s); [apply optimized_pause_tabs| |done].
      by rewrite optimized_pause_toggle.
  - destruct (optimized_keydown_cases cfg (ev_key d) s) as [->|(j & [->|(e & ->)])];
      [done|..];
      by apply (optimized_setActiveTab_label j
                  (Optimized.with_world (emit PreventDefault) s)).
  - destruct (optimized_click_cases cfg index s) as [->|(e & ->)];
      by apply (optimized_setActiveTab_label (Z.of_nat index)
                  (Optimized.with_world (emit PreventDefault) s)).
  - apply (optimized_label_kept s); [apply optimized_resize_tabs| |done].
    unfold Optimized.resizeHandler. by case_match.
  - case_match; [|done]. by apply optimized_setActiveTab_label.
Qed.

Lemma optimized_step_label e s :
  dropdown_label_ok (Optimized.currentActiveIndex (Optimized.vars s)) (Optimized.tabLinksArray s)
                    (dom (Optimized.world s)) →
  let s' := Optimized.step cfg e s in
  dropdown_label_ok (Optimized.currentActiveIndex (Optimized.vars s')) (Optimized.tabLinksArray s')
                    (dom (Optimized.world s')).
Proof.
  apply (step_keeps Optimized.world Optimized.with_world _ _ _
           (λ s, dropdown_label_ok (Optimized.currentActiveIndex (Optimized.vars s))
                   (Optimized.tabLinksArray s) (dom (Optimized.world s)))).
  - intros h d s' Hs. by apply optimized_handler_label.
  - intros e' s' Hs. by destruct e'.
  - intros es s'. unfold Optimized.observerCallback. revert s'.
    induction es as [|b es IH]; intros s' Hs; cbn [foldl]; [done|].
    apply IH. destruct b.
    + apply (optimized_label_kept s'); [apply optimized_resume_tabs| |done].
      by rewrite optimized_resume_toggle.
    + apply (optimized_label_kept s'); [apply optimized_pause_tabs| |done].
      by rewrite optimized_pause_toggle.
  - intros k t s' Hs _. destruct k; cbn [Optimized.run_timer]; [|done].
    by apply optimized_setActiveTab_label.
Qed.

Lemma optimized_mounted_label w s :
  Optimized.initTabsComponent cfg w = Some s →
  dropdown_label_ok (Optimized.currentActiveIndex (Optimized.vars s)) (Optimized.tabLinksArray s)
                    (dom (Optimized.world s)).
Proof.
  unfold Optimized.initTabsComponent. intros Hm.
  destruct (bool_decide (tabLinks (dom w) = []) || bool_decide (tabPanes (dom w) = []))
    eqn:E; [done|].
  apply orb_false_elim in E as [E _]. apply bool_decide_eq_false in E.
  injection Hm as <-. unfold Optimized.init.
  fold (optimized_presetup cfg (Optimized.mkState (Optimized.initialVars w) w)).
  destruct (optimized_presetup_links cfg (Optimized.mkState (Optimized.initialVars w) w))
    as [Hl He].
  generalize dependent (optimized_presetup cfg (Optimized.mkState (Optimized.initialVars w) w)).
  intros s1 Hl He.
  pose proof (optimized_findInitial_range s1) as Hr. rewrite Hl in Hr.
  specialize (Hr E). rewrite <- Hl in Hr.
  set (s2 := Optimized.setActiveTab cfg (Optimized.findInitialActiveIndex s1) s1).
  assert (dropdown_label_ok (Optimized.currentActiveIndex (Optimized.vars s2))
            (Optimized.tabLinksArray s2) (dom (Optimized.world s2))) as H2.
  { subst s2. unfold dropdown_label_ok.
    rewrite optimized_setActiveTab_index, optimized_setActiveTab_links,
      optimized_setActiveTab_text by done.
    intros txt. rewrite written_label.
    by destruct (dropdownToggle (dom (Optimized.world s1)) ≫= dropdownText). }
  unfold Optimized.setupClickHandlers, Optimized.setupKeyboardNav,
    Optimized.setupResizeHandler.
  set (s4 := Optimized.register (mkListener TWindow Resize HResize)
               (Optimized.setupPerLink Keydown HKeydownNav
                  (Optimized.setupPerLink Click HClickTab s2))).
  assert (optimized_tabs s4 = optimized_tabs s2) as T4.
  { subst s4. by rewrite optimized_register_tabs, !optimized_setupPerLink_tabs. }
  assert (dom (Optimized.world s4) = dom (Optimized.world s2)) as D4.
  { subst s4.
    rewrite (proj2 (optimized_register_listeners _ _)).
    rewrite (proj2 (optimized_setupPerLink_listeners Keydown HKeydownNav _)).
    by rewrite (proj2 (optimized_setupPerLink_listeners Click HClickTab _)). }
  set (s5 := if autoplayEnabled cfg then Optimized.startAutoplay cfg s4 else s4).
  assert (optimized_tabs s5 = optimized_tabs s4 ∧
          dom (Optimized.world s5) = dom (Optimized.world s4)) as [T5 D5].
  { subst s5. destruct (autoplayEnabled cfg); [|done].
    split; [apply optimized_start_tabs|apply optimized_start_dom]. }
  destruct (optimized_register_listeners
              (mkListener TWindow HashChange HHashChange) s5) as [_ D6].
  apply (optimized_label_kept s2); [| |exact H2].
  - by rewrite optimized_register_tabs, T5.
  - by rewrite D6, D5, D4.
Qed.
End LabelOptimized.

(** X19. The dropdown label names the active tab.  With the mobile dropdown
    on, in every reachable state the text element of the dropdown toggle
    (when the toggle and its text element exist) shows the
    [data-tab-link-name] of the active link or, when that is missing or
    empty, the link's text. *)
Theorem dropdown_label_names_active_tab (cfg : Config) :
  isMobileDropdown cfg = true →
  (∀ s, Classic.reachable cfg s →
     dropdown_label_ok (Classic.currentActiveIndex (Classic.vars s))
                       (Classic.links s) (dom (Classic.world s))) ∧
  (∀ s, Optimized.reachable cfg s →
     dropdown_label_ok (Optimized.currentActiveIndex (Optimized.vars s))
                       (Optimized.tabLinksArray s) (dom (Optimized.world s))).
Proof.
  intros Hm. split; intros s Hr.
  - induction Hr as [w s Hw Hi|e s _ IH].
    + by eapply classic_mounted_label.
    + by apply classic_step_label.
  - induction Hr as [w s Hw Hi|e s _ IH].
    + by eapply optimized_mounted_label.
    + by apply optimized_step_label.
Qed.

Lemma dropdown_label_names_active_tab_witness :
  (let s := Classic.run mobile_cfg [EClickDropdownToggle; EClickTab 2]
              (classic_mounted mobile_cfg (sample_world three_links 3 "")) in
   dropdown_label_ok (Classic.currentActiveIndex (Classic.vars s))
                     (Classic.links s) (dom (Classic.world s))) ∧
  (let s := Optimized.run mobile_cfg [EHashChange "#intro"; EKeydownTab 0 "End"]
              (optimized_mounted mobile_cfg (sample_world three_links 3 "")) in
   dropdown_label_ok (Optimized.currentActiveIndex (Optimized.vars s))
                     (Optimized.tabLinksArray s) (dom (Optimized.world s))).
Proof.
  split.
  - apply (proj1 (dropdown_label_names_active_tab mobile_cfg eq_refl)).
    apply classic_run_reachable, classic_sample_reachable.
  - apply (proj2 (dropdown_label_names_active_tab mobile_cfg eq_refl)).
    apply optimized_run_reachable, optimized_sample_reachable.
Defined.

Section ToggleClick.
Variable cfg : Config.

Lemma table_toggle_path d :
  filter (λ l, listens TDropdownToggle Click l = true) (classic_listeners cfg d)
  = (if isMobileDropdown cfg && present (dropdownToggle d)
     then [mkListener TDropdownToggle Click HDropdownToggle] else []) ∧
  filter (λ l, listens TDropdownToggle Click l = true) (optimized_listeners cfg d)
  = (if isMobileDropdown cfg && present (dropdownToggle d)
     then [mkListener TDropdownToggle Click HDropdownToggle] else []).
Proof.
  unfold classic_listeners, optimized_listeners.
  rewrite !filter_app, !filter_link_listeners_other by done.
  unfold dropdown_listeners, autoplay_listeners.
  destruct (isMobileDropdown cfg), (present (dropdownToggle d)),
    (autoplayEnabled cfg), (autoplayHoverPause cfg), (present (toggleButton d));
    cbn; done.
Qed.

Lemma classic_toggle_dispatch s :
  Classic.reachable cfg s →
  Classic.step cfg EClickDropdownToggle s
  = if isMobileDropdown cfg && present (dropdownToggle (dom (Classic.world s)))
    then Classic.toggleDropdown (Classic.with_world (emit StopPropagation) s)
    else s.
Proof.
  intros Hr. pose proof (classic_reachable_listeners cfg s Hr) as Hl.
  destruct s as [v w]. cbn [Classic.world Classic.with_world Classic.vars] in *.
  destruct (classic_click_table cfg (dom w) 0) as (_ & T2 & T3 & T4).
  unfold Classic.step, EventLoop.step. cbn [dom_event].
  cbn [Classic.world Classic.with_world Classic.vars].
  change (env_event EClickDropdownToggle w) with w. rewrite Hl.
  cbn [EventLoop.run_path]. unfold EventLoop.run_target.
  rewrite (proj1 (table_toggle_path _)), T2, T3, T4.
  destruct (isMobileDropdown cfg && present (dropdownToggle (dom w))); reflexivity.
Qed.

Lemma optimized_toggle_dispatch s :
  Optimized.reachable cfg s →
  Optimized.step cfg EClickDropdownToggle s
  = if isMobileDropdown cfg && present (dropdownToggle (dom (Optimized.world s)))
    then Optimized.toggleDropdown (Optimized.with_world (emit StopPropagation) s)
    else s.
Proof.
  intros Hr. pose proof (optimized_reachable_listeners cfg s Hr) as Hl.
  destruct s as [v w]. cbn [Optimized.world Optimized.with_world Optimized.vars] in *.
  destruct (optimized_click_table cfg (dom w) 0) as (_ & T2 & T3 & T4).
  unfold Optimized.step, EventLoop.step. cbn [dom_event].
  cbn [Optimized.world Optimized.with_world Optimized.vars].
  change (env_event EClickDropdownToggle w) with w. rewrite Hl.
  cbn [EventLoop.run_path]. unfold EventLoop.run_target.
  rewrite (proj2 (table_toggle_path _)), T2, T3, T4.
  destruct (isMobileDropdown cfg && present (dropdownToggle (dom w))); reflexivity.
Qed.

Lemma classic_toggle_flips s t :
  dropdownToggle (dom (Classic.world s)) = Some t →
  menu_cc_open (dom (Classic.world (Classic.toggleDropdown s)))
  = negb (menu_cc_open (dom (Classic.world s))).
Proof.
  intros Ht. unfold Classic.toggleDropdown, Classic.closeDropdown,
    Classic.openDropdown. rewrite Ht.
  by destruct (menu_cc_open (dom (Classic.world s))).
Qed.

Lemma optimized_toggle_flips s t :
  dropdownToggle (dom (Optimized.world s)) = Some t →
  menu_cc_open (dom (Optimized.world (Optimized.toggleDropdown s)))
  = negb (menu_cc_open (dom (Optimized.world s))).
Proof.
  intros Ht. unfold Optimized.toggleDropdown, Optimized.closeDropdown,
    Optimized.openDropdown. rewrite Ht.
  by destruct (menu_cc_open (dom (Optimized.world s))).
Qed.
End ToggleClick.

(** X20. A click on the dropdown toggle.  With the mobile dropdown on and a
    toggle element, in every reachable state a click on the toggle opens the
    closed menu and closes the open one, and the click goes no further
    ([stopPropagation] is called, so the outside-click listener of the
    document does not run).  With the mobile dropdown off the click does
    nothing. *)
Theorem toggle_click_flips_menu (cfg : Config) :
  (∀ s t, Classic.reachable cfg s →
     isMobileDropdown cfg = true →
     dropdownToggle (dom (Classic.world s)) = Some t →
     let s' := Classic.step cfg EClickDropdownToggle s in
     s' = Classic.toggleDropdown (Classic.with_world (emit StopPropagation) s) ∧
     menu_cc_open (dom (Classic.world s'))
     = negb (menu_cc_open (dom (Classic.world s)))) ∧
  (∀ s, Classic.reachable cfg s → isMobileDropdown cfg = false →
     Classic.step cfg EClickDropdownToggle s = s) ∧
  (∀ s t, Optimized.reachable cfg s →
     isMobileDropdown cfg = true →
     dropdownToggle (dom (Optimized.world s)) = Some t →
     let s' := Optimized.step cfg EClickDropdownToggle s in
     s' = Optimized.toggleDropdown (Optimized.with_world (emit StopPropagation) s) ∧
     menu_cc_open (dom (Optimized.world s'))
     = negb (menu_cc_open (dom (Optimized.world s)))) ∧
  (∀ s, Optimized.reachable cfg s → isMobileDropdown cfg = false →
     Optimized.step cfg EClickDropdownToggle s = s).
Proof.
  split; [|split; [|split]].
  - intros s t Hr Hm Ht. cbv zeta.
    rewrite classic_toggle_dispatch, Hm, Ht by done. cbn [present andb].
    split; [done|].
    by apply (classic_toggle_flips (Classic.with_world (emit StopPropagation) s) t).
  - intros s Hr Hm. by rewrite classic_toggle_dispatch, Hm.
  - intros s t Hr Hm Ht. cbv zeta.
    rewrite optimized_toggle_dispatch, Hm, Ht by done. cbn [present andb].
    split; [done|].
    by apply (optimized_toggle_flips
                (Optimized.with_world (emit StopPropagation) s) t).
  - intros s Hr Hm. by rewrite optimized_toggle_dispatch, Hm.
Qed.

Lemma toggle_click_flips_menu_witness :
  menu_cc_open (dom (Classic.world
    (Classic.step mobile_cfg EClickDropdownToggle
       (classic_mounted mobile_cfg (sample_world three_links 3 "")))))
  = negb (menu_cc_open (dom (Classic.world
      (classic_mounted mobile_cfg (sample_world three_links 3 ""))))) ∧
  Optimized.step plain_cfg EClickDropdownToggle
    (optimized_mounted plain_cfg (sample_world three_links 3 ""))
  = optimized_mounted plain_cfg (sample_world three_links 3 "").
Proof.
  split.
  - refine (proj2 (proj1 (toggle_click_flips_menu mobile_cfg) _ _ _ _ _)).
    + apply classic_sample_reachable.
    + reflexivity.
    + vm_compute. reflexivity.
  - refine (proj2 (proj2 (proj2 (toggle_click_flips_menu plain_cfg))) _ _ _).
    + apply optimized_sample_reachable.
    + reflexivity.
Defined.
